(* ===== verification/_CoqProject ===== *)
-Q . S2P
Prelude.v
CppStd.v
Framing.v
Headers.v
Request.v
Parser.v
ParserLoop.v
Fragmentation.v
ParserSpec.v
RequestType.v
RequestWire.v
ChunkSize.v
Response.v
Encoder.v
EncoderSpec.v
Router.v
App.v
Logger.v
LoggerSpec.v
LogQueue.v
TaskQueue.v
ThreadPool.v
PoolReentry.v
IpLimiter.v
RateLimiter.v
RateLimiterSpec.v
Connection.v
Lifetime.v
Objects.v
EventLoop.v
EventLoopSpec.v
TaskErrors.v
Conversation.v
Admission.v
Loop.v
CloseMark.v
Watch.v
LogGuard.v
Server.v
