(* ===== verification/Prelude.v ===== *)
(** * A verification development for the C++ HTTP/1.1 server

    The program is an epoll server.  Its event loop accepts connections and
    hands read and write events to a pool of 64 workers; a worker drains the
    socket into the connection's buffer, parses requests out of it, asks the
    rate limiter, routes each request to a handler, encodes the response into
    the write buffer and flushes.  This library models those parts as Rocq
    functions and step relations, with the names of the source, and proves what
    makes each of them correct.

    ** Files, and what they model

    - [Prelude]: bytes, sizes, [size_t] wrap-around, counting lemmas, tactics.
      [CppStd]: what the code uses of the C++ library ([tolower], [isspace],
      [find], [substr], [strtoul], [stoull], [to_string], [std::hex]).
    - [Framing]: [Framer] (protocol/Framer.cpp).  [Headers], [Request]: the
      header map and the request (Http/HttpHeaders.cpp, Http/HttpRequest.cpp).
    - [Parser]: [HttpRequestParser] (Http/HttpRequestParser.cpp).  A [cfg] is the
      parser object, the read buffer and the request, all three changed in
      place by the C++ call; [loop_body] is one round of its loop.  On top of it
      [ParserLoop] (runs of the loop), [Fragmentation], [ParserSpec],
      [RequestType], [RequestWire] and [ChunkSize] hold the theorems.
    - [Response], [Encoder], [EncoderSpec]: Http/HttpResponse.cpp and
      Http/HttpResponseEncoder.cpp.  The iteration order of the header map is
      the class [MapOrder].
    - [Router], [App]: Http/HttpRouter.cpp and the handlers of main.cpp.
    - [TaskQueue], [ThreadPool]: concurrency/.  A critical section of the queue
      is a function; the pool is a step relation whose steps are critical
      sections and notifications, spurious wake-ups included.  [PoolReentry] is
      the pool with tasks that submit tasks, as the read task does after 51
      requests; there a schedule is a list of moves that can be run.
    - [IpLimiter], [RateLimiter], [RateLimiterSpec]: middleware/.
    - [Connection]: network/Connection.cpp, and the class [Env] of what a task
      calls outside its critical section (sockets, clock, loop state, limiter),
      with the laws [EnvLaws] that POSIX gives for [send] and [recv] and an
      executable instance [Script].
    - [EventLoop], [EventLoopSpec]: the read and the write task of
      network/EventLoop.cpp.  [TaskErrors]: the read task with handlers that
      throw.  [Conversation]: all the tasks of one connection, from its first
      byte on.  [CloseMark]: the loop's dispatch around those tasks, and what
      becomes of a request to close.
    - [Lifetime]: the [shared_ptr]s to [Connection] objects in the map, in tasks
      and on stacks, the destructor that closes a descriptor, and the kernel
      that gives its number out again.  [Objects]: the same maps as a store with
      operations and laws, on which two more files build:
      [Admission], [handle_accept] and [remove_connection] as threads that
      interleave, with the counters; [Watch], the registration with epoll, which
      every event disarms.  [Loop]: [run], [stop], the idle sweep and clean-up.
    - [Server]: network/TcpServer.cpp, network/SocketUtils.cpp,
      [EventLoop::start] and what [run] leaves open, with the results of the
      system calls given; [main] and its signal handler as a state machine.
    - [Logger], [LoggerSpec]: the entries and formats of Utils/Logger.cpp and a
      JSON reader for its lines.  [LogQueue]: its queue, thread, [init] and
      [stop], as a step relation.  [LogGuard]: Utils/HttpLogGuard.h, and the parse
      loop of [handle_client_read] once more, with its blocks and the objects
      that are destroyed at their ends.

    ** What the theorems show

    - Requests: the verdict does not depend on how a stream is fragmented (as
      long as its lines are below 8 KiB, the limit for an unfinished line);
      printed requests with either body framing are parsed back and the bytes
      of the next request are left alone; sizes stay within 10 MiB whatever
      arrives, and a request that reaches a handler is well typed; the loop
      always ends.
    - Responses: an encoded response is parsed back by the repository's own
      header and body parser, so that it is self-delimiting.
    - Connections: pipelined requests are answered in order; no byte is lost
      between the encoder and the socket; refused input is answered once, and
      the answer sent as far as the socket takes it; no connection is forgotten
      between its events, as long as no [epoll_ctl(ADD)] has failed.  Over all
      its tasks a connection refines a transducer of byte streams: its output is
      the answers to the requests of the stream received, each once and in order.
      Whoever holds a connection holds a live object and its own socket.
    - Concurrency: the ring buffer is a FIFO queue, no wake-up of the pool is
      lost, accepted tasks are begun in order; the admission limits and counters
      hold under every interleaving, as long as no [epoll_ctl(ADD)] has failed
      (its failure path closes a descriptor twice), and the accept loop recovers
      after having been full; shutdown ends exactly when it should.  A pool whose tasks
      submit tasks stands still only idle, stopped, or with all 64 workers asleep
      in [submit] on a full queue.
    - The server: [start] on every outcome of its system calls, which signals
      stop it, and which descriptors are left open when [run] returns.
    - Rate limiting: shards and sweeps refine a flat map; buckets stay within
      bounds whatever the rounding; the rate holds up to the rounding errors,
      which are bounded.
    - Logging: a JSON log line is one line that a strict reader reads back, for
      every entry but those with control characters JSON cannot escape in one
      letter; entries are written in order, and [stop] returns after writing all
      that was queued before it.
    - Behaviours that differ from what the code or its documents intend are
      theorems or lemmas too: conflicting framing headers, bodies on HEAD
      responses, the two line limits, lenient chunk sizes, requests dropped at
      end-of-file, responses dropped when a later handler throws, a request to
      close that is forgotten, a bucket freed in use, the shutdown race, lost
      signals, a listener left open, the capacity overshoot, a deadlock of the
      pool, a descriptor closed under another client and the counters wrong
      after it, a stale event, a log guard that outlives its response.

    ** Modelling choices

    - Bytes are [Init.Byte.byte]; sizes are [Z] with [size_t] wrap-around written
      out where the code can wrap.  [double] is a rational, each operation
      rounded by an abstract [rnd] with the class [Rounding] (monotone, exact on
      integers of 53 bits) and, for the rate, the class [Accurate] (relative and
      absolute error); [id] and a fixed-point rounding are instances.  Times are nanoseconds in [Z].
    - Fuel: [parse] runs with one round more than its measure (two per buffered
      byte, one for the step from chunk data to its CRLF), and [parse_unfold]
      states that this is enough; [chunk_fuel] is one more than the number of
      full chunks; [PROCESS_FUEL] is 51, the round in which the code breaks out;
      [flush] has the length of its buffer.  [drain] alone depends on the peer
      and takes its fuel as an argument.
    - [std::hash] is a parameter; the order of [unordered_map] iteration is
      abstract.  The memory model is sequentially consistent interleaving.

    ** Not modelled

    Exceptions other than those of handlers (failing allocations); the
    destructors of [TcpServer] and [EventLoop], so the order in which their
    members go; a restart of the logger after [stop]; data races on plain
    variables, since the memory model is sequentially consistent; the sockets'
    addresses beyond the text of the client's.  [Conversation] ends with the
    first task that removes the connection: a further task already queued for
    it may still run, which [Lifetime] covers as to ownership only.  [Admission]
    and [Watch] end before [cleanup_all_connections], which is in [Loop]. *)

From Stdlib Require Strings.Byte.
From Stdlib Require Export ZArith Lia.
From stdpp Require Export gmap strings list fin_maps.

(** ** Bytes

    [std::vector<uint8_t>] and [std::string] are both sequences of bytes; the
    code copies one into the other without changing a bit. *)

Abbreviation byte := Corelib.Init.Byte.byte.
Abbreviation bytes := (list byte).

#[export] Instance byte_eq_dec : EqDecision byte := Byte.byte_eq_dec.

#[export] Instance byte_countable : Countable byte :=
  inj_countable Byte.to_N Byte.of_N Byte.of_to_N.

(** The numeric value of a byte, and the byte of a number below 256. *)
Definition byte_val (b : byte) : Z := Z.of_N (Byte.to_N b).
Definition byte_of (n : Z) : byte := default Byte.x00 (Byte.of_N (Z.to_N n)).

(** A string literal of the source. *)
Definition bs (s : string) : bytes := String.list_byte_of_string s.

Declare Scope http_scope.
Delimit Scope http_scope with http.

(** A double quote, and a text between two of them. *)
Notation "'DQUOTE'" := Byte.x22 : http_scope.
Definition quoted (s : string) : bytes := Byte.x22 :: bs s ++ [Byte.x22].

(** [size()] of a vector or a string. *)
Definition zlen {A} (l : list A) : Z := Z.of_nat (length l).

(** [size_t] arithmetic wraps modulo [2^64]. *)
Definition u64 (z : Z) : Z := z mod 2 ^ 64.

Notation "'CR'" := Byte.x0d : http_scope.
Notation "'LF'" := Byte.x0a : http_scope.
Notation "'CRLF'" := (@cons byte Byte.x0d (@cons byte Byte.x0a (@nil byte))) : http_scope.
Notation "'SP'" := Byte.x20 : http_scope.
Notation "'HTAB'" := Byte.x09 : http_scope.
Notation "'COLON'" := Byte.x3a : http_scope.
Notation "'SEMI'" := Byte.x3b : http_scope.
Open Scope http_scope.
Open Scope Z_scope.

(** ** Automation *)

Create HintDb http.
Create Rewrite HintDb http_len.

(** Split every boolean conjunction, negation and decision in the context. *)
Ltac simplify_bools :=
  repeat match goal with
  | H : _ && _ = true |- _ => apply andb_true_iff in H as [? ?]
  | H : _ || _ = false |- _ => apply orb_false_iff in H as [? ?]
  | H : negb _ = true |- _ => apply negb_true_iff in H
  | H : negb _ = false |- _ => apply negb_false_iff in H
  | H : bool_decide _ = true |- _ => apply bool_decide_eq_true in H
  | H : bool_decide _ = false |- _ => apply bool_decide_eq_false in H
  end.

(** Case analysis on the guard of an [if] of the goal, keeping the equation. *)
Ltac split_if :=
  match goal with
  | |- context [if ?c then _ else _] => destruct c eqn:?; simplify_bools
  end.

Ltac split_if_in H :=
  match type of H with
  | context [if ?c then _ else _] => destruct c eqn:?; simplify_bools
  end.

(** ** Lengths *)

Lemma zlen_nonneg {A} (l : list A) : 0 <= zlen l.
Proof. unfold zlen; lia. Qed.

Lemma zlen_nil {A} : zlen (@nil A) = 0.
Proof. done. Qed.

Lemma zlen_cons {A} (x : A) l : zlen (x :: l) = 1 + zlen l.
Proof. unfold zlen; cbn; lia. Qed.

Lemma zlen_app {A} (l k : list A) : zlen (l ++ k) = zlen l + zlen k.
Proof. unfold zlen; rewrite length_app; lia. Qed.

Lemma zlen_take {A} (n : Z) (l : list A) :
  0 <= n <= zlen l -> zlen (take (Z.to_nat n) l) = n.
Proof. unfold zlen; intros; rewrite length_take; lia. Qed.

Lemma zlen_drop {A} (n : Z) (l : list A) :
  0 <= n <= zlen l -> zlen (drop (Z.to_nat n) l) = zlen l - n.
Proof. unfold zlen; intros; rewrite length_drop; lia. Qed.

Lemma zlen_zero_inv {A} (l : list A) : zlen l = 0 -> l = [].
Proof. destruct l; [done|rewrite zlen_cons; pose proof (zlen_nonneg l); lia]. Qed.

Lemma to_nat_zlen {A} (l : list A) : Z.to_nat (zlen l) = length l.
Proof. unfold zlen; lia. Qed.

#[export] Hint Rewrite @zlen_nil @zlen_cons @zlen_app : http_len.
#[export] Hint Resolve zlen_nonneg : http.

(** Turn sizes of concatenations into sums, then decide. *)
Ltac zlen_lia :=
  repeat match goal with
  | l : list _ |- _ =>
      lazymatch goal with
      | _ : 0 <= zlen l |- _ => fail
      | _ => pose proof (zlen_nonneg l)
      end
  end;
  autorewrite with http_len in *; lia.

Lemma take_zlen_app {A} (l k : list A) : take (Z.to_nat (zlen l)) (l ++ k) = l.
Proof. rewrite to_nat_zlen. apply take_app_length. Qed.

Lemma drop_zlen_app {A} (l k : list A) : drop (Z.to_nat (zlen l)) (l ++ k) = k.
Proof. rewrite to_nat_zlen. apply drop_app_length. Qed.

Lemma drop_app_cons {A} (l r : list A) x : drop (S (length l)) (l ++ x :: r) = r.
Proof. by induction l. Qed.

Lemma take_app_within {A} (n : Z) (l k : list A) :
  n <= zlen l -> take (Z.to_nat n) (l ++ k) = take (Z.to_nat n) l.
Proof. unfold zlen; intros; apply take_app_le; lia. Qed.

Lemma drop_app_within {A} (n : Z) (l k : list A) :
  n <= zlen l -> drop (Z.to_nat n) (l ++ k) = drop (Z.to_nat n) l ++ k.
Proof. unfold zlen; intros; apply drop_app_le; lia. Qed.

(** ** Machine integers *)

Lemma u64_small z : 0 <= z < 2 ^ 64 -> u64 z = z.
Proof. apply Z.mod_small. Qed.

Lemma u64_range z : 0 <= u64 z < 2 ^ 64.
Proof. apply Z.mod_pos_bound; lia. Qed.

(** ** Bytes as numbers *)

Lemma byte_val_range b : 0 <= byte_val b < 256.
Proof. unfold byte_val. pose proof (Byte.to_N_bounded b). lia. Qed.

Lemma byte_val_inj b c : byte_val b = byte_val c -> b = c.
Proof.
  unfold byte_val; intros H%N2Z.inj.
  pose proof (Byte.of_to_N b) as Hb. pose proof (Byte.of_to_N c) as Hc.
  congruence.
Qed.

(** A statement on all bytes is decided by its 256 instances. *)
Ltac by_all_bytes b := destruct b; first [reflexivity | vm_compute; congruence].

Lemma all_equal {A} (l : list A) x :
  (forall i y, l !! i = Some y -> y = x) -> l = replicate (length l) x.
Proof.
  intros H; induction l as [|y l IH]; cbn; [done|]. f_equal; [by apply (H 0%nat)|].
  apply IH. intros i z Hz. by apply (H (S i)).
Qed.

(** A decidable statement about concrete data. *)
Ltac by_decide := apply (bool_decide_unpack _); vm_compute; exact I.

(** ** Counting the elements of a list that satisfy a test *)

Section Count.
Context {A : Type} (P : A -> bool).

Fixpoint count (l : list A) : Z :=
  match l with
  | [] => 0
  | x :: l' => Z.b2z (P x) + count l'
  end.

Lemma count_nonneg l : 0 <= count l.
Proof. induction l as [|x l IH]; cbn; [lia|]. destruct (P x); cbn; lia. Qed.

Lemma count_insert l i x y :
  l !! i = Some x -> count (<[i := y]> l) = count l - Z.b2z (P x) + Z.b2z (P y).
Proof.
  revert i; induction l as [|z l IH]; intros [|i]; try done.
  - intros [= ->]. cbn. lia.
  - intros H. change (<[S i := y]> (z :: l)) with (z :: <[i := y]> l).
    cbn [count]. rewrite (IH i H). lia.
Qed.

Lemma count_app l k : count (l ++ k) = count l + count k.
Proof. induction l as [|x l IH]; cbn; lia. Qed.

Lemma count_lookup_pos l i x : l !! i = Some x -> P x = true -> 0 < count l.
Proof.
  revert i; induction l as [|z l IH]; intros [|i]; cbn; try done; pose proof (count_nonneg l) as Hn.
  - intros [= ->] ->. cbn. lia.
  - intros H Hx. specialize (IH i H Hx). destruct (P z); cbn; lia.
Qed.

Lemma count_pos_lookup l : 0 < count l -> exists i x, l !! i = Some x /\ P x = true.
Proof.
  induction l as [|z l IH]; cbn; [lia|]. destruct (P z) eqn:Hz.
  - intros _. by exists 0%nat, z.
  - cbn. intros H. destruct IH as (i & x & Hi & Hx); [lia|]. by exists (S i), x.
Qed.

Lemma count_zero l i x : count l = 0 -> l !! i = Some x -> P x = false.
Proof.
  intros H0 Hi. destruct (P x) eqn:Hx; [|done].
  pose proof (count_lookup_pos l i x Hi Hx). lia.
Qed.

Lemma count_none l : (forall i x, l !! i = Some x -> P x = false) -> count l = 0.
Proof.
  intros H. destruct (decide (count l = 0)); [done|].
  destruct (count_pos_lookup l) as (i & x & Hi & Hx); [pose proof (count_nonneg l); lia|].
  by rewrite (H i x Hi) in Hx.
Qed.

Lemma count_le l : count l <= zlen l.
Proof. unfold zlen; induction l as [|x l IH]; cbn; [lia|]. destruct (P x); cbn; lia. Qed.

Lemma count_lt l i x : l !! i = Some x -> P x = false -> count l <= zlen l - 1.
Proof.
  unfold zlen; revert i; induction l as [|z l IH]; intros [|i]; try done.
  - intros [= ->] Hx. pose proof (count_le l). unfold zlen in *. cbn. rewrite Hx. cbn. lia.
  - intros H Hx. specialize (IH i H Hx). cbn [count length]. destruct (P z); cbn; lia.
Qed.
End Count.

Lemma count_or {A} (P Q : A -> bool) l :
  (forall x, P x && Q x = false) -> count (fun x => P x || Q x) l = count P l + count Q l.
Proof.
  intros H; induction l as [|x l IH]; cbn; [done|]. rewrite IH. specialize (H x).
  destruct (P x), (Q x); done || (cbn; lia).
Qed.

Lemma zlen_insert {A} (l : list A) i x : zlen (<[i := x]> l) = zlen l.
Proof. unfold zlen. by rewrite length_insert. Qed.

Lemma count_fmap {A B} (P : B -> bool) (f : A -> B) l : count P (f <$> l) = count (P ∘ f) l.
Proof. induction l as [|x l IH]; cbn; [done|]. by rewrite IH. Qed.

Lemma count_mono {A} (P Q : A -> bool) l :
  (forall i x, l !! i = Some x -> P x = true -> Q x = true) -> count P l <= count Q l.
Proof.
  induction l as [|x l IH]; intros H; [done|]. cbn [count].
  assert (count P l <= count Q l) by (apply IH; intros i; apply (H (S i))).
  specialize (H 0%nat x eq_refl). destruct (P x); [rewrite H by done; cbn; lia|destruct (Q x); cbn; lia].
Qed.

Lemma count_replicate {A} (P : A -> bool) n x : count P (replicate n x) = Z.of_nat n * Z.b2z (P x).
Proof. induction n as [|n IH]; [done|]. cbn [replicate count]. rewrite IH. lia. Qed.

Lemma count_ext {A} (P Q : A -> bool) l : (forall x, P x = Q x) -> count P l = count Q l.
Proof. intros H; induction l as [|x l IH]; cbn; [done|]. by rewrite H, IH. Qed.

(** The thread that moves is one of those counted. *)
Ltac count_mover H :=
  repeat match goal with
  | |- context [count ?P ?l] =>
      lazymatch goal with _ : 0 < count P l |- _ => fail | _ => idtac end;
      pose proof (count_lookup_pos P l _ _ H eq_refl)
  end.

Ltac count_bounds :=
  repeat match goal with
  | |- context [count ?P ?l] => lazymatch goal with
      | _ : 0 <= count P l |- _ => fail | _ => pose proof (count_nonneg P l) end
  end.
