(* ===== verification/CppStd.v ===== *)
(** * The C and C++ standard library functions the server calls

    Character classes in the "C" locale, the searches of [std::string], the
    number readers [strtoul] and [std::stoull] and the number printers
    [std::to_string] and [std::hex].  Each is written out on byte lists, with
    its error results ([npos] as [None], [errno == ERANGE] as a flag, a thrown
    exception as [None]). *)

From S2P Require Import Prelude.

Module CppStd.

(** ** <cctype> *)

Definition tolower (b : byte) : byte :=
  let n := byte_val b in
  if (65 <=? n) && (n <=? 90) then byte_of (n + 32) else b.

Definition isspace (b : byte) : bool :=
  let n := byte_val b in ((9 <=? n) && (n <=? 13)) || (n =? 32).

(** ** Searching a string *)

(** [s.find(c)]: the first index of [c], or [npos]. *)
Fixpoint find_byte (c : byte) (s : bytes) : option nat :=
  match s with
  | [] => None
  | b :: s' => if bool_decide (b = c) then Some 0%nat else S <$> find_byte c s'
  end.

(** [s.find(c, pos)]. *)
Definition find_byte_from (c : byte) (s : bytes) (pos : nat) : option nat :=
  Nat.add pos <$> find_byte c (drop pos s).

Fixpoint starts_with (p s : bytes) : bool :=
  match p, s with
  | [], _ => true
  | a :: p', b :: s' => bool_decide (a = b) && starts_with p' s'
  | _ :: _, [] => false
  end.

(** [s.find(needle)]. *)
Fixpoint find_str (needle s : bytes) : option nat :=
  if starts_with needle s then Some 0%nat
  else match s with
       | [] => None
       | _ :: s' => S <$> find_str needle s'
       end.

(** [s.find(needle) != npos]. *)
Definition contains (needle s : bytes) : bool :=
  match find_str needle s with Some _ => true | None => false end.

(** [s.substr(pos, n)]. *)
Definition substr (s : bytes) (pos n : nat) : bytes := take n (drop pos s).

(** ** Reading numbers *)

Definition ULONG_MAX : Z := 2 ^ 64 - 1.

(** The bytes a C function sees through [c_str()]: those before the first NUL. *)
Fixpoint c_str (s : bytes) : bytes :=
  match s with
  | [] => []
  | b :: s' => if bool_decide (b = Byte.x00) then [] else b :: c_str s'
  end.

(** The value of a digit or a letter, and [99] for anything else. *)
Definition digit_val (b : byte) : Z :=
  let n := byte_val b in
  if (48 <=? n) && (n <=? 57) then n - 48
  else if (65 <=? n) && (n <=? 90) then n - 55
  else if (97 <=? n) && (n <=? 122) then n - 87
  else 99.

(** The longest prefix of digits: its value in front of [acc], and its length. *)
Fixpoint scan_digits (base acc : Z) (s : bytes) : Z * nat :=
  match s with
  | [] => (acc, 0%nat)
  | b :: s' =>
      if digit_val b <? base
      then let '(v, n) := scan_digits base (acc * base + digit_val b) s' in (v, S n)
      else (acc, 0%nat)
  end.

Fixpoint skip_spaces (s : bytes) : nat :=
  match s with
  | b :: s' => if isspace b then S (skip_spaces s') else 0%nat
  | [] => 0%nat
  end.

(** The optional sign: negative or not, and how many bytes it takes. *)
Definition read_sign (s : bytes) : bool * nat :=
  match s with
  | b :: _ =>
      if bool_decide (b = Byte.x2d) then (true, 1%nat)
      else if bool_decide (b = Byte.x2b) then (false, 1%nat) else (false, 0%nat)
  | [] => (false, 0%nat)
  end.

(** In base 16 an optional [0x] or [0X] is skipped when a digit follows it. *)
Definition hex_prefix (base : Z) (s : bytes) : nat :=
  match s with
  | z :: x :: d :: _ =>
      if (base =? 16) && bool_decide (z = Byte.x30)
         && (bool_decide (x = Byte.x78) || bool_decide (x = Byte.x58))
         && (digit_val d <? 16)
      then 2%nat else 0%nat
  | _ => 0%nat
  end.

Record strtoul_result := {
  ul_value : Z;      (* what strtoul returns *)
  ul_end : nat;      (* end - str *)
  ul_erange : bool   (* errno == ERANGE afterwards, when it was 0 before *)
}.

(** [strtoul(s.c_str(), &end, base)] for a 64-bit [unsigned long]. *)
Definition strtoul (base : Z) (str : bytes) : strtoul_result :=
  let s := c_str str in
  let ws := skip_spaces s in
  let '(neg, sg) := read_sign (drop ws s) in
  let pre := hex_prefix base (drop (ws + sg) s) in
  let '(v, n) := scan_digits base 0 (drop (ws + sg + pre) s) in
  if bool_decide (n = 0%nat) then
    {| ul_value := 0; ul_end := 0; ul_erange := false |}
  else if ULONG_MAX <? v then
    {| ul_value := ULONG_MAX; ul_end := ws + sg + pre + n; ul_erange := true |}
  else
    {| ul_value := if neg then u64 (- v) else v;
       ul_end := ws + sg + pre + n; ul_erange := false |}.

(** [*end == '\0']: the conversion stopped at the end of the C string. *)
Definition at_end (str : bytes) (e : nat) : bool := bool_decide (drop e (c_str str) = []).

(** [std::stoull(s)]; [None] when it throws [invalid_argument] or [out_of_range]. *)
Definition stoull (str : bytes) : option Z :=
  let r := strtoul 10 str in
  if bool_decide (ul_end r = 0%nat) then None
  else if ul_erange r then None
  else Some (ul_value r).

(** ** Printing numbers *)

Definition digit_byte (d : Z) : byte := byte_of (if d <? 10 then 48 + d else 87 + d).

Fixpoint print_digits (fuel : nat) (base n : Z) (acc : bytes) : bytes :=
  match fuel with
  | O => acc
  | S f =>
      let acc' := digit_byte (n mod base) :: acc in
      if n <? base then acc' else print_digits f base (n / base) acc'
  end.

(** A number has at most [log2 n + 1] digits in any base. *)
Definition print_base (base n : Z) : bytes :=
  print_digits (S (Z.to_nat (Z.log2 n))) base n [].

(** [std::to_string(n)] and [ostream << std::hex << n] for unsigned [n]. *)
Definition to_string (n : Z) : bytes := print_base 10 n.
Definition to_hex (n : Z) : bytes := print_base 16 n.

(** ** Facts: character classes *)

Lemma tolower_idemp b : tolower (tolower b) = tolower b.
Proof. by_all_bytes b. Qed.

Lemma digit_val_nonneg b : 0 <= digit_val b.
Proof. by_all_bytes b. Qed.

Lemma digit_val_not_space b : digit_val b < 36 -> isspace b = false.
Proof. by_all_bytes b. Qed.

Lemma digit_val_not_sign b : digit_val b < 36 -> b <> Byte.x2d /\ b <> Byte.x2b.
Proof. destruct b; first [split; congruence | vm_compute; congruence]. Qed.

Lemma digit_val_not_nul b : digit_val b < 36 -> b <> Byte.x00.
Proof. destruct b; first [congruence | vm_compute; congruence]. Qed.

(** [digit_byte] prints the digit that [digit_val] reads. *)
Lemma digit_val_digit_byte d : 0 <= d < 16 -> digit_val (digit_byte d) = d.
Proof.
  intros H.
  assert (d = 0 \/ d = 1 \/ d = 2 \/ d = 3 \/ d = 4 \/ d = 5 \/ d = 6 \/ d = 7 \/
          d = 8 \/ d = 9 \/ d = 10 \/ d = 11 \/ d = 12 \/ d = 13 \/ d = 14 \/ d = 15) as Hd
    by lia.
  repeat destruct Hd as [->|Hd]; try reflexivity. by subst d.
Qed.

(** ** Facts: searches *)

Lemma find_byte_None c s : (find_byte c s = None) <-> (c ∉ s).
Proof.
  induction s as [|b s IH]; cbn; [set_solver|].
  case_bool_decide; subst; [set_solver|].
  rewrite fmap_None, IH. set_solver.
Qed.

Lemma find_byte_app c pre post :
  c ∉ pre -> find_byte c (pre ++ c :: post) = Some (length pre).
Proof.
  induction pre as [|b pre IH]; cbn; intros Hni.
  - by rewrite bool_decide_true.
  - rewrite bool_decide_false by set_solver. rewrite IH by set_solver. done.
Qed.

Lemma find_byte_Some c s i :
  find_byte c s = Some i ->
  s = (take i s ++ c :: drop (S i) s) /\ (c ∉ take i s) /\ (i < length s)%nat.
Proof.
  revert i; induction s as [|b s IH]; intros i; cbn; [done|].
  case_bool_decide as Hb.
  - intros [= <-]. subst b. cbn. repeat split; [set_solver|lia].
  - destruct (find_byte c s) as [j|]; cbn; [|done]. intros [= <-].
    destruct (IH j eq_refl) as (He & Hni & Hl).
    cbn. split; [by f_equal|]. split; [set_solver|lia].
Qed.

Lemma starts_with_spec p s : starts_with p s = true <-> exists t, s = p ++ t.
Proof.
  revert s; induction p as [|a p IH]; intros [|b s]; cbn.
  - split; eauto.
  - split; eauto.
  - split; [done|by intros [t Ht]].
  - rewrite andb_true_iff, bool_decide_eq_true, IH. split.
    + intros [-> [t ->]]. by exists t.
    + intros [t [= -> ->]]. eauto.
Qed.

(** [find] succeeds exactly when the needle is a factor of the string. *)
Lemma contains_spec needle s :
  contains needle s = true <-> exists u v, s = u ++ needle ++ v.
Proof.
  unfold contains.
  assert (is_Some (find_str needle s) <-> exists u v, s = u ++ needle ++ v) as Hs.
  { induction s as [|b s IH]; cbn; destruct (starts_with needle _) eqn:Hp.
    - apply starts_with_spec in Hp as [t Ht]. split; [|done]. by exists [], t.
    - split; [by intros [? ?]|]. intros (u & v & Huv).
      destruct u; [|done]. assert (starts_with needle [] = true); [|congruence].
      apply starts_with_spec. by exists v.
    - apply starts_with_spec in Hp as [t Ht]. split; [|done]. by exists [], t.
    - rewrite fmap_is_Some, IH. split.
      + intros (u & v & ->). by exists (b :: u), v.
      + intros ([|a u] & v & Huv).
        * assert (starts_with needle (b :: s) = true); [|congruence].
          apply starts_with_spec. by exists v.
        * injection Huv as -> ->. by exists u, v. }
  rewrite <- Hs. destruct (find_str needle s); split; try done; by intros [? ?].
Qed.

(** ** Facts: numbers *)

(** A byte string without NUL is its own C string. *)
Lemma c_str_no_nul s : Byte.x00 ∉ s -> c_str s = s.
Proof.
  induction s as [|b s IH]; cbn; intros; [done|].
  rewrite bool_decide_false by set_solver. by rewrite IH by set_solver.
Qed.

(** All digits of [base]. *)
Definition all_digits (base : Z) (s : bytes) : Prop := Forall (fun b => digit_val b < base) s.

Lemma scan_digits_count base acc s :
  all_digits base s -> (scan_digits base acc s).2 = length s.
Proof.
  intros Hs; revert acc; induction Hs as [|b s Hb _ IH]; intros acc; cbn; [done|].
  destruct (Z.ltb_spec (digit_val b) base); [|lia].
  specialize (IH (acc * base + digit_val b)).
  destruct (scan_digits _ _ s). cbn in *. by f_equal.
Qed.

Lemma scan_digits_nonneg base acc s :
  0 <= base -> 0 <= acc -> 0 <= (scan_digits base acc s).1.
Proof.
  intros Hb; revert acc; induction s as [|b s IH]; intros acc Ha; cbn; [done|].
  split_if; [|done]. pose proof (digit_val_nonneg b).
  specialize (IH (acc * base + digit_val b) ltac:(nia)).
  by destruct (scan_digits _ _ s).
Qed.

(** The numeral's value, as Horner's rule computes it. *)
Definition horner (base acc : Z) (s : bytes) : Z :=
  foldl (fun a b => a * base + digit_val b) acc s.

Lemma scan_digits_horner base acc s :
  all_digits base s -> scan_digits base acc s = (horner base acc s, length s).
Proof.
  intros Hs; revert acc; induction Hs as [|b s Hb _ IH]; intros acc; cbn; [done|].
  destruct (Z.ltb_spec (digit_val b) base); [|lia]. by rewrite IH.
Qed.

Lemma horner_nonneg base acc s : 0 <= base -> 0 <= acc -> 0 <= horner base acc s.
Proof.
  intros Hb; revert acc; induction s as [|b s IH]; intros acc Ha; cbn; [done|].
  apply IH. pose proof (digit_val_nonneg b). nia.
Qed.

Lemma hex_prefix_digits base s : base <= 16 -> all_digits base s -> hex_prefix base s = 0%nat.
Proof.
  intros Hb Hs. destruct s as [|z [|x [|d s]]]; cbn; try done.
  apply Forall_cons in Hs as [_ Hs]. apply Forall_cons in Hs as [Hx _].
  destruct (bool_decide_reflect (x = Byte.x78)) as [->|];
    [change (digit_val Byte.x78) with 33 in Hx; lia|].
  destruct (bool_decide_reflect (x = Byte.x58)) as [->|];
    [change (digit_val Byte.x58) with 33 in Hx; lia|].
  cbn. by rewrite andb_false_r.
Qed.

Lemma all_digits_no_nul base s : base <= 36 -> all_digits base s -> Byte.x00 ∉ s.
Proof.
  intros Hb Hs Hin. unfold all_digits in Hs. rewrite Forall_forall in Hs.
  specialize (Hs _ Hin). change (digit_val Byte.x00) with 99 in Hs. lia.
Qed.

(** A non-empty string of digits is read whole; it is out of range exactly
    when its value does not fit in an [unsigned long]. *)
Lemma strtoul_digits base s :
  2 <= base <= 16 -> s <> [] -> all_digits base s ->
  strtoul base s =
    if ULONG_MAX <? horner base 0 s
    then {| ul_value := ULONG_MAX; ul_end := length s; ul_erange := true |}
    else {| ul_value := horner base 0 s; ul_end := length s; ul_erange := false |}.
Proof.
  intros Hb Hne Hs. unfold strtoul.
  rewrite c_str_no_nul by (eapply all_digits_no_nul; [|done]; lia).
  assert (skip_spaces s = 0%nat /\ read_sign s = (false, 0%nat)) as [-> Hsg].
  { destruct s as [|b s]; [done|]. apply Forall_cons in Hs as [Hd _]. cbn.
    rewrite digit_val_not_space by lia.
    destruct (digit_val_not_sign b) as [? ?]; [lia|].
    by rewrite !bool_decide_false. }
  rewrite drop_0, Hsg, !Nat.add_0_r, drop_0, hex_prefix_digits by (done || lia).
  rewrite drop_0.
  rewrite scan_digits_horner by done.
  rewrite bool_decide_false by (destruct s; done).
  destruct (_ <? _); done.
Qed.

Lemma horner_app base acc s t : horner base acc (s ++ t) = horner base (horner base acc s) t.
Proof. apply foldl_app. Qed.

Lemma print_digits_spec fuel base n acc :
  2 <= base <= 16 -> 0 <= n < base ^ Z.of_nat fuel ->
  all_digits base acc ->
  all_digits base (print_digits fuel base n acc) /\
  horner base 0 (print_digits fuel base n acc) = horner base n acc.
Proof.
  intros Hb. revert n acc; induction fuel as [|f IH]; intros n acc Hn Hacc.
  - cbn in Hn. assert (n = 0) as -> by lia. done.
  - pose proof (Z.mod_pos_bound n base ltac:(lia)) as Hm.
    assert (all_digits base (digit_byte (n mod base) :: acc)) as Hacc'.
    { constructor; [|done]. rewrite digit_val_digit_byte; lia. }
    assert (horner base (n / base) (digit_byte (n mod base) :: acc) = horner base n acc) as Hh.
    { cbn [horner foldl]. rewrite digit_val_digit_byte by lia.
      unfold horner. do 2 f_equal. pose proof (Z.div_mod n base ltac:(lia)). nia. }
    cbn [print_digits]. destruct (Z.ltb_spec n base).
    + split; [done|]. rewrite <- Hh. by rewrite Z.div_small by lia.
    + rewrite <- Hh. apply IH; [|done].
      rewrite Nat2Z.inj_succ, Z.pow_succ_r in Hn by lia.
      split; [apply Z.div_pos; lia|apply Z.div_lt_upper_bound; lia].
Qed.

Lemma print_base_digits base n :
  2 <= base <= 16 -> 0 <= n ->
  all_digits base (print_base base n) /\ horner base 0 (print_base base n) = n.
Proof.
  intros Hb Hn. unfold print_base. apply print_digits_spec; [done| |by constructor].
  split; [done|]. rewrite Nat2Z.inj_succ, Z2Nat.id by apply Z.log2_nonneg.
  destruct (Z.eq_dec n 0) as [->|]; [change (Z.succ (Z.log2 0)) with 1; rewrite Z.pow_1_r; lia|].
  eapply Z.lt_le_trans; [apply Z.log2_spec; lia|].
  apply Z.pow_le_mono_l. lia.
Qed.

Lemma print_digits_ne fuel base n acc : acc <> [] -> print_digits fuel base n acc <> [].
Proof.
  revert n acc; induction fuel as [|f IH]; cbn; intros; [done|].
  split_if; [done|by apply IH].
Qed.

Lemma print_base_ne base n : print_base base n <> [].
Proof. unfold print_base; cbn. split_if; [done|by apply print_digits_ne]. Qed.

(** Decimal digits, whatever the number; and no leading zero. *)
Lemma print_digits_all fuel n acc : all_digits 10 acc -> all_digits 10 (print_digits fuel 10 n acc).
Proof.
  revert n acc; induction fuel as [|f IH]; intros n acc Hacc; [done|]. cbn [print_digits].
  assert (all_digits 10 (digit_byte (n mod 10) :: acc)) as H.
  { constructor; [|done]. pose proof (Z.mod_pos_bound n 10). rewrite digit_val_digit_byte; lia. }
  split_if; [done|by apply IH].
Qed.

Lemma to_string_digits n : all_digits 10 (to_string n).
Proof. by apply print_digits_all; constructor. Qed.

Lemma print_digits_head fuel n acc :
  0 < n < 10 ^ Z.of_nat fuel ->
  exists d ds, print_digits fuel 10 n acc = d :: ds /\ d <> Byte.x30.
Proof.
  revert n acc; induction fuel as [|f IH]; intros n acc Hn; [cbn in Hn; lia|]. cbn [print_digits].
  rewrite Nat2Z.inj_succ, Z.pow_succ_r in Hn by lia. destruct (Z.ltb_spec n 10) as [Hlt|Hge].
  - exists (digit_byte (n mod 10)), acc. split; [done|]. rewrite Z.mod_small by lia. intros H.
    pose proof (digit_val_digit_byte n ltac:(lia)) as Hv. rewrite H in Hv.
    change (digit_val Byte.x30) with 0 in Hv. lia.
  - apply IH. split; [apply Z.div_str_pos; lia|apply Z.div_lt_upper_bound; lia].
Qed.

Lemma to_string_head n :
  to_string n = [Byte.x30] \/ exists d ds, to_string n = d :: ds /\ d <> Byte.x30.
Proof.
  unfold to_string, print_base. destruct (Z.ltb_spec 0 n) as [Hn|Hn].
  - right. apply print_digits_head. split; [done|].
    rewrite Nat2Z.inj_succ, Z2Nat.id by apply Z.log2_nonneg.
    eapply Z.lt_le_trans; [apply Z.log2_spec; lia|]. apply Z.pow_le_mono_l. lia.
  - rewrite Z.log2_nonpos by lia. change (S (Z.to_nat 0)) with 1%nat. cbn [print_digits].
    destruct (Z.ltb_spec n 10); [|lia]. set (d := digit_byte _).
    destruct (decide (d = Byte.x30)) as [->|]; [by left|right; by exists d, []].
Qed.

(** The results are values of the C type. *)
Lemma strtoul_range base str : 0 <= base -> 0 <= ul_value (strtoul base str) < 2 ^ 64.
Proof.
  intros Hb. unfold strtoul. destruct (read_sign _) as [neg sg].
  set (s := drop (_ + _ + _) _). pose proof (scan_digits_nonneg base 0 s Hb ltac:(lia)) as Hv.
  destruct (scan_digits base 0 s) as [v n]. cbn in Hv. unfold ULONG_MAX.
  case_bool_decide; [cbn; lia|].
  destruct (Z.ltb_spec (2 ^ 64 - 1) v); [cbn; lia|].
  destruct neg; cbn; [apply u64_range|lia].
Qed.

Lemma stoull_range str n : stoull str = Some n -> 0 <= n < 2 ^ 64.
Proof.
  unfold stoull. pose proof (strtoul_range 10 str ltac:(lia)).
  repeat split_if; try done. by intros [= <-].
Qed.

(** Round trip: a printed number is read back, consuming every byte. *)
Lemma strtoul_print base n :
  2 <= base <= 16 -> 0 <= n <= ULONG_MAX ->
  strtoul base (print_base base n) =
    {| ul_value := n; ul_end := length (print_base base n); ul_erange := false |}.
Proof.
  intros Hb Hn. destruct (print_base_digits base n) as [Hd Hv]; [lia..|].
  rewrite strtoul_digits by (done || apply print_base_ne).
  rewrite Hv. destruct (Z.ltb_spec ULONG_MAX n); [lia|done].
Qed.

Lemma stoull_to_string n : 0 <= n <= ULONG_MAX -> stoull (to_string n) = Some n.
Proof.
  intros Hn. unfold stoull, to_string. rewrite strtoul_print by (done || lia).
  cbn [ul_end ul_erange ul_value].
  rewrite bool_decide_false; [done|]. pose proof (print_base_ne 10 n).
  by destruct (print_base 10 n).
Qed.

End CppStd.
