(* ===== verification/Framing.v ===== *)
(** * [Framer]: cutting lines and byte slices off the read buffer

    [src/src/protocol/Framer.cpp] and its header.  [extractLine] scans for the
    first CRLF with a running index; [split_line] is the specification of what
    it looks for, and [extractLine_eq] says how the two size limits enter. *)

From S2P Require Import Prelude CppStd.

Module FrameStatus.
Inductive t := Success | Incomplete | HeaderTooLarge | PayloadTooLarge.
#[global] Instance eq_dec : EqDecision t.
  Proof. solve_decision. Defined.
End FrameStatus.

Module Framer.

Definition MAX_HTTP_HEADER_SIZE : Z := 8 * 1024.
Definition MAX_HTTP_BODY_SIZE : Z := 10 * 1024 * 1024.
Definition MAX_CHUNK_BODY_SIZE : Z := 64 * 1024.

(** [readBuffer[i] == '\r' && readBuffer[i + 1] == '\n'], false at the last byte. *)
Definition crlf_here (buf : bytes) : bool :=
  match buf with
  | b :: c :: _ => bool_decide (b = CR) && bool_decide (c = LF)
  | _ => false
  end.

(** How the [for] loop of [extractLine] ends. *)
Inductive scan := Found (i : Z) | TooFar | NotFound.

(** The loop from index [i] on, where [buf] is what remains of the buffer there. *)
Fixpoint scan_line (i : Z) (buf : bytes) : scan :=
  match buf with
  | [] => NotFound
  | _ :: rest =>
      if MAX_CHUNK_BODY_SIZE <? i then TooFar
      else if crlf_here buf then Found i
      else scan_line (i + 1) rest
  end.

(** Returns the status, [outLine] and [readBuffer] as the call leaves them. *)
Definition extractLine (readBuffer outLine : bytes) : FrameStatus.t * bytes * bytes :=
  if bool_decide (readBuffer = []) then (FrameStatus.Incomplete, outLine, readBuffer)
  else
    match scan_line 0 readBuffer with
    | TooFar => (FrameStatus.HeaderTooLarge, outLine, readBuffer)
    | Found i =>
        (FrameStatus.Success, take (Z.to_nat i) readBuffer, drop (Z.to_nat (i + 2)) readBuffer)
    | NotFound =>
        if MAX_HTTP_HEADER_SIZE <? zlen readBuffer
        then (FrameStatus.HeaderTooLarge, outLine, readBuffer)
        else (FrameStatus.Incomplete, outLine, readBuffer)
    end.

Definition extractBytes (readBuffer : bytes) (requiredBytes : Z) (outBytes : bytes)
    : FrameStatus.t * bytes * bytes :=
  if MAX_HTTP_BODY_SIZE <? requiredBytes
  then (FrameStatus.PayloadTooLarge, outBytes, readBuffer)
  else if zlen readBuffer <? requiredBytes
  then (FrameStatus.Incomplete, outBytes, readBuffer)
  else (FrameStatus.Success,
        take (Z.to_nat requiredBytes) readBuffer,
        drop (Z.to_nat requiredBytes) readBuffer).

(** ** Specification: the first CRLF of a buffer *)

(** The bytes before the first CRLF and those after it. *)
Fixpoint split_line (buf : bytes) : option (bytes * bytes) :=
  match buf with
  | [] => None
  | b :: rest =>
      if crlf_here buf then Some ([], tail rest)
      else (fun '(l, r) => (b :: l, r)) <$> split_line rest
  end.

(** A line: nothing in it, and nothing straddling its end, reads as a CRLF. *)
Definition is_line (l : bytes) : Prop := split_line (l ++ CRLF) = Some (l, []).

Lemma crlf_here_inv buf : crlf_here buf = true -> exists r, buf = CRLF ++ r.
Proof.
  destruct buf as [|b [|c r]]; cbn; try done.
  intros H; simplify_bools; subst. by exists r.
Qed.

Lemma crlf_here_app buf more : (2 <= length buf)%nat -> crlf_here (buf ++ more) = crlf_here buf.
Proof. by destruct buf as [|b [|c r]]; cbn; try lia. Qed.

(** The line, the delimiter and the rest make up the buffer. *)
Lemma split_line_Some buf l r : split_line buf = Some (l, r) -> buf = l ++ CRLF ++ r.
Proof.
  revert l; induction buf as [|b buf IH]; intros l; [done|]. cbn [split_line].
  destruct (crlf_here _) eqn:Hc.
  - apply crlf_here_inv in Hc as [r' Hr]. cbn in Hr. injection Hr as -> ->.
    cbn. by intros [= <- <-].
  - destruct (split_line buf) as [[l' r']|]; cbn; [|done].
    intros [= <- <-]. cbn. f_equal. by apply IH.
Qed.

Lemma split_line_zlen buf l r : split_line buf = Some (l, r) -> zlen buf = zlen l + 2 + zlen r.
Proof. intros ->%split_line_Some. rewrite !zlen_app. change (zlen CRLF) with 2. lia. Qed.

Lemma split_line_2 buf l r : split_line buf = Some (l, r) -> (2 <= length buf)%nat.
Proof.
  intros H%split_line_zlen. pose proof (zlen_nonneg l). pose proof (zlen_nonneg r).
  unfold zlen in *. lia.
Qed.

(** Bytes that arrive later do not move the first CRLF. *)
Lemma split_line_app buf l r more :
  split_line buf = Some (l, r) -> split_line (buf ++ more) = Some (l, r ++ more).
Proof.
  revert l; induction buf as [|b buf IH]; intros l H; [done|].
  pose proof (split_line_2 _ _ _ H) as Hlen. revert H. cbn [split_line app].
  change (b :: buf ++ more) with ((b :: buf) ++ more).
  rewrite crlf_here_app by done. destruct (crlf_here _) eqn:Hc.
  - intros [= <- <-]. destruct buf; cbn in *; [lia|done].
  - destruct (split_line buf) as [[l' r']|]; cbn; [|done].
    intros [= <- <-]. by rewrite (IH l').
Qed.

Lemma is_line_split l r : is_line l -> split_line (l ++ CRLF ++ r) = Some (l, r).
Proof. intros Hl. rewrite app_assoc. by rewrite (split_line_app _ _ _ r Hl). Qed.

Lemma split_line_is_line buf l r : split_line buf = Some (l, r) -> is_line l.
Proof.
  unfold is_line. revert l; induction buf as [|b buf IH]; intros l; [done|].
  cbn [split_line]. destruct (crlf_here _) eqn:Hc; [by intros [= <- <-]|].
  destruct (split_line buf) as [[l' r']|] eqn:Hs; cbn; [|done].
  intros [= <- <-]. cbn [app split_line].
  assert (crlf_here (b :: l' ++ CRLF) = false) as ->; [|by rewrite (IH l')].
  apply split_line_Some in Hs as ->. revert Hc. cbn.
  by destruct l'; cbn.
Qed.

(** A string without CR is a line. *)
Lemma no_cr_is_line l : CR ∉ l -> is_line l.
Proof.
  unfold is_line; induction l as [|b l IH]; cbn [app split_line]; intros Hni; [done|].
  rewrite IH by set_solver. destruct (crlf_here _) eqn:Hc; [|done].
  apply crlf_here_inv in Hc as [? [= -> _]]. set_solver.
Qed.

(** While there is no CRLF, the buffer is part of a line still arriving. *)
Lemma split_line_None_prefix buf more l r :
  split_line buf = None -> split_line (buf ++ more) = Some (l, r) ->
  zlen buf <= zlen l + 1.
Proof.
  revert l; induction buf as [|b buf IH]; intros l Hn Hs.
  - pose proof (zlen_nonneg l). rewrite zlen_nil. lia.
  - revert Hn Hs. cbn [split_line app]. destruct (crlf_here (b :: buf)) eqn:Hc; [done|]. intros Hn%fmap_None.
    destruct buf as [|c buf].
    + intros _. unfold zlen; cbn; lia.
    + change (b :: (c :: buf) ++ more) with ((b :: c :: buf) ++ more).
      rewrite crlf_here_app by (cbn; lia). rewrite Hc.
      destruct (split_line ((c :: buf) ++ more)) as [[l' r']|] eqn:Hs; cbn; [|done].
      intros [= <- <-]. rewrite !(zlen_cons b). specialize (IH l' Hn eq_refl). lia.
Qed.

(** ** The loop finds the specified line, within its index limit *)

Lemma scan_line_spec i buf :
  0 <= i <= MAX_CHUNK_BODY_SIZE + 1 ->
  scan_line i buf =
    match split_line buf with
    | Some (l, _) => if i + zlen l <=? MAX_CHUNK_BODY_SIZE then Found (i + zlen l) else TooFar
    | None => if i + zlen buf <=? MAX_CHUNK_BODY_SIZE + 1 then NotFound else TooFar
    end.
Proof.
  revert i; induction buf as [|b buf IH]; intros i Hi.
  - cbn. rewrite zlen_nil. by destruct (Z.leb_spec (i + 0) (MAX_CHUNK_BODY_SIZE + 1)); [|lia].
  - cbn [scan_line split_line]. destruct (Z.ltb_spec MAX_CHUNK_BODY_SIZE i) as [Hgt|Hle].
    + destruct (if crlf_here _ then _ else _) as [[l r]|] eqn:Hs.
      * pose proof (zlen_nonneg l).
        destruct (Z.leb_spec (i + zlen l) MAX_CHUNK_BODY_SIZE); [lia|done].
      * rewrite zlen_cons. pose proof (zlen_nonneg buf).
        destruct (Z.leb_spec (i + (1 + zlen buf)) (MAX_CHUNK_BODY_SIZE + 1)); [lia|done].
    + destruct (crlf_here (b :: buf)).
      * rewrite zlen_nil, Z.add_0_r. destruct (Z.leb_spec i MAX_CHUNK_BODY_SIZE); [done|lia].
      * rewrite IH by lia. destruct (split_line buf) as [[l r]|]; cbn.
        -- rewrite zlen_cons. by rewrite !Z.add_assoc.
        -- rewrite zlen_cons. by rewrite Z.add_assoc.
Qed.

(** [extractLine] returns the first line of the buffer and removes it with its
    CRLF; a line found within the scan limit is returned whatever its length,
    and an unfinished one is refused once it exceeds [MAX_HTTP_HEADER_SIZE]. *)
Lemma extractLine_eq buf out :
  extractLine buf out =
    match split_line buf with
    | Some (l, r) =>
        if zlen l <=? MAX_CHUNK_BODY_SIZE then (FrameStatus.Success, l, r)
        else (FrameStatus.HeaderTooLarge, out, buf)
    | None =>
        if zlen buf <=? MAX_HTTP_HEADER_SIZE then (FrameStatus.Incomplete, out, buf)
        else (FrameStatus.HeaderTooLarge, out, buf)
    end.
Proof.
  unfold extractLine. case_bool_decide as Hb; [by subst|].
  rewrite scan_line_spec by (unfold MAX_CHUNK_BODY_SIZE; lia). cbn [Z.add].
  destruct (split_line buf) as [[l r]|] eqn:Hs; rewrite !Z.add_0_l.
  - destruct (_ <=? _); [|done].
    apply split_line_Some in Hs as ->. rewrite take_zlen_app.
    replace (zlen l + 2) with (zlen (l ++ CRLF)) by (rewrite zlen_app; done).
    by rewrite app_assoc, drop_zlen_app.
  - unfold MAX_CHUNK_BODY_SIZE, MAX_HTTP_HEADER_SIZE.
    destruct (Z.leb_spec (zlen buf) (64 * 1024 + 1)), (Z.ltb_spec (8 * 1024) (zlen buf)),
      (Z.leb_spec (zlen buf) (8 * 1024)); try done; lia.
Qed.

(** A line does not contain a CRLF of its own. *)
Lemma is_line_no_split l : is_line l -> split_line l = None.
Proof.
  unfold is_line. intros Hl. destruct (split_line l) as [[a b]|] eqn:Hs; [|done].
  rewrite (split_line_app _ _ _ CRLF Hs) in Hl. injection Hl as -> Hb.
  by apply app_eq_nil in Hb as [_ ?].
Qed.

(** C35: [extractLine] meets its contract on every branch: on success the buffer
    was the line, its CRLF and what is left, and the line holds no earlier CRLF;
    otherwise output and buffer are untouched, an incomplete line has no CRLF
    and at most 8 KiB, and a refusal means that no CRLF came within 8 KiB of
    buffered data or that the line exceeds the scan limit of 64 KiB. *)
Theorem extractLine_correct (buf out : bytes) :
  let '(status, line, buf') := extractLine buf out in
  match status with
  | FrameStatus.Success => buf = line ++ CRLF ++ buf' /\ is_line line /\ zlen line <= MAX_CHUNK_BODY_SIZE
  | FrameStatus.Incomplete =>
      line = out /\ buf' = buf /\ split_line buf = None /\ zlen buf <= MAX_HTTP_HEADER_SIZE
  | FrameStatus.HeaderTooLarge =>
      line = out /\ buf' = buf /\
      (split_line buf = None /\ MAX_HTTP_HEADER_SIZE < zlen buf \/
       exists l r, split_line buf = Some (l, r) /\ MAX_CHUNK_BODY_SIZE < zlen l)
  | FrameStatus.PayloadTooLarge => False
  end.
Proof.
  rewrite extractLine_eq. destruct (split_line buf) as [[l r]|] eqn:Hs.
  - destruct (Z.leb_spec (zlen l) MAX_CHUNK_BODY_SIZE).
    + split; [by apply split_line_Some|]. split; [by eapply split_line_is_line|done].
    + split; [done|]. split; [done|]. right. by exists l, r.
  - destruct (Z.leb_spec (zlen buf) MAX_HTTP_HEADER_SIZE); split_and!; try done. by left.
Qed.

(** The limit on a line depends on how it arrives.  A line longer than
    [MAX_HTTP_HEADER_SIZE] and within [MAX_CHUNK_BODY_SIZE] is accepted when its
    CRLF is in the buffer, and refused when the same line is seen before its
    CRLF has arrived, although the header says that [extractLine] refuses lines
    above [MAX_HTTP_HEADER_SIZE]. *)
Lemma line_limit_depends_on_arrival (l out : bytes) :
  is_line l -> MAX_HTTP_HEADER_SIZE < zlen l <= MAX_CHUNK_BODY_SIZE ->
  extractLine (l ++ CRLF) out = (FrameStatus.Success, l, []) /\
  extractLine l out = (FrameStatus.HeaderTooLarge, out, l).
Proof.
  intros Hl [Hlo Hhi]. rewrite !extractLine_eq, (is_line_no_split l Hl).
  unfold is_line in Hl. rewrite Hl.
  destruct (Z.leb_spec (zlen l) MAX_CHUNK_BODY_SIZE); [|lia].
  by destruct (Z.leb_spec (zlen l) MAX_HTTP_HEADER_SIZE); [lia|].
Qed.

Lemma line_limit_depends_on_arrival_witness :
  let l := replicate (Z.to_nat 9000) Byte.x61 in
  extractLine (l ++ CRLF) [] = (FrameStatus.Success, l, []) /\
  extractLine l [] = (FrameStatus.HeaderTooLarge, [], l).
Proof.
  intros l. apply (line_limit_depends_on_arrival l []); [|by vm_compute].
  apply no_cr_is_line. by intros [? _]%elem_of_replicate.
Defined.

(** [extractBytes] on a request within the limit. *)
Lemma extractBytes_exact data rest out :
  zlen data <= MAX_HTTP_BODY_SIZE ->
  extractBytes (data ++ rest) (zlen data) out = (FrameStatus.Success, data, rest).
Proof.
  intros H. unfold extractBytes.
  destruct (Z.ltb_spec MAX_HTTP_BODY_SIZE (zlen data)); [lia|].
  rewrite zlen_app. pose proof (zlen_nonneg rest).
  destruct (Z.ltb_spec (zlen data + zlen rest) (zlen data)); [lia|].
  by rewrite take_zlen_app, drop_zlen_app.
Qed.

(** A successful slice is the same when more bytes follow. *)
Lemma extractBytes_app buf n out got rest more :
  extractBytes buf n out = (FrameStatus.Success, got, rest) ->
  extractBytes (buf ++ more) n out = (FrameStatus.Success, got, rest ++ more).
Proof.
  unfold extractBytes. split_if; [done|].
  destruct (Z.ltb_spec (zlen buf) n); [done|]. intros [= <- <-].
  rewrite zlen_app. pose proof (zlen_nonneg more).
  destruct (Z.ltb_spec (zlen buf + zlen more) n); [lia|].
  by rewrite take_app_within, drop_app_within.
Qed.

Lemma extractBytes_success_inv buf n out got rest :
  0 <= n ->
  extractBytes buf n out = (FrameStatus.Success, got, rest) ->
  buf = got ++ rest /\ zlen got = n /\ n <= MAX_HTTP_BODY_SIZE.
Proof.
  unfold extractBytes. intros Hn.
  destruct (Z.ltb_spec MAX_HTTP_BODY_SIZE n); [done|].
  destruct (Z.ltb_spec (zlen buf) n); [done|].
  intros [= <- <-]. rewrite take_drop, zlen_take by lia. done.
Qed.

End Framer.
