(* ===== verification/Headers.v ===== *)
(** * [HttpHeaders]: the case-insensitive header map

    [src/src/Http/HttpHeaders.cpp].  The [std::unordered_map] is a finite map;
    its unspecified iteration order matters only to the encoder, which takes
    it as a parameter.  Keys are stored in lower case by [set]; [del] looks the
    lowered key up but erases the key as it was given. *)

From S2P Require Import Prelude CppStd.

Module HttpHeaders.

Record t := mk { m_headers : gmap bytes bytes }.

(** [HttpHeaders() = default]. *)
Definition empty : t := mk ∅.

Definition toLower (str : bytes) : bytes := CppStd.tolower <$> str.

Definition set (key value : bytes) (h : t) : t :=
  mk (<[toLower key := value]> (m_headers h)).

Definition get (key : bytes) (h : t) : option bytes := m_headers h !! toLower key.

Definition del (key : bytes) (h : t) : t :=
  match m_headers h !! toLower key with
  | Some _ => mk (delete key (m_headers h))
  | None => h
  end.

Definition has (key : bytes) (h : t) : bool := bool_decide (is_Some (m_headers h !! toLower key)).

(** [std::stoull] may throw; [catch (...)] turns every failure into [0]. *)
Definition getContentLength (h : t) : Z :=
  match get (bs "content-length") h with
  | None => 0
  | Some val => match CppStd.stoull val with Some n => n | None => 0 end
  end.

(** ** Invariant: every stored key is in lower case *)

Definition lower_keys (h : t) : Prop :=
  forall k v, m_headers h !! k = Some v -> toLower k = k.

Lemma toLower_idemp s : toLower (toLower s) = toLower s.
Proof.
  unfold toLower. rewrite <- list_fmap_compose. apply list_fmap_ext.
  intros i b _. apply CppStd.tolower_idemp.
Qed.

Lemma lower_keys_empty : lower_keys empty.
Proof. intros k v. cbn. by rewrite lookup_empty. Qed.

Lemma lower_keys_set k v h : lower_keys h -> lower_keys (set k v h).
Proof.
  intros Hh k' v'. cbn. rewrite lookup_insert_Some.
  intros [[<- _]|[_ H]]; [apply toLower_idemp|by eapply Hh].
Qed.

Lemma lower_keys_del k h : lower_keys h -> lower_keys (del k h).
Proof.
  intros Hh. unfold del. destruct (m_headers h !! _); [|done].
  intros k' v'. cbn. rewrite lookup_delete_Some. intros [_ H]. by eapply Hh.
Qed.

#[global] Hint Resolve lower_keys_empty lower_keys_set lower_keys_del : http.

(** ** Lookups after an update *)

Lemma get_set k k' v h :
  get k' (set k v h) = if decide (toLower k' = toLower k) then Some v else get k' h.
Proof.
  unfold get; cbn. rewrite lookup_insert.
  case_decide as H1; case_decide as H2; congruence.
Qed.

Lemma get_set_eq k k' v h : toLower k' = toLower k -> get k' (set k v h) = Some v.
Proof. intros H. rewrite get_set. by rewrite decide_True. Qed.

Lemma get_set_ne k k' v h : toLower k' <> toLower k -> get k' (set k v h) = get k' h.
Proof. intros H. rewrite get_set. by rewrite decide_False. Qed.

Lemma get_lower k k' h : toLower k = toLower k' -> get k h = get k' h.
Proof. unfold get. by intros ->. Qed.

(** A key with an upper-case letter is never erased. *)
Lemma del_upper k h : lower_keys h -> toLower k <> k -> del k h = h.
Proof.
  intros Hh Hk. unfold del. destruct h as [m]; cbn in *.
  destruct (m !! toLower k); [|done]. f_equal. apply delete_id.
  destruct (m !! k) as [v|] eqn:Hl; [|done]. by destruct Hk; eapply Hh.
Qed.

Lemma get_del_lower k k' h :
  toLower k = k -> get k' (del k h) = if decide (toLower k' = k) then None else get k' h.
Proof.
  intros Hk. unfold get, del. rewrite Hk. destruct (m_headers h !! k) as [v|] eqn:Hl; cbn.
  - rewrite lookup_delete. case_decide as H1; case_decide as H2; congruence.
  - case_decide; congruence.
Qed.

Lemma getContentLength_range h : 0 <= getContentLength h < 2 ^ 64.
Proof.
  unfold getContentLength. destruct (get _ _) as [v|]; [|lia].
  destruct (CppStd.stoull v) eqn:Hv; [|lia]. by apply CppStd.stoull_range in Hv.
Qed.

End HttpHeaders.
