(* ===== verification/Request.v ===== *)
(** * [HttpRequest]: the request object and the keep-alive decision

    [src/include/Http/HttpRequest.h] and [src/src/Http/HttpRequest.cpp]. *)

From S2P Require Import Prelude CppStd Headers.

Module HttpMethod.
Inductive t := GET | POST | PUT | DELETE | HEAD | OPTIONS | UNKNOWN.
#[global] Instance eq_dec : EqDecision t.
  Proof. solve_decision. Defined.
End HttpMethod.

Module HttpRequest.

Record t := mk {
  method : HttpMethod.t;
  path : bytes;
  version : bytes;
  headers : HttpHeaders.t;
  body : bytes
}.

(** A default-constructed request, which [reset] restores. *)
Definition init : t :=
  {| method := HttpMethod.UNKNOWN; path := []; version := [];
     headers := HttpHeaders.empty; body := [] |}.

Definition reset (r : t) : t :=
  {| method := HttpMethod.UNKNOWN; path := []; version := [];
     headers := HttpHeaders.empty; body := [] |}.

Definition with_headers (h : HttpHeaders.t) (r : t) : t :=
  {| method := method r; path := path r; version := version r; headers := h; body := body r |}.

Definition with_body (b : bytes) (r : t) : t :=
  {| method := method r; path := path r; version := version r; headers := headers r; body := b |}.

(** [static std::string to_lower] of HttpRequest.cpp. *)
Definition to_lower (s : bytes) : bytes := CppStd.tolower <$> s.

Definition wants_keep_alive (r : t) : bool :=
  match HttpHeaders.get (bs "Connection") (headers r) with
  | Some conn =>
      let v := to_lower conn in
      if CppStd.contains (bs "close") v then false
      else if CppStd.contains (bs "keep-alive") v then true
      else bool_decide (version r = bs "HTTP/1.1")
  | None => bool_decide (version r = bs "HTTP/1.1")
  end.

End HttpRequest.
