(* ===== verification/Parser.v ===== *)
(** * [HttpRequestParser]: the incremental request parser

    [src/src/Http/HttpRequestParser.cpp].  One iteration of the [while] loop is
    [loop_body], split by the state it handles; [parse] iterates it.  A call
    works on a configuration: the parser object, the read buffer it was given
    by reference and the request it fills in. *)

From S2P Require Import Prelude CppStd Framing Headers Request.

Module ParseResult.
Inductive t := Success | Incomplete | Error.
#[global] Instance eq_dec : EqDecision t.
  Proof. solve_decision. Defined.
End ParseResult.

Module State.
Inductive t :=
    RequestLine | Headers | Body | ChunkSize | ChunkData | ChunkCRLF | Trailers
  | Complete | Error.
#[global] Instance eq_dec : EqDecision t.
  Proof. solve_decision. Defined.
End State.

Module HttpRequestParser.

Record t := mk { m_state : State.t; m_chunk_remaining : Z }.

Definition init : t := {| m_state := State.RequestLine; m_chunk_remaining := 0 |}.

Definition reset (p : t) : t := {| m_state := State.RequestLine; m_chunk_remaining := 0 |}.

Definition isComplete (p : t) : bool := bool_decide (m_state p = State.Complete).

(** What a call of [parse] reads and writes. *)
Record cfg := mk_cfg { c_parser : t; readBuffer : bytes; request : HttpRequest.t }.

Definition set_state (s : State.t) (c : cfg) : cfg :=
  mk_cfg (mk s (m_chunk_remaining (c_parser c))) (readBuffer c) (request c).

Definition set_buffer (b : bytes) (c : cfg) : cfg := mk_cfg (c_parser c) b (request c).

Definition set_request (r : HttpRequest.t) (c : cfg) : cfg :=
  mk_cfg (c_parser c) (readBuffer c) r.

Definition state_of (c : cfg) : State.t := m_state (c_parser c).

(** How one iteration of the loop ends: go on, [break], or [return]. *)
Inductive ctl :=
| Next (c : cfg)
| Break (c : cfg)
| Return (r : ParseResult.t) (c : cfg).

(** [m_state = State::Error; return ParseResult::Error;] *)
Definition fail (c : cfg) : ctl := Return ParseResult.Error (set_state State.Error c).

(** Every state but [Body] and [ChunkData] begins the same way: extract a line,
    pause the machine when it is incomplete, fail when the framer refuses it,
    and otherwise go on with the line and the shortened buffer. *)
Definition read_line (c : cfg) (k : bytes -> cfg -> ctl) : ctl :=
  let '(status, line, buf') := Framer.extractLine (readBuffer c) [] in
  let c' := set_buffer buf' c in
  match status with
  | FrameStatus.Incomplete => Return ParseResult.Incomplete c'
  | FrameStatus.Success => k line c'
  | _ => fail c'
  end.

Definition stringToMethod (methodStr : bytes) : HttpMethod.t :=
  if bool_decide (methodStr = bs "GET") then HttpMethod.GET
  else if bool_decide (methodStr = bs "POST") then HttpMethod.POST
  else if bool_decide (methodStr = bs "PUT") then HttpMethod.PUT
  else if bool_decide (methodStr = bs "DELETE") then HttpMethod.DELETE
  else if bool_decide (methodStr = bs "HEAD") then HttpMethod.HEAD
  else if bool_decide (methodStr = bs "OPTIONS") then HttpMethod.OPTIONS
  else HttpMethod.UNKNOWN.

(** Both line parsers return what the C++ function returns and the request as
    it leaves it, which a failing call may have changed too. *)
Definition parseRequestLine (line : bytes) (req : HttpRequest.t) : bool * HttpRequest.t :=
  match CppStd.find_byte SP line with
  | None => (false, req)
  | Some first_space =>
      match CppStd.find_byte_from SP line (first_space + 1) with
      | None => (false, req)
      | Some second_space =>
          let method_str := CppStd.substr line 0 first_space in
          let path_str := CppStd.substr line (first_space + 1) (second_space - first_space - 1) in
          let version_str := drop (second_space + 1) line in
          let req' :=
            HttpRequest.mk (stringToMethod method_str) path_str version_str
              (HttpRequest.headers req) (HttpRequest.body req) in
          (negb (bool_decide (HttpRequest.method req' = HttpMethod.UNKNOWN))
           && negb (bool_decide (HttpRequest.path req' = [])), req')
      end
  end.

(** [while (!value.empty() && (front is ' ' or '\t')) value.remove_prefix(1)]. *)
Fixpoint trim_front (value : bytes) : bytes :=
  match value with
  | b :: v => if bool_decide (b = SP) || bool_decide (b = HTAB) then trim_front v else value
  | [] => []
  end.

Definition parseHeaderLine (line : bytes) (req : HttpRequest.t) : bool * HttpRequest.t :=
  match CppStd.find_byte COLON line with
  | None => (false, req)
  | Some colon_pos =>
      let key := CppStd.substr line 0 colon_pos in
      let value := trim_front (drop (colon_pos + 1) line) in
      (true, HttpRequest.with_headers (HttpHeaders.set key value (HttpRequest.headers req)) req)
  end.

(** ** The loop body, state by state *)

(** [m_state == State::Body]: the [Content-Length] path. *)
Definition step_body (c : cfg) : ctl :=
  let req := request c in
  let content_length := HttpHeaders.getContentLength (HttpRequest.headers req) in
  let bytes_needed := u64 (content_length - zlen (HttpRequest.body req)) in
  let '(status, body', buf') :=
    Framer.extractBytes (readBuffer c) bytes_needed (HttpRequest.body req) in
  let c' := mk_cfg (c_parser c) buf' (HttpRequest.with_body body' req) in
  match status with
  | FrameStatus.Incomplete => Return ParseResult.Incomplete c'
  | FrameStatus.Success => Break (set_state State.Complete c')
  | _ => fail c'
  end.

(** Strip a chunk extension: ["1a;ext=val"] gives ["1a"]. *)
Definition chunk_size_hex (line : bytes) : bytes :=
  match CppStd.find_byte SEMI line with
  | None => line
  | Some semi => CppStd.substr line 0 semi
  end.

(** The syntax checks on a chunk-size line; [None] is [return ParseResult::Error]. *)
Definition read_chunk_size (line : bytes) : option Z :=
  let size_hex := chunk_size_hex line in
  match size_hex with
  | [] => None
  | b :: _ =>
      if bool_decide (b = Byte.x2d) || bool_decide (b = Byte.x2b) || CppStd.isspace b
      then None
      else
        let r := CppStd.strtoul 16 size_hex in
        if bool_decide (CppStd.ul_end r = 0%nat)
           || negb (CppStd.at_end size_hex (CppStd.ul_end r))
           || CppStd.ul_erange r
        then None
        else Some (CppStd.ul_value r)
  end.

Definition step_chunk_size (c : cfg) : ctl :=
  read_line c (fun line c' =>
    match read_chunk_size line with
    | None => fail c'
    | Some size =>
        if Framer.MAX_HTTP_BODY_SIZE <? size then fail c'
        else if Framer.MAX_HTTP_BODY_SIZE <? u64 (zlen (HttpRequest.body (request c')) + size)
        then fail c'
        else if size =? 0 then Next (set_state State.Trailers c')
        else Next (mk_cfg (mk State.ChunkData size) (readBuffer c') (request c'))
    end).

Definition step_chunk_data (c : cfg) : ctl :=
  let '(status, chunk, buf') :=
    Framer.extractBytes (readBuffer c) (m_chunk_remaining (c_parser c)) [] in
  let c' := set_buffer buf' c in
  match status with
  | FrameStatus.Incomplete => Return ParseResult.Incomplete c'
  | FrameStatus.Success =>
      let req := request c in
      Next (set_state State.ChunkCRLF
              (set_request (HttpRequest.with_body (HttpRequest.body req ++ chunk) req) c'))
  | _ => fail c'
  end.

Definition step_chunk_crlf (c : cfg) : ctl :=
  read_line c (fun line c' =>
    if bool_decide (line = []) then Next (set_state State.ChunkSize c') else fail c').

Definition step_trailers (c : cfg) : ctl :=
  read_line c (fun line c' =>
    if bool_decide (line = []) then Break (set_state State.Complete c') else Next c').

(** The end of the header block chooses how the body is framed. *)
Definition end_of_headers (h : HttpHeaders.t) : State.t :=
  let chunked :=
    match HttpHeaders.get (bs "Transfer-Encoding") h with
    | Some te => CppStd.contains (bs "chunked") te
    | None => false
    end in
  if chunked then State.ChunkSize
  else if 0 <? HttpHeaders.getContentLength h then State.Body
  else State.Complete.

(** The request line and the header lines. *)
Definition step_head (c : cfg) : ctl :=
  read_line c (fun line c' =>
    if bool_decide (state_of c' = State.RequestLine) then
      let '(ok, req') := parseRequestLine line (request c') in
      let c'' := set_request req' c' in
      if ok then Next (set_state State.Headers c'') else fail c''
    else if bool_decide (state_of c' = State.Headers) then
      if bool_decide (line = []) then
        Next (set_state (end_of_headers (HttpRequest.headers (request c'))) c')
      else
        let '(ok, req') := parseHeaderLine line (request c') in
        let c'' := set_request req' c' in
        if ok then Next c'' else fail c''
    else Next c').

Definition loop_body (c : cfg) : ctl :=
  match state_of c with
  | State.Body => step_body c
  | State.ChunkSize => step_chunk_size c
  | State.ChunkData => step_chunk_data c
  | State.ChunkCRLF => step_chunk_crlf c
  | State.Trailers => step_trailers c
  | _ => step_head c
  end.

(** The loop condition. *)
Definition finished (c : cfg) : bool :=
  bool_decide (state_of c = State.Complete) || bool_decide (state_of c = State.Error).

(** [return (m_state == State::Complete) ? Success : Error;] *)
Definition final (c : cfg) : ParseResult.t * cfg :=
  (if bool_decide (state_of c = State.Complete) then ParseResult.Success else ParseResult.Error, c).

Fixpoint parse_loop (fuel : nat) (c : cfg) : option (ParseResult.t * cfg) :=
  if finished c then Some (final c)
  else match fuel with
       | O => None
       | S f =>
           match loop_body c with
           | Next c' => parse_loop f c'
           | Break c' => Some (final c')
           | Return r c' => Some (r, c')
           end
       end.

(** Each iteration consumes input, or leaves [ChunkData] for [ChunkCRLF]. *)
Definition measure (c : cfg) : nat :=
  2 * length (readBuffer c) + (if bool_decide (state_of c = State.ChunkData) then 1 else 0).

(** The call.  [parse_unfold] shows that the fuel never runs out, so that the
    fallback is never taken. *)
Definition parse (c : cfg) : ParseResult.t * cfg :=
  match parse_loop (S (measure c)) c with
  | Some rc => rc
  | None => (ParseResult.Error, c)
  end.

End HttpRequestParser.
