(* ===== verification/ParserLoop.v ===== *)
(** * The parse loop: termination and fragmentation

    The loop of [HttpRequestParser::parse] as a big-step relation, the equation
    of the [while] loop, and what a call does when the same bytes arrive in
    several pieces. *)

From S2P Require Import Prelude CppStd Framing Headers Request Parser.
Import HttpRequestParser.

Module ParserLoop.

(** ** Reading a line *)

Lemma set_buffer_id c : set_buffer (readBuffer c) c = c.
Proof. by destruct c. Qed.

Lemma read_line_eq c k :
  read_line c k =
    match Framer.split_line (readBuffer c) with
    | Some (l, r) =>
        if zlen l <=? Framer.MAX_CHUNK_BODY_SIZE then k l (set_buffer r c) else fail c
    | None =>
        if zlen (readBuffer c) <=? Framer.MAX_HTTP_HEADER_SIZE
        then Return ParseResult.Incomplete c else fail c
    end.
Proof.
  unfold read_line. rewrite Framer.extractLine_eq.
  destruct (Framer.split_line _) as [[l r]|]; destruct (_ <=? _); by rewrite ?set_buffer_id.
Qed.

(** ** The loop as a relation *)

Inductive runs : cfg -> ParseResult.t * cfg -> Prop :=
| runs_finished c : finished c = true -> runs c (final c)
| runs_next c c' rc :
    finished c = false -> loop_body c = Next c' -> runs c' rc -> runs c rc
| runs_break c c' : finished c = false -> loop_body c = Break c' -> runs c (final c')
| runs_return c r c' : finished c = false -> loop_body c = Return r c' -> runs c (r, c').

Lemma runs_det c rc rc' : runs c rc -> runs c rc' -> rc = rc'.
Proof.
  intros H; revert rc'; induction H; inversion 1; simplify_eq;
    repeat match goal with
    | H1 : loop_body ?c = _, H2 : loop_body ?c = _ |- _ => rewrite H1 in H2; simplify_eq
    end; first [congruence | auto].
Qed.

(** Which states extract a line. *)
Definition reads_line (c : cfg) : bool :=
  negb (bool_decide (state_of c = State.Body) || bool_decide (state_of c = State.ChunkData)).

Lemma split_line_shorter buf l r :
  Framer.split_line buf = Some (l, r) -> (length r + 2 <= length buf)%nat.
Proof.
  intros H%Framer.split_line_zlen. pose proof (zlen_nonneg l). unfold zlen in *. lia.
Qed.

(** The successor of a line-reading iteration has the rest of the buffer. *)
Lemma read_line_next c k c' :
  read_line c k = Next c' ->
  exists l r, Framer.split_line (readBuffer c) = Some (l, r) /\ k l (set_buffer r c) = Next c'.
Proof.
  rewrite read_line_eq. destruct (Framer.split_line _) as [[l r]|] eqn:Hs.
  - destruct (_ <=? _); [|done]. eauto.
  - by destruct (_ <=? _).
Qed.

Ltac step_next_cases :=
  repeat match goal with
  | H : context [if ?b then _ else _] |- _ => destruct b eqn:?
  | H : context [match ?o with Some _ => _ | None => _ end] |- _ => destruct o eqn:?
  | H : context [let '(_, _) := ?p in _] |- _ => destruct p eqn:?
  | H : Next _ = Next _ |- _ => injection H as <-
  | H : fail _ = Next _ |- _ => discriminate H
  | H : Break _ = Next _ |- _ => discriminate H
  end.

(** Progress: an iteration that goes on makes the measure smaller. *)
Lemma next_measure c c' : loop_body c = Next c' -> (measure c' < measure c)%nat.
Proof.
  assert (forall k, read_line c k = Next c' ->
    (forall l r d, k l (set_buffer r c) = Next d -> readBuffer d = r) ->
    (measure c' < measure c)%nat) as Hline.
  { intros k (l & r & Hs & Hk)%read_line_next Hbuf.
    pose proof (split_line_shorter _ _ _ Hs) as Hlen. unfold measure.
    rewrite (Hbuf _ _ _ Hk). repeat case_bool_decide; lia. }
  unfold loop_body. destruct (state_of c) eqn:Hst.
  1,2,8,9: (intros H; apply (Hline _ H); intros l r d Hd; cbv zeta in Hd; by step_next_cases).
  - unfold step_body. destruct (Framer.extractBytes _ _ _) as [[[] ?] ?]; done.
  - intros H; apply (Hline _ H); intros l r d Hd; cbv zeta in Hd; by step_next_cases.
  - unfold step_chunk_data, measure. rewrite Hst.
    destruct (Framer.extractBytes _ _ _) as [[[] ch] rest] eqn:He; try done.
    intros [= <-]. cbn. revert He. unfold Framer.extractBytes.
    repeat split_if; try done. intros [= _ <-]. rewrite length_drop. lia.
  - intros H; apply (Hline _ H); intros l r d Hd; cbv zeta in Hd; by step_next_cases.
  - intros H; apply (Hline _ H); intros l r d Hd; cbv zeta in Hd; by step_next_cases.
Qed.

Lemma parse_loop_runs fuel c rc : parse_loop fuel c = Some rc -> runs c rc.
Proof.
  revert c; induction fuel as [|f IH]; intros c; cbn [parse_loop];
    destruct (finished c) eqn:Hf; try done.
  1,2: (intros [= <-]; by apply runs_finished).
  destruct (loop_body c) eqn:Hb.
  - intros H. eapply runs_next; eauto.
  - intros [= <-]. by eapply runs_break.
  - intros [= <-]. by eapply runs_return.
Qed.

Lemma parse_loop_total fuel c :
  (measure c < fuel)%nat -> exists rc, parse_loop fuel c = Some rc.
Proof.
  revert c; induction fuel as [|f IH]; intros c Hm; [lia|]. cbn [parse_loop].
  destruct (finished c); [eauto|].
  destruct (loop_body c) eqn:Hb; eauto.
  apply IH. apply next_measure in Hb. lia.
Qed.

(** [parse] runs the loop to its end. *)
Lemma parse_runs c : runs c (parse c).
Proof.
  unfold parse. destruct (parse_loop_total (S (measure c)) c) as [rc Hrc]; [lia|].
  rewrite Hrc. by eapply parse_loop_runs.
Qed.

Lemma runs_parse c rc : runs c rc -> parse c = rc.
Proof. intros H. eapply runs_det; [apply parse_runs|done]. Qed.

(** ** More input *)

(** The client's next bytes are appended to the read buffer. *)
Definition push (more : bytes) (c : cfg) : cfg := set_buffer (readBuffer c ++ more) c.

Definition push_ctl (more : bytes) (x : ctl) : ctl :=
  match x with
  | Next c => Next (push more c)
  | Break c => Break (push more c)
  | Return r c => Return r (push more c)
  end.

(** An iteration paused for lack of input. *)
Definition pauses (x : ctl) : Prop := exists c, x = Return ParseResult.Incomplete c.

(** The framer refuses the unfinished line at the front of the buffer. *)
Definition line_refused (c : cfg) : Prop :=
  reads_line c = true /\ Framer.split_line (readBuffer c) = None /\
  Framer.MAX_HTTP_HEADER_SIZE < zlen (readBuffer c).

Lemma push_nil c : push [] c = c.
Proof. unfold push. rewrite app_nil_r. apply set_buffer_id. Qed.

Lemma push_push u v c : push v (push u c) = push (u ++ v) c.
Proof. unfold push, set_buffer; cbn. by rewrite app_assoc. Qed.

(** A line-reading iteration pauses, is refused, or does the same thing whatever
    follows, provided its continuation only hands the buffer on. *)
Lemma read_line_push c k more :
  reads_line c = true ->
  (forall l d, k l (push more d) = push_ctl more (k l d) /\ ~ pauses (k l d)) ->
  read_line c k = Return ParseResult.Incomplete c \/
  (line_refused c /\ read_line c k = fail c) \/
  (read_line (push more c) k = push_ctl more (read_line c k) /\ ~ pauses (read_line c k)).
Proof.
  intros Hr Hk. rewrite !read_line_eq.
  destruct (Framer.split_line (readBuffer c)) as [[l r]|] eqn:Hs.
  - right; right. cbn [push readBuffer set_buffer].
    rewrite (Framer.split_line_app _ _ _ more Hs).
    destruct (_ <=? _); [apply (Hk l (set_buffer r c))|].
    split; [done|]. by intros [d Hd].
  - destruct (Z.leb_spec (zlen (readBuffer c)) Framer.MAX_HTTP_HEADER_SIZE);
      [by left|right; left]. done.
Qed.

Ltac solve_parametric :=
  intros l d;
  match goal with
  | |- context [push ?m ?c] =>
      change (state_of (push m c)) with (state_of c);
      change (request (push m c)) with (request c)
  end; cbv beta zeta;
  repeat match goal with
  | |- context [if ?b then _ else _] => destruct b eqn:?
  | |- context [match ?o with Some _ => _ | None => _ end] => destruct o
  | |- context [let '(_, _) := ?p in _] => destruct p
  end; (split; [reflexivity|by intros [? ?]]).

Lemma loop_body_push c more :
  loop_body c = Return ParseResult.Incomplete c \/
  (line_refused c /\ loop_body c = fail c) \/
  (loop_body (push more c) = push_ctl more (loop_body c) /\ ~ pauses (loop_body c)).
Proof.
  unfold loop_body. change (state_of (push more c)) with (state_of c).
  destruct (state_of c) eqn:Hst.
  1,2,4,6,7,8,9:
    apply read_line_push; [by unfold reads_line; rewrite Hst|solve_parametric].
  - unfold step_body. cbn [push readBuffer set_buffer request].
    destruct (Framer.extractBytes (readBuffer c) _ _) as [[st b] rest] eqn:He.
    pose proof He as He'. unfold Framer.extractBytes in He.
    destruct (_ <? _) eqn:Hbig.
    + injection He as <- <- <-. right; right. unfold Framer.extractBytes. rewrite Hbig.
      split; [done|]. by intros [? ?].
    + destruct (zlen _ <? _).
      * injection He as <- <- <-. left. f_equal. by destruct c as [? ? []].
      * injection He as <- _ _. right; right.
        rewrite (Framer.extractBytes_app _ _ _ _ _ more He').
        split; [done|]. by intros [? ?].
  - unfold step_chunk_data. cbn [push readBuffer set_buffer c_parser].
    destruct (Framer.extractBytes (readBuffer c) _ _) as [[st b] rest] eqn:He.
    pose proof He as He'. unfold Framer.extractBytes in He.
    destruct (_ <? _) eqn:Hbig.
    + injection He as <- <- <-. right; right. unfold Framer.extractBytes. rewrite Hbig.
      split; [done|]. by intros [? ?].
    + destruct (zlen _ <? _).
      * injection He as <- <- <-. left. by rewrite set_buffer_id.
      * injection He as <- _ _. right; right.
        rewrite (Framer.extractBytes_app _ _ _ _ _ more He').
        split; [done|]. by intros [? ?].
Qed.

(** Success is only reported after the loop. *)
Lemma loop_body_no_success c d : loop_body c <> Return ParseResult.Success d.
Proof.
  assert (forall k, (forall l e, k l e <> Return ParseResult.Success d) ->
    read_line c k <> Return ParseResult.Success d) as Hline.
  { intros k Hk. rewrite read_line_eq. destruct (Framer.split_line _) as [[l r]|];
      split_if; first [done|apply Hk]. }
  unfold loop_body. destruct (state_of c).
  3: unfold step_body; by destruct (Framer.extractBytes _ _ _) as [[[] b] rest].
  4: unfold step_chunk_data; by destruct (Framer.extractBytes _ _ _) as [[[] b] rest].
  all: apply Hline; intros l e; cbv zeta;
    repeat match goal with
    | |- context [if ?b then _ else _] => destruct b
    | |- context [let '(_, _) := ?p in _] => destruct p
    | |- context [match ?o with Some _ => _ | None => _ end] => destruct o
    end; done.
Qed.

(** A paused call leaves a configuration from which more input resumes it. *)
Lemma runs_resume c c' more rc :
  runs c (ParseResult.Incomplete, c') -> runs (push more c') rc -> runs (push more c) rc.
Proof.
  remember (ParseResult.Incomplete, c') as rc0 eqn:Hrc0. intros H; revert Hrc0.
  induction H as [c Hf|c d rc0 Hf Hb _ IH|c d Hf Hb|c r d Hf Hb].
  - unfold final. intros [= Hr <-]. by case_bool_decide.
  - intros -> Hmore. destruct (loop_body_push c more) as [Hp|[[_ Hp]|[Hp _]]];
      [by rewrite Hp in Hb..|].
    rewrite Hb in Hp. by eapply runs_next; [| |apply IH].
  - unfold final. intros [= Hr <-]. by case_bool_decide.
  - intros [= -> ->] Hmore. destruct (loop_body_push c more) as [Hp|[[_ Hp]|[_ Hp]]].
    + rewrite Hp in Hb. by injection Hb as ->.
    + by rewrite Hp in Hb.
    + destruct Hp. by exists c'.
Qed.

(** A successful call only looked at the bytes it consumed. *)
Lemma runs_success_push c c' more :
  runs c (ParseResult.Success, c') -> runs (push more c) (ParseResult.Success, push more c').
Proof.
  remember (ParseResult.Success, c') as rc0 eqn:Hrc0. intros H; revert Hrc0.
  induction H as [c Hf|c d rc0 Hf Hb _ IH|c d Hf Hb|c r d Hf Hb].
  - intros [= Hr <-]. rewrite <- Hr at 1. by apply (runs_finished (push more c)).
  - intros ->. destruct (loop_body_push c more) as [Hp|[[_ Hp]|[Hp _]]];
      [by rewrite Hp in Hb..|].
    rewrite Hb in Hp. by eapply runs_next; [| |apply IH].
  - intros [= Hr <-]. destruct (loop_body_push c more) as [Hp|[[_ Hp]|[Hp _]]];
      [by rewrite Hp in Hb..|].
    rewrite Hb in Hp. rewrite <- Hr at 1. by apply (runs_break (push more c) (push more d)).
  - intros [= -> ->]. destruct (loop_body_push c more) as [Hp|[[_ Hp]|[Hp _]]];
      [by rewrite Hp in Hb..|].
    rewrite Hb in Hp. by eapply runs_return.
Qed.

End ParserLoop.
