(* ===== verification/Fragmentation.v ===== *)
(** * Fragmented delivery

    TCP may cut a request anywhere.  The connection appends what each [recv]
    pass brought to the read buffer and calls [parse] again; [feed] is that
    loop.  While the lines of the request stay below the framer's limit for an
    unfinished line, the cuts do not matter. *)

From S2P Require Import Prelude CppStd Framing Headers Request Parser ParserLoop.
Import HttpRequestParser ParserLoop.

Module Fragmentation.

(** Append a fragment and parse; stop at the first answer that is not
    [Incomplete], keeping the fragments not delivered yet. *)
Fixpoint feed (c : cfg) (frags : list bytes) : ParseResult.t * cfg * list bytes :=
  match frags with
  | [] => (ParseResult.Incomplete, c, [])
  | f :: fs =>
      let '(r, c') := parse (push f c) in
      match r with
      | ParseResult.Incomplete => feed c' fs
      | _ => (r, c', fs)
      end
  end.

(** The line about to be read, when there is one, could not be refused as
    unfinished whatever part of it had arrived. *)
Definition line_short (c : cfg) : bool :=
  negb (reads_line c) ||
  match Framer.split_line (readBuffer c) with
  | Some (l, _) => zlen l <? Framer.MAX_HTTP_HEADER_SIZE
  | None => true
  end.

Fixpoint short_lines_in (fuel : nat) (c : cfg) : bool :=
  if finished c then true
  else line_short c &&
       match fuel with
       | O => false
       | S f => match loop_body c with Next d => short_lines_in f d | _ => true end
       end.

(** Every line the run reads is short. *)
Definition short_lines (c : cfg) : Prop := exists fuel, short_lines_in fuel c = true.

Lemma short_lines_inv c :
  short_lines c -> finished c = false ->
  line_short c = true /\ (forall d, loop_body c = Next d -> short_lines d).
Proof.
  intros [[|f] Hs] Hf; cbn in Hs; rewrite Hf in Hs; simplify_bools; [done|].
  split; [done|]. intros d Hd. rewrite Hd in *. by exists f.
Qed.

(** A refused unfinished line is refused for good, unless it was about to end. *)
Lemma line_refused_push c more :
  line_refused c -> line_short (push more c) = true -> loop_body (push more c) = fail (push more c).
Proof.
  intros (Hr & Hn & Hlen) Hs.
  assert (forall k, read_line (push more c) k = fail (push more c)) as Hline.
  { intros k. rewrite read_line_eq. unfold line_short in Hs.
    change (reads_line (push more c)) with (reads_line c) in Hs. rewrite Hr in Hs. cbn in Hs.
    destruct (Framer.split_line (readBuffer c ++ more)) as [[l r]|] eqn:Hl;
      cbn [push readBuffer set_buffer]; rewrite Hl.
    - pose proof (Framer.split_line_None_prefix _ _ _ _ Hn Hl). lia.
    - rewrite zlen_app. pose proof (zlen_nonneg more).
      destruct (Z.leb_spec (zlen (readBuffer c) + zlen more) Framer.MAX_HTTP_HEADER_SIZE); [lia|done]. }
  unfold loop_body. change (state_of (push more c)) with (state_of c).
  unfold reads_line in Hr. destruct (state_of c); try done; apply Hline.
Qed.

(** An error on the bytes received so far is an error on all of them. *)
Lemma runs_error_push c c' more :
  runs c (ParseResult.Error, c') -> short_lines (push more c) ->
  exists c'', runs (push more c) (ParseResult.Error, c'').
Proof.
  remember (ParseResult.Error, c') as rc0 eqn:Hrc0. intros H; revert Hrc0.
  induction H as [c Hf|c d rc0 Hf Hb _ IH|c d Hf Hb|c r d Hf Hb].
  - intros [= Hr <-] _. exists (push more c). rewrite <- Hr at 1. by apply (runs_finished (push more c)).
  - intros -> Hs. destruct (loop_body_push c more) as [Hp|[[_ Hp]|[Hp _]]];
      [by rewrite Hp in Hb..|].
    rewrite Hb in Hp. destruct (short_lines_inv _ Hs Hf) as [_ Hs'].
    destruct (IH eq_refl (Hs' _ Hp)) as [c'' Hc'']. exists c''. by eapply runs_next.
  - intros [= Hr <-] Hs. destruct (loop_body_push c more) as [Hp|[[_ Hp]|[Hp _]]];
      [by rewrite Hp in Hb..|].
    rewrite Hb in Hp. exists (push more d). rewrite <- Hr at 1.
    by apply (runs_break (push more c) (push more d)).
  - intros [= -> ->] Hs. destruct (short_lines_inv _ Hs Hf) as [Hl _].
    destruct (loop_body_push c more) as [Hp|[[Href _]|[Hp _]]].
    + by rewrite Hp in Hb.
    + eexists. eapply runs_return; [done|]. by apply line_refused_push.
    + rewrite Hb in Hp. eexists. by eapply runs_return.
Qed.

(** Pausing on a prefix keeps the remaining run short-lined. *)
Lemma short_lines_resume c c' more :
  runs c (ParseResult.Incomplete, c') -> short_lines (push more c) -> short_lines (push more c').
Proof.
  remember (ParseResult.Incomplete, c') as rc0 eqn:Hrc0. intros H; revert Hrc0.
  induction H as [c Hf|c d rc0 Hf Hb _ IH|c d Hf Hb|c r d Hf Hb].
  - unfold final. intros [= Hr <-]. by case_bool_decide.
  - intros -> Hs. destruct (loop_body_push c more) as [Hp|[[_ Hp]|[Hp _]]];
      [by rewrite Hp in Hb..|].
    rewrite Hb in Hp. destruct (short_lines_inv _ Hs Hf) as [_ Hs']. by apply IH, Hs'.
  - unfold final. intros [= Hr <-]. by case_bool_decide.
  - intros [= -> ->] Hs. destruct (loop_body_push c more) as [Hp|[[_ Hp]|[_ Hp]]].
    + rewrite Hp in Hb. by injection Hb as ->.
    + by rewrite Hp in Hb.
    + destruct Hp. by exists c'.
Qed.

(** C1: However a byte stream whose lines are short is cut into fragments,
    feeding the fragments one by one gives the result of parsing the whole
    stream at once: the same verdict, and unless it is an error the same
    request, parser and leftover bytes. *)
Theorem parse_fragmentation (c : cfg) (frags : list bytes) (r : ParseResult.t) (c1 : cfg) :
  frags <> [] ->
  short_lines (push (concat frags) c) ->
  parse (push (concat frags) c) = (r, c1) ->
  exists c' rest,
    feed c frags = (r, c', rest) /\ (r <> ParseResult.Error -> c1 = push (concat rest) c').
Proof.
  revert c; induction frags as [|f fs IH]; [done|]. intros c _ Hs Hp. cbn [concat] in *.
  rewrite <- push_push in Hs, Hp. cbn [feed].
  pose proof (parse_runs (push f c)) as Hrun.
  destruct (parse (push f c)) as [[] d] eqn:Hd.
  - apply (runs_success_push _ _ (concat fs)), runs_parse in Hrun.
    rewrite Hp in Hrun. injection Hrun as -> ->. by exists d, fs.
  - pose proof (short_lines_resume _ _ _ Hrun Hs) as Hs'.
    assert (parse (push (concat fs) d) = (r, c1)) as Hp'.
    { rewrite <- Hp. symmetry. apply runs_parse.
      eapply runs_resume; [done|apply parse_runs]. }
    destruct fs as [|g fs]; [|by apply IH].
    cbn [concat feed] in *. rewrite push_nil in *. exists d, [].
    enough ((r, c1) = (ParseResult.Incomplete, d)) as [= -> ->].
    { split; [done|]. by rewrite push_nil. }
    rewrite <- Hp. by apply runs_parse.
  - destruct (runs_error_push _ _ (concat fs) Hrun Hs) as [e He%runs_parse].
    rewrite Hp in He. injection He as -> ->. by exists d, fs.
Qed.

Definition fragments : list bytes :=
  [bs "GET / HT"; bs "TP/1.1" ++ [CR]; [LF] ++ bs "Host: localhost"; CRLF ++ CRLF ++ bs "GET"].

Lemma parse_fragmentation_witness :
  exists c' rest,
    feed (mk_cfg init [] HttpRequest.init) fragments = (ParseResult.Success, c', rest) /\
    (ParseResult.Success <> ParseResult.Error ->
     (parse (push (concat fragments) (mk_cfg init [] HttpRequest.init))).2 = push (concat rest) c').
Proof.
  refine (parse_fragmentation (mk_cfg init [] HttpRequest.init) fragments ParseResult.Success _ _ _ _).
  - done.
  - exists 10%nat. by vm_compute.
  - by vm_compute.
Defined.

End Fragmentation.
