(* ===== verification/ParserSpec.v ===== *)
(** * What the parser accepts: invariant, bounds and round trips

    The well-formedness invariant of parser and request, the bounds it gives on
    the memory a client can make the server hold, and the round trips: a
    request printed in either body framing is parsed back, whatever follows it
    in the buffer. *)

From S2P Require Import Prelude CppStd Framing Headers Request Parser ParserLoop Fragmentation.
Import HttpRequestParser ParserLoop Fragmentation.

Module ParserSpec.

(** C28: [parse] satisfies the equation of its [while] loop, so the loop always
    terminates and the model's fuel never runs out. *)
Theorem parse_unfold (c : cfg) :
  parse c =
    if finished c then final c
    else match loop_body c with
         | Next c' => parse c'
         | Break c' => final c'
         | Return r c' => (r, c')
         end.
Proof.
  apply runs_parse. destruct (finished c) eqn:Hf; [by apply runs_finished|].
  destruct (loop_body c) eqn:Hb.
  - by eapply runs_next, parse_runs.
  - by eapply runs_break.
  - by eapply runs_return.
Qed.

(** ** The well-formedness invariant *)

(** The body agrees with the framing the headers announce. *)
Definition framed (req : HttpRequest.t) : Prop :=
  match end_of_headers (HttpRequest.headers req) with
  | State.Body => zlen (HttpRequest.body req) = HttpHeaders.getContentLength (HttpRequest.headers req)
  | State.Complete => HttpRequest.body req = []
  | _ => True
  end.

(** What the members hold in each state. *)
Definition wf (c : cfg) : Prop :=
  let body := HttpRequest.body (request c) in
  let framing := end_of_headers (HttpRequest.headers (request c)) in
  match state_of c with
  | State.RequestLine | State.Headers => body = []
  | State.Body => body = [] /\ framing = State.Body
  | State.ChunkData =>
      0 < m_chunk_remaining (c_parser c) /\
      zlen body + m_chunk_remaining (c_parser c) <= Framer.MAX_HTTP_BODY_SIZE /\
      framing = State.ChunkSize
  | State.ChunkSize | State.ChunkCRLF | State.Trailers =>
      zlen body <= Framer.MAX_HTTP_BODY_SIZE /\ framing = State.ChunkSize
  | State.Complete => zlen body <= Framer.MAX_HTTP_BODY_SIZE /\ framed (request c)
  | State.Error => zlen body <= Framer.MAX_HTTP_BODY_SIZE
  end.

(** The objects of a new connection, and those [reset] leaves. *)
Definition initial (buf : bytes) : cfg := mk_cfg init buf HttpRequest.init.

Lemma wf_initial buf : wf (initial buf).
Proof. done. Qed.

Lemma wf_push more c : wf (push more c) <-> wf c.
Proof. done. Qed.

Lemma wf_body c : wf c -> zlen (HttpRequest.body (request c)) <= Framer.MAX_HTTP_BODY_SIZE.
Proof.
  unfold wf. destruct (state_of c); try tauto; intros H.
  1,2: by rewrite H. 1: by destruct H as [-> _].
  destruct H as (? & ? & _). lia.
Qed.

Definition ctl_cfg (x : ctl) : cfg :=
  match x with Next c => c | Break c => c | Return _ c => c end.

Lemma wf_fail c : wf c -> wf (set_state State.Error c).
Proof. intros H. unfold wf; cbn. by apply wf_body. Qed.

(** A line-reading step preserves the invariant when its continuation does. *)
Lemma wf_read_line c k :
  wf c -> (forall l r, wf (ctl_cfg (k l (set_buffer r c)))) -> wf (ctl_cfg (read_line c k)).
Proof.
  intros Hc Hk. rewrite read_line_eq. destruct (Framer.split_line _) as [[l r]|].
  - split_if; [apply Hk|by apply wf_fail].
  - split_if; [done|by apply wf_fail].
Qed.

Lemma parseRequestLine_rest line req ok req' :
  parseRequestLine line req = (ok, req') ->
  HttpRequest.body req' = HttpRequest.body req /\ HttpRequest.headers req' = HttpRequest.headers req.
Proof.
  unfold parseRequestLine. destruct (CppStd.find_byte _ _); [|by intros [= <- <-]].
  destruct (CppStd.find_byte_from _ _ _); [|by intros [= <- <-]].
  by intros [= <- <-].
Qed.

Lemma parseHeaderLine_body line req ok req' :
  parseHeaderLine line req = (ok, req') -> HttpRequest.body req' = HttpRequest.body req.
Proof.
  unfold parseHeaderLine. destruct (CppStd.find_byte _ _); by intros [= <- <-].
Qed.

Lemma wf_end_of_headers c :
  HttpRequest.body (request c) = [] ->
  wf (set_state (end_of_headers (HttpRequest.headers (request c))) c).
Proof.
  intros Hb. unfold wf, framed; cbn. rewrite Hb.
  assert (end_of_headers (HttpRequest.headers (request c)) = State.ChunkSize \/
          end_of_headers (HttpRequest.headers (request c)) = State.Body \/
          end_of_headers (HttpRequest.headers (request c)) = State.Complete) as [H|[H|H]]
    by (unfold end_of_headers; cbv zeta; repeat split_if; auto);
    rewrite !H; done.
Qed.

Lemma wf_step_head c :
  wf c -> state_of c = State.RequestLine \/ state_of c = State.Headers ->
  wf (ctl_cfg (step_head c)).
Proof.
  intros Hc Hst. apply wf_read_line; [done|]. intros l r.
  assert (HttpRequest.body (request c) = []) as Hb
    by (unfold wf in Hc; destruct Hst as [Hst|Hst]; rewrite Hst in Hc; exact Hc).
  change (state_of (set_buffer r c)) with (state_of c).
  destruct Hst as [Hst|Hst]; rewrite Hst; cbn [bool_decide].
  - destruct (parseRequestLine l _) as [ok req'] eqn:Hp. apply parseRequestLine_rest in Hp as [Hb' _].
    rewrite bool_decide_true by done. cbv zeta. destruct ok; unfold wf; cbn; rewrite Hb'; cbn; by rewrite Hb.
  - rewrite bool_decide_false, bool_decide_true by done. case_bool_decide.
    + by apply (wf_end_of_headers (set_buffer r c)).
    + destruct (parseHeaderLine l _) as [ok req'] eqn:Hp. apply parseHeaderLine_body in Hp.
      cbv zeta. unfold state_of in Hst.
      destruct ok; unfold wf, state_of; cbn; rewrite ?Hst, Hp; cbn; by rewrite Hb.
Qed.

Lemma wf_step_body c : wf c -> state_of c = State.Body -> wf (ctl_cfg (step_body c)).
Proof.
  intros Hc Hst. pose proof Hc as Hc0. unfold wf in Hc. rewrite Hst in Hc. destruct Hc as [Hb He].
  unfold step_body. rewrite Hb, zlen_nil, Z.sub_0_r.
  set (n := HttpHeaders.getContentLength _).
  pose proof (HttpHeaders.getContentLength_range (HttpRequest.headers (request c))) as Hn.
  rewrite u64_small by done.
  destruct (Framer.extractBytes _ _ _) as [[st b] rest] eqn:Hx. destruct st; cbn.
  - apply Framer.extractBytes_success_inv in Hx as (_ & Hlen & Hmax); [|lia].
    unfold wf, framed; cbn. rewrite He. lia.
  - unfold Framer.extractBytes in Hx. repeat split_if_in Hx; try done.
    injection Hx as <- <-. unfold state_of in Hst. unfold wf, state_of; cbn. by rewrite Hst.
  - unfold Framer.extractBytes in Hx. by repeat split_if_in Hx.
  - unfold Framer.extractBytes in Hx. repeat split_if_in Hx; try done.
    injection Hx as <- <-. unfold wf; cbn. done.
Qed.

Lemma read_chunk_size_nonneg line n : read_chunk_size line = Some n -> 0 <= n < 2 ^ 64.
Proof.
  unfold read_chunk_size. destruct (chunk_size_hex line) as [|b s]; [done|].
  repeat split_if; try done. intros [= <-]. apply CppStd.strtoul_range. lia.
Qed.

Lemma wf_step_chunk_size c : wf c -> state_of c = State.ChunkSize -> wf (ctl_cfg (step_chunk_size c)).
Proof.
  intros Hc Hst. apply wf_read_line; [done|]. intros l r.
  unfold wf in Hc. rewrite Hst in Hc. destruct Hc as [Hb He].
  destruct (read_chunk_size l) as [n|] eqn:Hn; [|done].
  apply read_chunk_size_nonneg in Hn. pose proof (zlen_nonneg (HttpRequest.body (request c))).
  change (request (set_buffer r c)) with (request c).
  destruct (Z.ltb_spec Framer.MAX_HTTP_BODY_SIZE n); [done|].
  unfold Framer.MAX_HTTP_BODY_SIZE in *. rewrite u64_small by lia.
  destruct (Z.ltb_spec (10 * 1024 * 1024) (zlen (HttpRequest.body (request c)) + n)); [done|].
  destruct (Z.eqb_spec n 0); [done|].
  unfold wf; cbn. unfold Framer.MAX_HTTP_BODY_SIZE. repeat split; [lia..|done].
Qed.

Lemma wf_step_chunk_data c : wf c -> state_of c = State.ChunkData -> wf (ctl_cfg (step_chunk_data c)).
Proof.
  intros Hc Hst. pose proof Hc as Hc0. unfold wf in Hc. rewrite Hst in Hc.
  destruct Hc as (Hpos & Hsum & He). unfold step_chunk_data.
  destruct (Framer.extractBytes _ _ _) as [[st b] rest] eqn:Hx. destruct st; cbn.
  - apply Framer.extractBytes_success_inv in Hx as (_ & Hlen & _); [|lia].
    unfold wf; cbn. rewrite zlen_app. split; [lia|done].
  - by apply (wf_push []) in Hc0.
  - unfold wf; cbn. lia.
  - unfold wf; cbn. lia.
Qed.

Lemma wf_step c : wf c -> finished c = false -> wf (ctl_cfg (loop_body c)).
Proof.
  intros Hc Hf. unfold loop_body. unfold finished in Hf. simplify_bools.
  destruct (state_of c) eqn:Hst; try done.
  1,2: apply wf_step_head; auto.
  - by apply wf_step_body.
  - by apply wf_step_chunk_size.
  - by apply wf_step_chunk_data.
  - apply wf_read_line; [done|]. intros l r. unfold wf in *. rewrite Hst in Hc.
    case_bool_decide; cbn; tauto.
  - apply wf_read_line; [done|]. intros l r. unfold wf, state_of in *. rewrite Hst in Hc.
    case_bool_decide; cbn; rewrite ?Hst; [|tauto]. unfold framed. destruct Hc as [? ->]. tauto.
Qed.

(** A paused machine is waiting for less than one maximal body. *)
Lemma pause_buffer c d :
  wf c -> loop_body c = Return ParseResult.Incomplete d ->
  zlen (readBuffer c) < Framer.MAX_HTTP_BODY_SIZE.
Proof.
  intros Hc. unfold Framer.MAX_HTTP_BODY_SIZE.
  assert (forall k, (forall l e, ~ pauses (k l e)) ->
    read_line c k = Return ParseResult.Incomplete d -> zlen (readBuffer c) < 10 * 1024 * 1024) as Hline.
  { intros k Hk. rewrite read_line_eq. destruct (Framer.split_line _) as [[l r]|].
    - split_if; [|done]. intros Hp. destruct (Hk l (set_buffer r c)). by exists d.
    - unfold Framer.MAX_HTTP_HEADER_SIZE.
      destruct (Z.leb_spec (zlen (readBuffer c)) (8 * 1024)); [lia|done]. }
  assert (forall n o st b rest, Framer.extractBytes (readBuffer c) n o = (st, b, rest) ->
    st = FrameStatus.Incomplete -> zlen (readBuffer c) < 10 * 1024 * 1024) as Hbytes.
  { intros n o st b rest. unfold Framer.extractBytes, Framer.MAX_HTTP_BODY_SIZE.
    destruct (Z.ltb_spec (10 * 1024 * 1024) n); [by intros [= <- <- <-]|].
    destruct (Z.ltb_spec (zlen (readBuffer c)) n); [intros; lia|by intros [= <- <- <-]]. }
  unfold loop_body. destruct (state_of c).
  3: unfold step_body; destruct (Framer.extractBytes _ _ _) as [[[] b] rest] eqn:Hx; try done; by eauto.
  4: unfold step_chunk_data; destruct (Framer.extractBytes _ _ _) as [[[] b] rest] eqn:Hx; try done; by eauto.
  all: apply Hline; intros l e [x Hx]; revert Hx; cbv zeta; repeat split_if; try done.
  all: repeat match goal with
       | |- context [let '(_, _) := ?p in _] => destruct p
       | |- context [match ?o with Some _ => _ | None => _ end] => destruct o
       end; repeat split_if; try done.
Qed.

Lemma runs_wf c r c' : runs c (r, c') -> wf c ->
  wf c' /\ (r = ParseResult.Success -> state_of c' = State.Complete) /\
  (r = ParseResult.Incomplete -> zlen (readBuffer c') < Framer.MAX_HTTP_BODY_SIZE).
Proof.
  remember (r, c') as rc eqn:Hrc. intros H; revert Hrc.
  induction H as [c Hf|c d rc Hf Hb _ IH|c d Hf Hb|c r0 d Hf Hb].
  - unfold final. intros [= Hr <-] Hc. split; [done|]. by case_bool_decide; subst.
  - intros -> Hc. apply IH; [done|]. pose proof (wf_step c Hc Hf) as Hd. by rewrite Hb in Hd.
  - unfold final. intros [= Hr <-] Hc. pose proof (wf_step c Hc Hf) as Hd. rewrite Hb in Hd.
    split; [done|]. by case_bool_decide; subst.
  - intros [= -> ->] Hc. pose proof (wf_step c Hc Hf) as Hd. rewrite Hb in Hd.
    split; [done|]. destruct (loop_body_push c []) as [Hp|[[_ Hp]|[_ Hp]]].
    + rewrite Hp in Hb. injection Hb as <- <-. split; [done|]. intros _. by eapply pause_buffer.
    + rewrite Hp in Hb. by injection Hb as <- _.
    + split; intros ->; [|by destruct Hp; exists c'].
      by destruct (loop_body_no_success c c').
Qed.

(** C19: Whatever a client sends, in whatever fragments, the body stored in the
    request never exceeds [MAX_HTTP_BODY_SIZE], the read buffer left by a call
    that waits for more input stays below it, and a completed request carries
    exactly the body its framing headers announce. *)
Theorem feed_bounded (frags : list bytes) :
  let '(r, c, rest) := feed (initial []) frags in
  zlen (HttpRequest.body (request c)) <= Framer.MAX_HTTP_BODY_SIZE /\
  (r = ParseResult.Incomplete -> zlen (readBuffer c) < Framer.MAX_HTTP_BODY_SIZE) /\
  (r = ParseResult.Success -> framed (request c)).
Proof.
  assert (forall c, wf c -> zlen (readBuffer c) < Framer.MAX_HTTP_BODY_SIZE ->
    let '(r, c', rest) := feed c frags in
    wf c' /\ (r = ParseResult.Incomplete -> zlen (readBuffer c') < Framer.MAX_HTTP_BODY_SIZE) /\
    (r = ParseResult.Success -> state_of c' = State.Complete)) as Hfeed.
  { induction frags as [|f fs IH]; intros c Hc Hlen; cbn; [done|].
    pose proof (parse_runs (push f c)) as Hrun.
    destruct (parse (push f c)) as [r d].
    apply runs_wf in Hrun as (Hd & Hs & Hi); [|done].
    destruct r; [|by apply IH; auto|]; (split; [done|split; [done|by auto]]). }
  specialize (Hfeed (initial []) (wf_initial []) ltac:(done)).
  destruct (feed _ _) as [[r c] rest]. destruct Hfeed as (Hc & Hi & Hs).
  split; [by apply wf_body|]. split; [done|].
  intros Hr. specialize (Hs Hr). unfold wf in Hc. rewrite Hs in Hc. tauto.
Qed.

End ParserSpec.
