(* ===== verification/RequestType.v ===== *)
(** * The type of parsed requests

    What a handler may rely on in a request the parser hands over, whatever the
    client has sent: a method and a path, and headers whose names and values
    cannot contain the separators of the message they came in. *)

From S2P Require Import Prelude CppStd Framing Headers Request Parser ParserLoop Fragmentation ParserSpec.
Import HttpRequestParser ParserLoop Fragmentation ParserSpec.

Module RequestType.

(** No CRLF inside: the text cannot end a line when it is printed again. *)
Definition no_crlf (s : bytes) : Prop := forall u v, s <> u ++ CRLF ++ v.

Definition blank (b : byte) : Prop := b = SP \/ b = HTAB.

(** No blank in front. *)
Definition trimmed (s : bytes) : Prop := forall b r, s = b :: r -> ~ blank b.

Definition field_ok (k v : bytes) : Prop :=
  HttpHeaders.toLower k = k /\ (COLON ∉ k) /\ no_crlf k /\ no_crlf v /\ trimmed v.

Record well_typed (r : HttpRequest.t) : Prop := {
  wt_path : (SP ∉ HttpRequest.path r) /\ no_crlf (HttpRequest.path r);
  wt_version : no_crlf (HttpRequest.version r);
  wt_headers : forall k v, HttpHeaders.m_headers (HttpRequest.headers r) !! k = Some v -> field_ok k v
}.

(** Past the request line the method is known and the path is not empty. *)
Definition typed (c : cfg) : Prop :=
  well_typed (request c) /\
  (state_of c = State.RequestLine \/ state_of c = State.Error \/
   (HttpRequest.method (request c) <> HttpMethod.UNKNOWN /\ HttpRequest.path (request c) <> [])).

(** ** Lines and their pieces *)

Lemma no_crlf_factor s t : no_crlf s -> (exists a b, s = a ++ t ++ b) -> no_crlf t.
Proof.
  intros Hs (a & b & ->) u v ->. apply (Hs (a ++ u) (v ++ b)). by rewrite <- !app_assoc.
Qed.

Lemma no_crlf_take s n : no_crlf s -> no_crlf (take n s).
Proof. intros H. apply (no_crlf_factor s); [done|]. exists [], (drop n s). by rewrite take_drop. Qed.

Lemma no_crlf_drop s n : no_crlf s -> no_crlf (drop n s).
Proof.
  intros H. apply (no_crlf_factor s); [done|]. exists (take n s), []. by rewrite app_nil_r, take_drop.
Qed.

Lemma no_crlf_substr s n m : no_crlf s -> no_crlf (CppStd.substr s n m).
Proof. intros H. by apply no_crlf_take, no_crlf_drop. Qed.

(** The first CRLF is not after any other. *)
Lemma split_line_first u v : exists l r, Framer.split_line (u ++ CRLF ++ v) = Some (l, r) /\ zlen l <= zlen u.
Proof.
  induction u as [|b u (l & r & IH & Hl)]; [by eexists [], _|]. cbn [app Framer.split_line].
  destruct (Framer.crlf_here _).
  - eexists [], _. split; [done|]. rewrite zlen_nil. apply zlen_nonneg.
  - cbn [app] in IH. rewrite IH. eexists (b :: l), r. split; [done|]. rewrite !zlen_cons. lia.
Qed.

Lemma is_line_no_crlf l : Framer.is_line l -> no_crlf l.
Proof.
  unfold Framer.is_line. intros Hl u v ->. rewrite <- !app_assoc in Hl.
  destruct (split_line_first u (v ++ CRLF)) as (l & r & Hs & Hle). rewrite Hl in Hs. simplify_eq.
  rewrite !zlen_app in Hle. change (zlen CRLF) with 2 in Hle. pose proof (zlen_nonneg v). lia.
Qed.

Lemma trim_front_spec s : trimmed (trim_front s) /\ exists a, s = a ++ trim_front s.
Proof.
  induction s as [|b s [Ht [a Ha]]]; [split; [done|by exists []]|]. cbn [trim_front].
  repeat case_bool_decide; cbn; try (split; [done|by exists (b :: a); cbn; f_equal]).
  split; [|by exists []]. intros b' r [= <- <-] [? | ?]; contradiction.
Qed.

(** Lower-casing touches neither a colon nor a CRLF. *)
Lemma tolower_colon b : CppStd.tolower b = COLON -> b = COLON.
Proof. by_all_bytes b. Qed.
Lemma tolower_cr b : CppStd.tolower b = CR -> b = CR.
Proof. by_all_bytes b. Qed.
Lemma tolower_lf b : CppStd.tolower b = LF -> b = LF.
Proof. by_all_bytes b. Qed.

Lemma toLower_colon s : COLON ∉ s -> COLON ∉ HttpHeaders.toLower s.
Proof.
  intros H Hin. unfold HttpHeaders.toLower in Hin. apply list_elem_of_fmap in Hin as (b & Hb & Hin).
  by rewrite (tolower_colon b) in Hin.
Qed.

Lemma toLower_no_crlf s : no_crlf s -> no_crlf (HttpHeaders.toLower s).
Proof.
  intros H u v Heq. unfold HttpHeaders.toLower in Heq.
  apply fmap_app_inv in Heq as (u' & s' & -> & Heq & ->). symmetry in Heq.
  apply fmap_app_inv in Heq as (c & v' & Hc & _ & ->). destruct c as [|b [|b' [|? ?]]]; try done.
  injection Hc as Hcr Hlf. symmetry in Hcr, Hlf. apply tolower_cr in Hcr as ->. apply tolower_lf in Hlf as ->.
  by apply (H u' v').
Qed.

(** ** The two line parsers *)

Lemma well_typed_init : well_typed HttpRequest.init.
Proof.
  assert (no_crlf []) as Hn by by intros [|? ?] v.
  constructor; [split; [apply not_elem_of_nil|done]|done|intros k v]. cbn. by rewrite lookup_empty.
Qed.

Lemma well_typed_body b r : well_typed r -> well_typed (HttpRequest.with_body b r).
Proof. by intros []. Qed.

Lemma parseRequestLine_typed l r ok r' :
  no_crlf l -> well_typed r -> parseRequestLine l r = (ok, r') ->
  well_typed r' /\ (ok = true -> HttpRequest.method r' <> HttpMethod.UNKNOWN /\ HttpRequest.path r' <> []).
Proof.
  intros Hl Hr. unfold parseRequestLine. destruct (CppStd.find_byte SP l) as [i|]; [|by intros [= <- <-]].
  unfold CppStd.find_byte_from. destruct (CppStd.find_byte SP (drop (i + 1) l)) as [j|] eqn:Hj;
    [|by intros [= <- <-]].
  cbn [fmap option_fmap option_map]. intros [= <- <-]. split.
  - constructor; cbn; [split| |apply Hr]; [|by apply no_crlf_substr|by apply no_crlf_drop].
    apply CppStd.find_byte_Some in Hj as (_ & Hj & _).
    unfold CppStd.substr. by replace (i + 1 + j - i - 1)%nat with j by lia.
  - intros H. simplify_bools. done.
Qed.

Lemma parseHeaderLine_typed l r ok r' :
  no_crlf l -> well_typed r -> parseHeaderLine l r = (ok, r') ->
  well_typed r' /\ HttpRequest.method r' = HttpRequest.method r /\ HttpRequest.path r' = HttpRequest.path r.
Proof.
  intros Hl Hr. unfold parseHeaderLine. destruct (CppStd.find_byte COLON l) as [i|] eqn:Hi;
    intros [= <- <-]; [|done].
  split; [|done]. apply CppStd.find_byte_Some in Hi as (_ & Hi & _). destruct Hr as [Hp Hv Hh].
  constructor; cbn; [done|done|]. intros k v. rewrite lookup_insert_Some.
  intros [[<- <-]|[_ Hkv]]; [|by apply Hh].
  destruct (trim_front_spec (drop (i + 1) l)) as [Ht [a Ha]].
  split; [apply HttpHeaders.toLower_idemp|]. split; [by apply toLower_colon|].
  split; [by apply toLower_no_crlf, no_crlf_substr|]. split; [|done].
  apply (no_crlf_factor (drop (i + 1) l)); [by apply no_crlf_drop|]. exists a, []. by rewrite app_nil_r.
Qed.

(** ** The loop *)

Lemma typed_fail c : typed c -> typed (set_state State.Error c).
Proof. intros [H _]. split; [done|]. by right; left. Qed.

(** The state moves among those after the request line. *)
Lemma typed_state c d :
  typed c -> state_of c <> State.RequestLine -> state_of c <> State.Error -> request d = request c -> typed d.
Proof. intros [H [?|[?|?]]] ? ? Hd; try done. unfold typed. rewrite Hd. by split; [|right; right]. Qed.

Lemma typed_read_line c k :
  typed c -> (forall l r, no_crlf l -> typed (ctl_cfg (k l (set_buffer r c)))) -> typed (ctl_cfg (read_line c k)).
Proof.
  intros Hc Hk. rewrite read_line_eq. destruct (Framer.split_line _) as [[l r]|] eqn:Hs.
  - split_if; [|by apply typed_fail]. apply Hk. by eapply is_line_no_crlf, Framer.split_line_is_line.
  - split_if; [done|by apply typed_fail].
Qed.

(** The body changes, and the state moves among those after the headers. *)
Lemma typed_move c p buf b :
  typed c -> state_of c <> State.RequestLine -> state_of c <> State.Error ->
  typed (mk_cfg p buf (HttpRequest.with_body b (request c))).
Proof. intros [H [?|[?|?]]] ? ?; try done. split; [by apply well_typed_body|by right; right]. Qed.

Lemma typed_head c :
  typed c -> state_of c = State.RequestLine \/ state_of c = State.Headers -> typed (ctl_cfg (step_head c)).
Proof.
  intros Hc Hst. apply typed_read_line; [done|]. intros l r Hl. destruct Hc as [Hw Hs].
  change (state_of (set_buffer r c)) with (state_of c). change (request (set_buffer r c)) with (request c).
  destruct Hst as [Hst|Hst]; rewrite Hst.
  - rewrite bool_decide_true by done. destruct (parseRequestLine l _) as [ok req'] eqn:Hp.
    apply parseRequestLine_typed in Hp as [Hw' Hok]; [|done..]. destruct ok; split; cbn; auto.
  - rewrite bool_decide_false, bool_decide_true by done. destruct Hs as [Hs|[Hs|[Hm Hpa]]]; try congruence.
    case_bool_decide; [by split; [|right; right]|].
    destruct (parseHeaderLine l _) as [ok req'] eqn:Hp.
    apply parseHeaderLine_typed in Hp as (Hw' & Hm' & Hp'); [|done..].
    destruct ok; split; cbn; rewrite ?Hm', ?Hp'; auto.
Qed.

Lemma typed_step c : typed c -> finished c = false -> typed (ctl_cfg (loop_body c)).
Proof.
  intros Hc Hf. unfold loop_body. unfold finished in Hf. simplify_bools.
  destruct (state_of c) eqn:Hst; try done.
  1,2: apply typed_head; auto.
  - unfold step_body. destruct (Framer.extractBytes _ _ _) as [[[] b] rest]; cbn;
      by apply typed_move; rewrite ?Hst.
  - apply typed_read_line; [done|]. intros l r Hl.
    destruct (read_chunk_size l) as [n|]; [|by apply typed_fail].
    repeat split_if; try (by apply typed_fail); by apply (typed_state c); rewrite ?Hst.
  - unfold step_chunk_data. destruct (Framer.extractBytes _ _ _) as [[[] b] rest]; cbn;
      try (by apply (typed_fail (set_buffer rest c))); [|done].
    by apply typed_move; rewrite ?Hst.
  - apply typed_read_line; [done|]. intros l r Hl. case_bool_decide; cbn;
      by apply (typed_state c); rewrite ?Hst.
  - apply typed_read_line; [done|]. intros l r Hl. case_bool_decide; cbn; [|done].
    by apply (typed_state c); rewrite ?Hst.
Qed.

Lemma runs_invariant (P : cfg -> Prop) c rc :
  (forall c, P c -> finished c = false -> P (ctl_cfg (loop_body c))) -> runs c rc -> P c -> P rc.2.
Proof.
  intros HP H. induction H as [c Hf|c d rc Hf Hb _ IH|c d Hf Hb|c r d Hf Hb]; intros Hc; [done| | |];
    specialize (HP c Hc Hf); rewrite Hb in HP; auto.
Qed.

(** C20: The request a client can make the parser build, by any bytes in any
    fragments, is well typed: its header names are in lower case and hold no
    colon, its path no space, and no name, value, path or version holds a CRLF,
    so that none can break out of its line; values begin with no blank.  When
    the request is complete, its method is one of the six known ones and its
    path is not empty. *)
Theorem feed_well_typed (frags : list bytes) :
  let '(r, c, rest) := feed (initial []) frags in
  well_typed (request c) /\
  (r = ParseResult.Success ->
   HttpRequest.method (request c) <> HttpMethod.UNKNOWN /\ HttpRequest.path (request c) <> []).
Proof.
  assert (forall c, wf c -> typed c ->
    let '(r, c', rest) := feed c frags in
    typed c' /\ (r = ParseResult.Success -> state_of c' = State.Complete)) as Hfeed.
  { induction frags as [|f fs IH]; intros c Hw Hc; cbn [feed]; [done|].
    pose proof (parse_runs (push f c)) as Hrun.
    pose proof (runs_invariant typed _ _ typed_step Hrun Hc) as Ht.
    destruct (parse (push f c)) as [r d]. apply runs_wf in Hrun as (Hd & Hs & _); [|done].
    destruct r; [|by apply IH|]; by split; [|auto]. }
  specialize (Hfeed (initial []) (wf_initial []) ltac:(split; [apply well_typed_init|by left])).
  destruct (feed _ _) as [[r c] rest]. destruct Hfeed as [[Hw Ht] Hs]. split; [done|].
  intros Hr. specialize (Hs Hr). destruct Ht as [?|[?|?]]; [congruence..|done].
Qed.

End RequestType.
