(* ===== verification/RequestWire.v ===== *)
(** * Requests on the wire: printing and parsing back

    A specification of the HTTP/1.1 messages a client sends, as printers, and
    the proofs that [HttpRequestParser::parse] reads them back: the head, a
    [Content-Length] body, and a chunked body with any partition into chunks,
    any chunk extensions and any trailer lines. *)

From S2P Require Import Prelude CppStd Framing Headers Request Parser ParserLoop Fragmentation ParserSpec.
Import HttpRequestParser ParserLoop ParserSpec.

Module RequestWire.

(** ** Printers *)

Definition method_name (m : HttpMethod.t) : bytes :=
  match m with
  | HttpMethod.GET => bs "GET"
  | HttpMethod.POST => bs "POST"
  | HttpMethod.PUT => bs "PUT"
  | HttpMethod.DELETE => bs "DELETE"
  | HttpMethod.HEAD => bs "HEAD"
  | HttpMethod.OPTIONS => bs "OPTIONS"
  | HttpMethod.UNKNOWN => bs "UNKNOWN"
  end.

Definition request_line (m : HttpMethod.t) (target ver : bytes) : bytes :=
  method_name m ++ SP :: target ++ SP :: ver.

Definition header_line (kv : bytes * bytes) : bytes := kv.1 ++ COLON :: SP :: kv.2.

Definition render_lines (ls : list bytes) : bytes := concat ((fun l => l ++ CRLF) <$> ls).

Definition render_head (m : HttpMethod.t) (target ver : bytes) (hs : list (bytes * bytes)) : bytes :=
  render_lines (request_line m target ver :: (header_line <$> hs)) ++ CRLF.

(** The header map the lines add up to. *)
Definition headers_of (hs : list (bytes * bytes)) : HttpHeaders.t :=
  foldl (fun h kv => HttpHeaders.set kv.1 kv.2 h) HttpHeaders.empty hs.

(** A chunk: its data and the extension after its size, empty or [";..."]. *)
Definition render_chunk (ch : bytes * bytes) : bytes :=
  CppStd.to_hex (zlen ch.1) ++ ch.2 ++ CRLF ++ ch.1 ++ CRLF.

Definition render_chunked (chunks : list (bytes * bytes)) (trailers : list bytes) : bytes :=
  concat (render_chunk <$> chunks) ++ bs "0" ++ CRLF ++ render_lines trailers ++ CRLF.

(** ** What may be printed *)

(** A line the framer returns: no CR in it, and within the scan limit. *)
Definition line_ok (l : bytes) : Prop := (CR ∉ l) /\ zlen l <= Framer.MAX_CHUNK_BODY_SIZE.

Definition target_ok (target : bytes) : Prop := target <> [] /\ (SP ∉ target).

Definition header_ok (kv : bytes * bytes) : Prop :=
  (COLON ∉ kv.1) /\ trim_front kv.2 = kv.2 /\ line_ok (header_line kv).

Definition chunk_ok (ch : bytes * bytes) : Prop :=
  ch.1 <> [] /\ (ch.2 = [] \/ exists e, ch.2 = (SEMI :: e)) /\
  line_ok (CppStd.to_hex (zlen ch.1) ++ ch.2).

(** ** Lines *)

Lemma read_line_ok c k l r :
  readBuffer c = l ++ CRLF ++ r -> line_ok l -> read_line c k = k l (set_buffer r c).
Proof.
  intros Hb [Hcr Hlen]. rewrite read_line_eq, Hb.
  rewrite Framer.is_line_split by by apply Framer.no_cr_is_line.
  by destruct (Z.leb_spec (zlen l) Framer.MAX_CHUNK_BODY_SIZE); [|lia].
Qed.

Lemma stringToMethod_name m : stringToMethod (method_name m) = m.
Proof. by destruct m. Qed.

Lemma method_name_no_sp m : SP ∉ method_name m.
Proof. apply CppStd.find_byte_None. by destruct m. Qed.

Lemma parseRequestLine_render m target ver req :
  target_ok target -> m <> HttpMethod.UNKNOWN ->
  parseRequestLine (request_line m target ver) req =
    (true, HttpRequest.mk m target ver (HttpRequest.headers req) (HttpRequest.body req)).
Proof.
  intros [Hne Hsp] Hm. unfold parseRequestLine, request_line, CppStd.substr.
  rewrite CppStd.find_byte_app by apply method_name_no_sp.
  unfold CppStd.find_byte_from. rewrite !Nat.add_1_r.
  rewrite drop_app_cons, CppStd.find_byte_app by done. cbn [fmap option_fmap option_map].
  rewrite drop_0, take_app_length, stringToMethod_name.
  replace (S (length (method_name m)) + length target - length (method_name m) - 1)%nat
    with (length target) by lia.
  rewrite take_app_length, Nat.add_1_r.
  replace (S (S (length (method_name m)) + length target))
    with (S (length (method_name m)) + S (length target))%nat by lia.
  rewrite <- drop_drop, !drop_app_cons.
  cbn. by rewrite !bool_decide_false.
Qed.

Lemma parseHeaderLine_render kv req :
  header_ok kv ->
  parseHeaderLine (header_line kv) req =
    (true, HttpRequest.with_headers
             (HttpHeaders.set kv.1 kv.2 (HttpRequest.headers req)) req).
Proof.
  intros (Hc & Ht & _). destruct kv as [k v]; cbn [fst snd] in *.
  unfold parseHeaderLine, header_line, CppStd.substr; cbn [fst snd].
  rewrite CppStd.find_byte_app by done. rewrite drop_0, take_app_length.
  replace (drop (length k + 1) (k ++ COLON :: SP :: v)) with (SP :: v).
  { cbn. by rewrite Ht. }
  rewrite <- drop_drop, drop_app_length. done.
Qed.

(** ** The head *)

Lemma runs_headers hs rest m t v h0 n rc :
  Forall header_ok hs ->
  let h := foldl (fun h kv => HttpHeaders.set kv.1 kv.2 h) h0 hs in
  runs (mk_cfg (mk (end_of_headers h) n) rest (HttpRequest.mk m t v h [])) rc ->
  runs (mk_cfg (mk State.Headers n) (render_lines (header_line <$> hs) ++ CRLF ++ rest)
          (HttpRequest.mk m t v h0 [])) rc.
Proof.
  intros Hhs. revert h0; induction Hhs as [|kv hs Hkv Hhs IH]; intros h0 h Hrun.
  - eapply runs_next; [done| |exact Hrun].
    unfold loop_body; cbn [state_of m_state c_parser]. unfold step_head.
    by rewrite (read_line_ok _ _ [] rest) by (done || (split; [set_solver|done])).
  - eapply runs_next; [done| |apply IH, Hrun].
    unfold loop_body; cbn [state_of m_state c_parser]. unfold step_head.
    rewrite (read_line_ok _ _ (header_line kv)
               (render_lines (header_line <$> hs) ++ CRLF ++ rest)); [| |by apply Hkv].
    + cbn [set_buffer state_of m_state c_parser request].
      rewrite bool_decide_false, bool_decide_true by done.
      rewrite bool_decide_false by (unfold header_line; by destruct (kv.1)).
      by rewrite parseHeaderLine_render.
    + cbn. by rewrite <- !app_assoc.
Qed.

Lemma runs_head m target ver hs rest rc :
  m <> HttpMethod.UNKNOWN -> target_ok target -> line_ok (request_line m target ver) ->
  Forall header_ok hs ->
  let h := headers_of hs in
  runs (mk_cfg (mk (end_of_headers h) 0) rest (HttpRequest.mk m target ver h [])) rc ->
  runs (initial (render_head m target ver hs ++ rest)) rc.
Proof.
  intros Hm Ht Hl Hhs h Hrun. eapply runs_next; [done| |by eapply runs_headers].
  unfold loop_body, initial; cbn [state_of m_state c_parser init]. unfold step_head.
  rewrite (read_line_ok _ _ (request_line m target ver)
             (render_lines (header_line <$> hs) ++ CRLF ++ rest)); [| |done].
  - cbn [set_buffer state_of m_state c_parser request].
    rewrite bool_decide_true by done. by rewrite parseRequestLine_render.
  - unfold render_head. cbn. by rewrite <- !app_assoc.
Qed.

Lemma headers_of_snoc hs kv : headers_of (hs ++ [kv]) = HttpHeaders.set kv.1 kv.2 (headers_of hs).
Proof. unfold headers_of. by rewrite foldl_app. Qed.

(** No header line of the list is named [k]. *)
Definition unnamed (k : bytes) (hs : list (bytes * bytes)) : Prop :=
  Forall (fun kv => HttpHeaders.toLower kv.1 <> HttpHeaders.toLower k) hs.

Lemma get_unnamed k hs : unnamed k hs -> HttpHeaders.get k (headers_of hs) = None.
Proof.
  induction hs as [|kv hs IH] using rev_ind; intros Hk.
  - unfold HttpHeaders.get, headers_of, HttpHeaders.empty; cbn. by rewrite lookup_empty.
  - rewrite headers_of_snoc. apply Forall_app in Hk as [Hk Hkv].
    apply Forall_cons in Hkv as [Hkv _].
    rewrite HttpHeaders.get_set_ne by congruence. by apply IH.
Qed.

(** ** A body framed by its length *)

Lemma digits_no_byte base s b :
  99 <= CppStd.digit_val b -> base <= 36 -> CppStd.all_digits base s -> b ∉ s.
Proof.
  intros Hb Hbase Hs Hin. unfold CppStd.all_digits in Hs. rewrite Forall_forall in Hs.
  specialize (Hs b Hin). lia.
Qed.

Definition content_length (n : Z) : bytes * bytes := (bs "Content-Length", CppStd.to_string n).

Lemma content_length_ok n :
  0 <= n -> zlen (CppStd.to_string n) <= 100 -> header_ok (content_length n).
Proof.
  intros Hn Hlen. pose proof (CppStd.to_string_digits n) as Hd.
  split; [|split; [|split]].
  - by apply CppStd.find_byte_None.
  - cbn [content_length snd]. destruct (CppStd.to_string n) as [|b s]; [done|]. cbn.
    apply Forall_cons in Hd as [Hb _].
    rewrite !bool_decide_false; [done|intros ->; vm_compute in Hb; discriminate Hb..].
  - unfold header_line; cbn [content_length fst snd]. rewrite !not_elem_of_app. split.
    + by apply CppStd.find_byte_None.
    + rewrite !not_elem_of_cons. split; [done|]. split; [done|].
      by apply (digits_no_byte 10).
  - unfold header_line; cbn [content_length fst snd]. rewrite zlen_app, !zlen_cons.
    change (zlen (bs "Content-Length")) with 14. unfold Framer.MAX_CHUNK_BODY_SIZE. lia.
Qed.

Lemma getContentLength_snoc hs n :
  0 <= n <= CppStd.ULONG_MAX ->
  HttpHeaders.getContentLength (headers_of (hs ++ [content_length n])) = n.
Proof.
  intros Hn. unfold HttpHeaders.getContentLength. rewrite headers_of_snoc.
  rewrite HttpHeaders.get_set_eq by done. cbn [content_length snd].
  by rewrite CppStd.stoull_to_string.
Qed.

Lemma print_digits_length fuel base n acc :
  zlen (CppStd.print_digits fuel base n acc) <= Z.of_nat fuel + zlen acc.
Proof.
  revert n acc; induction fuel as [|f IH]; intros n acc; cbn [CppStd.print_digits]; [lia|].
  split_if; [rewrite zlen_cons; lia|]. specialize (IH (n / base) (CppStd.digit_byte (n mod base) :: acc)).
  rewrite zlen_cons in IH. lia.
Qed.

Lemma print_base_length base n : n < 2 ^ 64 -> zlen (CppStd.print_base base n) <= 64.
Proof.
  intros Hn. unfold CppStd.print_base. etrans; [apply print_digits_length|].
  rewrite zlen_nil. enough (Z.log2 n < 64) by lia.
  destruct (Z_le_gt_dec n 0); [by rewrite Z.log2_nonpos|]. by apply Z.log2_lt_pow2; lia.
Qed.

(** A body announced by its length is cut off the buffer; an empty one needs
    no iteration. *)
Lemma runs_length_body m t v h body rest n :
  HttpRequestParser.end_of_headers h =
    (if 0 <? HttpHeaders.getContentLength h then State.Body else State.Complete) ->
  HttpHeaders.getContentLength h = zlen body -> zlen body <= Framer.MAX_HTTP_BODY_SIZE ->
  runs (mk_cfg (mk (end_of_headers h) n) (body ++ rest) (HttpRequest.mk m t v h []))
       (ParseResult.Success, mk_cfg (mk State.Complete n) rest (HttpRequest.mk m t v h body)).
Proof.
  intros -> Hcl Hlen. pose proof (zlen_nonneg body). unfold Framer.MAX_HTTP_BODY_SIZE in Hlen.
  rewrite Hcl. destruct (Z.ltb_spec 0 (zlen body)) as [Hpos|Hz].
  - refine (runs_break _ (mk_cfg (mk State.Complete n) rest _) _ _); [done|].
    unfold loop_body; cbn [state_of m_state c_parser]. unfold step_body.
    cbn [request HttpRequest.headers HttpRequest.body readBuffer].
    rewrite Hcl, zlen_nil, Z.sub_0_r, u64_small by lia.
    by rewrite Framer.extractBytes_exact by (unfold Framer.MAX_HTTP_BODY_SIZE; lia).
  - assert (body = []) as -> by (apply zlen_zero_inv; lia). cbn [app].
    by apply (runs_finished (mk_cfg (mk State.Complete n) rest (HttpRequest.mk m t v h []))).
Qed.

Lemma get_te_content_length hs n :
  unnamed (bs "Transfer-Encoding") hs ->
  HttpHeaders.get (bs "Transfer-Encoding") (headers_of (hs ++ [content_length n])) = None.
Proof.
  intros Hte. rewrite headers_of_snoc, HttpHeaders.get_set_ne by done. by apply get_unnamed.
Qed.

(** C2: A request printed with a [Content-Length] body is parsed back to its
    method, target, version, headers and body, and the bytes that follow it in
    the buffer (a pipelined request) are left untouched. *)
Theorem parse_content_length (m : HttpMethod.t) (target ver body rest : bytes)
    (hs : list (bytes * bytes)) :
  m <> HttpMethod.UNKNOWN -> target_ok target -> line_ok (request_line m target ver) ->
  Forall header_ok hs -> unnamed (bs "Transfer-Encoding") hs ->
  zlen body <= Framer.MAX_HTTP_BODY_SIZE ->
  let hs' := hs ++ [content_length (zlen body)] in
  parse (initial (render_head m target ver hs' ++ body ++ rest)) =
    (ParseResult.Success,
     mk_cfg (mk State.Complete 0) rest (HttpRequest.mk m target ver (headers_of hs') body)).
Proof.
  intros Hm Ht Hl Hhs Hte Hlen hs'. pose proof (zlen_nonneg body) as H0.
  unfold Framer.MAX_HTTP_BODY_SIZE in Hlen.
  assert (HttpHeaders.getContentLength (headers_of hs') = zlen body) as Hcl.
  { apply getContentLength_snoc. unfold CppStd.ULONG_MAX. lia. }
  apply runs_parse, runs_head; try done.
  { apply Forall_app. split; [done|]. constructor; [|done].
    apply content_length_ok; [done|]. etrans; [apply print_base_length|]; lia. }
  apply runs_length_body; [|done|unfold Framer.MAX_HTTP_BODY_SIZE; lia].
  unfold end_of_headers, hs' at 1. by rewrite get_te_content_length.
Qed.

(** ** A chunked body *)

Lemma to_hex_digits n : 0 <= n -> CppStd.all_digits 16 (CppStd.to_hex n).
Proof. intros Hn. by apply CppStd.print_base_digits. Qed.

(** A size printed in hexadecimal is read, whatever extension follows it. *)
Lemma read_chunk_size_hex n ext :
  0 <= n <= CppStd.ULONG_MAX -> ext = [] \/ (exists e, ext = (SEMI :: e)) ->
  read_chunk_size (CppStd.to_hex n ++ ext) = Some n.
Proof.
  intros Hn Hext. pose proof (to_hex_digits n ltac:(lia)) as Hd.
  assert (chunk_size_hex (CppStd.to_hex n ++ ext) = CppStd.to_hex n) as Hhex.
  { assert (SEMI ∉ CppStd.to_hex n) as Hsemi by by apply (digits_no_byte 16).
    unfold chunk_size_hex, CppStd.substr. destruct Hext as [->|[e ->]].
    - rewrite app_nil_r. by apply CppStd.find_byte_None in Hsemi as ->.
    - rewrite CppStd.find_byte_app by done. by rewrite drop_0, take_app_length. }
  unfold read_chunk_size. rewrite Hhex. unfold CppStd.to_hex in *.
  rewrite CppStd.strtoul_print by lia.
  assert (CppStd.at_end (CppStd.print_base 16 n) (length (CppStd.print_base 16 n)) = true) as Hend.
  { unfold CppStd.at_end. rewrite CppStd.c_str_no_nul by by apply (CppStd.all_digits_no_nul 16).
    by rewrite drop_all, bool_decide_true. }
  cbn [CppStd.ul_end CppStd.ul_erange CppStd.ul_value]. rewrite Hend.
  pose proof (CppStd.print_base_ne 16 n) as Hne.
  destruct (CppStd.print_base 16 n) as [|b s]; [done|].
  apply Forall_cons in Hd as [Hb _].
  rewrite CppStd.digit_val_not_space by lia.
  destruct (CppStd.digit_val_not_sign b) as [? ?]; [lia|].
  rewrite !bool_decide_false by done. done.
Qed.

(** Three iterations take one chunk off the buffer. *)
Lemma runs_chunk ch rest n req rc :
  chunk_ok ch ->
  zlen (HttpRequest.body req) + zlen ch.1 <= Framer.MAX_HTTP_BODY_SIZE ->
  runs (mk_cfg (mk State.ChunkSize (zlen ch.1)) rest
          (HttpRequest.with_body (HttpRequest.body req ++ ch.1) req)) rc ->
  runs (mk_cfg (mk State.ChunkSize n) (render_chunk ch ++ rest) req) rc.
Proof.
  destruct ch as [data ext]. intros (Hne & Hext & Hl) Hsum Hrun. cbn [fst snd] in *.
  pose proof (zlen_nonneg (HttpRequest.body req)) as Hb0.
  assert (0 < zlen data) as Hpos by (destruct data; [done|zlen_lia]).
  unfold Framer.MAX_HTTP_BODY_SIZE in Hsum.
  eapply runs_next; [done| |].
  { unfold loop_body; cbn [state_of m_state c_parser]. unfold step_chunk_size.
    rewrite (read_line_ok _ _ (CppStd.to_hex (zlen data) ++ ext) (data ++ CRLF ++ rest));
      [|unfold render_chunk; cbn [readBuffer fst snd]; by rewrite <- !app_assoc|done].
    rewrite read_chunk_size_hex by first [done | unfold CppStd.ULONG_MAX; lia].
    cbn [set_buffer request]. unfold Framer.MAX_HTTP_BODY_SIZE.
    destruct (Z.ltb_spec (10 * 1024 * 1024) (zlen data)); [lia|].
    rewrite u64_small by lia.
    destruct (Z.ltb_spec (10 * 1024 * 1024) (zlen (HttpRequest.body req) + zlen data)); [lia|].
    destruct (Z.eqb_spec (zlen data) 0); [lia|]. reflexivity. }
  eapply runs_next; [done| |].
  { unfold loop_body; cbn [state_of m_state c_parser]. unfold step_chunk_data.
    cbn [m_chunk_remaining c_parser readBuffer set_buffer].
    rewrite Framer.extractBytes_exact by (unfold Framer.MAX_HTTP_BODY_SIZE; lia). reflexivity. }
  eapply runs_next; [done| |exact Hrun].
  unfold loop_body; cbn [state_of m_state c_parser]. unfold step_chunk_crlf.
  by rewrite (read_line_ok _ _ [] rest) by (done || (split; [set_solver|done])).
Qed.

Definition trailer_ok (t : bytes) : Prop := t <> [] /\ line_ok t.

Lemma runs_trailers ts rest n req :
  Forall trailer_ok ts ->
  runs (mk_cfg (mk State.Trailers n) (render_lines ts ++ CRLF ++ rest) req)
       (ParseResult.Success, mk_cfg (mk State.Complete n) rest req).
Proof.
  induction 1 as [|t ts [Hne Ht] _ IH].
  - refine (runs_break _ (mk_cfg (mk State.Complete n) rest req) _ _); [done|].
    unfold loop_body; cbn [state_of m_state c_parser]. unfold step_trailers.
    by rewrite (read_line_ok _ _ [] rest) by (done || (split; [set_solver|done])).
  - eapply runs_next; [done| |exact IH].
    unfold loop_body; cbn [state_of m_state c_parser]. unfold step_trailers.
    rewrite (read_line_ok _ _ t (render_lines ts ++ CRLF ++ rest)); [| |done].
    + by rewrite bool_decide_false.
    + cbn. by rewrite <- !app_assoc.
Qed.

(** The decoded body of a list of chunks. *)
Definition chunk_data (chunks : list (bytes * bytes)) : bytes := concat (chunks.*1).

(** What [m_chunk_remaining] is left at. *)
Definition last_size (n : Z) (chunks : list (bytes * bytes)) : Z :=
  foldl (fun _ ch => zlen ch.1) n chunks.

Lemma runs_chunked chunks ts rest n req :
  Forall chunk_ok chunks -> Forall trailer_ok ts ->
  zlen (HttpRequest.body req ++ chunk_data chunks) <= Framer.MAX_HTTP_BODY_SIZE ->
  runs (mk_cfg (mk State.ChunkSize n) (render_chunked chunks ts ++ rest) req)
       (ParseResult.Success,
        mk_cfg (mk State.Complete (last_size n chunks)) rest
          (HttpRequest.with_body (HttpRequest.body req ++ chunk_data chunks) req)).
Proof.
  intros Hchunks Hts. revert n req. induction Hchunks as [|ch chunks Hch _ IH]; intros n req Hsum.
  - eapply runs_next; [done| |].
    { unfold loop_body; cbn [state_of m_state c_parser]. unfold step_chunk_size.
      rewrite (read_line_ok _ _ (bs "0") (render_lines ts ++ CRLF ++ rest));
        [|by unfold render_chunked; cbn; rewrite <- !app_assoc
         |split; [by apply CppStd.find_byte_None|done]].
      change (read_chunk_size (bs "0")) with (Some 0). cbn [set_buffer request].
      cbn in Hsum. rewrite app_nil_r in Hsum. pose proof (zlen_nonneg (HttpRequest.body req)).
      unfold Framer.MAX_HTTP_BODY_SIZE in *. rewrite Z.add_0_r, u64_small by lia.
      destruct (Z.ltb_spec (10 * 1024 * 1024) (zlen (HttpRequest.body req))); [lia|].
      reflexivity. }
    cbn. rewrite app_nil_r.
    replace (HttpRequest.with_body (HttpRequest.body req) req) with req by by destruct req.
    by apply (runs_trailers ts rest n req).
  - unfold chunk_data in *. cbn [fmap list_fmap concat] in *. rewrite app_assoc in *.
    replace (render_chunked (ch :: chunks) ts ++ rest)
      with (render_chunk ch ++ (render_chunked chunks ts ++ rest))
      by (unfold render_chunked; cbn; by rewrite <- !app_assoc).
    apply runs_chunk; [done| |exact (IH (zlen ch.1)
      (HttpRequest.with_body (HttpRequest.body req ++ ch.1) req) Hsum)].
    rewrite !zlen_app in Hsum. pose proof (zlen_nonneg (concat chunks.*1)). lia.
Qed.

Definition transfer_chunked : bytes * bytes := (bs "Transfer-Encoding", bs "chunked").

(** C3: A chunked request is parsed back for every partition of its body into
    non-empty chunks, with any chunk extensions and trailer lines, and whatever
    other headers it carries; the bytes after the last CRLF are left in the
    buffer.  In particular a [Content-Length] among [hs] has no influence: the
    chunked framing wins. *)
Theorem parse_chunked (m : HttpMethod.t) (target ver rest : bytes) (hs : list (bytes * bytes))
    (chunks : list (bytes * bytes)) (trailers : list bytes) :
  m <> HttpMethod.UNKNOWN -> target_ok target -> line_ok (request_line m target ver) ->
  Forall header_ok hs -> Forall chunk_ok chunks -> Forall trailer_ok trailers ->
  zlen (chunk_data chunks) <= Framer.MAX_HTTP_BODY_SIZE ->
  let hs' := hs ++ [transfer_chunked] in
  parse (initial (render_head m target ver hs' ++ render_chunked chunks trailers ++ rest)) =
    (ParseResult.Success,
     mk_cfg (mk State.Complete (last_size 0 chunks)) rest
       (HttpRequest.mk m target ver (headers_of hs') (chunk_data chunks))).
Proof.
  intros Hm Ht Hl Hhs Hchunks Htr Hlen hs'.
  apply runs_parse, runs_head; try done.
  { apply Forall_app. split; [done|]. constructor; [|done].
    split; [by apply CppStd.find_byte_None|]. split; [done|].
    split; [by apply CppStd.find_byte_None|done]. }
  assert (end_of_headers (headers_of hs') = State.ChunkSize) as ->.
  { unfold end_of_headers, hs'. by rewrite headers_of_snoc, HttpHeaders.get_set_eq. }
  by apply (runs_chunked chunks trailers rest 0 (HttpRequest.mk m target ver (headers_of hs') [])).
Qed.

(** ** Witnesses *)

Definition host : bytes * bytes := (bs "Host", bs "localhost").

Ltac printable_request :=
  match goal with
  | |- target_ok _ => split; [done|by_decide]
  | |- line_ok _ => split; [by_decide|by vm_compute]
  | |- header_ok _ => split; [by_decide|split; [done|split; [by_decide|by vm_compute]]]
  | |- Forall _ [] => apply Forall_nil_2
  | |- Forall _ (_ :: _) => apply Forall_cons_2; printable_request
  end.

Lemma parse_content_length_witness :
  let hs := [host] ++ [content_length 5] in
  parse (initial (render_head HttpMethod.POST (bs "/api/echo") (bs "HTTP/1.1") hs ++ bs "hello" ++ bs "GET")) =
    (ParseResult.Success,
     mk_cfg (mk State.Complete 0) (bs "GET")
       (HttpRequest.mk HttpMethod.POST (bs "/api/echo") (bs "HTTP/1.1") (headers_of hs) (bs "hello"))).
Proof.
  refine (parse_content_length HttpMethod.POST (bs "/api/echo") (bs "HTTP/1.1") (bs "hello") (bs "GET")
    [host] _ _ _ _ _ _); [done|printable_request|printable_request|printable_request| |by vm_compute].
  unfold unnamed. by_decide.
Defined.

Lemma parse_chunked_witness :
  let hs := [host; content_length 99] ++ [transfer_chunked] in
  let chunks := [(bs "hello ", []); (bs "world", bs ";name=value")] in
  parse (initial (render_head HttpMethod.POST (bs "/api/echo") (bs "HTTP/1.1") hs ++
                  render_chunked chunks [bs "Expires: now"] ++ bs "GET")) =
    (ParseResult.Success,
     mk_cfg (mk State.Complete 5) (bs "GET")
       (HttpRequest.mk HttpMethod.POST (bs "/api/echo") (bs "HTTP/1.1") (headers_of hs) (bs "hello world"))).
Proof.
  refine (parse_chunked HttpMethod.POST (bs "/api/echo") (bs "HTTP/1.1") (bs "GET")
    [host; content_length 99] [(bs "hello ", []); (bs "world", bs ";name=value")] [bs "Expires: now"]
    _ _ _ _ _ _ _); [done|printable_request|printable_request|printable_request| | |by vm_compute].
  - constructor; [|constructor; [|constructor]]; (split; [done|]).
    + split; [by left|printable_request].
    + split; [right; by exists (bs "name=value")|printable_request].
  - constructor; [split; [done|printable_request]|constructor].
Defined.

End RequestWire.
