(* ===== verification/ChunkSize.v ===== *)
(** * The chunk-size line

    Which chunk-size lines the parser accepts, with which value, and which it
    turns into an error: the guards around [strtoul] in the [ChunkSize] state. *)

From S2P Require Import Prelude CppStd Framing Headers Request Parser ParserLoop ParserSpec RequestWire.
Import HttpRequestParser ParserLoop RequestWire.

Module ChunkSize.

(** ** Lemmas on [strtoul] in base 16 *)

Definition stops (rest : bytes) : Prop :=
  match rest with [] => True | b :: _ => 16 <= CppStd.digit_val b end.

Lemma scan_digits_stop acc ds rest :
  CppStd.all_digits 16 ds -> stops rest ->
  CppStd.scan_digits 16 acc (ds ++ rest) = (CppStd.horner 16 acc ds, length ds).
Proof.
  intros Hd Hs. revert acc; induction Hd as [|b ds Hb _ IH]; intros acc; cbn.
  - destruct rest as [|b rest]; [done|]. cbn in *.
    by destruct (Z.ltb_spec (CppStd.digit_val b) 16); [lia|].
  - destruct (Z.ltb_spec (CppStd.digit_val b) 16); [|lia]. by rewrite IH.
Qed.

Lemma c_str_app ds rest : Byte.x00 ∉ ds -> CppStd.c_str (ds ++ rest) = ds ++ CppStd.c_str rest.
Proof.
  induction ds as [|b ds IH]; cbn; intros Hni; [done|].
  rewrite bool_decide_false by set_solver. by rewrite IH by set_solver.
Qed.

(** The [0x] prefix: a lone zero digit followed by [x] or [X]. *)
Definition hex_marker (ds rest : bytes) : Prop :=
  ds = [Byte.x30] /\ exists b t, rest = b :: t /\ (b = Byte.x78 \/ b = Byte.x58).

Lemma hex_prefix_none ds rest :
  ds <> [] -> CppStd.all_digits 16 ds -> ~ hex_marker ds rest -> CppStd.hex_prefix 16 (ds ++ rest) = 0%nat.
Proof.
  intros Hne Hd Hm. unfold CppStd.hex_prefix.
  destruct ds as [|z ds]; [done|]. cbn [app].
  destruct (ds ++ rest) as [|x [|d t]] eqn:Happ; try done.
  split_if; [|done]. exfalso. subst. apply orb_true_iff in H1 as [Hx|Hx]; simplify_bools; subst.
  all: destruct ds as [|y ds]; cbn in Happ;
    [destruct Hm; split; [done|]; eexists _, _; split; [exact Happ|by auto]|].
  all: injection Happ as -> _; apply Forall_cons in Hd as [_ Hd];
    apply Forall_cons in Hd as [Hy _]; vm_compute in Hy; discriminate Hy.
Qed.

(** [strtoul] on digits followed by something that is not one. *)
Lemma strtoul_stop ds rest :
  ds <> [] -> CppStd.all_digits 16 ds -> stops (CppStd.c_str rest) -> ~ hex_marker ds (CppStd.c_str rest) ->
  CppStd.strtoul 16 (ds ++ rest) =
    if CppStd.ULONG_MAX <? CppStd.horner 16 0 ds
    then {| CppStd.ul_value := CppStd.ULONG_MAX; CppStd.ul_end := length ds; CppStd.ul_erange := true |}
    else {| CppStd.ul_value := CppStd.horner 16 0 ds; CppStd.ul_end := length ds; CppStd.ul_erange := false |}.
Proof.
  intros Hne Hd Hs Hm. unfold CppStd.strtoul.
  rewrite c_str_app by by apply (CppStd.all_digits_no_nul 16).
  assert (CppStd.skip_spaces (ds ++ CppStd.c_str rest) = 0%nat /\
          CppStd.read_sign (ds ++ CppStd.c_str rest) = (false, 0%nat)) as [-> Hsg].
  { destruct ds as [|b ds]; [done|]. apply Forall_cons in Hd as [Hb _]. cbn.
    rewrite CppStd.digit_val_not_space by lia.
    destruct (CppStd.digit_val_not_sign b) as [? ?]; [lia|]. by rewrite !bool_decide_false. }
  rewrite drop_0, Hsg, !Nat.add_0_r, drop_0, hex_prefix_none, drop_0 by done.
  rewrite scan_digits_stop by done. rewrite bool_decide_false by by destruct ds.
  by destruct (_ <? _).
Qed.

Lemma at_end_app ds rest :
  Byte.x00 ∉ ds -> CppStd.at_end (ds ++ rest) (length ds) = bool_decide (CppStd.c_str rest = []).
Proof. intros Hn. unfold CppStd.at_end. by rewrite c_str_app, drop_app_length. Qed.

Lemma digit_not_semi ds : CppStd.all_digits 16 ds -> SEMI ∉ ds.
Proof. intros Hd. by apply (digits_no_byte 16). Qed.

(** The part of a line before the first semicolon. *)
Lemma chunk_size_hex_ext s ext :
  SEMI ∉ s -> ext = [] \/ (exists e, ext = (SEMI :: e)) -> chunk_size_hex (s ++ ext) = s.
Proof.
  intros Hsemi Hext. unfold chunk_size_hex, CppStd.substr. destruct Hext as [->|[e ->]].
  - rewrite app_nil_r. by apply CppStd.find_byte_None in Hsemi as ->.
  - rewrite CppStd.find_byte_app by done. by rewrite drop_0, take_app_length.
Qed.

(** The syntax checks on what [strtoul] made of a string starting with a digit. *)
Lemma read_chunk_size_digits ds junk ext :
  ds <> [] -> CppStd.all_digits 16 ds -> SEMI ∉ junk -> ext = [] \/ (exists e, ext = (SEMI :: e)) ->
  stops (CppStd.c_str junk) -> ~ hex_marker ds (CppStd.c_str junk) ->
  read_chunk_size (ds ++ junk ++ ext) =
    if bool_decide (CppStd.c_str junk = []) && (CppStd.horner 16 0 ds <=? CppStd.ULONG_MAX)
    then Some (CppStd.horner 16 0 ds) else None.
Proof.
  intros Hne Hd Hj Hext Hs Hm. unfold read_chunk_size. rewrite app_assoc.
  rewrite chunk_size_hex_ext; [|by apply not_elem_of_app; split; [apply digit_not_semi|]|done].
  rewrite strtoul_stop by done.
  assert (forall e, CppStd.ul_end (if CppStd.ULONG_MAX <? CppStd.horner 16 0 ds
    then {| CppStd.ul_value := CppStd.ULONG_MAX; CppStd.ul_end := e; CppStd.ul_erange := true |}
    else {| CppStd.ul_value := CppStd.horner 16 0 ds; CppStd.ul_end := e; CppStd.ul_erange := false |}) = e)
    as -> by (intros; by destruct (_ <? _)).
  rewrite at_end_app by by apply (CppStd.all_digits_no_nul 16).
  destruct ds as [|b ds]; [done|]. pose proof Hd as Hd0. apply Forall_cons in Hd as [Hb _]. cbn [app].
  rewrite CppStd.digit_val_not_space by lia.
  destruct (CppStd.digit_val_not_sign b) as [? ?]; [lia|].
  rewrite !(bool_decide_false (b = _)) by done. rewrite bool_decide_false by done. cbn [orb].
  destruct (Z.ltb_spec CppStd.ULONG_MAX (CppStd.horner 16 0 (b :: ds))),
    (Z.leb_spec (CppStd.horner 16 0 (b :: ds)) CppStd.ULONG_MAX); try lia;
    by case_bool_decide.
Qed.

(** ** The decision *)

Lemma step_chunk_size_line line rest n req :
  line_ok line ->
  loop_body (mk_cfg (mk State.ChunkSize n) (line ++ CRLF ++ rest) req) =
    let c' := mk_cfg (mk State.ChunkSize n) rest req in
    match read_chunk_size line with
    | None => fail c'
    | Some size =>
        if Framer.MAX_HTTP_BODY_SIZE <? size then fail c'
        else if Framer.MAX_HTTP_BODY_SIZE <? u64 (zlen (HttpRequest.body req) + size) then fail c'
        else if size =? 0 then Next (set_state State.Trailers c')
        else Next (mk_cfg (mk State.ChunkData size) rest req)
    end.
Proof.
  intros Hl. unfold loop_body; cbn [state_of m_state c_parser]. unfold step_chunk_size.
  by rewrite (read_line_ok _ _ line rest).
Qed.

(** C34: A chunk-size line made of hexadecimal digits, with or without an
    extension, is accepted exactly when the chunk still fits in
    [MAX_HTTP_BODY_SIZE] together with the body read so far, and then with the
    value of the numeral: neither the range error of [strtoul] nor the
    wrap-around of [size_t] lets a larger chunk through. *)
Theorem chunk_size_bounds (ds ext rest : bytes) (n : Z) (req : HttpRequest.t) :
  ds <> [] -> CppStd.all_digits 16 ds -> ext = [] \/ (exists e, ext = (SEMI :: e)) ->
  line_ok (ds ++ ext) -> zlen (HttpRequest.body req) <= Framer.MAX_HTTP_BODY_SIZE ->
  let v := CppStd.horner 16 0 ds in
  let c' := mk_cfg (mk State.ChunkSize n) rest req in
  loop_body (mk_cfg (mk State.ChunkSize n) ((ds ++ ext) ++ CRLF ++ rest) req) =
    if v + zlen (HttpRequest.body req) <=? Framer.MAX_HTTP_BODY_SIZE
    then Next (if v =? 0 then set_state State.Trailers c'
               else mk_cfg (mk State.ChunkData v) rest req)
    else fail c'.
Proof.
  intros Hne Hd Hext Hl Hb v c'. rewrite step_chunk_size_line by done.
  pose proof (read_chunk_size_digits ds [] ext Hne Hd) as Hr. cbn [app CppStd.c_str] in Hr.
  rewrite Hr by first [done | set_solver | by intros (_ & b & t & H & _)]. clear Hr.
  rewrite bool_decide_true by done. cbn [andb]. fold v.
  assert (0 <= v) as Hv by (apply CppStd.horner_nonneg; lia).
  pose proof (zlen_nonneg (HttpRequest.body req)).
  unfold Framer.MAX_HTTP_BODY_SIZE, CppStd.ULONG_MAX in *. fold c'.
  destruct (Z.leb_spec v (2 ^ 64 - 1)), (Z.leb_spec (v + zlen (HttpRequest.body req)) (10 * 1024 * 1024));
    try lia; try done.
  - destruct (Z.ltb_spec (10 * 1024 * 1024) v); [lia|]. rewrite u64_small by lia.
    destruct (Z.ltb_spec (10 * 1024 * 1024) (zlen (HttpRequest.body req) + v)); [lia|].
    by destruct (v =? 0).
  - destruct (Z.ltb_spec (10 * 1024 * 1024) v); [done|]. rewrite u64_small by lia.
    by destruct (Z.ltb_spec (10 * 1024 * 1024) (zlen (HttpRequest.body req) + v)); [|lia].
Qed.

Lemma split_semi s :
  exists u ext, s = u ++ ext /\ (SEMI ∉ u) /\ (ext = [] \/ (exists e, ext = (SEMI :: e))).
Proof.
  destruct (CppStd.find_byte SEMI s) as [i|] eqn:Hf.
  - apply CppStd.find_byte_Some in Hf as (Hs & Hni & _).
    exists (take i s), (SEMI :: drop (S i) s). by eauto.
  - apply CppStd.find_byte_None in Hf. exists s, []. rewrite app_nil_r. auto.
Qed.

Lemma strtoul_no_digit b s :
  16 <= CppStd.digit_val b -> CppStd.isspace b = false -> b <> Byte.x2d -> b <> Byte.x2b ->
  CppStd.ul_end (CppStd.strtoul 16 (b :: s)) = 0%nat.
Proof.
  intros Hb Hsp Hm Hp. unfold CppStd.strtoul. cbn [CppStd.c_str].
  destruct (bool_decide_reflect (b = Byte.x00)) as [->|Hn]; [done|].
  cbn [CppStd.skip_spaces]. rewrite Hsp. cbn [drop CppStd.read_sign].
  rewrite !bool_decide_false by done. cbn [Nat.add drop].
  assert (CppStd.hex_prefix 16 (b :: CppStd.c_str s) = 0%nat) as ->.
  { unfold CppStd.hex_prefix. destruct (CppStd.c_str s) as [|x [|d t]]; try done.
    rewrite (bool_decide_false (b = _)); [done|]. by intros ->. }
  cbn [Nat.add drop CppStd.scan_digits].
  by destruct (Z.ltb_spec (CppStd.digit_val b) 16); [lia|].
Qed.

(** A chunk-size line whose size is empty, or whose first byte that is not
    a hexadecimal digit is anything else than the semicolon of an extension, is
    an error, signs and blanks included; the NUL byte and the [x] of a [0x]
    prefix are the two exceptions, see [chunk_size_lenient]. *)
Lemma chunk_size_malformed (ds tail rest : bytes) (b : byte) (n : Z) (req : HttpRequest.t) :
  CppStd.all_digits 16 ds -> 16 <= CppStd.digit_val b ->
  (b = SEMI -> ds = []) -> b <> Byte.x00 ->
  (ds = [Byte.x30] -> b <> Byte.x78 /\ b <> Byte.x58) ->
  line_ok (ds ++ b :: tail) ->
  loop_body (mk_cfg (mk State.ChunkSize n) ((ds ++ b :: tail) ++ CRLF ++ rest) req) =
    fail (mk_cfg (mk State.ChunkSize n) rest req).
Proof.
  intros Hd Hb Hsemi Hnul H0x Hl. rewrite step_chunk_size_line by done. cbv zeta.
  enough (read_chunk_size (ds ++ b :: tail) = None) as -> by done. clear Hl.
  destruct (bool_decide_reflect (b = SEMI)) as [->|Hns]; [by rewrite Hsemi|].
  destruct (split_semi tail) as (u & ext & -> & Hu & Hext).
  assert (SEMI ∉ b :: u) as Hbu by set_solver.
  destruct (decide (ds = [])) as [->|Hne].
  - unfold read_chunk_size. cbn [app]. change (b :: u ++ ext) with ((b :: u) ++ ext).
    rewrite chunk_size_hex_ext by done.
    destruct (_ || _) eqn:Hg; [done|]. simplify_bools.
    by rewrite (bool_decide_true (_ = 0%nat)) by by apply strtoul_no_digit.
  - change (b :: u ++ ext) with ((b :: u) ++ ext).
    rewrite read_chunk_size_digits; cbn [CppStd.c_str]; rewrite ?(bool_decide_false (b = _)) by done;
      try done.
    intros (Hz & x & t & [= <- <-] & Hx). destruct (H0x Hz). by destruct Hx.
Qed.

Lemma strtoul_0x ds :
  ds <> [] -> CppStd.all_digits 16 ds -> CppStd.horner 16 0 ds <= CppStd.ULONG_MAX ->
  CppStd.strtoul 16 (bs "0x" ++ ds) =
    {| CppStd.ul_value := CppStd.horner 16 0 ds; CppStd.ul_end := 2 + length ds;
       CppStd.ul_erange := false |}.
Proof.
  intros Hne Hd Hmax.
  assert (CppStd.hex_prefix 16 (bs "0x" ++ ds) = 2%nat) as Hp.
  { destruct ds as [|d ds]; [done|]. apply Forall_cons in Hd as [Hb _]. cbn.
    by destruct (Z.ltb_spec (CppStd.digit_val d) 16); [|lia]. }
  unfold CppStd.strtoul. rewrite CppStd.c_str_no_nul; cycle 1.
  { pose proof (CppStd.all_digits_no_nul 16 ds ltac:(done) Hd). cbn. set_solver. }
  change (CppStd.skip_spaces (bs "0x" ++ ds)) with 0%nat. rewrite drop_0.
  change (CppStd.read_sign (bs "0x" ++ ds)) with (false, 0%nat). cbn [Nat.add].
  rewrite drop_0, Hp. change (drop 2 (bs "0x" ++ ds)) with ds.
  rewrite CppStd.scan_digits_horner by done.
  rewrite bool_decide_false by by destruct ds.
  by destruct (Z.ltb_spec CppStd.ULONG_MAX (CppStd.horner 16 0 ds)); [lia|].
Qed.

(** Two spellings pass the syntax checks although they are not chunk sizes:
    a [0x] prefix in front of the digits, which [strtoul] skips in base 16, and
    a NUL byte behind them with any junk after it, where [*end] is ['\0'] too. *)
Lemma chunk_size_lenient (ds junk : bytes) :
  ds <> [] -> CppStd.all_digits 16 ds -> CppStd.horner 16 0 ds <= CppStd.ULONG_MAX -> SEMI ∉ junk ->
  read_chunk_size (bs "0x" ++ ds) = Some (CppStd.horner 16 0 ds) /\
  read_chunk_size (ds ++ Byte.x00 :: junk) = Some (CppStd.horner 16 0 ds).
Proof.
  intros Hne Hd Hmax Hj. pose proof (CppStd.all_digits_no_nul 16 ds ltac:(done) Hd) as Hnul. split.
  - unfold read_chunk_size.
    assert (chunk_size_hex (bs "0x" ++ ds) = bs "0x" ++ ds) as ->.
    { pose proof (digit_not_semi ds Hd). unfold chunk_size_hex.
      assert (CppStd.find_byte SEMI (bs "0x" ++ ds) = None) as ->; [|done].
      apply CppStd.find_byte_None. cbn. set_solver. }
    rewrite strtoul_0x by done. cbn [CppStd.ul_end CppStd.ul_erange CppStd.ul_value].
    assert (CppStd.at_end (bs "0x" ++ ds) (2 + length ds) = true) as ->.
    { pose proof (at_end_app (bs "0x" ++ ds) []) as He. rewrite app_nil_r in He.
      change (2 + length ds)%nat with (length (bs "0x" ++ ds)). rewrite He by (cbn; set_solver).
      done. }
    done.
  - pose proof (read_chunk_size_digits ds (Byte.x00 :: junk) [] Hne Hd) as Hr.
    rewrite app_nil_r in Hr. cbn [CppStd.c_str] in Hr. rewrite bool_decide_true in Hr by done.
    rewrite Hr by first [done | by left | by intros (_ & ? & ? & ? & _) | set_solver].
    cbn [bool_decide andb]. by destruct (Z.leb_spec (CppStd.horner 16 0 ds) CppStd.ULONG_MAX); [|lia].
Qed.

(** ** Witnesses *)

Lemma chunk_size_bounds_witness :
  loop_body (mk_cfg (mk State.ChunkSize 0) ((bs "a00000" ++ bs ";x") ++ CRLF ++ []) HttpRequest.init) =
    Next (mk_cfg (mk State.ChunkData (10 * 1024 * 1024)) [] HttpRequest.init).
Proof.
  refine (eq_trans (chunk_size_bounds (bs "a00000") (bs ";x") [] 0 HttpRequest.init _ _ _ _ _) _);
    [done|unfold CppStd.all_digits; by_decide|right; by exists (bs "x")|split; [by_decide|by vm_compute]|by vm_compute|by vm_compute].
Defined.

Lemma chunk_size_malformed_witness :
  loop_body (mk_cfg (mk State.ChunkSize 0) ((bs "1" ++ bs "g") ++ CRLF ++ []) HttpRequest.init) =
    fail (mk_cfg (mk State.ChunkSize 0) [] HttpRequest.init).
Proof.
  refine (chunk_size_malformed (bs "1") [] [] Byte.x67 0 HttpRequest.init _ _ _ _ _ _);
    [unfold CppStd.all_digits; by_decide|by vm_compute|done|done|done|split; [by_decide|by vm_compute]].
Defined.

Lemma chunk_size_lenient_witness :
  read_chunk_size (bs "0x" ++ bs "1a") = Some 26 /\ read_chunk_size (bs "1a" ++ Byte.x00 :: bs "junk") = Some 26.
Proof.
  refine (chunk_size_lenient (bs "1a") (bs "junk") _ _ _ _); [done|unfold CppStd.all_digits; by_decide|by vm_compute|by_decide].
Defined.

End ChunkSize.
