(* ===== verification/Response.v ===== *)
(** * [HttpResponse]: the response object and its fluent setters

    [src/include/Http/HttpResponse.h] and [src/src/Http/HttpResponse.cpp]. *)

From S2P Require Import Prelude CppStd Headers.

Module BodyType.
Inductive t := CONTENT_LENGTH | CHUNKED.
#[global] Instance eq_dec : EqDecision t.
  Proof. solve_decision. Defined.
End BodyType.

Module HttpResponse.

Record t := mk {
  status_code : Z;
  status_message : bytes;
  headers : HttpHeaders.t;
  body : bytes;
  body_type : BodyType.t;
  close_after_send : bool
}.

(** [HttpResponse() = default] with the member initialisers of the header. *)
Definition init : t :=
  {| status_code := 200; status_message := bs "OK"; headers := HttpHeaders.empty; body := [];
     body_type := BodyType.CONTENT_LENGTH; close_after_send := false |}.

Definition with_headers (h : HttpHeaders.t) (r : t) : t :=
  mk (status_code r) (status_message r) h (body r) (body_type r) (close_after_send r).

Definition with_body_type (b : BodyType.t) (r : t) : t :=
  mk (status_code r) (status_message r) (headers r) (body r) b (close_after_send r).

Definition set_status (code : Z) (message : bytes) (r : t) : t :=
  mk (code mod 2 ^ 16) message (headers r) (body r) (body_type r) (close_after_send r).

Definition set_header (key value : bytes) (r : t) : t :=
  with_headers (HttpHeaders.set key value (headers r)) r.

(** Both overloads of [set_body]: text and raw bytes. *)
Definition set_body (b : bytes) (r : t) : t :=
  mk (status_code r) (status_message r) (headers r) b (body_type r) (close_after_send r).

Definition json (json_str : bytes) (r : t) : t :=
  set_body json_str (set_header (bs "Content-Type") (bs "application/json") r).

Definition html (html_str : bytes) (r : t) : t :=
  set_body html_str (set_header (bs "Content-Type") (bs "text/html; charset=utf-8") r).

Definition finalize_for_connection (client_wants_keep_alive is_head_request : bool) (r : t) : t :=
  let already_close :=
    match HttpHeaders.get (bs "Connection") (headers r) with
    | Some existing => CppStd.contains (bs "close") (CppStd.tolower <$> existing)
    | None => false
    end in
  let keep_alive := client_wants_keep_alive && negb already_close in
  let r' := set_header (bs "Connection") (if keep_alive then bs "keep-alive" else bs "close") r in
  mk (status_code r') (status_message r') (headers r') (body r') (body_type r') (negb keep_alive).

(** [reset] does not touch [body_type] and [close_after_send]. *)
Definition reset (r : t) : t :=
  mk 200 (bs "OK") HttpHeaders.empty [] (body_type r) (close_after_send r).

(** The [Connection] header and the close flag agree, and closing is decided
    by the client's wish and the handler's own header. *)
Lemma finalize_close ka hd r :
  close_after_send (finalize_for_connection ka hd r) =
    negb ka || match HttpHeaders.get (bs "Connection") (headers r) with
               | Some v => CppStd.contains (bs "close") (CppStd.tolower <$> v)
               | None => false
               end.
Proof.
  unfold finalize_for_connection. cbv zeta. cbn [close_after_send].
  by rewrite negb_andb, negb_involutive.
Qed.

Lemma finalize_connection ka hd r :
  HttpHeaders.get (bs "Connection") (headers (finalize_for_connection ka hd r)) =
    Some (if close_after_send (finalize_for_connection ka hd r) then bs "close" else bs "keep-alive").
Proof.
  unfold finalize_for_connection. cbv zeta. cbn [headers close_after_send set_header with_headers].
  rewrite HttpHeaders.get_set_eq by done. by destruct (ka && _).
Qed.

End HttpResponse.
