(* ===== verification/Encoder.v ===== *)
(** * [HttpResponseEncoder]: responses as bytes

    [src/src/Http/HttpResponseEncoder.cpp].  The order in which an
    [std::unordered_map] is iterated is not specified: it is the parameter
    [ord], of which only [order_perm] is assumed. *)

From S2P Require Import Prelude CppStd Headers Request Response.

(** An iteration order over the header map visits every entry once. *)
Class MapOrder (ord : gmap bytes bytes -> list (bytes * bytes)) : Prop :=
  order_perm m : ord m ≡ₚ map_to_list m.

#[export] Instance map_to_list_order : MapOrder map_to_list.
Proof. by intros m. Qed.

Module HttpResponseEncoder.

Definition MAX_CHUCK_SIZE : Z := 64 * 1024.

Definition appendString (dest str : bytes) : bytes := dest ++ str.

Definition set_response_header (res : HttpResponse.t) : HttpResponse.t :=
  let body_size := zlen (HttpResponse.body res) in
  if MAX_CHUCK_SIZE <? body_size then
    let res1 := HttpResponse.with_body_type BodyType.CHUNKED res in
    let h := HttpHeaders.del (bs "Content-Length") (HttpResponse.headers res1) in
    HttpResponse.with_headers (HttpHeaders.set (bs "Transfer-Encoding") (bs "chunked") h) res1
  else if body_size =? 0 then
    HttpResponse.with_headers
      (HttpHeaders.set (bs "Content-Length") (bs "0") (HttpResponse.headers res)) res
  else
    let res1 := HttpResponse.with_body_type BodyType.CONTENT_LENGTH res in
    let h := HttpHeaders.del (bs "Transfer-Encoding") (HttpResponse.headers res1) in
    HttpResponse.with_headers
      (HttpHeaders.set (bs "Content-Length") (CppStd.to_string body_size) h) res1.

(** The chunk loop, [while (offset < body_size)]. *)
Fixpoint emit_chunks (fuel : nat) (body : bytes) (offset : Z) (wire : bytes) : bytes :=
  match fuel with
  | O => wire
  | S f =>
      if offset <? zlen body then
        let chunk_len := Z.min MAX_CHUCK_SIZE (zlen body - offset) in
        let w1 := appendString wire (CppStd.to_hex chunk_len) in
        let w2 := appendString w1 CRLF in
        let w3 := w2 ++ take (Z.to_nat chunk_len) (drop (Z.to_nat offset) body) in
        let w4 := appendString w3 CRLF in
        emit_chunks f body (offset + chunk_len) w4
      else wire
  end.

(** Every round but the last takes a full chunk. *)
Definition chunk_fuel (body : bytes) : nat := S (Z.to_nat (zlen body / MAX_CHUCK_SIZE)).

Section Encode.
Context (ord : gmap bytes bytes -> list (bytes * bytes)).

Definition append_header (wire : bytes) (kv : bytes * bytes) : bytes :=
  appendString (appendString (appendString (appendString wire kv.1) (bs ": ")) kv.2) CRLF.

(** The bytes produced, and the response as [set_response_header] leaves it. *)
Definition encode (response : HttpResponse.t) (is_head_request : bool) : bytes * HttpResponse.t :=
  let wire := appendString [] (bs "HTTP/1.1 ") in
  let wire := appendString wire (CppStd.to_string (HttpResponse.status_code response)) in
  let wire := appendString wire (bs " ") in
  let wire := appendString wire (HttpResponse.status_message response) in
  let wire := appendString wire CRLF in
  let response := set_response_header response in
  let wire :=
    foldl append_header wire (ord (HttpHeaders.m_headers (HttpResponse.headers response))) in
  let wire := appendString wire CRLF in
  let body := HttpResponse.body response in
  let wire :=
    if negb is_head_request then
      match HttpResponse.body_type response with
      | BodyType.CONTENT_LENGTH =>
          if negb (bool_decide (body = [])) then wire ++ body else wire
      | BodyType.CHUNKED =>
          appendString (emit_chunks (chunk_fuel body) body 0 wire) (bs "0" ++ CRLF ++ CRLF)
      end
    else wire in
  (wire, response).

End Encode.
End HttpResponseEncoder.
