(* ===== verification/EncoderSpec.v ===== *)
(** * What the encoder promises

    The encoded response is the printed head followed by a payload; the payload
    is the body under its framing, which the repository's own request parser
    decodes; the framing headers agree with the payload when the handler sets
    none of its own, and what happens when it does. *)

From S2P Require Import Prelude CppStd Framing Headers Request Parser ParserLoop ParserSpec RequestWire Response Encoder.
Import HttpResponseEncoder.

Module EncoderSpec.

(** ** The chunk loop *)

(** The body cut every 64 KiB. *)
Fixpoint pieces (fuel : nat) (body : bytes) : list bytes :=
  match fuel with
  | O => []
  | S f =>
      if bool_decide (body = []) then []
      else take (Z.to_nat MAX_CHUCK_SIZE) body :: pieces f (drop (Z.to_nat MAX_CHUCK_SIZE) body)
  end.

Definition body_chunks (body : bytes) : list (bytes * bytes) :=
  (fun d => (d, [])) <$> pieces (chunk_fuel body) body.

Lemma max_chunk_pos : 0 < MAX_CHUCK_SIZE.
Proof. done. Qed.

#[local] Opaque MAX_CHUCK_SIZE.

Lemma take_min_chunk (body : bytes) :
  take (Z.to_nat (Z.min MAX_CHUCK_SIZE (zlen body))) body = take (Z.to_nat MAX_CHUCK_SIZE) body.
Proof.
  destruct (Z.min_spec MAX_CHUCK_SIZE (zlen body)) as [[? ->]|[? ->]]; [done|].
  rewrite to_nat_zlen, !take_ge; [done| |done]. unfold zlen in *. lia.
Qed.

Lemma drop_min_chunk (body : bytes) :
  drop (Z.to_nat (Z.min MAX_CHUCK_SIZE (zlen body))) body = drop (Z.to_nat MAX_CHUCK_SIZE) body.
Proof.
  destruct (Z.min_spec MAX_CHUCK_SIZE (zlen body)) as [[? ->]|[? ->]]; [done|].
  rewrite to_nat_zlen, !drop_ge; [done| |done]. unfold zlen in *. lia.
Qed.

(** The loop appends the printed chunks, one per piece. *)
Lemma emit_chunks_eq fuel body off wire :
  0 <= off <= zlen body ->
  emit_chunks fuel body off wire =
    wire ++ concat (RequestWire.render_chunk <$>
                    ((fun d => (d, [])) <$> pieces fuel (drop (Z.to_nat off) body))).
Proof.
  revert off wire; induction fuel as [|f IH]; intros off wire Hoff; cbn [emit_chunks pieces].
  - by rewrite app_nil_r.
  - pose proof (zlen_drop off body Hoff) as Hd. destruct (Z.ltb_spec off (zlen body)) as [Hlt|Hge].
    + rewrite bool_decide_false by (intros Hn; rewrite Hn, zlen_nil in Hd; lia).
      set (n := Z.min MAX_CHUCK_SIZE (zlen body - off)).
      pose proof max_chunk_pos. assert (0 < n <= zlen body - off) as Hn by lia.
      rewrite IH by lia. cbn [fmap list_fmap concat].
      set (rest := drop (Z.to_nat off) body) in *.
      assert (drop (Z.to_nat (off + n)) body = drop (Z.to_nat MAX_CHUCK_SIZE) rest) as ->.
      { rewrite Z2Nat.inj_add, <- drop_drop by lia. fold rest. unfold n. rewrite <- Hd.
        apply drop_min_chunk. }
      assert (take (Z.to_nat n) rest = take (Z.to_nat MAX_CHUCK_SIZE) rest) as Ht
        by (unfold n; rewrite <- Hd; apply take_min_chunk).
      rewrite Ht. unfold appendString, RequestWire.render_chunk; cbn [fst snd].
      replace (zlen (take (Z.to_nat MAX_CHUCK_SIZE) rest)) with n
        by (rewrite <- Ht, zlen_take; lia).
      rewrite <- !app_assoc, app_nil_l. reflexivity.
    + assert (drop (Z.to_nat off) body = []) as -> by (apply zlen_zero_inv; lia).
      cbn. by rewrite app_nil_r.
Qed.

Lemma concat_pieces fuel body :
  zlen body <= Z.of_nat fuel * MAX_CHUCK_SIZE -> concat (pieces fuel body) = body.
Proof.
  revert body; induction fuel as [|f IH]; intros body Hf; cbn [pieces].
  - symmetry. apply zlen_zero_inv. pose proof (zlen_nonneg body). lia.
  - case_bool_decide as Hb; [by subst|]. cbn [concat]. rewrite IH; [apply take_drop|].
    pose proof max_chunk_pos. destruct (Z.le_gt_cases MAX_CHUCK_SIZE (zlen body)).
    + rewrite zlen_drop by lia. lia.
    + rewrite drop_ge by (unfold zlen in *; lia). rewrite zlen_nil. lia.
Qed.

Lemma pieces_sizes fuel body :
  Forall (fun d => d <> [] /\ zlen d <= MAX_CHUCK_SIZE) (pieces fuel body).
Proof.
  revert body; induction fuel as [|f IH]; intros body; cbn [pieces]; [constructor|].
  case_bool_decide as Hb; [constructor|]. constructor; [|apply IH].
  pose proof max_chunk_pos. split.
  - destruct body as [|b body]; [done|]. destruct (Z.to_nat MAX_CHUCK_SIZE) eqn:Hn; [lia|done].
  - unfold zlen. rewrite length_take. lia.
Qed.

Lemma chunk_fuel_enough body : zlen body <= Z.of_nat (chunk_fuel body) * MAX_CHUCK_SIZE.
Proof.
  unfold chunk_fuel. pose proof max_chunk_pos. pose proof (zlen_nonneg body).
  pose proof (Z.div_pos (zlen body) MAX_CHUCK_SIZE ltac:(lia) ltac:(lia)).
  rewrite Nat2Z.inj_succ, Z2Nat.id by lia.
  pose proof (Z.mod_pos_bound (zlen body) MAX_CHUCK_SIZE ltac:(lia)).
  pose proof (Z.div_mod (zlen body) MAX_CHUCK_SIZE ltac:(lia)). lia.
Qed.

Lemma chunk_data_pieces ps : RequestWire.chunk_data ((fun d => (d, [])) <$> ps) = concat ps.
Proof.
  unfold RequestWire.chunk_data. f_equal. rewrite <- list_fmap_compose. apply list_fmap_id.
Qed.

Lemma body_chunks_ok body :
  zlen body < 2 ^ 63 -> Forall RequestWire.chunk_ok (body_chunks body).
Proof.
  intros Hb. unfold body_chunks. apply Forall_fmap. eapply Forall_impl; [apply pieces_sizes|].
  intros d [Hne Hd]. cbn. split; [done|]. split; [by left|]. cbn [snd fst]. rewrite app_nil_r.
  pose proof (zlen_nonneg d). assert (MAX_CHUCK_SIZE < 2 ^ 63) by done. split.
  - apply (RequestWire.digits_no_byte 16); [done|done|]. by apply RequestWire.to_hex_digits.
  - etrans; [apply RequestWire.print_base_length; lia|]. done.
Qed.

(** For every body the chunk loop runs to its end: what it appends, with the
    terminating chunk, is the printed form of a list of chunks that are not
    empty, not larger than 64 KiB, and whose data make up the body. *)
Lemma emit_chunks_correct (body wire : bytes) :
  exists chunks : list (bytes * bytes),
    appendString (emit_chunks (chunk_fuel body) body 0 wire) (bs "0" ++ CRLF ++ CRLF) =
      wire ++ RequestWire.render_chunked chunks [] /\
    RequestWire.chunk_data chunks = body /\
    Forall (fun ch => ch.1 <> [] /\ zlen ch.1 <= MAX_CHUCK_SIZE /\ ch.2 = []) chunks.
Proof.
  exists (body_chunks body). pose proof (zlen_nonneg body). unfold body_chunks. split; [|split].
  - rewrite emit_chunks_eq by lia. change (drop (Z.to_nat 0) body) with body.
    unfold appendString, RequestWire.render_chunked. cbn [RequestWire.render_lines concat fmap list_fmap].
    by rewrite <- !app_assoc.
  - rewrite chunk_data_pieces. apply concat_pieces, chunk_fuel_enough.
  - apply Forall_fmap. eapply Forall_impl; [apply pieces_sizes|]. cbn. naive_solver.
Qed.

(** ** The layout of an encoded response *)

Definition status_line (res : HttpResponse.t) : bytes :=
  bs "HTTP/1.1 " ++ CppStd.to_string (HttpResponse.status_code res) ++ SP ::
  HttpResponse.status_message res.

Definition payload (res : HttpResponse.t) : bytes :=
  match HttpResponse.body_type res with
  | BodyType.CONTENT_LENGTH => HttpResponse.body res
  | BodyType.CHUNKED => RequestWire.render_chunked (body_chunks (HttpResponse.body res)) []
  end.

Lemma foldl_append_header wire kvs :
  foldl append_header wire kvs = wire ++ RequestWire.render_lines (RequestWire.header_line <$> kvs).
Proof.
  revert wire; induction kvs as [|[k v] kvs IH]; intros wire; cbn [foldl]; [by rewrite app_nil_r|].
  rewrite IH. unfold append_header, appendString, RequestWire.render_lines, RequestWire.header_line.
  cbn [fst snd fmap list_fmap concat]. by rewrite <- !app_assoc.
Qed.

(** The status line, the header lines, a blank line, and the payload unless
    the response answers a HEAD request. *)
Lemma encode_eq ord res hd :
  encode ord res hd =
    let res' := set_response_header res in
    (status_line res ++ CRLF ++
     RequestWire.render_lines
       (RequestWire.header_line <$> ord (HttpHeaders.m_headers (HttpResponse.headers res'))) ++ CRLF ++
     (if hd then [] else payload res'), res').
Proof.
  unfold encode, status_line, payload. rewrite foldl_append_header. cbv zeta. f_equal.
  unfold appendString. set (res' := set_response_header res).
  destruct hd; cbn [negb]; [by rewrite app_nil_l, !app_nil_r, <- !app_assoc|].
  destruct (HttpResponse.body_type res').
  - case_bool_decide as Hb; cbn [negb]; rewrite ?Hb, ?app_nil_r, app_nil_l, <- !app_assoc; done.
  - rewrite emit_chunks_eq by (pose proof (zlen_nonneg (HttpResponse.body res')); lia).
    change (drop (Z.to_nat 0) (HttpResponse.body res')) with (HttpResponse.body res').
    unfold RequestWire.render_chunked, body_chunks. cbn [RequestWire.render_lines fmap list_fmap concat].
    by rewrite app_nil_l, <- !app_assoc.
Qed.

(** ** The header map is recovered from its lines *)

Definition set_all (h : HttpHeaders.t) (kvs : list (bytes * bytes)) : HttpHeaders.t :=
  foldl (fun h kv => HttpHeaders.set kv.1 kv.2 h) h kvs.

Lemma set_all_to_map h kvs :
  NoDup kvs.*1 -> Forall (fun kv => HttpHeaders.toLower kv.1 = kv.1) kvs ->
  HttpHeaders.m_headers (set_all h kvs) = list_to_map kvs ∪ HttpHeaders.m_headers h.
Proof.
  revert h; induction kvs as [|[k v] kvs IH]; intros h Hnd Hlow.
  - cbn. by rewrite left_id_L by apply _.
  - apply NoDup_cons in Hnd as [Hk Hnd]. apply Forall_cons in Hlow as [Hlk Hlow].
    cbn [set_all foldl]. unfold set_all in IH. rewrite IH by done.
    cbn [HttpHeaders.set HttpHeaders.m_headers fst snd list_to_map foldr]. cbn [fst] in Hlk. rewrite Hlk.
    rewrite <- insert_union_r, <- insert_union_l by by apply not_elem_of_list_to_map_1. done.
Qed.

Lemma set_all_order ord `{!MapOrder ord} h :
  HttpHeaders.lower_keys h -> set_all HttpHeaders.empty (ord (HttpHeaders.m_headers h)) = h.
Proof.
  intros Hlow. destruct h as [m]. pose proof (order_perm m) as Hp. cbn [HttpHeaders.m_headers].
  assert (NoDup (ord m).*1) as Hnd by (rewrite Hp; apply NoDup_fst_map_to_list).
  assert (Forall (fun kv => HttpHeaders.toLower kv.1 = kv.1) (ord m)) as Hl.
  { rewrite Hp. apply Forall_forall. intros [k v] Hin%elem_of_map_to_list. by apply (Hlow k v). }
  pose proof (set_all_to_map HttpHeaders.empty (ord m) Hnd Hl) as Hs.
  destruct (set_all _ _) as [m']. cbn in Hs. f_equal. rewrite Hs, right_id_L by apply _.
  rewrite (list_to_map_proper _ _ Hnd Hp). apply list_to_map_to_list.
Qed.

(** ** The framing headers *)

Definition printable (h : HttpHeaders.t) : Prop :=
  forall k v, HttpHeaders.m_headers h !! k = Some v -> RequestWire.header_ok (k, v).

Lemma printable_set k v h :
  printable h -> RequestWire.header_ok (HttpHeaders.toLower k, v) -> printable (HttpHeaders.set k v h).
Proof.
  intros Hh Hkv k' v'. cbn. rewrite lookup_insert_Some. intros [[<- <-]|[_ H]]; [done|by apply Hh].
Qed.

Lemma printable_del k h : printable h -> printable (HttpHeaders.del k h).
Proof.
  intros Hh. unfold HttpHeaders.del. destruct (_ !! _); [|done].
  intros k' v'. cbn. rewrite lookup_delete_Some. intros [_ H]. by apply Hh.
Qed.

Lemma header_ok_length n :
  0 <= n < 2 ^ 64 ->
  RequestWire.header_ok (HttpHeaders.toLower (bs "Content-Length"), CppStd.to_string n).
Proof.
  intros Hn. pose proof (RequestWire.content_length_ok n ltac:(lia)) as H.
  destruct H as (_ & Ht & Hcr & Hl); [etrans; [apply RequestWire.print_base_length|]; lia|].
  split; [by apply CppStd.find_byte_None|]. split; [done|].
  unfold RequestWire.line_ok, RequestWire.header_line, RequestWire.content_length in *.
  cbn [fst snd] in *. rewrite zlen_app in *.
  change (zlen (HttpHeaders.toLower (bs "Content-Length"))) with (zlen (bs "Content-Length")).
  split; [|done]. apply not_elem_of_app. apply not_elem_of_app in Hcr as [_ Hcr].
  split; [by apply CppStd.find_byte_None|done].
Qed.

Lemma get_te_set_length v h :
  HttpHeaders.get (bs "Transfer-Encoding") (HttpHeaders.set (bs "Content-Length") v h) =
    HttpHeaders.get (bs "Transfer-Encoding") h.
Proof. by apply HttpHeaders.get_set_ne. Qed.

Lemma content_length_set n h :
  0 <= n <= CppStd.ULONG_MAX ->
  HttpHeaders.getContentLength (HttpHeaders.set (bs "Content-Length") (CppStd.to_string n) h) = n.
Proof.
  intros Hn. unfold HttpHeaders.getContentLength. rewrite HttpHeaders.get_set_eq by done.
  by rewrite CppStd.stoull_to_string.
Qed.

(** What a handler's response must satisfy: stored keys are lower-case, every
    header prints on one line, no [Transfer-Encoding] of its own, and the
    framing mode of an empty body is the default one. *)
Record plain (res : HttpResponse.t) : Prop := {
  plain_lower : HttpHeaders.lower_keys (HttpResponse.headers res);
  plain_print : printable (HttpResponse.headers res);
  plain_te : HttpHeaders.get (bs "Transfer-Encoding") (HttpResponse.headers res) = None;
  plain_type : HttpResponse.body res = [] -> HttpResponse.body_type res = BodyType.CONTENT_LENGTH
}.

(** The three ways [set_response_header] can go, for a plain response. *)
Inductive framing (res : HttpResponse.t) : HttpResponse.t -> Prop :=
| framing_chunked h :
    MAX_CHUCK_SIZE < zlen (HttpResponse.body res) ->
    HttpHeaders.get (bs "Transfer-Encoding") h = Some (bs "chunked") ->
    HttpHeaders.lower_keys h -> printable h ->
    framing res (HttpResponse.with_headers h (HttpResponse.with_body_type BodyType.CHUNKED res))
| framing_length h :
    zlen (HttpResponse.body res) <= MAX_CHUCK_SIZE ->
    HttpHeaders.get (bs "Transfer-Encoding") h = None ->
    HttpHeaders.getContentLength h = zlen (HttpResponse.body res) ->
    HttpHeaders.lower_keys h -> printable h ->
    framing res (HttpResponse.with_headers h (HttpResponse.with_body_type BodyType.CONTENT_LENGTH res)).

Lemma set_response_header_framing res : plain res -> framing res (set_response_header res).
Proof.
  intros [Hlow Hpr Hte Hty]. unfold set_response_header.
  pose proof (zlen_nonneg (HttpResponse.body res)).
  assert (MAX_CHUCK_SIZE < 2 ^ 63) as Hmax by done.
  destruct (Z.ltb_spec MAX_CHUCK_SIZE (zlen (HttpResponse.body res))) as [Hbig|Hsmall].
  - cbn [HttpResponse.headers HttpResponse.with_body_type].
    constructor; [done|by rewrite HttpHeaders.get_set_eq|auto with http|].
    apply printable_set; [by apply printable_del|].
    split; [by apply CppStd.find_byte_None|]. split; [done|].
    split; [by apply CppStd.find_byte_None|done].
  - destruct (Z.eqb_spec (zlen (HttpResponse.body res)) 0) as [Hz|Hnz].
    + assert (HttpResponse.with_body_type BodyType.CONTENT_LENGTH res = res) as Hres.
      { specialize (Hty (zlen_zero_inv _ Hz)). destruct res; cbn in *. by subst. }
      rewrite <- Hres at 3.
      constructor; [done|by rewrite get_te_set_length| |auto with http|].
      * rewrite Hz. by apply (content_length_set 0).
      * apply printable_set; [done|]. by apply (header_ok_length 0).
    + cbn [HttpResponse.headers HttpResponse.with_body_type].
      constructor; [done| | |auto with http|].
      * rewrite get_te_set_length, HttpHeaders.del_upper; done.
      * apply content_length_set. unfold CppStd.ULONG_MAX. lia.
      * apply printable_set; [by apply printable_del|]. apply header_ok_length. lia.
Qed.

(** Reading back the header lines and the payload of an encoded response. *)
Lemma runs_payload res res' rest :
  framing res res' -> zlen (HttpResponse.body res) <= Framer.MAX_HTTP_BODY_SIZE ->
  exists n,
    ParserLoop.runs
      (HttpRequestParser.mk_cfg
         (HttpRequestParser.mk (HttpRequestParser.end_of_headers (HttpResponse.headers res')) 0)
         (payload res' ++ rest)
         (HttpRequest.mk HttpMethod.UNKNOWN [] [] (HttpResponse.headers res') []))
      (ParseResult.Success,
       HttpRequestParser.mk_cfg (HttpRequestParser.mk State.Complete n) rest
         (HttpRequest.mk HttpMethod.UNKNOWN [] [] (HttpResponse.headers res') (HttpResponse.body res))).
Proof.
  intros [h Hbig Hte _ _|h Hsmall Hte Hcl _ _] Hmax; unfold payload;
    cbn [HttpResponse.with_headers HttpResponse.with_body_type HttpResponse.body_type
         HttpResponse.headers HttpResponse.body].
  - exists (RequestWire.last_size 0 (body_chunks (HttpResponse.body res))).
    unfold HttpRequestParser.end_of_headers. rewrite Hte. cbv zeta.
    rewrite (eq_refl : CppStd.contains (bs "chunked") (bs "chunked") = true).
    assert (RequestWire.chunk_data (body_chunks (HttpResponse.body res)) = HttpResponse.body res) as Hd
      by (unfold body_chunks; rewrite chunk_data_pieces; apply concat_pieces, chunk_fuel_enough).
    pose proof (RequestWire.runs_chunked (body_chunks (HttpResponse.body res)) [] rest 0
      (HttpRequest.mk HttpMethod.UNKNOWN [] [] h [])) as Hrun.
    cbn [HttpRequest.body app] in Hrun. rewrite Hd in Hrun.
    apply Hrun; [|constructor|done]. apply body_chunks_ok.
    unfold Framer.MAX_HTTP_BODY_SIZE in Hmax. lia.
  - exists 0. pose proof (zlen_nonneg (HttpResponse.body res)).
    apply RequestWire.runs_length_body; [|done|done].
    unfold HttpRequestParser.end_of_headers. by rewrite Hte.
Qed.

(** C6: What [encode] produces for a plain response is self-delimiting: after the
    status line, the repository's own header and body parser recovers exactly
    the headers and the body and leaves every byte that follows, whatever the
    iteration order of the header map.  This holds across the 64 KiB switch
    from [Content-Length] to chunked framing. *)
Theorem encode_roundtrip (ord : gmap bytes bytes -> list (bytes * bytes)) (res : HttpResponse.t)
    (rest : bytes) :
  MapOrder ord -> plain res -> zlen (HttpResponse.body res) <= Framer.MAX_HTTP_BODY_SIZE ->
  let '(wire, res') := encode ord res false in
  exists tail n,
    wire = status_line res ++ CRLF ++ tail /\
    HttpRequestParser.parse
      (HttpRequestParser.mk_cfg (HttpRequestParser.mk State.Headers 0) (tail ++ rest) HttpRequest.init) =
      (ParseResult.Success,
       HttpRequestParser.mk_cfg (HttpRequestParser.mk State.Complete n) rest
         (HttpRequest.mk HttpMethod.UNKNOWN [] [] (HttpResponse.headers res') (HttpResponse.body res))).
Proof.
  intros Hord Hres Hmax. rewrite encode_eq. cbv zeta.
  pose proof (set_response_header_framing res Hres) as Hf.
  set (res' := set_response_header res) in *.
  destruct (runs_payload res res' rest Hf Hmax) as [n Hrun].
  assert (HttpHeaders.lower_keys (HttpResponse.headers res') /\
          printable (HttpResponse.headers res')) as [Hlow Hpr] by by destruct Hf.
  eexists _, n. split; [reflexivity|]. rewrite <- !app_assoc.
  apply ParserLoop.runs_parse, RequestWire.runs_headers.
  - rewrite (order_perm (HttpHeaders.m_headers (HttpResponse.headers res'))).
    apply Forall_forall. intros [k v] Hin%elem_of_map_to_list. by apply Hpr.
  - pose proof (set_all_order ord (HttpResponse.headers res') Hlow) as Hall.
    unfold set_all in Hall. cbn [HttpRequest.headers HttpRequest.init]. by rewrite Hall.
Qed.

(** ** Framing headers a handler sets itself *)

Lemma has_get k h : HttpHeaders.has k h = bool_decide (is_Some (HttpHeaders.get k h)).
Proof. done. Qed.

Lemma has_set k k' v h :
  HttpHeaders.has k' (HttpHeaders.set k v h) =
    bool_decide (HttpHeaders.toLower k' = HttpHeaders.toLower k) || HttpHeaders.has k' h.
Proof.
  rewrite !has_get, HttpHeaders.get_set. case_decide as Hk.
  - by rewrite (bool_decide_true (_ = _)).
  - by rewrite (bool_decide_false (_ = _)).
Qed.

Definition te_and_cl (h : HttpHeaders.t) : bool :=
  HttpHeaders.has (bs "Transfer-Encoding") h && HttpHeaders.has (bs "Content-Length") h.

(** Both framing headers go out together exactly when the handler had set
    the one [set_response_header] means to delete: its [del] is called with
    the capitalised name and erases nothing, because keys are stored in lower
    case.  A handler that sets neither header never gets the conflict. *)
Lemma framing_headers_conflict (res : HttpResponse.t) :
  HttpHeaders.lower_keys (HttpResponse.headers res) ->
  te_and_cl (HttpResponse.headers (set_response_header res)) =
    HttpHeaders.has (if MAX_CHUCK_SIZE <? zlen (HttpResponse.body res)
                     then bs "Content-Length" else bs "Transfer-Encoding")
      (HttpResponse.headers res).
Proof.
  intros Hlow. unfold set_response_header, te_and_cl.
  destruct (_ <? _).
  - cbn [HttpResponse.headers HttpResponse.with_headers HttpResponse.with_body_type].
    rewrite HttpHeaders.del_upper by done. rewrite !has_set.
    rewrite bool_decide_true, bool_decide_false by done. done.
  - destruct (_ =? _); cbn [HttpResponse.headers HttpResponse.with_headers HttpResponse.with_body_type];
      rewrite ?HttpHeaders.del_upper by done; rewrite !has_set;
      rewrite (bool_decide_true (HttpHeaders.toLower (bs "Content-Length") = _)) by done;
      rewrite bool_decide_false by done; by rewrite andb_true_r.
Qed.

(** A response object that was sent with a large body and then [reset] is
    encoded with [Content-Length: 0] and, after the head, a chunk terminator:
    [reset] leaves [body_type] as it was and the empty-body branch does not
    set it either. *)
Lemma reset_keeps_chunked (ord : gmap bytes bytes -> list (bytes * bytes)) (res : HttpResponse.t) :
  MAX_CHUCK_SIZE < zlen (HttpResponse.body res) ->
  let res1 := HttpResponse.reset (encode ord res false).2 in
  let '(wire, res2) := encode ord res1 false in
  HttpHeaders.getContentLength (HttpResponse.headers res2) = 0 /\
  exists lines, wire = status_line res1 ++ CRLF ++ RequestWire.render_lines lines ++ CRLF ++
                       bs "0" ++ CRLF ++ CRLF.
Proof.
  intros Hbig res1. rewrite encode_eq. cbv zeta.
  assert (res1 = HttpResponse.reset (set_response_header res)) as Hres1
    by (unfold res1; by rewrite encode_eq).
  clearbody res1.
  assert (HttpResponse.body res1 = [] /\ HttpResponse.body_type res1 = BodyType.CHUNKED /\
          HttpResponse.headers res1 = HttpHeaders.empty) as (Hb & Ht & Hh).
  { subst res1. split; [done|]. split; [|done]. unfold set_response_header.
    destruct (Z.ltb_spec MAX_CHUCK_SIZE (zlen (HttpResponse.body res))); [done|lia]. }
  assert (set_response_header res1 = HttpResponse.with_headers
            (HttpHeaders.set (bs "Content-Length") (bs "0") HttpHeaders.empty) res1) as Hs.
  { unfold set_response_header. by rewrite Hb, Hh. }
  rewrite Hs. split; [by apply (content_length_set 0)|].
  eexists. do 3 f_equal. unfold payload. cbn [HttpResponse.with_headers HttpResponse.body_type HttpResponse.body].
  by rewrite Ht, Hb.
Qed.

(** ** Witnesses *)

Definition hello : HttpResponse.t :=
  HttpResponse.html (bs "<h1>Hello</h1>") HttpResponse.init.

Lemma hello_plain : plain hello.
Proof.
  constructor; [| |by vm_compute|done].
  - apply HttpHeaders.lower_keys_set. by intros k v H.
  - apply printable_set; [by intros k v H|RequestWire.printable_request].
Qed.

Lemma encode_roundtrip_witness :
  let '(wire, res') := encode map_to_list hello false in
  exists tail n,
    wire = status_line hello ++ CRLF ++ tail /\
    HttpRequestParser.parse
      (HttpRequestParser.mk_cfg (HttpRequestParser.mk State.Headers 0) (tail ++ bs "HTTP/1.1") HttpRequest.init) =
      (ParseResult.Success,
       HttpRequestParser.mk_cfg (HttpRequestParser.mk State.Complete n) (bs "HTTP/1.1")
         (HttpRequest.mk HttpMethod.UNKNOWN [] [] (HttpResponse.headers res') (bs "<h1>Hello</h1>"))).
Proof.
  exact (encode_roundtrip map_to_list hello (bs "HTTP/1.1") map_to_list_order hello_plain ltac:(by vm_compute)).
Defined.

(** A handler that announces a chunked body and sets a small one. *)
Definition announces_chunked : HttpResponse.t :=
  HttpResponse.set_header (bs "Transfer-Encoding") (bs "chunked") hello.

Lemma framing_headers_conflict_witness :
  te_and_cl (HttpResponse.headers (set_response_header announces_chunked)) = true.
Proof.
  refine (eq_trans (framing_headers_conflict announces_chunked _) _); [|by vm_compute].
  apply HttpHeaders.lower_keys_set, hello_plain.
Defined.

Lemma reset_keeps_chunked_witness :
  let res := HttpResponse.set_body (replicate (Z.to_nat 70000) Byte.x61) HttpResponse.init in
  let '(wire, res2) := encode map_to_list (HttpResponse.reset (encode map_to_list res false).2) false in
  HttpHeaders.getContentLength (HttpResponse.headers res2) = 0.
Proof.
  intros res. pose proof (reset_keeps_chunked map_to_list res ltac:(by vm_compute)) as H. cbv zeta in H.
  destruct (encode map_to_list (HttpResponse.reset _) false) as [wire res2]. exact (proj1 H).
Defined.

End EncoderSpec.
