(* ===== verification/Router.v ===== *)
(** * [HttpRouter]: exact-match dispatch

    [src/src/Http/HttpRouter.cpp].  Handlers are functions from the request to
    the response; routes live in a map from ["METHOD:path"] keys. *)

From S2P Require Import Prelude CppStd Headers Request Response.

Module HttpRouter.

Definition HttpHandler : Type := HttpRequest.t -> HttpResponse.t.

Record t := mk { m_routes : gmap bytes HttpHandler }.

Definition init : t := mk ∅.

Definition make_route_key (method : HttpMethod.t) (path : bytes) : bytes :=
  let key :=
    match method with
    | HttpMethod.GET => bs "GET:"
    | HttpMethod.POST => bs "POST:"
    | HttpMethod.PUT => bs "PUT:"
    | HttpMethod.DELETE => bs "DELETE:"
    | HttpMethod.HEAD => bs "HEAD:"
    | HttpMethod.OPTIONS => bs "OPTIONS:"
    | _ => bs "UNKNOWN:"
    end in
  key ++ path.

(** The router afterwards, and the warnings the call logs. *)
Definition add_route (method : HttpMethod.t) (path : bytes) (handler : HttpHandler) (r : t)
    : t * list bytes :=
  let key := make_route_key method path in
  let log := match m_routes r !! key with
             | Some _ => [bs "Duplicate Route in: " ++ key]
             | None => []
             end in
  (mk (<[key := handler]> (m_routes r)), log).

Definition get (path : bytes) (handler : HttpHandler) (r : t) : t * list bytes :=
  add_route HttpMethod.GET path handler r.
Definition post (path : bytes) (handler : HttpHandler) (r : t) : t * list bytes :=
  add_route HttpMethod.POST path handler r.
Definition put (path : bytes) (handler : HttpHandler) (r : t) : t * list bytes :=
  add_route HttpMethod.PUT path handler r.
Definition del (path : bytes) (handler : HttpHandler) (r : t) : t * list bytes :=
  add_route HttpMethod.DELETE path handler r.

Definition not_found_res : HttpResponse.t :=
  HttpResponse.html
    (bs "<h1>404 Not Found</h1><p>The requested URL was not found on this server.</p>")
    (HttpResponse.set_status 404 (bs "Not Found") HttpResponse.init).

Definition route (r : t) (request : HttpRequest.t) : HttpResponse.t :=
  let key := make_route_key (HttpRequest.method request) (HttpRequest.path request) in
  match m_routes r !! key with
  | Some handler => handler request
  | None => not_found_res
  end.

(** ** Specification: the last registration of a method and path wins *)

Definition entry : Type := HttpMethod.t * bytes * HttpHandler.

Definition register (es : list entry) (r : t) : t :=
  foldl (fun r '(m, p, h) => (add_route m p h r).1) r es.

(** The handler registered last for a method and a path. *)
Fixpoint last_handler (m : HttpMethod.t) (p : bytes) (es : list entry) : option HttpHandler :=
  match es with
  | [] => None
  | (m', p', h) :: es' =>
      match last_handler m p es' with
      | Some h' => Some h'
      | None => if decide (m' = m /\ p' = p) then Some h else None
      end
  end.

(** Keys of different methods or paths never collide. *)
Lemma make_route_key_inj m p m' p' :
  make_route_key m p = make_route_key m' p' <-> m = m' /\ p = p'.
Proof.
  split; [|by intros [-> ->]].
  destruct m, m'; cbn; intros H; try discriminate H; split; congruence.
Qed.

Lemma lookup_register m p es r :
  m_routes (register es r) !! make_route_key m p =
    match last_handler m p es with
    | Some h => Some h
    | None => m_routes r !! make_route_key m p
    end.
Proof.
  revert r; induction es as [|[[m' p'] h] es IH]; intros r; [done|].
  cbn [register foldl last_handler]. unfold register in IH. rewrite IH.
  destruct (last_handler m p es); [done|]. cbn. rewrite lookup_insert.
  case_decide as Hk; case_decide as Hmp; try done.
  - apply make_route_key_inj in Hk. tauto.
  - destruct Hk. by apply make_route_key_inj.
Qed.

(** C29: A request is answered by the handler registered last for its method and
    path, and by the 404 response when there is none; registrations for other
    methods or paths do not interfere. *)
Theorem route_register (es : list entry) (req : HttpRequest.t) :
  route (register es init) req =
    match last_handler (HttpRequest.method req) (HttpRequest.path req) es with
    | Some h => h req
    | None => not_found_res
    end.
Proof.
  unfold route. rewrite lookup_register.
  destruct (last_handler _ _ es); [done|]. cbn. by rewrite lookup_empty.
Qed.

(** A warning is logged exactly for a method and path registered before. *)
Lemma add_route_warns es m p h :
  (add_route m p h (register es init)).2 <> [] <-> is_Some (last_handler m p es).
Proof.
  unfold add_route. cbn [snd]. rewrite lookup_register.
  destruct (last_handler m p es); cbn; [by split|]. rewrite lookup_empty.
  split; [done|by intros [? ?]].
Qed.

End HttpRouter.
