(* ===== verification/App.v ===== *)
(** * The application of [main.cpp]: its routes and handlers

    The lambdas [main] registers, in order.  A double quote inside a literal is
    written with [quoted], as the byte 0x22 around the text. *)

From S2P Require Import Prelude CppStd Headers Request Response Router.

Module App.

Definition root_handler (req : HttpRequest.t) : HttpResponse.t :=
  HttpResponse.html (bs "<h1>Hello from C++ HTTP Server!</h1>") HttpResponse.init.

Definition health_handler (req : HttpRequest.t) : HttpResponse.t :=
  HttpResponse.json
    (bs "{" ++ quoted "status" ++ bs ":" ++ quoted "ok" ++ bs "," ++
     quoted "uptime" ++ bs ":" ++ quoted "healthy" ++ bs "}")
    HttpResponse.init.

Definition echo_handler (req : HttpRequest.t) : HttpResponse.t :=
  HttpResponse.set_body (bs "Echo: " ++ HttpRequest.body req)
    (HttpResponse.set_status 200 (bs "OK") HttpResponse.init).

Definition resource_handler (req : HttpRequest.t) : HttpResponse.t :=
  let body := HttpRequest.body req in
  if bool_decide (body = []) then
    HttpResponse.json (bs "{" ++ quoted "error" ++ bs ":" ++ quoted "empty body" ++ bs "}")
      (HttpResponse.set_status 400 (bs "Bad Request") HttpResponse.init)
  else
    HttpResponse.json
      (bs "{" ++ quoted "status" ++ bs ":" ++ quoted "updated" ++ bs "," ++
       quoted "received_bytes" ++ bs ":" ++ CppStd.to_string (zlen body) ++ bs "}")
      (HttpResponse.set_status 200 (bs "OK") HttpResponse.init).

Definition resources_handler (req : HttpRequest.t) : HttpResponse.t :=
  HttpResponse.set_status 204 (bs "No Content") HttpResponse.init.

Definition echo_large_handler (req : HttpRequest.t) : HttpResponse.t :=
  HttpResponse.set_body (HttpRequest.body req)
    (HttpResponse.set_status 200 (bs "OK") HttpResponse.init).

(** [snprintf(..., "%06d", i)] for a non-negative [i]. *)
Definition pad6 (i : Z) : bytes :=
  let s := CppStd.to_string i in replicate (6 - length s) Byte.x30 ++ s.

Definition large_line (i : Z) : bytes :=
  bs "line-" ++ pad6 i ++ bs "-0123456789abcdef" ++ [LF].

(** [for (int i = 0; i < 200 * 1024 / 50; ++i) body += line;] *)
Definition large_body : bytes := concat (large_line <$> seqZ 0 (200 * 1024 / 50)).

Definition large_handler (req : HttpRequest.t) : HttpResponse.t :=
  HttpResponse.html large_body (HttpResponse.set_status 200 (bs "OK") HttpResponse.init).

Definition test_echo_handler (req : HttpRequest.t) : HttpResponse.t :=
  HttpResponse.set_body (HttpRequest.body req)
    (HttpResponse.set_header (bs "Content-Type") (bs "text/plain")
       (HttpResponse.set_status 200 (bs "OK") HttpResponse.init)).

Definition routes : list HttpRouter.entry :=
  [ (HttpMethod.GET, bs "/", root_handler);
    (HttpMethod.GET, bs "/api/health", health_handler);
    (HttpMethod.POST, bs "/api/echo", echo_handler);
    (HttpMethod.PUT, bs "/api/resource", resource_handler);
    (HttpMethod.DELETE, bs "/api/resources", resources_handler);
    (HttpMethod.POST, bs "/api/echo/large", echo_large_handler);
    (HttpMethod.GET, bs "/test/large", large_handler);
    (HttpMethod.POST, bs "/test/echo", test_echo_handler) ].

Definition router : HttpRouter.t := HttpRouter.register routes HttpRouter.init.

(** The body of [/test/large] is 118784 bytes, 58% of the 200 KiB its comment
    announces (the loop divides by 50 bytes per line but prints 29), and still
    large enough to be sent in chunks. *)
Lemma large_body_size : zlen large_body = 118784 /\ 64 * 1024 < zlen large_body.
Proof.
  assert (zlen large_body = 118784) as ->; [|lia]. vm_compute. reflexivity.
Qed.

End App.
