(* ===== verification/Logger.v ===== *)
(** * [Logger]: log entries and how they are printed

    [src/include/Utils/Logger.h] and the formatting half of
    [src/src/Utils/Logger.cpp].  A time point is its count of nanoseconds since
    the epoch, a [double] the rational it denotes.  The time zone is the
    argument [utc_offset] of the text format: the seconds [std::localtime] adds
    at a time.  The queue and its thread are in [LogQueue]. *)

From Stdlib Require Import QArith.
From S2P Require Import Prelude CppStd.
#[local] Open Scope Z_scope.

Module Level.
Inductive t := INFO | WARN | ERROR | DEBUG.
End Level.

Module LogFormat.
Inductive t := TEXT | JSON.
End LogFormat.

Module Logger.

Record LogEntry := mk {
  level : Level.t;
  message : bytes;
  fd : Z;
  thread_id : Z;
  timestamp : Z;
  method : bytes;        (* empty: not an entry of log_http *)
  path : bytes;
  status_code : Z;
  duration_ms : Q
}.

(** ** Printing numbers and times *)

(** [std::setfill('0') << std::setw(w)] in front of an unsigned number. *)
Definition setw0 (w : nat) (n : Z) : bytes :=
  let s := CppStd.to_string n in replicate (w - length s) Byte.x30 ++ s.

(** [ostream << n] for an [int]. *)
Definition print_int (n : Z) : bytes :=
  if n <? 0 then Byte.x2d :: CppStd.to_string (- n) else CppStd.to_string n.

(** The nearest integer to [a / b], the even one of two. *)
Definition round_half_even (a b : Z) : Z :=
  let f := a / b in
  match 2 * (a mod b) ?= b with
  | Lt => f
  | Gt => f + 1
  | Eq => if Z.even f then f else f + 1
  end.

(** [ostream << std::fixed << std::setprecision(2) << q]. *)
Definition fixed2 (q : Q) : bytes :=
  let n := round_half_even (100 * Z.abs (Qnum q)) (Zpos (Qden q)) in
  (if Qnum q <? 0 then [Byte.x2d] else []) ++
  CppStd.to_string (n / 100) ++ bs "." ++ setw0 2 (n mod 100).

(** Year, month and day of a number of days since 1970-01-01 (Gregorian). *)
Definition civil_from_days (days : Z) : Z * Z * Z :=
  let z := days + 719468 in
  let era := z / 146097 in
  let doe := z mod 146097 in
  let yoe := (doe - doe / 1460 + doe / 36524 - doe / 146096) / 365 in
  let doy := doe - (365 * yoe + yoe / 4 - yoe / 100) in
  let mp := (5 * doy + 2) / 153 in
  let m := if mp <? 10 then mp + 3 else mp - 9 in
  (yoe + era * 400 + Z.b2z (m <=? 2), m, doy - (153 * mp + 2) / 5 + 1).

(** [std::put_time(std::gmtime(&t), "%Y-%m-%d %H:%M:%S")]. *)
Definition put_time (t : Z) : bytes :=
  let '(y, m, d) := civil_from_days (t / 86400) in
  let s := t mod 86400 in
  CppStd.to_string y ++ bs "-" ++ setw0 2 m ++ bs "-" ++ setw0 2 d ++ bs " " ++
  setw0 2 (s / 3600) ++ bs ":" ++ setw0 2 (s / 60 mod 60) ++ bs ":" ++ setw0 2 (s mod 60).

(** [system_clock::to_time_t], and the milliseconds within the second. *)
Definition to_time_t (ns : Z) : Z := Z.quot ns 1000000000.
Definition millis (ns : Z) : Z := Z.rem (Z.quot ns 1000000) 1000.

(** ** The two formats *)

(** The literal of the text format is padded to five characters. *)
Definition lvl_str (l : Level.t) : bytes :=
  match l with
  | Level.DEBUG => bs "DEBUG"
  | Level.INFO => bs "INFO "
  | Level.WARN => bs "WARN "
  | Level.ERROR => bs "ERROR"
  end.

Definition escape_char (c : byte) : bytes :=
  match c with
  | Byte.x22 => [Byte.x5c; Byte.x22]      (* double quote *)
  | Byte.x5c => [Byte.x5c; Byte.x5c]      (* backslash *)
  | Byte.x08 => [Byte.x5c; Byte.x62]      (* \b *)
  | Byte.x0c => [Byte.x5c; Byte.x66]      (* \f *)
  | Byte.x0a => [Byte.x5c; Byte.x6e]      (* \n *)
  | Byte.x1b => [Byte.x5c; Byte.x65]      (* \e *)
  | Byte.x0d => [Byte.x5c; Byte.x72]      (* \r *)
  | Byte.x09 => [Byte.x5c; Byte.x74]      (* \t *)
  | _ => [c]
  end.

Definition escape_json (input : bytes) : bytes := concat (escape_char <$> input).

Section Format.
Context (utc_offset : Z -> Z).

Definition format_text (e : LogEntry) : bytes :=
  let t := to_time_t (timestamp e) in
  bs "[" ++ put_time (t + utc_offset t) ++ bs "." ++ setw0 3 (millis (timestamp e)) ++ bs "] " ++
  bs "[" ++ lvl_str (level e) ++ bs "] " ++
  bs "[TID " ++ CppStd.to_string (thread_id e) ++ bs "] " ++
  (if 0 <=? fd e then bs "[FD " ++ print_int (fd e) ++ bs "] " else []) ++
  message e.

(** A string member of the object, and one printed without quotes. *)
Definition str_member (key : string) (value : bytes) : bytes :=
  quoted key ++ bs ":" ++ [DQUOTE] ++ value ++ [DQUOTE].
Definition num_member (key : string) (value : bytes) : bytes := quoted key ++ bs ":" ++ value.

Definition format_json (e : LogEntry) : bytes :=
  bs "{" ++
  str_member "timestamp" (put_time (to_time_t (timestamp e)) ++ bs "." ++
                          setw0 3 (millis (timestamp e)) ++ bs "Z") ++ bs "," ++
  str_member "level" (lvl_str (level e)) ++ bs "," ++
  str_member "tid" (CppStd.to_string (thread_id e)) ++ bs "," ++
  (if 0 <=? fd e then num_member "fd" (print_int (fd e)) ++ bs "," else []) ++
  (if negb (bool_decide (method e = [])) then
     str_member "method" (escape_json (method e)) ++ bs "," ++
     str_member "path" (escape_json (path e)) ++ bs "," ++
     num_member "status" (print_int (status_code e)) ++ bs "," ++
     num_member "duration_ms" (fixed2 (duration_ms e)) ++ bs ","
   else []) ++
  str_member "message" (escape_json (message e)) ++
  bs "}".

(** What [process_queue] writes for an entry, before the line feed. *)
Definition formatted (format : LogFormat.t) (e : LogEntry) : bytes :=
  match format with LogFormat.JSON => format_json e | LogFormat.TEXT => format_text e end.
End Format.

(** ** The entries the callers make *)

Definition log (lvl : Level.t) (fd : Z) (msg : bytes) (tid now : Z) : LogEntry :=
  mk lvl msg fd tid now [] [] 0 0.

Definition log_http (fd : Z) (method path : bytes) (status : Z) (duration_ms : Q) (tid now : Z)
  : LogEntry :=
  let level := Level.INFO in
  let level := if (400 <=? status) && (status <? 500) then Level.WARN else level in
  let level := if (500 <=? status) || (status =? 0) then Level.ERROR else level in
  let message :=
    [DQUOTE] ++ method ++ bs " " ++ path ++ [DQUOTE] ++ bs " " ++ print_int status ++ bs " - " ++
    fixed2 duration_ms ++ bs "ms" in
  mk level message fd tid now method path status duration_ms.

Definition trace_lock (fd : Z) (mutex_name action : bytes) (tid now : Z) : LogEntry :=
  log Level.DEBUG fd (bs "[MUTEX] " ++ action ++ bs " " ++ mutex_name) tid now.

Example civil_leap_day : civil_from_days 19782 = (2024, 2, 29).
Proof. reflexivity. Qed.

Example fixed2_half : fixed2 (1 # 8) = bs "0.12" /\ fixed2 (- (3 # 8)) = bs "-0.38".
Proof. split; reflexivity. Qed.

End Logger.
