(* ===== verification/LoggerSpec.v ===== *)
(** * The JSON log format, read back

    A strict reader of JSON objects (RFC 8259, without white space, nesting,
    exponents and [\u] escapes, none of which the logger prints), and what it
    makes of the lines of [Logger.format_json]. *)

From Stdlib Require Import QArith.
From S2P Require Import Prelude CppStd Logger.
#[local] Open Scope Z_scope.

Module LoggerSpec.

(** ** A reader *)

Inductive value := JStr (s : bytes) | JNum (token : bytes).

Definition unescape (c : byte) : option byte :=
  match c with
  | Byte.x22 | Byte.x5c | Byte.x2f => Some c
  | Byte.x62 => Some Byte.x08
  | Byte.x66 => Some Byte.x0c
  | Byte.x6e => Some Byte.x0a
  | Byte.x72 => Some Byte.x0d
  | Byte.x74 => Some Byte.x09
  | _ => None
  end.

Definition cons_fst {A B} (x : A) (p : list A * B) : list A * B := (x :: p.1, p.2).

(** The string up to its closing quote; control characters must be escaped. *)
Fixpoint json_string (s : bytes) : option (bytes * bytes) :=
  match s with
  | [] => None
  | b :: r =>
      if bool_decide (b = DQUOTE) then Some ([], r)
      else if bool_decide (b = Byte.x5c) then
        match r with
        | [] => None
        | c :: r' => v ← unescape c; cons_fst v <$> json_string r'
        end
      else if byte_val b <? 32 then None
      else cons_fst b <$> json_string r
  end.

Definition is_digit (b : byte) : bool := CppStd.digit_val b <? 10.

Fixpoint span_digits (s : bytes) : bytes * bytes :=
  match s with
  | b :: r => if is_digit b then cons_fst b (span_digits r) else ([], s)
  | [] => ([], [])
  end.

(** No superfluous leading zero. *)
Definition json_int (s : bytes) : option (bytes * bytes) :=
  match s with
  | Byte.x30 :: r => Some ([Byte.x30], r)
  | b :: r => if is_digit b then Some (span_digits s) else None
  | [] => None
  end.

Definition json_frac (s : bytes) : option (bytes * bytes) :=
  match s with
  | Byte.x2e :: r =>
      let '(ds, r') := span_digits r in
      if bool_decide (ds = []) then None else Some (Byte.x2e :: ds, r')
  | _ => Some ([], s)
  end.

Definition json_unsigned (s : bytes) : option (bytes * bytes) :=
  '(i, r) ← json_int s; '(f, r') ← json_frac r; Some (i ++ f, r').

Definition json_number (s : bytes) : option (bytes * bytes) :=
  match s with
  | Byte.x2d :: r => cons_fst Byte.x2d <$> json_unsigned r
  | _ => json_unsigned s
  end.

Definition json_value (s : bytes) : option (value * bytes) :=
  match s with
  | DQUOTE :: r => (fun p => (JStr p.1, p.2)) <$> json_string r
  | _ => (fun p => (JNum p.1, p.2)) <$> json_number s
  end.

Fixpoint json_members (fuel : nat) (s : bytes) : option (list (bytes * value) * bytes) :=
  match fuel, s with
  | S f, DQUOTE :: r =>
      '(k, r1) ← json_string r;
      match r1 with
      | COLON :: r2 =>
          '(v, r3) ← json_value r2;
          match r3 with
          | Byte.x2c :: r4 => cons_fst (k, v) <$> json_members f r4
          | Byte.x7d :: r4 => Some ([(k, v)], r4)
          | _ => None
          end
      | _ => None
      end
  | _, _ => None
  end.

(** Every member takes a byte, so that the length is fuel enough. *)
Definition json_object (s : bytes) : option (list (bytes * value)) :=
  match s with
  | Byte.x7b :: r =>
      '(ms, rest) ← json_members (length r) r; if bool_decide (rest = []) then Some ms else None
  | _ => None
  end.

(** ** What an entry should read back as *)

(** The characters [escape_json] makes valid: all but the control characters
    that have no escape of one letter in JSON. *)
Definition char_ok (c : byte) : bool :=
  (32 <=? byte_val c) || bool_decide (c ∈ [Byte.x08; Byte.x09; Byte.x0a; Byte.x0c; Byte.x0d]).

Definition text_ok (s : bytes) : bool := forallb char_ok s.

Definition fields (e : Logger.LogEntry) : list (bytes * value) :=
  [ (bs "timestamp", JStr (Logger.put_time (Logger.to_time_t (Logger.timestamp e)) ++ bs "." ++
                           Logger.setw0 3 (Logger.millis (Logger.timestamp e)) ++ bs "Z"));
    (bs "level", JStr (Logger.lvl_str (Logger.level e)));
    (bs "tid", JStr (CppStd.to_string (Logger.thread_id e))) ] ++
  (if 0 <=? Logger.fd e then [(bs "fd", JNum (Logger.print_int (Logger.fd e)))] else []) ++
  (if bool_decide (Logger.method e = []) then []
   else [ (bs "method", JStr (Logger.method e)); (bs "path", JStr (Logger.path e));
          (bs "status", JNum (Logger.print_int (Logger.status_code e)));
          (bs "duration_ms", JNum (Logger.fixed2 (Logger.duration_ms e))) ]) ++
  [ (bs "message", JStr (Logger.message e)) ].

Definition value_ok (v : value) : bool := match v with JStr s => text_ok s | JNum _ => true end.

(** ** Strings *)

Lemma escape_json_cons c s : Logger.escape_json (c :: s) = Logger.escape_char c ++ Logger.escape_json s.
Proof. done. Qed.

Lemma json_string_char c r :
  json_string (Logger.escape_char c ++ r) = if char_ok c then cons_fst c <$> json_string r else None.
Proof. destruct c; reflexivity. Qed.

(** The reader recovers an escaped string, or rejects it. *)
Lemma json_string_escape s r :
  json_string (Logger.escape_json s ++ DQUOTE :: r) = if text_ok s then Some (s, r) else None.
Proof.
  induction s as [|c s IH]; [done|].
  rewrite escape_json_cons, <- app_assoc, json_string_char, IH. cbn [text_ok forallb].
  change (forallb char_ok s) with (text_ok s). by destruct (char_ok c), (text_ok s).
Qed.

(** No byte that needs escaping, or a control character. *)
Definition plain (s : bytes) : bool :=
  forallb (fun b => char_ok b && bool_decide (Logger.escape_char b = [b])) s.

Lemma plain_app s t : plain (s ++ t) = plain s && plain t.
Proof. apply forallb_app. Qed.

Lemma plain_escape s : plain s = true -> Logger.escape_json s = s.
Proof.
  induction s as [|b s IH]; [done|]. cbn [plain forallb].
  rewrite !andb_true_iff, bool_decide_eq_true. intros [[_ Hb] Hs].
  by rewrite escape_json_cons, IH, Hb by done.
Qed.

Lemma plain_ok s : plain s = true -> text_ok s = true.
Proof.
  induction s as [|b s IH]; [done|]. cbn [plain text_ok forallb].
  rewrite !andb_true_iff. intros [[Hb _] Hs]. split; [done|by apply IH].
Qed.

Lemma digits_plain s : CppStd.all_digits 10 s -> plain s = true.
Proof.
  intros H; induction H as [|b s Hb _ IH]; [done|]. unfold plain in *. cbn [forallb].
  rewrite IH, andb_true_r. revert Hb. by_all_bytes b.
Qed.

(** ** Numbers *)

Lemma setw0_digits w n : CppStd.all_digits 10 (Logger.setw0 w n).
Proof.
  unfold Logger.setw0. apply Forall_app; split; [|apply CppStd.to_string_digits].
  by apply Forall_replicate.
Qed.

(** A byte that ends a number. *)
Definition stop (b : byte) : Prop := b = Byte.x2c \/ b = Byte.x7d.

(** A token that is read as one number. *)
Definition is_number (tok : bytes) : Prop :=
  tok <> [] /\ hd_error tok <> Some DQUOTE /\
  forall t r, stop t -> json_number (tok ++ t :: r) = Some (tok, t :: r).

Lemma span_digits_app ds b r :
  CppStd.all_digits 10 ds -> is_digit b = false -> span_digits (ds ++ b :: r) = (ds, b :: r).
Proof.
  intros H Hb; induction H as [|d ds Hd _ IH]; cbn; [by rewrite Hb|].
  unfold is_digit in *. apply Z.ltb_lt in Hd. by rewrite Hd, IH.
Qed.

Lemma json_int_to_string n b r :
  is_digit b = false -> json_int (CppStd.to_string n ++ b :: r) = Some (CppStd.to_string n, b :: r).
Proof.
  intros Hb. pose proof (span_digits_app _ b r (CppStd.to_string_digits n) Hb) as Hs.
  pose proof (CppStd.to_string_digits n) as Hd.
  destruct (CppStd.to_string_head n) as [->|(d & ds & He & Hz)]; [done|]. rewrite He in *.
  apply Forall_cons in Hd as [Hd _]. cbn [app json_int] in *.
  assert (is_digit d = true) as Hi by by apply Z.ltb_lt.
  rewrite Hi, Hs. by destruct d.
Qed.

Lemma json_frac_digits ds t r :
  CppStd.all_digits 10 ds -> ds <> [] -> stop t ->
  json_frac (Byte.x2e :: ds ++ t :: r) = Some (Byte.x2e :: ds, t :: r).
Proof.
  intros H Hne Ht. cbn [json_frac]. rewrite span_digits_app by (done || by destruct Ht; subst).
  by rewrite bool_decide_false.
Qed.

Lemma json_frac_none t r : stop t -> json_frac (t :: r) = Some ([], t :: r).
Proof. by intros [-> | ->]. Qed.

(** The token with a sign, from the one without. *)
Lemma is_number_signed neg tok :
  (exists d ds, tok = d :: ds /\ is_digit d = true) ->
  (forall t r, stop t -> json_unsigned (tok ++ t :: r) = Some (tok, t :: r)) ->
  is_number ((if neg : bool then [Byte.x2d] else []) ++ tok).
Proof.
  intros (d & ds & -> & Hd) H. destruct neg.
  - split; [done|]. split; [done|]. intros t r Ht. cbn [app json_number].
    change (d :: ds ++ t :: r) with ((d :: ds) ++ t :: r). by rewrite H.
  - split; [done|]. split; [by destruct d|]. intros t r Ht. specialize (H t r Ht). cbn [app] in *.
    rewrite <- H. clear H. by destruct d.
Qed.

Lemma to_string_first n : exists d ds, CppStd.to_string n = d :: ds /\ is_digit d = true.
Proof.
  pose proof (CppStd.to_string_digits n) as Hd. pose proof (CppStd.print_base_ne 10 n) as Hne.
  unfold CppStd.to_string in *. destruct (CppStd.print_base 10 n) as [|d ds]; [done|].
  apply Forall_cons in Hd as [Hd _]. exists d, ds. split; [done|]. by apply Z.ltb_lt.
Qed.

Lemma print_int_number n : is_number (Logger.print_int n).
Proof.
  assert (forall neg m, is_number ((if neg : bool then [Byte.x2d] else []) ++ CppStd.to_string m)) as H.
  { intros neg m. apply is_number_signed; [apply to_string_first|]. intros t r Ht. unfold json_unsigned.
    rewrite json_int_to_string by by destruct Ht; subst. cbn [mbind option_bind].
    rewrite json_frac_none by done. cbn [mbind option_bind]. by rewrite app_nil_r. }
  unfold Logger.print_int. destruct (n <? 0); [apply (H true)|apply (H false)].
Qed.

Lemma fixed2_number q : is_number (Logger.fixed2 q).
Proof.
  unfold Logger.fixed2. set (n := Logger.round_half_even _ _). apply is_number_signed.
  - destruct (to_string_first (n / 100)) as (d & ds & -> & Hd). by exists d, (ds ++ bs "." ++ Logger.setw0 2 (n mod 100)).
  - intros t r Ht. unfold json_unsigned. rewrite <- !app_assoc. change (bs ".") with [Byte.x2e].
    cbn [app]. rewrite json_int_to_string by done. cbn [mbind option_bind].
    rewrite json_frac_digits; [done|apply setw0_digits| |done].
    unfold Logger.setw0. pose proof (CppStd.print_base_ne 10 (n mod 100)) as Hne. unfold CppStd.to_string.
    intros H. by apply app_eq_nil in H as [_ ?].
Qed.

(** ** Objects *)

Definition print_value (v : value) : bytes :=
  match v with JStr s => [DQUOTE] ++ Logger.escape_json s ++ [DQUOTE] | JNum tok => tok end.
Definition print_member (m : bytes * value) : bytes :=
  [DQUOTE] ++ m.1 ++ [DQUOTE] ++ bs ":" ++ print_value m.2.
Fixpoint print_members (ms : list (bytes * value)) : bytes :=
  match ms with
  | [] => []
  | [m] => print_member m
  | m :: ms' => print_member m ++ bs "," ++ print_members ms'
  end.

Definition good_member (m : bytes * value) : Prop :=
  plain m.1 = true /\ match m.2 with JStr _ => True | JNum tok => is_number tok end.

Lemma json_value_print v t r :
  match v with JStr _ => True | JNum tok => is_number tok end -> stop t ->
  json_value (print_value v ++ t :: r) = if value_ok v then Some (v, t :: r) else None.
Proof.
  intros Hv Ht. destruct v as [s|tok]; cbn [print_value value_ok].
  - rewrite <- !app_assoc. cbn [app json_value]. rewrite json_string_escape. by destruct (text_ok s).
  - destruct Hv as (Hne & Hq & Hv). specialize (Hv t r Ht). unfold json_value.
    destruct tok as [|c tok]; [done|]. cbn [app] in *. rewrite Hv. destruct c; done.
Qed.

Lemma json_member_print k v f t r :
  good_member (k, v) -> stop t ->
  json_members (S f) (print_member (k, v) ++ t :: r) =
    if value_ok v then
      (if bool_decide (t = Byte.x2c) then cons_fst (k, v) <$> json_members f r else Some ([(k, v)], r))
    else None.
Proof.
  intros [Hk Hv] Ht. unfold print_member. cbn [fst snd] in *. rewrite <- !app_assoc.
  cbn [app json_members]. rewrite <- (plain_escape k Hk) at 1. rewrite json_string_escape, plain_ok by done.
  cbn [mbind option_bind]. change (bs ":") with [COLON]. cbn [app].
  rewrite json_value_print by done. destruct (value_ok v); [|done]. cbn [mbind option_bind].
  by destruct Ht as [-> | ->].
Qed.

(** The reader recovers the members of a printed object, or rejects it. *)
Lemma json_members_print ms f r :
  ms <> [] -> (length ms <= f)%nat -> Forall good_member ms ->
  json_members f (print_members ms ++ Byte.x7d :: r) =
    if forallb (fun m => value_ok m.2) ms then Some (ms, r) else None.
Proof.
  intros Hne Hf H. revert f Hne Hf. induction H as [|[k v] ms Hm _ IH]; intros f Hne Hf; [done|].
  destruct f as [|f]; [cbn in Hf; lia|]. cbn [length forallb snd] in *. destruct ms as [|m ms].
  - cbn [print_members forallb]. rewrite json_member_print by (done || by right).
    by destruct (value_ok v).
  - change (print_members ((k, v) :: m :: ms)) with
      (print_member (k, v) ++ bs "," ++ print_members (m :: ms)).
    rewrite <- !app_assoc. change (bs ",") with [Byte.x2c]. cbn [app].
    rewrite json_member_print by (done || by left). rewrite IH by (done || lia).
    destruct (value_ok v); [|done]. rewrite bool_decide_true by done. cbn [andb].
    by destruct (forallb _ (m :: ms)).
Qed.

(** ** The logger's lines *)

Lemma put_time_plain t : plain (Logger.put_time t) = true.
Proof.
  unfold Logger.put_time. destruct (Logger.civil_from_days _) as [[y m] d].
  rewrite !plain_app, !(digits_plain (Logger.setw0 _ _)), !(digits_plain (CppStd.to_string _))
    by (apply setw0_digits || apply CppStd.to_string_digits).
  reflexivity.
Qed.

Definition json_time (ns : Z) : bytes :=
  Logger.put_time (Logger.to_time_t ns) ++ bs "." ++ Logger.setw0 3 (Logger.millis ns) ++ bs "Z".

Lemma json_time_plain ns : plain (json_time ns) = true.
Proof.
  unfold json_time. by rewrite !plain_app, put_time_plain, (digits_plain _ (setw0_digits _ _)).
Qed.

Lemma lvl_plain l : plain (Logger.lvl_str l) = true.
Proof. by destruct l. Qed.

Lemma tid_plain n : plain (CppStd.to_string n) = true.
Proof. apply digits_plain, CppStd.to_string_digits. Qed.

Lemma format_json_members e :
  Logger.format_json e = bs "{" ++ print_members (fields e) ++ bs "}".
Proof.
  unfold Logger.format_json, fields.
  change (Logger.put_time (Logger.to_time_t (Logger.timestamp e)) ++ bs "." ++
    Logger.setw0 3 (Logger.millis (Logger.timestamp e)) ++ bs "Z") with (json_time (Logger.timestamp e)).
  rewrite <- (plain_escape _ (json_time_plain (Logger.timestamp e))) at 1.
  rewrite <- (plain_escape _ (lvl_plain (Logger.level e))) at 1.
  rewrite <- (plain_escape _ (tid_plain (Logger.thread_id e))) at 1.
  unfold Logger.str_member, Logger.num_member, quoted.
  destruct (0 <=? Logger.fd e), (bool_decide (Logger.method e = []));
    cbn [app negb print_members print_member print_value fst snd];
    unfold print_member; cbn [print_value fst snd]; rewrite <- ?app_assoc; cbn [app];
    repeat (rewrite <- ?app_assoc; cbn [app]); reflexivity.
Qed.

Lemma fields_good e : Forall good_member (fields e).
Proof.
  unfold fields. rewrite !Forall_app, !Forall_cons. split_and!; try done.
  - destruct (0 <=? Logger.fd e); [|done]. constructor; [|done]. split; [done|apply print_int_number].
  - case_bool_decide; [done|]. rewrite !Forall_cons. split_and!; try done.
    + split; [done|apply print_int_number].
    + split; [done|apply fixed2_number].
Qed.

(** The texts of an entry that come from outside. *)
Definition entry_ok (e : Logger.LogEntry) : bool :=
  (bool_decide (Logger.method e = []) || (text_ok (Logger.method e) && text_ok (Logger.path e))) &&
  text_ok (Logger.message e).

Lemma fields_ok e : forallb (fun m => value_ok m.2) (fields e) = entry_ok e.
Proof.
  unfold fields, entry_ok. change (Logger.put_time (Logger.to_time_t (Logger.timestamp e)) ++ bs "." ++
    Logger.setw0 3 (Logger.millis (Logger.timestamp e)) ++ bs "Z") with (json_time (Logger.timestamp e)).
  rewrite !forallb_app. cbn [forallb snd value_ok].
  rewrite (plain_ok _ (json_time_plain _)), (plain_ok _ (lvl_plain _)), (plain_ok _ (tid_plain _)).
  rewrite andb_true_r. destruct (0 <=? Logger.fd e); case_bool_decide; cbn [forallb snd value_ok andb orb];
    by rewrite ?andb_true_r.
Qed.

Lemma print_members_length ms : (length ms <= length (print_members ms))%nat.
Proof.
  induction ms as [|m ms IH]; [done|]. destruct ms as [|m' ms].
  - cbn [print_members]. unfold print_member. rewrite length_app. cbn. lia.
  - change (print_members (m :: m' :: ms)) with (print_member m ++ bs "," ++ print_members (m' :: ms)).
    rewrite !length_app. cbn [length] in *. change (length (bs ",")) with 1%nat. lia.
Qed.

(** *** One line per entry *)

Lemma escape_no_lf s : LF ∉ Logger.escape_json s.
Proof.
  induction s as [|c s IH]; [set_solver|]. rewrite escape_json_cons, not_elem_of_app. split; [|done].
  apply (bool_decide_unpack _). by destruct c.
Qed.

Lemma plain_no_lf s : plain s = true -> LF ∉ s.
Proof. intros H. rewrite <- (plain_escape s H). apply escape_no_lf. Qed.

Lemma print_int_plain n : plain (Logger.print_int n) = true.
Proof.
  unfold Logger.print_int. destruct (n <? 0); [|apply tid_plain].
  change (plain ([Byte.x2d] ++ CppStd.to_string (- n)) = true). by rewrite plain_app, tid_plain.
Qed.

Lemma fixed2_plain q : plain (Logger.fixed2 q) = true.
Proof.
  unfold Logger.fixed2. rewrite !plain_app, tid_plain, (digits_plain _ (setw0_digits _ _)).
  by destruct (Qnum q <? 0).
Qed.

Definition member_no_lf (m : bytes * value) : Prop :=
  plain m.1 = true /\ match m.2 with JStr _ => True | JNum tok => plain tok = true end.

Lemma print_members_no_lf ms : Forall member_no_lf ms -> LF ∉ print_members ms.
Proof.
  assert (forall m, member_no_lf m -> LF ∉ print_member m) as Hm.
  { intros [k v] [Hk Hv]. cbn [fst snd] in *. unfold print_member. cbn [fst snd].
    rewrite !not_elem_of_app. split_and!; [|by apply plain_no_lf| | |]; try by apply (bool_decide_unpack _).
    destruct v as [s|tok]; [|by apply plain_no_lf]. cbn [print_value]. rewrite !not_elem_of_app.
    split_and!; [|apply escape_no_lf|]; by apply (bool_decide_unpack _). }
  intros H; induction H as [|m ms Hh Ht IH]; [cbn; set_solver|]. destruct ms as [|m' ms]; [by apply Hm|].
  change (print_members (m :: m' :: ms)) with (print_member m ++ bs "," ++ print_members (m' :: ms)).
  rewrite !not_elem_of_app. split_and!; [by apply Hm|by apply (bool_decide_unpack _)|done].
Qed.

Lemma fields_no_lf e : Forall member_no_lf (fields e).
Proof.
  unfold fields. rewrite !Forall_app, !Forall_cons. split_and!; try done.
  - destruct (0 <=? Logger.fd e); [|done]. constructor; [|done]. split; [done|apply print_int_plain].
  - case_bool_decide; [done|]. rewrite !Forall_cons. split_and!; try done.
    + split; [done|apply print_int_plain].
    + split; [done|apply fixed2_plain].
Qed.

(** C31: A JSON log line is one line, and a strict JSON reader recovers from it every
    field of the entry (texts as they were before escaping, numbers as
    printed), whatever the numbers and texts are, unless a text from outside
    holds a control character that JSON has no one-letter escape for; then the
    line is not JSON.  [ESC] is one of these: it is printed as a backslash and
    an [e], which JSON does not know. *)
Theorem format_json_exact e :
  json_object (Logger.format_json e) = (if entry_ok e then Some (fields e) else None) /\
  (LF ∉ Logger.format_json e).
Proof.
  rewrite format_json_members. change (bs "{") with [Byte.x7b]. change (bs "}") with [Byte.x7d]. split.
  - cbn [app json_object]. pose proof (print_members_length (fields e)) as Hl.
    rewrite json_members_print; [|by destruct (fields e) eqn:E|rewrite length_app; lia|apply fields_good].
    rewrite fields_ok. by destruct (entry_ok e).
  - rewrite !not_elem_of_app. split_and!; [|apply print_members_no_lf, fields_no_lf|];
      by apply (bool_decide_unpack _).
Qed.

(** The text format prints messages raw: one entry can print as two. *)
Lemma text_format_forgeable off lvl fd msg tid now e :
  Logger.format_text off (Logger.log lvl fd (msg ++ LF :: Logger.format_text off e) tid now) =
  Logger.format_text off (Logger.log lvl fd msg tid now) ++ LF :: Logger.format_text off e.
Proof.
  unfold Logger.format_text at 1 3. cbn [Logger.log Logger.message Logger.timestamp Logger.level
    Logger.thread_id Logger.fd].
  destruct (0 <=? fd); by rewrite <- !app_assoc.
Qed.

End LoggerSpec.
