(* ===== verification/LogQueue.v ===== *)
(** * The logger's queue and its thread

    [init], [stop], [log] and [process_queue] of [src/src/Utils/Logger.cpp], with
    the threads that call them, interleaved at critical sections, notifications
    and writes.  [log] and [log_http] differ only in the entry they make
    ([Logger]).  [std::thread] and [std::condition_variable] have their
    standard meaning, spurious wake-ups included. *)

From S2P Require Import Prelude.

Module LogQueue.

Section Threads.
Context {entry : Type}.

(** The worker thread, in [process_queue]. *)
Inductive wpc :=
| WNone                  (* no thread yet *)
| WCall                  (* about to lock and to evaluate the predicate *)
| WAsleep                (* in cv.wait *)
| WWrite (e : entry)     (* unlocked, formatting and writing *)
| WExited                (* process_queue has returned *)
| WJoined.

(** The other threads. *)
Inductive tpc :=
| InitCall                   (* init: before its critical section *)
| LogCall (e : entry)        (* log: before reading running *)
| LogPush (e : entry)
| LogNotify
| LogReturn (queued : bool)
| StopCall                   (* stop: before its critical section *)
| StopNotify
| StopJoin
| StopClose
| Returned.

Record sys := mk {
  queue : list entry;
  running : bool;
  worker : wpc;
  file_open : bool;               (* log_file.is_open() *)
  threads : list tpc;
  console : list entry;           (* what went to std::cout, in order *)
  file : list entry;              (* what went to the log file *)
  pushed : list entry;            (* history: what was queued, in order *)
  at_stop : option (list entry);  (* history: what had been queued when running was cleared *)
  opened : bool                   (* history: open() succeeded *)
}.

(** The constructed singleton, and [main] about to call [init], which it does
    once: the branch of [init] for a logger that runs is not taken, and a
    restart after [stop] is not modelled. *)
Definition fresh : sys := mk [] false WNone false [InitCall] [] [] [] None false.

Definition goto (i : nat) (p : tpc) (s : sys) : sys :=
  mk (queue s) (running s) (worker s) (file_open s) (<[i := p]> (threads s)) (console s) (file s)
    (pushed s) (at_stop s) (opened s).

Definition set_worker (w : wpc) (s : sys) : sys :=
  mk (queue s) (running s) w (file_open s) (threads s) (console s) (file s) (pushed s) (at_stop s) (opened s).

(** [cv.notify_one()] and [cv.notify_all()]: only the worker waits on [cv]. *)
Definition wake (w : wpc) : wpc := match w with WAsleep => WCall | _ => w end.

Definition worker_alive (w : wpc) : bool :=
  match w with WCall | WAsleep | WWrite _ => true | _ => false end.

(** [process_queue]. *)
Inductive worker_step : sys -> sys -> Prop :=
(* cv.wait(lock, !queue.empty() || !running) *)
| work_wait s :
    worker s = WCall -> queue s = [] -> running s = true -> worker_step s (set_worker WAsleep s)
(* if (!running && queue.empty()) break; *)
| work_exit s :
    worker s = WCall -> queue s = [] -> running s = false -> worker_step s (set_worker WExited s)
(* entry = queue.front(); queue.pop(); *)
| work_pop s e q :
    worker s = WCall -> queue s = e :: q ->
    worker_step s (mk q (running s) (WWrite e) (file_open s) (threads s) (console s) (file s)
                     (pushed s) (at_stop s) (opened s))
(* std::cout << formatted; if (log_file.is_open()) log_file << formatted; *)
| work_write s e :
    worker s = WWrite e ->
    worker_step s (mk (queue s) (running s) WCall (file_open s) (threads s) (console s ++ [e])
                     (if file_open s then file s ++ [e] else file s) (pushed s) (at_stop s) (opened s)).

(** The callers. *)
Inductive thread_step : sys -> sys -> Prop :=
(* init: if (running) return; *)
| init_again s i :
    threads s !! i = Some InitCall -> running s = true -> thread_step s (goto i Returned s)
(* open, which may fail; running = true; start the thread *)
| init_first s i ok :
    threads s !! i = Some InitCall -> running s = false -> worker s = WNone ->
    thread_step s (mk (queue s) true WCall ok (<[i := Returned]> (threads s)) (console s) (file s)
                     (pushed s) None ok)
(* if (!logger.running) return; *)
| log_check s i e :
    threads s !! i = Some (LogCall e) ->
    thread_step s (goto i (if running s then LogPush e else LogReturn false) s)
(* logger.queue.push(entry); *)
| log_push s i e :
    threads s !! i = Some (LogPush e) ->
    thread_step s (mk (queue s ++ [e]) (running s) (worker s) (file_open s) (<[i := LogNotify]> (threads s))
                     (console s) (file s) (pushed s ++ [e]) (at_stop s) (opened s))
(* logger.cv.notify_one(); *)
| log_notify s i :
    threads s !! i = Some LogNotify ->
    thread_step s (goto i (LogReturn true) (set_worker (wake (worker s)) s))
(* stop: if (!running) return; running = false; *)
| stop_again s i :
    threads s !! i = Some StopCall -> running s = false -> thread_step s (goto i Returned s)
| stop_first s i :
    threads s !! i = Some StopCall -> running s = true ->
    thread_step s (mk (queue s) false (worker s) (file_open s) (<[i := StopNotify]> (threads s))
                     (console s) (file s) (pushed s) (Some (pushed s)) (opened s))
(* cv.notify_all(); *)
| stop_notify s i :
    threads s !! i = Some StopNotify ->
    thread_step s (goto i StopJoin (set_worker (wake (worker s)) s))
(* if (worker_thread.joinable()) worker_thread.join(); *)
| stop_join s i :
    threads s !! i = Some StopJoin -> worker s = WExited ->
    thread_step s (goto i StopClose (set_worker WJoined s))
(* if (log_file.is_open()) log_file.close(); *)
| stop_close s i :
    threads s !! i = Some StopClose ->
    thread_step s (mk (queue s) (running s) (worker s) false (<[i := Returned]> (threads s)) (console s)
                     (file s) (pushed s) (at_stop s) (opened s)).

(** A call begins, or the worker wakes up for no reason. *)
Inductive outside_step : sys -> sys -> Prop :=
| call s p :
    (p = StopCall \/ exists e, p = LogCall e) ->
    outside_step s (mk (queue s) (running s) (worker s) (file_open s) (threads s ++ [p]) (console s)
                      (file s) (pushed s) (at_stop s) (opened s))
| spurious s : worker s = WAsleep -> outside_step s (set_worker WCall s).

Inductive step : sys -> sys -> Prop :=
| in_worker s s' : worker_step s s' -> step s s'
| in_thread s s' : thread_step s s' -> step s s'
| in_outside s s' : outside_step s s' -> step s s'.

Definition reachable (s : sys) : Prop := rtc step fresh s.

(** The entry being written. *)
Definition in_hand (s : sys) : list entry := match worker s with WWrite e => [e] | _ => [] end.

Definition is_notify (p : tpc) : bool := match p with LogNotify => true | _ => false end.
Definition is_stop_notify (p : tpc) : bool := match p with StopNotify => true | _ => false end.
Definition is_stopping (p : tpc) : bool := match p with StopNotify | StopJoin => true | _ => false end.
Definition is_closing (p : tpc) : bool := match p with StopClose => true | _ => false end.
Definition is_init (p : tpc) : bool := match p with InitCall => true | _ => false end.
Definition is_push (p : tpc) : bool := match p with LogPush _ => true | _ => false end.

(** ** The invariant *)

Definition started (w : wpc) : bool := match w with WNone => false | _ => true end.
Definition joinable (w : wpc) : bool := match w with WNone | WJoined => false | _ => true end.
Definition gone (w : wpc) : bool := match w with WExited | WJoined => true | _ => false end.

Record inv (s : sys) : Prop := {
  inv_order : pushed s = console s ++ in_hand s ++ queue s;
  inv_file : file s = if opened s then console s else [];
  inv_open : worker_alive (worker s) = true -> file_open s = opened s;
  inv_running : running s = true -> worker_alive (worker s) = true;
  inv_none : worker s = WNone -> pushed s = [] /\ count is_push (threads s) = 0;
  (* an entry or the end is announced to a sleeping worker *)
  inv_announced : worker s = WAsleep -> queue s <> [] -> 0 < count is_notify (threads s);
  inv_end : worker s = WAsleep -> running s = false -> 0 < count is_stop_notify (threads s);
  (* one call of stop() at most is on its way to join *)
  inv_stopping : count is_stopping (threads s) =
    Z.b2z (negb (running s) && joinable (worker s));
  inv_init : count is_init (threads s) = Z.b2z (negb (started (worker s)));
  inv_closing : 0 < count is_closing (threads s) -> worker s = WJoined;
  inv_at_stop : running s = false -> started (worker s) = true ->
    exists l, at_stop s = Some l /\ l `prefix_of` pushed s;
  inv_gone : gone (worker s) = true -> forall l, at_stop s = Some l -> l `prefix_of` console s
}.

Lemma inv_fresh : inv fresh.
Proof. by constructor. Qed.

(** Every case, with the state of the worker and the flag known; the counts of
    the threads become arithmetic on the counts before the step. *)
Ltac log_case s :=
  unfold in_hand, goto, set_worker in *; destruct s as [qs rn wk fo ths cs fl ps st od];
  cbn [queue running worker file_open threads console file pushed at_stop opened] in *;
  destruct wk, rn; simplify_eq; try congruence; constructor;
  cbn [in_hand queue running worker file_open threads console file pushed at_stop opened wake] in *;
  repeat match goal with
  | H : ?l !! ?i = Some ?x |- context [count ?P (<[?i := ?y]> ?l)] =>
      rewrite (count_insert P l i x y H)
  end; rewrite ?count_app;
  repeat match goal with H : _ !! _ = Some _ |- _ => progress count_mover H end;
  cbn [count is_notify is_stop_notify is_stopping is_closing is_init is_push Z.b2z
       worker_alive started joinable gone negb andb] in *;
  intros; count_bounds;
  try solve [intuition (try lia; try congruence; try discriminate)];
  try solve [match goal with
             | H : 0 < _ -> _ = WJoined |- _ => first [apply H; lia | discriminate (H ltac:(lia))]
             | H : _ -> forall l, _ = Some l -> _ |- _ => apply H; [reflexivity|done]
             end].

Lemma inv_worker s s' : inv s -> worker_step s s' -> inv s'.
Proof.
  intros [Ho Hf Hop Hru Hno Han Hen Hst Hin Hcl Has Hgo] H.
  destruct H as [s Hw Hq Hr|s Hw Hq Hr|s e q Hw Hq|s e Hw]; log_case s;
    try by rewrite <- ?app_assoc.
  - destruct Has as (l' & ? & Hl); [done..|]. simplify_eq. by rewrite !app_nil_r in Hl.
  - rewrite Hop by done. by destruct od.
  - rewrite Hop by done. by destruct od.
Qed.

Lemma inv_thread s s' : inv s -> thread_step s s' -> inv s'.
Proof.
  intros [Ho Hf Hop Hru Hno Han Hen Hst Hin Hcl Has Hgo] H.
  destruct H as [s i Hi Hr|s i ok Hi Hr Hw|s i e Hi|s i e Hi|s i Hi|s i Hi Hr|s i Hi Hr|s i Hi|s i Hi Hw|s i Hi];
    log_case s; try by rewrite <- ?app_assoc.
  all: try by eexists.
  all: try (discriminate (Hcl (count_lookup_pos is_closing _ _ _ Hi eq_refl))).
  all: try (destruct Has as (l' & -> & Hl); [done..|]; exists l'; split; [done|]; by apply prefix_app_r).
  destruct Hno as [Hno _]; [done|]. apply app_eq_nil in Hno as [-> _]. by destruct od, ok.
Qed.

Lemma inv_outside s s' : inv s -> outside_step s s' -> inv s'.
Proof.
  intros [Ho Hf Hop Hru Hno Han Hen Hst Hin Hcl Has Hgo] H.
  destruct H as [s p [->|[e ->]]|s Hw]; log_case s.
Qed.

Lemma log_inv_step s s' : inv s -> step s s' -> inv s'.
Proof.
  intros Hi H. destruct H; eauto using inv_worker, inv_thread, inv_outside.
Qed.

Lemma log_inv_reachable s : reachable s -> inv s.
Proof.
  assert (forall s1 s2, rtc step s1 s2 -> inv s1 -> inv s2) as H.
  { induction 1 as [|s1 s2 s3 Hs _ IH]; [done|]. intros Hi. by apply IH, (log_inv_step s1). }
  intros Hr. apply (H _ _ Hr), inv_fresh.
Qed.

(** ** What the logger guarantees *)

(** Neither the worker nor a caller can act. *)
Definition quiescent (s : sys) : Prop :=
  (forall s', ~ worker_step s s') /\ (forall s', ~ thread_step s s').

Lemma quiescent_worker s :
  quiescent s -> worker s = WNone \/ worker s = WAsleep \/ worker s = WExited \/ worker s = WJoined.
Proof.
  intros [Hw _]. destruct (worker s) as [| | |e| |] eqn:E; auto; exfalso.
  - destruct (queue s) as [|e q] eqn:Hq.
    + destruct (running s) eqn:Hr; [by eapply Hw, work_wait|by eapply Hw, work_exit].
    + by eapply Hw, work_pop.
  - by eapply Hw, work_write.
Qed.

(** A caller that cannot act has returned, or waits for a worker that has not
    exited. *)
Lemma quiescent_threads s i p :
  inv s -> quiescent s -> threads s !! i = Some p ->
  (exists b, p = LogReturn b) \/ p = Returned \/ (p = StopJoin /\ worker s <> WExited).
Proof.
  intros Hi [_ Ht] Hp. destruct p as [|e|e| |b| | | | |]; eauto; try (exfalso; eapply Ht; by econstructor).
  - exfalso. destruct (running s) eqn:Hr; [by eapply Ht, init_again|]. eapply Ht, (init_first s i true); try done.
    pose proof (count_lookup_pos is_init _ _ _ Hp eq_refl) as Hc. rewrite (inv_init _ Hi) in Hc.
    by destruct (worker s).
  - exfalso. destruct (running s) eqn:Hr; [by eapply Ht, stop_first|by eapply Ht, stop_again].
  - right. right. split; [done|]. intros Hw. by eapply Ht, stop_join.
Qed.

Lemma quiescent_none s (P : tpc -> bool) :
  inv s -> quiescent s -> (forall b, P (LogReturn b) = false) -> P Returned = false -> P StopJoin = false ->
  count P (threads s) = 0.
Proof.
  intros Hi Hq H1 H2 H3. apply count_none. intros i p Hp.
  by destruct (quiescent_threads s i p Hi Hq Hp) as [[b ->]|[->|[-> _]]].
Qed.
Lemma quiescent_running s :
  inv s -> quiescent s -> running s = true -> worker s = WAsleep /\ queue s = [].
Proof.
  intros Hi Hq Hr. pose proof (inv_running _ Hi Hr) as Ha.
  destruct (quiescent_worker s Hq) as [Hw|[Hw|[Hw|Hw]]]; rewrite Hw in Ha; try done. split; [done|].
  destruct (queue s) as [|e q] eqn:E; [done|].
  pose proof (inv_announced _ Hi Hw ltac:(by rewrite E)) as Hn.
  by rewrite (quiescent_none s is_notify Hi Hq) in Hn.
Qed.

Lemma quiescent_stopped s :
  inv s -> quiescent s -> running s = false -> worker s <> WNone -> worker s = WJoined.
Proof.
  intros Hi Hq Hr Hn. destruct (quiescent_worker s Hq) as [Hw|[Hw|[Hw|Hw]]]; [done| | |done]; exfalso.
  - pose proof (inv_end _ Hi Hw Hr) as He. by rewrite (quiescent_none s is_stop_notify Hi Hq) in He.
  - pose proof (inv_stopping _ Hi) as Hs. rewrite Hr, Hw in Hs.
    destruct (count_pos_lookup is_stopping (threads s)) as (i & p & Hp & Hst); [by rewrite Hs|].
    by destruct (quiescent_threads s i p Hi Hq Hp) as [[b ->]|[->|[-> ?]]].
Qed.

(** C30: The entries queued are written to the console in the order in which they were
    queued, each once; so they are to the file, if it could be opened.  When
    the worker has been joined, all that was queued before [stop] cleared
    [running] has been written.  And when no thread can act, no call is
    blocked, a running logger has written everything, and a stopped one has
    joined its worker: no wake-up is lost and [stop] returns. *)
Theorem log_delivery s :
  reachable s ->
  pushed s = console s ++ in_hand s ++ queue s /\
  file s = (if opened s then console s else []) /\
  (worker s = WJoined -> exists l, at_stop s = Some l /\ l `prefix_of` console s) /\
  (quiescent s ->
   (forall i p, threads s !! i = Some p -> p = Returned \/ exists b, p = LogReturn b) /\
   (running s = true -> console s = pushed s) /\
   (running s = false -> worker s <> WNone -> worker s = WJoined)).
Proof.
  intros Hr%log_inv_reachable. split; [apply Hr|]. split; [apply Hr|]. split.
  - intros Hw. destruct (inv_at_stop _ Hr) as (l & Hl & _); [|by rewrite Hw|].
    + destruct (running s) eqn:E; [|done]. pose proof (inv_running _ Hr E) as Ha. by rewrite Hw in Ha.
    + exists l. split; [done|]. apply (inv_gone _ Hr); [by rewrite Hw|done].
  - intros Hq. split; [|split].
    + intros i p Hp. destruct (quiescent_threads s i p Hr Hq Hp) as [?|[?|[-> _]]]; auto. exfalso.
      pose proof (count_lookup_pos is_stopping _ _ _ Hp eq_refl) as Hc. rewrite (inv_stopping _ Hr) in Hc.
      destruct (running s) eqn:E; [done|].
      destruct (worker s) eqn:Hw; try done;
        (rewrite (quiescent_stopped s Hr Hq E) in Hw by congruence; done).
    + intros E. destruct (quiescent_running s Hr Hq E) as [Hw Hqe]. rewrite (inv_order _ Hr).
      unfold in_hand. rewrite Hw, Hqe. by rewrite !app_nil_r.
    + by apply quiescent_stopped.
Qed.
End Threads.

(** ** Two executions, with numbers for entries *)

(** One entry is logged and written; then the worker waits. *)
Definition written_once : sys (entry := Z) :=
  mk [] true WAsleep true [Returned; LogReturn true] [7] [7] [7] None true.

(** The worker has exited between the check and the push of [log]: the entry
    stays in the queue, although the caller has seen nothing unusual. *)
Definition left_behind : sys (entry := Z) :=
  mk [7] false WJoined false [Returned; LogReturn true; Returned] [] [] [7] (Some []) true.

(** Write the new state out after each step. *)
Ltac written_out :=
  unfold goto, set_worker, fresh;
  cbn [queue running worker file_open threads console file pushed at_stop opened app fmap list_fmap wake].
Ltac run_worker := eapply rtc_l; [apply in_worker; econstructor; reflexivity|]; written_out.
Tactic Notation "run_call" uconstr(p) := eapply rtc_l; [apply in_outside, (call _ p); eauto|]; written_out.
Tactic Notation "run_thread" uconstr(rule) :=
  eapply rtc_l; [apply in_thread; eapply rule; reflexivity|]; written_out.

Lemma written_once_reachable : reachable written_once.
Proof.
  run_thread (init_first _ 0%nat true). run_call (LogCall 7). run_thread (log_check _ 1%nat).
  run_thread (log_push _ 1%nat). run_thread (log_notify _ 1%nat). run_worker. run_worker. run_worker.
  apply rtc_refl.
Qed.

Ltac no_step :=
  let s' := fresh "s'" in let H := fresh "H" in
  intros s' H; unfold written_once, left_behind in H; inversion H; subst; cbn in *; try discriminate;
  repeat match goal with
  | E : _ !! ?i = Some _ |- _ => is_var i; destruct i; cbn in E; try discriminate E
  end.

Lemma written_once_quiescent : quiescent written_once.
Proof. split; no_step. Qed.

Lemma left_behind_reachable : reachable left_behind.
Proof.
  run_thread (init_first _ 0%nat true). run_call (LogCall 7). run_thread (log_check _ 1%nat).
  run_call StopCall. run_thread (stop_first _ 2%nat). run_worker. run_thread (stop_notify _ 2%nat).
  run_thread (stop_join _ 2%nat). run_thread (stop_close _ 2%nat). run_thread (log_push _ 1%nat).
  run_thread (log_notify _ 1%nat). apply rtc_refl.
Qed.

(** An entry can be accepted and never be written. *)
Lemma late_entry_lost :
  exists s : sys (entry := Z), reachable s /\ quiescent s /\
    LogReturn true ∈ threads s /\ pushed s = [7] /\ console s = [].
Proof.
  exists left_behind. split; [apply left_behind_reachable|]. split; [split; no_step|].
  split; [|done]. cbn. right. left.
Qed.

Lemma log_delivery_witness :
  reachable written_once /\ quiescent written_once /\ console written_once = pushed written_once.
Proof.
  split; [apply written_once_reachable|]. split; [apply written_once_quiescent|].
  by apply (log_delivery written_once written_once_reachable); [apply written_once_quiescent|].
Defined.
End LogQueue.
