(* ===== verification/TaskQueue.v ===== *)
(** * [TaskQueue]: the bounded ring buffer of tasks

    [src/src/concurrency/TaskQueue.cpp].  Each operation is its critical
    section under [queue_mtx]: the condition-variable wait is the outcome
    [...Wait] (the caller sleeps and calls again when woken), and the
    notifications that follow are modelled with the threads, in [ThreadPool].
    [repr] relates the array with its indices to the FIFO queue it stores. *)

From S2P Require Import Prelude.

Module TaskQueue.

Definition QUEUE_CAPACITY : Z := 1024.

Section Queue.
Context {task : Type}.

(** [None] is an empty [std::function]. *)
Record t := mk {
  tasks : list (option task);
  head : Z;
  tail : Z;
  buffer_len : Z;
  shutdown : bool
}.

Definition init : t :=
  {| tasks := replicate (Z.to_nat QUEUE_CAPACITY) None; head := 0; tail := 0; buffer_len := 0;
     shutdown := false |}.

Inductive submit_outcome :=
| SubmitWait              (* the predicate of [not_full.wait] is false *)
| SubmitRejected          (* [return false] *)
| SubmitDone (q : t).     (* stored; [not_empty.notify_one()], [return true] *)

Definition submit (x : task) (q : t) : submit_outcome :=
  if negb ((buffer_len q <? QUEUE_CAPACITY) || shutdown q) then SubmitWait
  else if shutdown q then SubmitRejected
  else
    SubmitDone
      {| tasks := <[Z.to_nat (tail q) := Some x]> (tasks q);
         head := head q;
         tail := (tail q + 1) mod QUEUE_CAPACITY;
         buffer_len := buffer_len q + 1;
         shutdown := shutdown q |}.

Inductive remove_outcome :=
| RemoveWait                                 (* the predicate of [not_empty.wait] is false *)
| RemoveEmpty                                (* [return {}] *)
| RemoveTask (x : option task) (q : t).      (* [not_full.notify_one()], [return task] *)

(** The slot is moved from: it is left empty. *)
Definition remove (q : t) : remove_outcome :=
  if negb ((0 <? buffer_len q) || shutdown q) then RemoveWait
  else if (buffer_len q =? 0) && shutdown q then RemoveEmpty
  else
    RemoveTask (default None (tasks q !! Z.to_nat (head q)))
      {| tasks := <[Z.to_nat (head q) := None]> (tasks q);
         head := (head q + 1) mod QUEUE_CAPACITY;
         tail := tail q;
         buffer_len := buffer_len q - 1;
         shutdown := shutdown q |}.

Definition stop (q : t) : t :=
  {| tasks := tasks q; head := head q; tail := tail q; buffer_len := buffer_len q; shutdown := true |}.

(** ** Refinement of a FIFO queue *)

(** The slot that holds the [i]-th oldest task. *)
Definition slot (q : t) (i : nat) : nat := Z.to_nat ((head q + Z.of_nat i) mod QUEUE_CAPACITY).

Record repr (q : t) (l : list task) : Prop := {
  repr_array : length (tasks q) = Z.to_nat QUEUE_CAPACITY;
  repr_head : 0 <= head q < QUEUE_CAPACITY;
  repr_len : buffer_len q = zlen l;
  repr_bound : zlen l <= QUEUE_CAPACITY;
  repr_tail : tail q = (head q + zlen l) mod QUEUE_CAPACITY;
  repr_slots : forall i x, l !! i = Some x -> tasks q !! slot q i = Some (Some x)
}.

Lemma capacity_pos : 0 < QUEUE_CAPACITY.
Proof. done. Qed.

#[local] Opaque QUEUE_CAPACITY.

Lemma repr_init : repr init [].
Proof.
  pose proof capacity_pos. constructor; cbn [init tasks head tail buffer_len].
  - apply length_replicate.
  - lia.
  - done.
  - rewrite zlen_nil; lia.
  - by rewrite Z.mod_small.
  - intros i x. by rewrite lookup_nil.
Qed.

(** Two positions of the ring less than a lap apart are different slots. *)
Lemma ring_inj h i j :
  0 <= i < QUEUE_CAPACITY -> 0 <= j < QUEUE_CAPACITY ->
  (h + i) mod QUEUE_CAPACITY = (h + j) mod QUEUE_CAPACITY -> i = j.
Proof.
  pose proof capacity_pos. intros Hi Hj Heq.
  pose proof (Z.div_mod (h + i) QUEUE_CAPACITY ltac:(lia)).
  pose proof (Z.div_mod (h + j) QUEUE_CAPACITY ltac:(lia)).
  assert (i - j = QUEUE_CAPACITY * ((h + i) / QUEUE_CAPACITY - (h + j) / QUEUE_CAPACITY)) by lia.
  destruct (Z.lt_trichotomy ((h + i) / QUEUE_CAPACITY) ((h + j) / QUEUE_CAPACITY)) as [?|[?|?]]; nia.
Qed.

Lemma slot_range q i : (slot q i < Z.to_nat QUEUE_CAPACITY)%nat.
Proof.
  pose proof capacity_pos. unfold slot.
  pose proof (Z.mod_pos_bound (head q + Z.of_nat i) QUEUE_CAPACITY ltac:(lia)). lia.
Qed.

Lemma submit_repr q l x q' :
  repr q l -> submit x q = SubmitDone q' ->
  zlen l < QUEUE_CAPACITY /\ shutdown q = false /\ shutdown q' = false /\ repr q' (l ++ [x]).
Proof.
  intros [Ha Hh Hl Hb Ht Hs]. pose proof capacity_pos. pose proof (zlen_nonneg l). unfold submit.
  destruct (shutdown q) eqn:Hsd; [by rewrite orb_true_r|]. rewrite orb_false_r.
  destruct (Z.ltb_spec (buffer_len q) QUEUE_CAPACITY) as [Hlt|]; [|done]. cbn [negb].
  intros [= <-]. split; [lia|]. split; [done|]. split; [done|].
  constructor; cbn [tasks head tail buffer_len].
  - by rewrite length_insert.
  - done.
  - rewrite zlen_app, zlen_cons, zlen_nil. lia.
  - rewrite zlen_app, zlen_cons, zlen_nil. lia.
  - rewrite zlen_app, zlen_cons, zlen_nil, Ht, Z.add_0_r, Z.add_assoc, Zplus_mod_idemp_l. done.
  - intros i y Hy. change (slot _ i) with (slot q i).
    assert (Z.to_nat (tail q) = slot q (length l)) as -> by by rewrite Ht.
    apply lookup_snoc_Some in Hy as [[Hi Hy]|[-> ->]].
    + rewrite list_lookup_insert_ne; [by apply Hs|].
      unfold slot. intros Heq%Z2Nat.inj; try (apply Z.mod_pos_bound; lia).
      apply ring_inj in Heq; unfold zlen in *; lia.
    + apply list_lookup_insert_eq. rewrite Ha. apply slot_range.
Qed.

Lemma remove_repr q l x q' :
  repr q l -> remove q = RemoveTask x q' ->
  exists y l', l = y :: l' /\ x = Some y /\ repr q' l' /\ shutdown q' = shutdown q.
Proof.
  intros [Ha Hh Hl Hb Ht Hs]. pose proof capacity_pos. unfold remove.
  destruct l as [|y l].
  { rewrite zlen_nil in Hl. rewrite Hl. by destruct (shutdown q). }
  pose proof (zlen_nonneg l). rewrite zlen_cons in *.
  destruct (Z.ltb_spec 0 (buffer_len q)); [|lia]. destruct (Z.eqb_spec (buffer_len q) 0); [lia|].
  cbn [orb negb andb]. intros [= <- <-]. exists y, l. split; [done|].
  assert (slot q 0 = Z.to_nat (head q)) as Hslot0
    by (unfold slot; rewrite Z.add_0_r, Z.mod_small; lia).
  split; [by rewrite <- Hslot0, (Hs 0%nat y eq_refl)|]. split; [|done].
  constructor; cbn [tasks head tail buffer_len].
  - by rewrite length_insert.
  - apply Z.mod_pos_bound; lia.
  - lia.
  - lia.
  - rewrite Ht, Zplus_mod_idemp_l. f_equal. lia.
  - intros i z Hz. unfold slot. cbn [head].
    rewrite Zplus_mod_idemp_l. pose proof (lookup_lt_Some _ _ _ Hz).
    replace (head q + 1 + Z.of_nat i) with (head q + Z.of_nat (S i)) by lia. fold (slot q (S i)).
    rewrite list_lookup_insert_ne; [by apply Hs|].
    rewrite <- Hslot0. unfold slot. intros Heq%Z2Nat.inj; try (apply Z.mod_pos_bound; lia).
    apply ring_inj in Heq; unfold zlen in *; lia.
Qed.

Lemma submit_cases (q : t) (l : list task) (x : task) :
  repr q l ->
  match submit x q with
  | SubmitWait => zlen l = QUEUE_CAPACITY /\ shutdown q = false
  | SubmitRejected => shutdown q = true
  | SubmitDone q' =>
      zlen l < QUEUE_CAPACITY /\ shutdown q = false /\ shutdown q' = false /\ repr q' (l ++ [x])
  end.
Proof.
  intros Hr. destruct (submit x q) eqn:Hs.
  - destruct Hr. revert Hs. unfold submit. destruct (shutdown q); [by rewrite orb_true_r|].
    rewrite orb_false_r. destruct (Z.ltb_spec (buffer_len q) QUEUE_CAPACITY); [done|]. split; [lia|done].
  - revert Hs. unfold submit. destruct (negb _); [done|]. by destruct (shutdown q).
  - by apply (submit_repr _ l) in Hs as (? & ? & ? & ?).
Qed.

Lemma remove_cases (q : t) (l : list task) :
  repr q l ->
  match remove q with
  | RemoveWait => l = [] /\ shutdown q = false
  | RemoveEmpty => l = [] /\ shutdown q = true
  | RemoveTask y q' =>
      exists z l', l = z :: l' /\ y = Some z /\ repr q' l' /\ shutdown q' = shutdown q
  end.
Proof.
  intros Hr. destruct (remove q) eqn:Hs.
  - destruct Hr. revert Hs. unfold remove.
    destruct (shutdown q); [by rewrite orb_true_r; destruct (_ && _)|].
    rewrite orb_false_r, andb_false_r. destruct (Z.ltb_spec 0 (buffer_len q)); [done|].
    intros _. split; [|done]. apply zlen_zero_inv. pose proof (zlen_nonneg l). lia.
  - destruct Hr. revert Hs. unfold remove. destruct (negb _); [done|].
    destruct (Z.eqb_spec (buffer_len q) 0); [|done]. destruct (shutdown q); [|done].
    intros _. split; [|done]. apply zlen_zero_inv. lia.
  - by apply (remove_repr _ l) in Hs.
Qed.

Lemma stop_repr (q : t) (l : list task) : repr q l -> repr (stop q) l.
Proof. intros []. by constructor. Qed.

(** C14: The ring buffer refines a bounded FIFO queue: from a state that stores
    [l], [submit] sleeps exactly when the queue is full and open, is rejected
    exactly after shutdown and otherwise appends; [remove] sleeps exactly when
    the queue is empty and open, returns the empty function exactly when it is
    empty and shut down, and otherwise returns the oldest task. *)
Theorem ring_refines_fifo (q : t) (l : list task) (x : task) :
  repr q l ->
  match submit x q with
  | SubmitWait => zlen l = QUEUE_CAPACITY /\ shutdown q = false
  | SubmitRejected => shutdown q = true
  | SubmitDone q' => zlen l < QUEUE_CAPACITY /\ shutdown q = false /\ repr q' (l ++ [x])
  end /\
  match remove q with
  | RemoveWait => l = [] /\ shutdown q = false
  | RemoveEmpty => l = [] /\ shutdown q = true
  | RemoveTask y q' => exists z l', l = z :: l' /\ y = Some z /\ repr q' l'
  end.
Proof.
  intros Hr. pose proof (submit_cases q l x Hr). pose proof (remove_cases q l Hr).
  split; [destruct (submit x q)|destruct (remove q)]; naive_solver.
Qed.

End Queue.
Arguments t : clear implicits.

Lemma ring_refines_fifo_witness :
  match submit 7 (@init Z) with
  | SubmitDone q' => zlen (@nil Z) < QUEUE_CAPACITY /\ shutdown (@init Z) = false /\ repr q' [7]
  | _ => False
  end.
Proof. exact (proj1 (ring_refines_fifo (@init Z) [] 7 repr_init)). Defined.
End TaskQueue.
