(* ===== verification/ThreadPool.v ===== *)
(** * [ThreadPool]: workers, producers and their wake-ups

    [src/src/concurrency/ThreadPool.cpp] with the condition variables of
    [TaskQueue].  Threads interleave at the granularity of the code's critical
    sections and notifications: a [wait] whose predicate is false puts the
    thread to sleep, [notify_one] wakes some sleeper if there is one, a sleeper
    may wake for no reason, and a woken thread evaluates its predicate again.
    Tasks do not use the pool here; [PoolReentry] has those that do. *)

From S2P Require Import Prelude TaskQueue.

Module ThreadPool.

Definition WORKER_THREADS : nat := 64.

Section Pool.
Context {task : Type}.

(** A worker in [worker()]: before or inside [task_queue->remove()], after the
    critical section but before [not_full.notify_one()], running, or gone. *)
Inductive wpc :=
| WCall
| WAsleep
| WNotify (x : option task)
| WRun (x : task)
| WExit.

(** A thread in [submit()]. *)
Inductive ppc :=
| PCall (x : task)
| PAsleep (x : task)
| PNotify
| PReturn (accepted : bool).

(** The destructor of the pool, in [task_queue->stop()]. *)
Inductive spc := SIdle | SNotifyEmpty | SNotifyFull | SDone.

#[global] Instance spc_eq_dec : EqDecision spc.
Proof. solve_decision. Defined.

Record sys := mk {
  queue : TaskQueue.t task;
  workers : list wpc;
  producers : list ppc;
  stopper : spc;
  accepted : list task;   (* history: what submit stored, in order *)
  started : list task     (* history: what workers began to run, in order *)
}.

Definition init : sys :=
  {| queue := TaskQueue.init; workers := replicate WORKER_THREADS WCall; producers := [];
     stopper := SIdle; accepted := []; started := [] |}.

Definition w_asleep (w : wpc) : bool := match w with WAsleep => true | _ => false end.
Definition w_awake (w : wpc) : bool := match w with WCall => true | _ => false end.
Definition w_notify (w : wpc) : bool := match w with WNotify _ => true | _ => false end.
Definition w_exit (w : wpc) : bool := match w with WExit => true | _ => false end.
Definition w_unset (w : wpc) : bool := match w with WNotify None => true | _ => false end.
Definition p_asleep (p : ppc) : bool := match p with PAsleep _ => true | _ => false end.
Definition p_awake (p : ppc) : bool := match p with PCall _ => true | _ => false end.
Definition p_notify (p : ppc) : bool := match p with PNotify => true | _ => false end.

(** Waking: the sleeper goes back to evaluating its predicate. *)
Definition w_wake (w : wpc) : wpc := match w with WAsleep => WCall | _ => w end.
Definition p_wake (p : ppc) : ppc := match p with PAsleep x => PCall x | _ => p end.

(** [cv.notify_one()] on a list of threads. *)
Inductive notify_one {A} (asleep : A -> bool) (wake : A -> A) (l : list A) : list A -> Prop :=
| notify_some i x : l !! i = Some x -> asleep x = true -> notify_one asleep wake l (<[i := wake x]> l)
| notify_none : count asleep l = 0 -> notify_one asleep wake l l.

Inductive step : sys -> sys -> Prop :=
(* worker: auto task = task_queue->remove(); *)
| step_remove_wait s i :
    workers s !! i = Some WCall -> TaskQueue.remove (queue s) = TaskQueue.RemoveWait ->
    step s (mk (queue s) (<[i := WAsleep]> (workers s)) (producers s) (stopper s) (accepted s) (started s))
| step_remove_empty s i :
    workers s !! i = Some WCall -> TaskQueue.remove (queue s) = TaskQueue.RemoveEmpty ->
    step s (mk (queue s) (<[i := WExit]> (workers s)) (producers s) (stopper s) (accepted s) (started s))
| step_remove s i x q' :
    workers s !! i = Some WCall -> TaskQueue.remove (queue s) = TaskQueue.RemoveTask x q' ->
    step s (mk q' (<[i := WNotify x]> (workers s)) (producers s) (stopper s) (accepted s)
              (started s ++ option_list x))
(* not_full.notify_one(); return task; then if (!task) break; *)
| step_worker_notify s i x ps' :
    workers s !! i = Some (WNotify x) -> notify_one p_asleep p_wake (producers s) ps' ->
    step s (mk (queue s) (<[i := from_option WRun WExit x]> (workers s)) ps' (stopper s)
              (accepted s) (started s))
(* task(); *)
| step_run s i x :
    workers s !! i = Some (WRun x) ->
    step s (mk (queue s) (<[i := WCall]> (workers s)) (producers s) (stopper s) (accepted s) (started s))
(* a thread calls submit *)
| step_new_submit s x :
    step s (mk (queue s) (workers s) (producers s ++ [PCall x]) (stopper s) (accepted s) (started s))
| step_submit_wait s j x :
    producers s !! j = Some (PCall x) -> TaskQueue.submit x (queue s) = TaskQueue.SubmitWait ->
    step s (mk (queue s) (workers s) (<[j := PAsleep x]> (producers s)) (stopper s) (accepted s) (started s))
| step_submit_rejected s j x :
    producers s !! j = Some (PCall x) -> TaskQueue.submit x (queue s) = TaskQueue.SubmitRejected ->
    step s (mk (queue s) (workers s) (<[j := PReturn false]> (producers s)) (stopper s) (accepted s) (started s))
| step_submit s j x q' :
    producers s !! j = Some (PCall x) -> TaskQueue.submit x (queue s) = TaskQueue.SubmitDone q' ->
    step s (mk q' (workers s) (<[j := PNotify]> (producers s)) (stopper s) (accepted s ++ [x]) (started s))
(* not_empty.notify_one(); return true; *)
| step_submit_notify s j ws' :
    producers s !! j = Some PNotify -> notify_one w_asleep w_wake (workers s) ws' ->
    step s (mk (queue s) ws' (<[j := PReturn true]> (producers s)) (stopper s) (accepted s) (started s))
(* spurious wake-ups *)
| step_spurious_worker s i :
    workers s !! i = Some WAsleep ->
    step s (mk (queue s) (<[i := WCall]> (workers s)) (producers s) (stopper s) (accepted s) (started s))
| step_spurious_producer s j x :
    producers s !! j = Some (PAsleep x) ->
    step s (mk (queue s) (workers s) (<[j := PCall x]> (producers s)) (stopper s) (accepted s) (started s))
(* stop(): set the flag, then notify_all on both condition variables *)
| step_stop s :
    stopper s = SIdle ->
    step s (mk (TaskQueue.stop (queue s)) (workers s) (producers s) SNotifyEmpty (accepted s) (started s))
| step_stop_notify_empty s :
    stopper s = SNotifyEmpty ->
    step s (mk (queue s) (w_wake <$> workers s) (producers s) SNotifyFull (accepted s) (started s))
| step_stop_notify_full s :
    stopper s = SNotifyFull ->
    step s (mk (queue s) (workers s) (p_wake <$> producers s) SDone (accepted s) (started s)).

Definition reachable (s : sys) : Prop := rtc step init s.

(** No thread can act: nobody is running, about to enter a critical section or
    about to notify, and [stop()] has not begun or has returned. *)
Definition quiescent (s : sys) : Prop :=
  (forall i w, workers s !! i = Some w -> w = WAsleep \/ w = WExit) /\
  (forall j p, producers s !! j = Some p -> (exists x, p = PAsleep x) \/ (exists b, p = PReturn b)) /\
  (stopper s = SIdle \/ stopper s = SDone).

(** ** The invariant of the pool *)

Record inv (s : sys) (l : list task) : Prop := {
  inv_repr : TaskQueue.repr (queue s) l;
  inv_history : accepted s = started s ++ l;
  inv_workers : length (workers s) = WORKER_THREADS;
  (* every stored task has a notification on its way or an awake worker *)
  inv_not_empty : TaskQueue.shutdown (queue s) = false -> 0 < count w_asleep (workers s) ->
    zlen l <= count p_notify (producers s) + count w_awake (workers s);
  (* every free slot has a notification on its way or an awake producer *)
  inv_not_full : TaskQueue.shutdown (queue s) = false -> 0 < count p_asleep (producers s) ->
    TaskQueue.QUEUE_CAPACITY - zlen l <= count w_notify (workers s) + count p_awake (producers s);
  inv_shutdown : TaskQueue.shutdown (queue s) = false <-> stopper s = SIdle;
  inv_notified_empty : stopper s = SNotifyFull \/ stopper s = SDone -> count w_asleep (workers s) = 0;
  inv_notified_full : stopper s = SDone -> count p_asleep (producers s) = 0;
  inv_exit : 0 < count w_exit (workers s) -> TaskQueue.shutdown (queue s) = true /\ l = [];
  inv_some : count w_unset (workers s) = 0
}.

Lemma inv_init : inv init [].
Proof.
  constructor; cbn [init queue workers producers stopper accepted started TaskQueue.init
    TaskQueue.shutdown]; done || apply TaskQueue.repr_init.
Qed.

(** What waking does to the counts. *)
Lemma notify_count {A} (asleep : A -> bool) wake l l' (P : A -> bool) :
  notify_one asleep wake l l' -> (forall x, asleep x = true -> P (wake x) = P x) ->
  count P l' = count P l.
Proof.
  intros [i x Hi Hx|] HP; [|done]. rewrite (count_insert P _ _ _ _ Hi), HP by done. lia.
Qed.

Lemma notify_awakes {A} (asleep awake : A -> bool) wake l l' :
  notify_one asleep wake l l' ->
  (forall x, asleep x = true -> asleep (wake x) = false /\ awake x = false /\ awake (wake x) = true) ->
  (count asleep l = 0 /\ l' = l) \/
  (count asleep l' = count asleep l - 1 /\ count awake l' = count awake l + 1 /\ 0 < count asleep l).
Proof.
  intros [i x Hi Hx|] HP; [right|by left]. destruct (HP x Hx) as (H1 & H2 & H3).
  rewrite !(count_insert _ _ _ _ _ Hi), Hx, H1, H2, H3.
  pose proof (count_lookup_pos asleep l i x Hi Hx). cbn; lia.
Qed.

Lemma notify_length {A} (asleep : A -> bool) wake l l' :
  notify_one asleep wake l l' -> length l' = length l.
Proof. intros []; [apply length_insert|done]. Qed.

Lemma wake_all_none {A} (P : A -> bool) wake (l : list A) :
  (forall x, P (wake x) = false) -> count P (wake <$> l) = 0.
Proof. intros HP; induction l as [|x l IH]; cbn; [done|]. by rewrite HP, IH. Qed.

Lemma wake_all_same {A} (P : A -> bool) wake (l : list A) :
  (forall x, P (wake x) = P x) -> count P (wake <$> l) = count P l.
Proof. intros HP; induction l as [|x l IH]; cbn; [done|]. by rewrite HP, IH. Qed.

(** The counts after one thread has moved, as arithmetic on the counts before. *)
Ltac count_moved :=
  rewrite ?length_insert, ?length_fmap, ?count_app;
  repeat match goal with
  | H : ?l !! ?i = Some ?x |- context [count ?P (<[?i := ?y]> ?l)] =>
      rewrite (count_insert P l i x y H)
  end; cbn -[TaskQueue.QUEUE_CAPACITY zlen];
  rewrite ?Z.sub_0_r, ?Z.add_0_r.

Ltac pool_case :=
  constructor; cbn [queue workers producers stopper accepted started];
  count_moved; try done;
  repeat match goal with H : _ !! _ = Some _ |- _ => progress count_mover H end;
  intros; rewrite ?zlen_nil, ?zlen_app, ?zlen_cons, ?zlen_nil in *; count_bounds;
  intuition (try lia; try congruence).

Lemma inv_step s l s' : inv s l -> step s s' -> exists l', inv s' l'.
Proof.
  intros [Hr Hh Hw Hne Hnf Hsd Hn1 Hn2 He Hs] Hstep.
  pose proof (fun x => TaskQueue.submit_cases _ _ x Hr) as Hsub.
  pose proof (TaskQueue.remove_cases _ _ Hr) as Hrem.
  destruct Hstep as [s i Hi Hq|s i Hi Hq|s i x q' Hi Hq|s i x ps' Hi Hn|s i x Hi|s x|s j x Hj Hq|
    s j x Hj Hq|s j x q' Hj Hq|s j ws' Hj Hn|s i Hi|s j x Hj|s Hst|s Hst|s Hst].
  - rewrite Hq in Hrem. destruct Hrem as [-> Hop]. exists []. pool_case.
  - rewrite Hq in Hrem. destruct Hrem as [-> Hop]. exists []. pool_case.
  - rewrite Hq in Hrem. destruct Hrem as (z & l' & -> & -> & Hr' & Hop). rewrite <- Hop in *.
    exists l'. assert (accepted s = (started s ++ [z]) ++ l') by by rewrite <- app_assoc.
    pool_case.
  - destruct x as [x|]; [|discriminate (count_zero _ _ _ _ Hs Hi)].
    pose proof (notify_count _ _ _ _ p_notify Hn) as Hpn.
    rewrite <- Hpn in * by by intros []. clear Hpn.
    destruct (notify_awakes p_asleep p_awake _ _ _ Hn) as [[? ->]|(? & ? & ?)]; [by intros []| |];
      exists l; pool_case.
  - exists l. pool_case.
  - exists l. pool_case.
  - specialize (Hsub x). rewrite Hq in Hsub. exists l. pool_case.
  - specialize (Hsub x). rewrite Hq in Hsub. exists l. pool_case.
  - specialize (Hsub x). rewrite Hq in Hsub. destruct Hsub as (Hlt & Hop & Hop' & Hr').
    exists (l ++ [x]). assert (accepted s ++ [x] = started s ++ l ++ [x]) by by rewrite app_assoc, Hh.
    pool_case.
  - pose proof (fun P => notify_count _ _ _ _ P Hn) as Hpn. pose proof (notify_length _ _ _ _ Hn).
    rewrite <- (Hpn w_notify), <- (Hpn w_exit), <- (Hpn w_unset) in * by by intros []. clear Hpn.
    destruct (notify_awakes w_asleep w_awake _ _ _ Hn) as [[? ->]|(? & ? & ?)]; [by intros []| |];
      exists l; pool_case.
  - exists l. pool_case.
  - exists l. pool_case.
  - exists l. pose proof (TaskQueue.stop_repr _ _ Hr). pool_case.
  - exists l. pose proof (wake_all_none w_asleep w_wake (workers s) ltac:(by intros [])).
    rewrite <- (wake_all_same w_exit w_wake (workers s)) in He by by intros [].
    rewrite <- (wake_all_same w_unset w_wake (workers s)) in Hs by by intros [].
    pool_case.
  - exists l. pose proof (wake_all_none p_asleep p_wake (producers s) ltac:(by intros [])).
    pool_case.
Qed.

Lemma inv_reachable s : reachable s -> exists l, inv s l.
Proof.
  assert (forall s1 s2, rtc step s1 s2 -> forall l, inv s1 l -> exists l', inv s2 l') as H.
  { induction 1 as [|s1 s2 s3 Hs _ IH]; intros l Hl; [by exists l|].
    destruct (inv_step _ _ _ Hl Hs) as [l' Hl']. by eapply IH. }
  intros Hr. apply (H _ _ Hr []), inv_init.
Qed.

(** ** Quiescent states *)

Lemma quiescent_workers s (P : wpc -> bool) :
  quiescent s -> P WAsleep = false -> P WExit = false -> count P (workers s) = 0.
Proof.
  intros (Hq & _) H1 H2. apply count_none. intros j p Hj. destruct (Hq j p Hj) as [-> | ->]; auto.
Qed.

Lemma quiescent_producers s (P : ppc -> bool) :
  quiescent s -> (forall x, P (PAsleep x) = false) -> (forall b, P (PReturn b) = false) ->
  count P (producers s) = 0.
Proof.
  intros (_ & Hq & _) H1 H2. apply count_none. intros j p Hj.
  destruct (Hq j p Hj) as [[x ->]|[b ->]]; auto.
Qed.

(** When nobody of one kind is counted, every worker is of the other. *)
Lemma quiescent_all s (P : wpc -> bool) w :
  quiescent s -> count P (workers s) = 0 -> (w = WAsleep /\ P WExit = true \/ w = WExit /\ P WAsleep = true) ->
  forall i w', workers s !! i = Some w' -> w' = w.
Proof.
  intros (Hq & _) H0 Hw i w' Hi. pose proof (count_zero _ _ _ _ H0 Hi).
  destruct (Hq i w' Hi) as [-> | ->], Hw as [[-> ?]|[-> ?]]; congruence.
Qed.

Lemma workers_counted s l (P : wpc -> bool) w :
  inv s l -> (forall i w', workers s !! i = Some w' -> w' = w) -> P w = true -> 0 < count P (workers s).
Proof.
  intros Hi H Hw. assert (exists w, workers s !! 0%nat = Some w) as [w0 Hw0].
  { apply lookup_lt_is_Some. rewrite (inv_workers _ _ Hi). unfold WORKER_THREADS. lia. }
  apply (count_lookup_pos _ _ _ _ Hw0). by rewrite (H _ _ Hw0).
Qed.

Lemma quiescent_open s l :
  inv s l -> quiescent s -> stopper s = SIdle ->
  l = [] /\ count p_asleep (producers s) = 0 /\ forall i w, workers s !! i = Some w -> w = WAsleep.
Proof.
  intros Hi Hq Hst. pose proof (proj2 (inv_shutdown _ _ Hi) Hst) as Hop.
  pose proof (count_nonneg w_exit (workers s)). pose proof (count_nonneg p_asleep (producers s)).
  pose proof (zlen_nonneg l). pose proof TaskQueue.capacity_pos.
  assert (count w_exit (workers s) = 0) as Hx.
  { destruct (decide (count w_exit (workers s) = 0)); [done|].
    destruct (inv_exit _ _ Hi); [lia|congruence]. }
  assert (forall i w, workers s !! i = Some w -> w = WAsleep) as Hall
    by (eapply quiescent_all; eauto).
  pose proof (inv_not_empty _ _ Hi Hop (workers_counted _ _ w_asleep _ Hi Hall eq_refl)) as Hne.
  pose proof (inv_not_full _ _ Hi Hop) as Hnf.
  rewrite (quiescent_producers s p_notify), (quiescent_workers s w_awake) in Hne by done.
  rewrite (quiescent_producers s p_awake), (quiescent_workers s w_notify) in Hnf by done.
  assert (l = []) as -> by (apply zlen_zero_inv; lia). rewrite zlen_nil in *.
  split; [done|]. split; [|done].
  destruct (decide (count p_asleep (producers s) = 0)); [done|]. specialize (Hnf ltac:(lia)). lia.
Qed.

Lemma quiescent_closed s l :
  inv s l -> quiescent s -> stopper s = SDone ->
  l = [] /\ count p_asleep (producers s) = 0 /\ forall i w, workers s !! i = Some w -> w = WExit.
Proof.
  intros Hi Hq Hst. pose proof (inv_notified_empty _ _ Hi (or_intror Hst)) as Ha.
  assert (forall i w, workers s !! i = Some w -> w = WExit) as Hall
    by (eapply quiescent_all; eauto).
  split; [|by split; [apply Hi|]].
  apply (inv_exit _ _ Hi). by apply (workers_counted _ _ w_exit _ Hi Hall).
Qed.

(** ** What the pool guarantees *)

(** C8: In every reachable state of the pool, under any interleaving of
    workers, producers, notifications, spurious wake-ups and shutdown, the
    tasks that [submit] accepted are those the workers have begun, in order and
    each once, followed by the contents of the ring buffer. *)
Theorem accepted_in_order s :
  reachable s ->
  exists l, TaskQueue.repr (queue s) l /\ accepted s = started s ++ l.
Proof. intros [l Hl]%inv_reachable. exists l. split; apply Hl. Qed.

(** C7: No wake-up is lost: when no thread of the pool can act, every accepted
    task has been begun, no producer is asleep, and the workers are all asleep
    before a shutdown and all gone after it. *)
Theorem no_lost_wakeup s :
  reachable s -> quiescent s ->
  started s = accepted s /\
  (forall j p, producers s !! j = Some p -> exists b, p = PReturn b) /\
  workers s = replicate WORKER_THREADS (if decide (stopper s = SIdle) then WAsleep else WExit).
Proof.
  intros [l Hi]%inv_reachable Hq. pose proof Hq as (_ & Hqp & Hqs).
  assert (l = [] /\ count p_asleep (producers s) = 0 /\ forall i w, workers s !! i = Some w ->
    w = if decide (stopper s = SIdle) then WAsleep else WExit) as (-> & Hpa & Hall).
  { destruct (decide (stopper s = SIdle)); [by apply quiescent_open|].
    apply (quiescent_closed s); [done..|by destruct Hqs]. }
  rewrite (inv_history _ _ Hi), app_nil_r, <- (inv_workers _ _ Hi).
  split; [done|]. split; [|by apply all_equal].
  intros j p Hj. destruct (Hqp j p Hj) as [[x ->]|[b ->]]; [|by exists b].
  discriminate (count_zero _ _ _ _ Hpa Hj).
Qed.
End Pool.

(** ** Witnesses *)

(** The workers fall asleep one after the other. *)
Definition asleep_after (k : nat) : @sys Z :=
  mk TaskQueue.init (replicate k WAsleep ++ replicate (WORKER_THREADS - k) WCall) [] SIdle [] [].

Lemma asleep_step k : (k < WORKER_THREADS)%nat -> step (asleep_after k) (asleep_after (S k)).
Proof.
  intros Hk. unfold asleep_after.
  replace (WORKER_THREADS - k)%nat with (S (WORKER_THREADS - S k)) by lia.
  assert (replicate (S k) WAsleep ++ replicate (WORKER_THREADS - S k) WCall =
    <[k := WAsleep]> (replicate k (@WAsleep Z) ++ replicate (S (WORKER_THREADS - S k)) WCall)) as ->.
  { rewrite insert_app_r_alt by (rewrite length_replicate; lia).
    by rewrite length_replicate, Nat.sub_diag, replicate_S_end, <- app_assoc. }
  apply (step_remove_wait (mk TaskQueue.init (_ ++ _) [] SIdle [] []) k); [|done].
  cbn. rewrite lookup_app_r by (rewrite length_replicate; lia).
  by rewrite length_replicate, Nat.sub_diag.
Qed.

Lemma asleep_reachable k : (k <= WORKER_THREADS)%nat -> reachable (asleep_after k).
Proof.
  induction k as [|k IH]; intros Hk; [apply rtc_refl|].
  eapply rtc_r; [apply IH; lia|]. apply asleep_step. lia.
Qed.

Lemma no_lost_wakeup_witness :
  started (asleep_after WORKER_THREADS) = accepted (asleep_after WORKER_THREADS) /\
  workers (asleep_after WORKER_THREADS) = replicate WORKER_THREADS WAsleep.
Proof.
  destruct (no_lost_wakeup (asleep_after WORKER_THREADS)) as (H1 & _ & H2).
  - by apply asleep_reachable.
  - split; [|split; [|by left]]; cbn [workers producers asleep_after].
    + intros i w Hi. rewrite Nat.sub_diag, app_nil_r in Hi.
      apply lookup_replicate_1 in Hi as [-> _]. by left.
    + by intros j p Hj.
  - exact (conj H1 H2).
Defined.

(** One task submitted and taken by a worker, still before its notification. *)
Lemma accepted_in_order_witness :
  exists s : @sys Z, reachable s /\ started s = [7] /\
    exists l, TaskQueue.repr (queue s) l /\ accepted s = started s ++ l.
Proof.
  assert (exists s : @sys Z, reachable s /\ started s = [7]) as (s & Hr & Hs).
  { eexists. split.
    - eapply rtc_l; [apply (step_new_submit _ 7)|].
      eapply rtc_l; [by eapply (step_submit _ 0)|].
      eapply rtc_l; [by eapply (step_remove _ 0)|].
      apply rtc_refl.
    - by vm_compute. }
  exists s. split; [exact Hr|]. split; [exact Hs|]. exact (accepted_in_order s Hr).
Defined.
End ThreadPool.
