(* ===== verification/PoolReentry.v ===== *)
(** * The pool when its own tasks submit tasks

    A read task that stops after 51 requests submits a further read
    ([EventLoop::handle_client_read], [thread_pool.submit] inside the task), so a
    worker can be a producer of the queue it serves.  The system of [ThreadPool]
    with that added, as a function: [apply] performs one move of one thread, and
    a schedule is a list of moves. *)

From S2P Require Import Prelude TaskQueue ThreadPool.
#[local] Open Scope Z_scope.

Module PoolReentry.

Section Pool.
(** [again x]: what the task [x] submits before it returns, if anything. *)
Context {task : Type} (again : task -> option task).

Inductive pc :=
| WCall                              (* a worker, in remove() *)
| WAsleep
| WNotify (x : option task)
| WRun (x : task)
| WExit
| Submit (worker : bool) (x : task)  (* in submit(): a task of a worker, or another thread *)
| SubmitAsleep (worker : bool) (x : task)
| SubmitNotify (worker : bool)
| Outside.                           (* another thread, between calls *)

(** Where a call of [submit] returns to: the task ends, or the caller goes on. *)
Definition return_to (worker : bool) : pc := if worker then WCall else Outside.

Record sys := mk {
  queue : TaskQueue.t task;
  threads : list pc;
  stopper : ThreadPool.spc;
  accepted : list task;
  started : list task
}.

Definition init (outside : nat) : sys :=
  mk TaskQueue.init (replicate ThreadPool.WORKER_THREADS WCall ++ replicate outside Outside) ThreadPool.SIdle [] [].

Definition empty_asleep (p : pc) : bool := match p with WAsleep => true | _ => false end.
Definition full_asleep (p : pc) : bool := match p with SubmitAsleep _ _ => true | _ => false end.
Definition wake (p : pc) : pc :=
  match p with WAsleep => WCall | SubmitAsleep w x => Submit w x | _ => p end.

(** [notify_one()]: the scheduler picks a sleeper, if there is one. *)
Definition notify_one (asleep : pc -> bool) (choice : option nat) (l : list pc) : option (list pc) :=
  match choice with
  | Some j => p ← l !! j; if asleep p then Some (<[j := wake p]> l) else None
  | None => if count asleep l =? 0 then Some l else None
  end.

Definition notify_all (asleep : pc -> bool) (l : list pc) : list pc :=
  (fun p => if asleep p then wake p else p) <$> l.

Inductive move :=
| Go (i : nat)                           (* a critical section, or the body of a task *)
| Notify (i : nat) (choice : option nat)
| Call (i : nat) (x : task)              (* a thread outside the pool calls submit *)
| Spurious (i : nat)
| Stop                                   (* the destructor of the pool *)
| StopNotify.

Definition set_thread (i : nat) (p : pc) (s : sys) : sys :=
  mk (queue s) (<[i := p]> (threads s)) (stopper s) (accepted s) (started s).

Definition go (i : nat) (p : pc) (s : sys) : option sys :=
  match p with
  | WCall =>
      match TaskQueue.remove (queue s) with
      | TaskQueue.RemoveWait => Some (set_thread i WAsleep s)
      | TaskQueue.RemoveEmpty => Some (set_thread i WExit s)
      | TaskQueue.RemoveTask x q' =>
          Some (mk q' (<[i := WNotify x]> (threads s)) (stopper s) (accepted s) (started s ++ option_list x))
      end
  | WRun x => Some (set_thread i (match again x with Some y => Submit true y | None => WCall end) s)
  | Submit w x =>
      match TaskQueue.submit x (queue s) with
      | TaskQueue.SubmitWait => Some (set_thread i (SubmitAsleep w x) s)
      | TaskQueue.SubmitRejected => Some (set_thread i (return_to w) s)
      | TaskQueue.SubmitDone q' =>
          Some (mk q' (<[i := SubmitNotify w]> (threads s)) (stopper s) (accepted s ++ [x]) (started s))
      end
  | _ => None
  end.

Definition apply (m : move) (s : sys) : option sys :=
  match m with
  | Go i => p ← threads s !! i; go i p s
  | Notify i choice =>
      match threads s !! i with
      | Some (WNotify x) =>
          l ← notify_one full_asleep choice (threads s);
          Some (mk (queue s) (<[i := from_option WRun WExit x]> l) (stopper s) (accepted s) (started s))
      | Some (SubmitNotify w) =>
          l ← notify_one empty_asleep choice (threads s);
          Some (mk (queue s) (<[i := return_to w]> l) (stopper s) (accepted s) (started s))
      | _ => None
      end
  | Call i x =>
      match threads s !! i with Some Outside => Some (set_thread i (Submit false x) s) | _ => None end
  | Spurious i =>
      p ← threads s !! i; if empty_asleep p || full_asleep p then Some (set_thread i (wake p) s) else None
  | Stop =>
      if bool_decide (stopper s = ThreadPool.SIdle)
      then Some (mk (TaskQueue.stop (queue s)) (threads s) ThreadPool.SNotifyEmpty (accepted s) (started s))
      else None
  | StopNotify =>
      match stopper s with
      | ThreadPool.SNotifyEmpty =>
          Some (mk (queue s) (notify_all empty_asleep (threads s)) ThreadPool.SNotifyFull (accepted s) (started s))
      | ThreadPool.SNotifyFull =>
          Some (mk (queue s) (notify_all full_asleep (threads s)) ThreadPool.SDone (accepted s) (started s))
      | _ => None
      end
  end.

Definition step (s s' : sys) : Prop := exists m, apply m s = Some s'.
Definition reachable (outside : nat) (s : sys) : Prop := rtc step (init outside) s.

Fixpoint run (ms : list move) (s : sys) : option sys :=
  match ms with [] => Some s | m :: ms' => s' ← apply m s; run ms' s' end.

(** A move by itself: not a new call, a spurious wake-up or the order to stop. *)
Definition internal (m : move) : bool :=
  match m with Go _ | Notify _ _ | StopNotify => true | _ => false end.

Definition quiescent (s : sys) : Prop := forall m, internal m = true -> apply m s = None.

Definition is_worker (p : pc) : bool :=
  match p with
  | WCall | WAsleep | WNotify _ | WRun _ | WExit => true
  | Submit w _ | SubmitAsleep w _ | SubmitNotify w => w
  | Outside => false
  end.
Definition w_call (p : pc) : bool := match p with WCall => true | _ => false end.
Definition w_notify (p : pc) : bool := match p with WNotify _ => true | _ => false end.
Definition w_unset (p : pc) : bool := match p with WNotify None => true | _ => false end.
Definition w_exit (p : pc) : bool := match p with WExit => true | _ => false end.
Definition p_call (p : pc) : bool := match p with Submit _ _ => true | _ => false end.
Definition p_notify (p : pc) : bool := match p with SubmitNotify _ => true | _ => false end.

Record inv (s : sys) (l : list task) : Prop := {
  inv_repr : TaskQueue.repr (queue s) l;
  inv_history : accepted s = started s ++ l;
  inv_workers : count is_worker (threads s) = Z.of_nat ThreadPool.WORKER_THREADS;
  inv_not_empty : TaskQueue.shutdown (queue s) = false -> 0 < count empty_asleep (threads s) ->
    zlen l <= count p_notify (threads s) + count w_call (threads s);
  inv_not_full : TaskQueue.shutdown (queue s) = false -> 0 < count full_asleep (threads s) ->
    TaskQueue.QUEUE_CAPACITY - zlen l <= count w_notify (threads s) + count p_call (threads s);
  inv_shutdown : TaskQueue.shutdown (queue s) = false <-> stopper s = ThreadPool.SIdle;
  inv_notified_empty : stopper s = ThreadPool.SNotifyFull \/ stopper s = ThreadPool.SDone ->
    count empty_asleep (threads s) = 0;
  inv_notified_full : stopper s = ThreadPool.SDone -> count full_asleep (threads s) = 0;
  inv_exit : 0 < count w_exit (threads s) -> TaskQueue.shutdown (queue s) = true /\ l = [];
  inv_some : count w_unset (threads s) = 0
}.

Lemma reentry_inv_init outside : inv (init outside) [].
Proof.
  assert (forall (P : pc -> bool), count P (threads (init outside)) =
    Z.of_nat ThreadPool.WORKER_THREADS * Z.b2z (P WCall) + Z.of_nat outside * Z.b2z (P Outside)) as Hc.
  { intros P. cbn [init threads]. by rewrite count_app, !count_replicate. }
  constructor; rewrite ?Hc; try done; try (cbn; lia); apply TaskQueue.repr_init.
Qed.

(** The list after a notification: unchanged, or with one sleeper woken. *)
Lemma notify_one_spec asleep choice l l' :
  notify_one asleep choice l = Some l' ->
  (count asleep l = 0 /\ l' = l) \/
  (exists j p, l !! j = Some p /\ asleep p = true /\ l' = <[j := wake p]> l).
Proof.
  unfold notify_one. destruct choice as [j|]; [|destruct (Z.eqb_spec (count asleep l) 0); intros; simplify_eq; auto].
  destruct (l !! j) as [p|] eqn:Hj; [|done]. cbn. destruct (asleep p) eqn:Hp; intros; simplify_eq.
  right. by exists j, p.
Qed.

Ltac pool_counts :=
  repeat match goal with
  | H : ?l !! ?i = Some ?x |- context [count ?P (<[?i := ?y]> ?l)] =>
      rewrite (count_insert P l i x y H)
  end;
  repeat match goal with H : _ !! _ = Some _ |- _ => progress count_mover H end;
  cbn [Z.b2z empty_asleep full_asleep wake is_worker w_call w_notify w_unset w_exit p_call p_notify return_to
       set_thread queue threads stopper accepted started];
  rewrite ?Z.sub_0_r, ?Z.add_0_r.

Ltac pool_case l :=
  exists l; constructor; cbn [set_thread queue threads stopper accepted started]; pool_counts; try done;
  intros; rewrite ?zlen_nil, ?zlen_app, ?zlen_cons, ?zlen_nil in *; count_bounds;
  intuition (try lia; try congruence).

Lemma inv_go i p s l s' : inv s l -> threads s !! i = Some p -> go i p s = Some s' -> exists l', inv s' l'.
Proof.
  intros [Hr Hh Hw Hne Hnf Hsd Hn1 Hn2 He Hs] Hi.
  pose proof (fun x => TaskQueue.submit_cases _ _ x Hr) as Hsub.
  pose proof (TaskQueue.remove_cases _ _ Hr) as Hrem.
  destruct p as [| |x|x| |w x|w x|w|]; cbn [go]; try done.
  - destruct (TaskQueue.remove (queue s)) as [| |x q'].
    + destruct Hrem as [-> Hop]. intros [= <-]. pool_case (@nil task).
    + destruct Hrem as [-> Hop]. intros [= <-]. pool_case (@nil task).
    + destruct Hrem as (z & l' & -> & -> & Hr' & Hop). intros [= <-]. rewrite <- Hop in *.
      assert (accepted s = (started s ++ [z]) ++ l') by by rewrite <- app_assoc.
      pool_case l'.
  - intros [= <-]. destruct (again x); pool_case l.
  - specialize (Hsub x). destruct (TaskQueue.submit x (queue s)) as [| |q'].
    + intros [= <-]. destruct w; pool_case l.
    + intros [= <-]. destruct w; pool_case l.
    + destruct Hsub as (Hlt & Hop & Hop' & Hr'). intros [= <-].
      assert (accepted s ++ [x] = started s ++ l ++ [x]) by by rewrite app_assoc, Hh.
      destruct w; pool_case (l ++ [x]).
Qed.

(** A notifying thread is not the one it wakes. *)
Lemma lookup_woken (l : list pc) i j p q :
  l !! i = Some p -> l !! j = Some q -> (empty_asleep p || full_asleep p = false) ->
  empty_asleep q || full_asleep q = true -> <[j := wake q]> l !! i = Some p.
Proof. intros Hi Hj Hp Hq. rewrite list_lookup_insert_ne; [done|]. intros ->. congruence. Qed.

Lemma inv_notify i choice s l s' : inv s l -> apply (Notify i choice) s = Some s' -> exists l', inv s' l'.
Proof.
  intros [Hr Hh Hw Hne Hnf Hsd Hn1 Hn2 He Hs]. cbn [apply].
  destruct (threads s !! i) as [[| |x|x| |w x|w x|w|]|] eqn:Hi; try done.
  - destruct (notify_one _ _ _) as [k|] eqn:Hk; [|done]. intros [= <-].
    destruct x as [x|]; [|discriminate (count_zero _ _ _ _ Hs Hi)]. cbn [from_option].
    apply notify_one_spec in Hk as [[H0 ->]|(j & p & Hj & Hp & ->)]; [pool_case l|].
    destruct p as [| | | | | |w' y| |]; try done. pose proof (lookup_woken _ _ _ _ _ Hi Hj eq_refl eq_refl) as Hi'.
    destruct w'; pool_case l.
  - destruct (notify_one _ _ _) as [k|] eqn:Hk; [|done]. intros [= <-].
    apply notify_one_spec in Hk as [[H0 ->]|(j & p & Hj & Hp & ->)]; [destruct w; pool_case l|].
    destruct p as [| | | | | | | |]; try done. pose proof (lookup_woken _ _ _ _ _ Hi Hj eq_refl eq_refl) as Hi'.
    destruct w; pool_case l.
Qed.

Lemma notify_all_count asleep P (l : list pc) :
  (forall p, asleep p = true -> P (wake p) = P p) -> count P (notify_all asleep l) = count P l.
Proof.
  intros HP. unfold notify_all. induction l as [|p l IH]; [done|]. cbn. rewrite IH.
  destruct (asleep p) eqn:E; [by rewrite HP|done].
Qed.

Lemma notify_all_none asleep (l : list pc) :
  (forall p, asleep p = true -> asleep (wake p) = false) -> count asleep (notify_all asleep l) = 0.
Proof.
  intros HP. unfold notify_all. induction l as [|p l IH]; [done|]. cbn. rewrite IH.
  destruct (asleep p) eqn:E; [by rewrite HP|by rewrite E].
Qed.

Lemma reentry_inv_stop s l s' m :
  inv s l -> (m = Stop \/ m = StopNotify) -> apply m s = Some s' -> exists l', inv s' l'.
Proof.
  intros [Hr Hh Hw Hne Hnf Hsd Hn1 Hn2 He Hs] [-> | ->]; cbn [apply].
  - case_bool_decide; [|done]. intros [= <-]. pose proof (TaskQueue.stop_repr _ _ Hr). pool_case l.
  - destruct (stopper s) eqn:Hst; try done; intros [= <-]; exists l;
      constructor; cbn [queue threads stopper accepted started]; try done;
      rewrite ?(notify_all_count empty_asleep), ?(notify_all_count full_asleep),
        ?(notify_all_none empty_asleep), ?(notify_all_none full_asleep) by (by intros []);
      try done; intuition congruence.
Qed.

Lemma reentry_inv_step s l s' : inv s l -> step s s' -> exists l', inv s' l'.
Proof.
  intros Hi [m Hm]. destruct m as [i|i c|i x|i| |].
  - cbn in Hm. destruct (threads s !! i) eqn:Hp; [|done]. by eapply inv_go.
  - by eapply inv_notify.
  - destruct Hi. cbn in Hm. destruct (threads s !! i) as [[]|] eqn:Hp; try done. injection Hm as <-. pool_case l.
  - destruct Hi. cbn in Hm. destruct (threads s !! i) as [[| | | | | |w ? | |]|] eqn:Hp; try done; injection Hm as <-;
      [|destruct w]; pool_case l.
  - eapply (reentry_inv_stop _ _ _ Stop); eauto.
  - eapply (reentry_inv_stop _ _ _ StopNotify); eauto.
Qed.

Lemma reentry_inv_reachable outside s : reachable outside s -> exists l, inv s l.
Proof.
  assert (forall s1 s2, rtc step s1 s2 -> forall l, inv s1 l -> exists l', inv s2 l') as H.
  { induction 1 as [|s1 s2 s3 Hs _ IH]; intros l Hl; [by exists l|].
    destruct (reentry_inv_step _ _ _ Hl Hs) as [l' Hl']. by eapply IH. }
  intros Hr. apply (H _ _ Hr []), reentry_inv_init.
Qed.

(** ** Quiescent states *)

(** A thread that cannot go on by itself. *)
Definition resting (p : pc) : bool :=
  match p with WAsleep | WExit | SubmitAsleep _ _ | Outside => true | _ => false end.

Lemma notify_enabled asleep (l : list pc) : exists choice l', notify_one asleep choice l = Some l'.
Proof.
  destruct (decide (count asleep l = 0)) as [H0|Hn].
  - exists None, l. cbn. by rewrite H0.
  - destruct (count_pos_lookup asleep l) as (j & p & Hj & Hp); [pose proof (count_nonneg asleep l); lia|].
    exists (Some j), (<[j := wake p]> l). cbn. by rewrite Hj; cbn; rewrite Hp.
Qed.

Lemma quiescent_resting s i p : quiescent s -> threads s !! i = Some p -> resting p = true.
Proof.
  intros Hq Hi. destruct p as [| |x|x| |w x|w x|w|]; try done; exfalso.
  - specialize (Hq (Go i) eq_refl). cbn in Hq. rewrite Hi in Hq. cbn in Hq. by destruct (TaskQueue.remove _).
  - destruct (notify_enabled full_asleep (threads s)) as (c & l' & Hc).
    specialize (Hq (Notify i c) eq_refl). cbn in Hq. rewrite Hi, Hc in Hq. done.
  - specialize (Hq (Go i) eq_refl). cbn in Hq. by rewrite Hi in Hq.
  - specialize (Hq (Go i) eq_refl). cbn in Hq. rewrite Hi in Hq. cbn in Hq. by destruct (TaskQueue.submit _ _).
  - destruct (notify_enabled empty_asleep (threads s)) as (c & l' & Hc).
    specialize (Hq (Notify i c) eq_refl). cbn in Hq. rewrite Hi, Hc in Hq. done.
Qed.

Lemma resting_none s (P : pc -> bool) :
  quiescent s -> (forall p, resting p = true -> P p = false) -> count P (threads s) = 0.
Proof. intros Hq HP. apply count_none. intros i p Hi. by eapply HP, quiescent_resting. Qed.

Lemma resting_quiescent s :
  forallb resting (threads s) = true -> stopper s = ThreadPool.SIdle \/ stopper s = ThreadPool.SDone -> quiescent s.
Proof.
  intros Hr Hst m Hm. rewrite forallb_forall in Hr.
  assert (forall i p, threads s !! i = Some p -> resting p = true) as Hr'.
  { intros i p Hp. apply Hr. apply list_elem_of_In. by eapply list_elem_of_lookup_2. }
  destruct m as [i|i c|i x|i| |]; try done; cbn.
  - destruct (threads s !! i) as [p|] eqn:Hp; [|done]. apply Hr' in Hp. by destruct p.
  - destruct (threads s !! i) as [p|] eqn:Hp; [|done]. apply Hr' in Hp. by destruct p.
  - by destruct Hst as [-> | ->].
Qed.

(** In a quiescent state a worker is asleep, has exited, or sleeps in [submit]. *)
Lemma resting_worker s i p :
  quiescent s -> threads s !! i = Some p -> is_worker p = true ->
  p = WAsleep \/ p = WExit \/ exists x, p = SubmitAsleep true x.
Proof.
  intros Hq Hi Hw. pose proof (quiescent_resting _ _ _ Hq Hi) as Hr.
  destruct p as [| | | | | |w x| |]; try done; eauto. cbn in Hw. subst w. eauto.
Qed.

Lemma workers_all s l (P : pc -> bool) :
  inv s l -> (forall i p, threads s !! i = Some p -> is_worker p = true -> P p = true) ->
  (forall p, P p = true -> is_worker p = true) -> count P (threads s) = 64.
Proof.
  intros Hi H1 H2. pose proof (inv_workers _ _ Hi) as Hw. change (Z.of_nat _) with 64 in Hw.
  pose proof (count_mono is_worker P (threads s) H1).
  pose proof (count_mono P is_worker (threads s) ltac:(by intros ? p _; apply H2)). lia.
Qed.

(** The workers of the pool that sleep in [submit], called by their own task. *)
Definition blocked_worker (p : pc) : bool := match p with SubmitAsleep true _ => true | _ => false end.

(** C18: When no thread of the pool can go on by itself, the pool is in one of three
    states: idle (all accepted tasks begun, nobody waits for space, every worker
    waits for work); stopped (all accepted tasks begun, every worker has
    exited, nobody waits); or deadlocked, with a full queue and every one of the
    64 workers asleep inside [submit], in the middle of a task.  There is no
    other way to get stuck: one worker whose task returns is enough. *)
Theorem stuck_exactly_when outside s :
  reachable outside s -> quiescent s ->
  (stopper s = ThreadPool.SIdle /\ accepted s = started s /\ count full_asleep (threads s) = 0 /\
   count empty_asleep (threads s) = 64) \/
  (stopper s = ThreadPool.SDone /\ accepted s = started s /\ count full_asleep (threads s) = 0 /\
   count w_exit (threads s) = 64) \/
  (stopper s = ThreadPool.SIdle /\ TaskQueue.buffer_len (queue s) = TaskQueue.QUEUE_CAPACITY /\
   count blocked_worker (threads s) = 64).
Proof.
  intros [l Hi]%reentry_inv_reachable Hq. pose proof Hi as [Hr Hh Hw Hne Hnf Hsd Hn1 Hn2 He Hs].
  pose proof (fun i p => resting_worker s i p Hq) as Hqw.
  rewrite (resting_none s p_notify), (resting_none s w_call) in Hne by (done || by intros []).
  rewrite (resting_none s w_notify), (resting_none s p_call) in Hnf by (done || by intros []).
  pose proof (count_nonneg empty_asleep (threads s)). pose proof (count_nonneg full_asleep (threads s)).
  pose proof (count_nonneg w_exit (threads s)). pose proof TaskQueue.capacity_pos. pose proof (zlen_nonneg l).
  specialize (Hq StopNotify eq_refl). cbn in Hq. destruct (stopper s) eqn:Hst; try done; clear Hq.
  - apply proj2 in Hsd. specialize (Hsd eq_refl). specialize (Hne Hsd). specialize (Hnf Hsd).
    assert (count w_exit (threads s) = 0) as Hx
      by (destruct (decide (0 < count w_exit (threads s))) as [Hp|]; [destruct (He Hp); congruence|lia]).
    destruct (decide (count empty_asleep (threads s) = 0)) as [Hea|Hea].
    + right; right. split; [done|]. assert (count blocked_worker (threads s) = 64) as Hb.
      { apply (workers_all _ _ _ Hi); [|by intros [| | | | | |[] ?| |]]. intros i p Hp Hpw.
        destruct (Hqw i p Hp Hpw) as [->|[->|[x ->]]]; [| |done].
        - by apply (count_zero _ _ _ _ Hea) in Hp.
        - by apply (count_zero _ _ _ _ Hx) in Hp. }
      split; [|done]. pose proof (count_mono blocked_worker full_asleep (threads s) ltac:(by intros ? [])).
      rewrite (TaskQueue.repr_len _ _ Hr). pose proof (TaskQueue.repr_bound _ _ Hr). lia.
    + left. assert (l = []) as -> by (apply zlen_zero_inv; lia). rewrite app_nil_r in Hh. pose proof (@zlen_nil task).
      assert (count full_asleep (threads s) = 0) as Hf by (destruct (decide (0 < count full_asleep (threads s))); lia).
      split; [done|]. split; [done|]. split; [done|]. apply (workers_all _ _ _ Hi); [|by intros []].
      intros i p Hp Hpw. destruct (Hqw i p Hp Hpw) as [->|[->|[x ->]]]; [done| |].
      * by apply (count_zero _ _ _ _ Hx) in Hp.
      * by apply (count_zero _ _ _ _ Hf) in Hp.
  - right; left. specialize (Hn1 (or_intror eq_refl)). specialize (Hn2 eq_refl).
    assert (count w_exit (threads s) = 64) as Hx.
    { apply (workers_all _ _ _ Hi); [|by intros []]. intros i p Hp Hpw.
      destruct (Hqw i p Hp Hpw) as [->|[->|[x ->]]]; [|done|].
      - by apply (count_zero _ _ _ _ Hn1) in Hp.
      - by apply (count_zero _ _ _ _ Hn2) in Hp. }
    destruct He as [_ ->]; [lia|]. rewrite app_nil_r in Hh. done.
Qed.
End Pool.

(** ** The deadlock is reached

    One thread outside (the event loop) hands each worker a task, then fills the
    queue; then the tasks submit. *)

Definition submits (n : nat) : list (move (task := Z)) := concat (replicate n [Call 64 0; Go 64; Notify 64 None]).
Definition begins (w : nat) : list (move (task := Z)) := [Go w; Notify w None].
Definition resubmits (w : nat) : list (move (task := Z)) := [Go w; Go w].

Definition to_deadlock : list move :=
  submits 64 ++ concat (begins <$> seq 0 64) ++ submits 1024 ++ concat (resubmits <$> seq 0 64).

Lemma run_reachable {task} (again : task -> option task) ms s s' :
  run again ms s = Some s' -> rtc (step again) s s'.
Proof.
  revert s; induction ms as [|m ms IH]; cbn [run]; intros s; [intros [= <-]; apply rtc_refl|].
  destruct (apply again m s) as [s1|] eqn:E; [|done]. intros H. eapply rtc_l; [by exists m|by apply IH].
Qed.

Definition deadlocked (o : option (sys (task := Z))) : bool :=
  match o with
  | Some s => forallb resting (threads s) && bool_decide (stopper s = ThreadPool.SIdle) &&
              (count blocked_worker (threads s) =? 64) && (length (accepted s) =? 1088)%nat &&
              (length (started s) =? 64)%nat
  | None => false
  end.

(** The deadlock of [stuck_exactly_when] is reachable, when tasks submit
    themselves again: every worker sleeps, 1024 accepted tasks have not been
    begun, and none will be unless a thread is woken for no reason. *)
Lemma resubmission_deadlocks :
  exists s : sys, reachable (fun x : Z => Some x) 1 s /\ quiescent (fun x : Z => Some x) s /\
    count blocked_worker (threads s) = 64 /\ length (accepted s) = 1088%nat /\ length (started s) = 64%nat.
Proof.
  assert (deadlocked (run (fun x : Z => Some x) to_deadlock (init 1)) = true) as H by (vm_compute; reflexivity).
  destruct (run _ to_deadlock _) as [s|] eqn:E; [|done]. exists s. cbn [deadlocked] in H. simplify_bools.
  split; [by eapply run_reachable|]. split; [apply resting_quiescent; [done|by left]|].
  split; [by apply Z.eqb_eq|]. split; by apply Nat.eqb_eq.
Qed.

(** A pool with nothing to do: every worker has found the queue empty. *)
Definition to_idle : list (move (task := Z)) := Go <$> seq 0 64.

Definition idles (o : option (sys (task := Z))) : bool :=
  match o with
  | Some s => forallb resting (threads s) && bool_decide (stopper s = ThreadPool.SIdle) &&
              (count blocked_worker (threads s) =? 0)
  | None => false
  end.

Lemma idle_pool_rests :
  exists s, reachable (fun x : Z => Some x) 1 s /\ quiescent (fun x : Z => Some x) s /\
    stopper s = ThreadPool.SIdle /\ count blocked_worker (threads s) = 0.
Proof.
  assert (idles (run (fun x : Z => Some x) to_idle (init 1)) = true) as H by (vm_compute; reflexivity).
  destruct (run _ to_idle _) as [s|] eqn:E; [|done]. exists s. cbn [idles] in H. simplify_bools.
  split; [by eapply run_reachable|]. split; [apply resting_quiescent; [done|by left]|].
  split; [done|by apply Z.eqb_eq].
Qed.

Lemma stuck_exactly_when_witness :
  exists s, reachable (fun x : Z => Some x) 1 s /\ accepted s = started s /\ count empty_asleep (threads s) = 64.
Proof.
  destruct idle_pool_rests as (s & Hr & Hq & Hst & Hb). exists s. split; [exact Hr|].
  destruct (stuck_exactly_when (fun x : Z => Some x) 1 s Hr Hq)
    as [(_ & Ha & _ & Hc)|[(Hst' & _)|(_ & _ & Hb')]]; [exact (conj Ha Hc)|congruence|congruence].
Defined.

End PoolReentry.
