(* ===== verification/IpLimiter.v ===== *)
(** * [PerIpConnectionLimiter]: the cap on open connections per address

    [src/src/middleware/PerIpConnectionLimiter.cpp].  Both operations run under
    [mtx_], so a history of the limiter is a sequence of them; [live] counts
    the slots an address holds in such a history. *)

From S2P Require Import Prelude.

Module PerIpConnectionLimiter.

(** [counts_]; the bound [max_per_ip_] is the argument of the operations. *)
Abbreviation t := (gmap bytes Z).

(** [counts_[ip]] creates the entry with 0, also when the answer is [false]. *)
Definition try_acquire (max_per_ip : Z) (ip : bytes) (counts : t) : bool * t :=
  let count := default 0 (counts !! ip) in
  if max_per_ip <=? count then (false, <[ip := count]> counts)
  else (true, <[ip := count + 1]> counts).

Definition release (ip : bytes) (counts : t) : t :=
  match counts !! ip with
  | None => counts
  | Some count => if count - 1 <=? 0 then delete ip counts else <[ip := count - 1]> counts
  end.

(** ** Histories *)

Inductive event := Granted (ip : bytes) | Refused (ip : bytes) | Released (ip : bytes).

Definition live_delta (ip : bytes) (e : event) : Z :=
  match e with
  | Granted ip' => if decide (ip' = ip) then 1 else 0
  | Refused _ => 0
  | Released ip' => if decide (ip' = ip) then -1 else 0
  end.

Fixpoint live (ip : bytes) (es : list event) : Z :=
  match es with [] => 0 | e :: es' => live_delta ip e + live ip es' end.

Inductive history (max_per_ip : Z) : list event -> t -> Prop :=
| history_nil : history max_per_ip [] ∅
| history_acquire es m ip ok m' :
    history max_per_ip es m -> try_acquire max_per_ip ip m = (ok, m') ->
    history max_per_ip (es ++ [if ok then Granted ip else Refused ip]) m'
| history_release es m ip :
    history max_per_ip es m -> 0 < live ip es ->      (* the caller holds a slot *)
    history max_per_ip (es ++ [Released ip]) (release ip m).

Lemma live_app ip es es' : live ip (es ++ es') = live ip es + live ip es'.
Proof. induction es as [|e es IH]; cbn; lia. Qed.

(** What each operation does to the number recorded for every address. *)
Lemma try_acquire_spec max ip m ok m' :
  try_acquire max ip m = (ok, m') ->
  ok = (default 0 (m !! ip) <? max) /\
  (forall ip', ip' <> ip -> m' !! ip' = m !! ip') /\
  m' !! ip = Some (default 0 (m !! ip) + Z.b2z ok).
Proof.
  unfold try_acquire. set (n := default 0 (m !! ip)).
  destruct (Z.leb_spec max n); intros [= <- <-]; rewrite lookup_insert_eq.
  - split; [symmetry; apply Z.ltb_nlt; lia|]. split; [by intros; rewrite lookup_insert_ne|].
    f_equal. cbn. lia.
  - split; [symmetry; apply Z.ltb_lt; lia|]. split; [by intros; rewrite lookup_insert_ne|]. done.
Qed.

Lemma release_spec ip m :
  (forall ip', ip' <> ip -> release ip m !! ip' = m !! ip') /\
  (0 < default 0 (m !! ip) ->
   release ip m !! ip = (if default 0 (m !! ip) =? 1 then None else Some (default 0 (m !! ip) - 1))).
Proof.
  unfold release. destruct (m !! ip) as [n|] eqn:Hm; cbn; [|by cbn].
  destruct (Z.leb_spec (n - 1) 0) as [Hle|Hgt]; split; intros.
  - by rewrite lookup_delete_ne.
  - rewrite lookup_delete_eq. by destruct (Z.eqb_spec n 1); [|lia].
  - by rewrite lookup_insert_ne.
  - rewrite lookup_insert_eq. by destruct (Z.eqb_spec n 1); [lia|].
Qed.

(** The entry of an address that holds [n] slots. *)
Definition entry (n : Z) : option Z := if n =? 0 then None else Some n.

Lemma entry_pos n : 0 < n -> entry n = Some n.
Proof. unfold entry. by destruct (Z.eqb_spec n 0); [lia|]. Qed.

Lemma default_entry n : default 0 (entry n) = n.
Proof. unfold entry. by destruct (Z.eqb_spec n 0) as [->|]. Qed.

Lemma history_inv max es m :
  0 < max -> history max es m -> forall ip, m !! ip = entry (live ip es) /\ 0 <= live ip es <= max.
Proof.
  intros Hmax H. induction H as [|es m ip ok m' _ IH Ha|es m ip _ IH Hl]; intros ip'.
  - split; [done|cbn; lia].
  - destruct (try_acquire_spec _ _ _ _ _ Ha) as (-> & Hne & Heq). destruct (IH ip) as [Hm Hb].
    rewrite Hm, default_entry in *. rewrite live_app. destruct (decide (ip' = ip)) as [->|Hip].
    + rewrite Heq. destruct (Z.ltb_spec (live ip es) max); cbn; rewrite ?decide_True by done;
        rewrite entry_pos by lia; (split; [f_equal; lia|lia]).
    + rewrite Hne by done. destruct (_ <? _); cbn; rewrite ?decide_False by done;
        rewrite Z.add_0_r; apply IH.
  - destruct (release_spec ip m) as [Hne Heq]. rewrite live_app. destruct (IH ip) as [Hm Hb].
    rewrite Hm, default_entry in Heq.
    destruct (decide (ip' = ip)) as [->|Hip]; cbn.
    + rewrite Heq, decide_True by (done || lia). split; [|lia]. unfold entry.
      destruct (Z.eqb_spec (live ip es) 1), (Z.eqb_spec (live ip es + (-1 + 0)) 0);
        done || lia || (f_equal; lia).
    + rewrite Hne, decide_False by done. rewrite Z.add_0_r. apply IH.
Qed.

(** C27: The limiter is exact.  In every history in which callers release only
    slots they were granted, an address has an entry exactly while it holds
    slots, the entry is their number, the number never exceeds the bound, and
    the next request is granted exactly when it is below the bound. *)
Theorem limiter_exact (max_per_ip : Z) (es : list event) (m : t) :
  0 < max_per_ip -> history max_per_ip es m ->
  forall ip,
    m !! ip = (if live ip es =? 0 then None else Some (live ip es)) /\
    0 <= live ip es <= max_per_ip /\
    (try_acquire max_per_ip ip m).1 = (live ip es <? max_per_ip).
Proof.
  intros Hmax H ip. destruct (history_inv _ _ _ Hmax H ip) as [Hm Hb].
  split; [done|]. split; [done|]. destruct (try_acquire max_per_ip ip m) as [ok m'] eqn:Ha.
  apply try_acquire_spec in Ha as (-> & _). by rewrite Hm, default_entry.
Qed.

Lemma limiter_exact_witness :
  let m := release (bs "10.0.0.1") (try_acquire 1 (bs "10.0.0.1") ∅).2 in
  (try_acquire 1 (bs "10.0.0.1") m).1 = true.
Proof.
  refine (proj2 (proj2 (limiter_exact 1 ([] ++ [Granted (bs "10.0.0.1")] ++ [Released (bs "10.0.0.1")])
    _ ltac:(lia) _ (bs "10.0.0.1")))).
  apply (history_release 1 ([] ++ [Granted (bs "10.0.0.1")])); [|by vm_compute].
  by eapply (history_acquire 1 [] ∅ _ true); [constructor|].
Defined.

End PerIpConnectionLimiter.
