(* ===== verification/RateLimiter.v ===== *)
(** * [RateLimiter]: sharded token buckets

    [src/src/middleware/RateLimiter.cpp].  Buckets live on the heap and the
    shard maps hold pointers to them, as the code does, because [allow] uses
    its pointer after it has released the shard's mutex and [sweep_stale] frees
    buckets: an access to a freed bucket is the value [None].

    A [double] is a rational and every floating-point operation ends with
    [rnd]; the class [Rounding] states what the theorems use of IEEE 754
    rounding.  Times are the nanosecond counts of [steady_clock]. *)

From Stdlib Require Import QArith Qround Lqa.
From S2P Require Import Prelude.
#[local] Open Scope Z_scope.

(** Rounding to double: monotone, the identity on the integers that fit the
    53-bit significand, and a function of the value. *)
Class Rounding (rnd : Q -> Q) := {
  rnd_proper :: Proper (Qeq ==> Qeq) rnd;
  rnd_mono x y : (x <= y)%Q -> (rnd x <= rnd y)%Q;
  rnd_int n : -(2 ^ 53) <= n <= 2 ^ 53 -> (rnd (inject_Z n) == inject_Z n)%Q
}.

(** Rounding with a relative error [u] and an absolute error [eta]; for double,
    [u] is 2^-53 and [eta], which covers results below the normal range, 2^-1075.
    (Results here stay far below the largest double.) *)
Class Accurate (rnd : Q -> Q) (u eta : Q) := {
  acc_u : (0 <= u)%Q;
  acc_eta : (0 <= eta)%Q;
  acc_low x : (0 <= x)%Q -> (x * (1 - u) - eta <= rnd x)%Q;
  acc_high x : (0 <= x)%Q -> (rnd x <= x * (1 + u) + eta)%Q
}.

(** Exact arithmetic is one instance. *)
#[export] Instance exact_rounding : Rounding id.
Proof. by constructor; [intros x y| |]. Qed.
#[export] Instance exact_accurate : Accurate id 0 0.
Proof. constructor; unfold id; intros; lra. Qed.

(** Rounding down to a multiple of 2^-60 is another. *)
Definition fixed_point (x : Q) : Q := (inject_Z (Qfloor (x * inject_Z (2 ^ 60))) / inject_Z (2 ^ 60))%Q.

#[export] Instance fixed_point_rounding : Rounding fixed_point.
Proof.
  constructor; unfold fixed_point.
  - intros x y E. by rewrite E.
  - intros x y Hxy. apply Qmult_le_compat_r; [|done]. rewrite <- Zle_Qle. apply Qfloor_resp_le.
    by apply Qmult_le_compat_r.
  - intros n _. rewrite <- inject_Z_mult, Qfloor_Z, inject_Z_mult. field; done.
Qed.

#[export] Instance fixed_point_accurate : Accurate fixed_point 0 (1 # 2 ^ 60).
Proof.
  constructor; [done|done|intros x _..]; unfold fixed_point; set (y := (x * inject_Z (2 ^ 60))%Q).
  all: assert (x == y / inject_Z (2 ^ 60))%Q as E by (subst y; field; done).
  - pose proof (Qlt_floor y) as H. rewrite inject_Z_plus in H. rewrite E. clearbody y.
    set (f := inject_Z (Qfloor y)) in *. change (inject_Z 1) with 1%Q in H. unfold Qdiv.
    change (/ inject_Z (2 ^ 60))%Q with (1 # 1152921504606846976)%Q.
    change (1 # 2 ^ 60)%Q with (1 # 1152921504606846976)%Q. lra.
  - pose proof (Qfloor_le y) as H. rewrite E. clearbody y. set (f := inject_Z (Qfloor y)) in *. unfold Qdiv.
    change (/ inject_Z (2 ^ 60))%Q with (1 # 1152921504606846976)%Q.
    change (1 # 2 ^ 60)%Q with (1 # 1152921504606846976)%Q. lra.
Qed.

Module RateLimiter.

Abbreviation loc := Z (only parsing).

Definition NUM_SHARDS : Z := 16.

Record Bucket := mkBucket { tokens : Q; last_refill : Z }.

Record t := mk {
  shards : list (gmap bytes loc);     (* shards_: pointers to the buckets *)
  heap : gmap loc Bucket;             (* the buckets allocated and not freed *)
  next : loc                          (* the allocator *)
}.

Definition init : t :=
  {| shards := replicate (Z.to_nat NUM_SHARDS) ∅; heap := ∅; next := 0 |}.

(** ** Floating point *)

Section Arithmetic.
Context (rnd : Q -> Q).

(** [std::chrono::duration<double>(ns).count()]: the count and the period are
    converted and divided in double. *)
Definition duration_double (ns : Z) : Q := rnd (rnd (inject_Z ns) / inject_Z 1000000000)%Q.

(** [std::min(a, b)] is [b < a ? b : a]. *)
Definition std_min (a b : Q) : Q := if Qle_bool a b then a else b.

(** The refill of [allow]: [std::min(capacity_, tokens + time_elapsed * rate_)]. *)
Definition refill (rate_ capacity_ : Q) (now : Z) (b : Bucket) : Q :=
  let time_elapsed := duration_double (now - last_refill b) in
  std_min capacity_ (rnd (tokens b + rnd (time_elapsed * rate_)))%Q.

(** Step 2 of [allow], on the bucket itself. *)
Definition take_token (rate_ capacity_ : Q) (now : Z) (b : Bucket) : bool * Bucket :=
  let tokens' := refill rate_ capacity_ now b in
  if Qle_bool 1 tokens'
  then (true, {| tokens := rnd (tokens' - 1)%Q; last_refill := now |})
  else (false, {| tokens := tokens'; last_refill := now |}).
End Arithmetic.

(** ** Operations *)

Section Operations.
Context (rnd : Q -> Q) (hash : bytes -> Z) (rate_ capacity_ : Q).

Definition shard_for (ip : bytes) : nat := Z.to_nat (hash ip mod NUM_SHARDS).

(** Step 1 of [allow], under the shard's mutex: find or create the bucket. *)
Definition find_or_create (now : Z) (ip : bytes) (s : t) : loc * t :=
  let shard_idx := shard_for ip in
  let map := default ∅ (shards s !! shard_idx) in
  match map !! ip with
  | None =>
      let new_bucket := {| tokens := capacity_; last_refill := now |} in
      (next s, {| shards := <[shard_idx := <[ip := next s]> map]> (shards s);
                  heap := <[next s := new_bucket]> (heap s);
                  next := next s + 1 |})
  | Some bucket => (bucket, s)
  end.

(** Step 2, under the bucket's own mutex. *)
Definition refill_consume (now : Z) (bucket : loc) (s : t) : option (bool * t) :=
  b ← heap s !! bucket;
  let '(ok, b') := take_token rnd rate_ capacity_ now b in
  Some (ok, {| shards := shards s; heap := <[bucket := b']> (heap s); next := next s |}).

Definition allow (now1 now2 : Z) (ip : bytes) (s : t) : option (bool * t) :=
  let '(bucket, s1) := find_or_create now1 ip s in refill_consume now2 bucket s1.

(** [duration_cast<milliseconds>(now - last_refill) > max_idle]. *)
Definition stale (now max_idle : Z) (b : Bucket) : bool :=
  max_idle * 1000 <? Z.quot (now - last_refill b) 1000000.

Definition stale_at (now max_idle : Z) (h : gmap loc Bucket) (bucket : loc) : bool :=
  from_option (stale now max_idle) false (h !! bucket).

(** One pass of the outer loop: the entries erased, with their buckets. *)
Definition sweep_shard (now max_idle : Z) (h : gmap loc Bucket) (map : gmap bytes loc)
  : gmap bytes loc * gmap loc Bucket :=
  (filter (fun e => stale_at now max_idle h e.2 = false) map,
   foldr delete h (filter (fun bucket => stale_at now max_idle h bucket = true) (map_to_list map).*2)).

Fixpoint sweep_shards (now max_idle : Z) (h : gmap loc Bucket) (maps : list (gmap bytes loc))
  : list (gmap bytes loc) * gmap loc Bucket :=
  match maps with
  | [] => ([], h)
  | map :: maps' =>
      let '(map', h1) := sweep_shard now max_idle h map in
      let '(maps'', h2) := sweep_shards now max_idle h1 maps' in
      (map' :: maps'', h2)
  end.

Definition sweep_stale (now max_idle : Z) (s : t) : t :=
  let '(maps, h) := sweep_shards now max_idle (heap s) (shards s) in
  {| shards := maps; heap := h; next := next s |}.

End Operations.
End RateLimiter.
