(* ===== verification/RateLimiterSpec.v ===== *)
(** * What the rate limiter promises

    The specification is a flat map of buckets that never forgets an address;
    the sharded limiter with its sweeps gives the same answers, and the token
    bucket enforces its rate up to the rounding errors. *)

From Stdlib Require Import QArith Lqa.
From S2P Require Import Prelude RateLimiter.
#[local] Open Scope Z_scope.

Import RateLimiter.

Module RateLimiterSpec.

(** The default argument of [sweep_stale], in seconds. *)
Definition MAX_IDLE : Z := 300.

(** The calls on a limiter; [Allow now1 now2 ip] reads the clock twice. *)
Inductive op :=
| Allow (now1 now2 : Z) (ip : bytes)
| Sweep (now : Z).

(** The clock readings of a sequence of calls are monotone from [t0]. *)
Fixpoint clocked (t0 : Z) (ops : list op) : Prop :=
  match ops with
  | [] => True
  | Allow now1 now2 _ :: ops' => t0 <= now1 /\ now1 <= now2 /\ clocked now2 ops'
  | Sweep now :: ops' => t0 <= now /\ clocked now ops'
  end.

Fixpoint last_time (t0 : Z) (ops : list op) : Z :=
  match ops with
  | [] => t0
  | Allow _ now2 _ :: ops' => last_time now2 ops'
  | Sweep now :: ops' => last_time now ops'
  end.

Lemma last_time_ge ops t0 : clocked t0 ops -> t0 <= last_time t0 ops.
Proof.
  revert t0; induction ops as [|[now1 now2 ip|now] ops IH]; intros t0; cbn; [lia| |].
  - intros (? & ? & H%IH). lia.
  - intros (? & H%IH). lia.
Qed.

Lemma clocked_mono ops t0 t1 : t0 <= t1 -> clocked t1 ops -> clocked t0 ops.
Proof. destruct ops as [|[]]; cbn; intuition lia. Qed.

Section Runs.
Context (rnd : Q -> Q) (hash : bytes -> Z) (rate_ capacity_ : Q).

(** The answers of [allow], with the address asked for. *)
Fixpoint run (ops : list op) (s : t) : option (list (bytes * bool) * t) :=
  match ops with
  | [] => Some ([], s)
  | Allow now1 now2 ip :: ops' =>
      '(ok, s1) ← allow rnd hash rate_ capacity_ now1 now2 ip s;
      '(answers, s2) ← run ops' s1;
      Some ((ip, ok) :: answers, s2)
  | Sweep now :: ops' => run ops' (sweep_stale now MAX_IDLE s)
  end.

(** The specification. *)
Definition flat_allow (now1 now2 : Z) (ip : bytes) (f : gmap bytes Bucket)
  : bool * gmap bytes Bucket :=
  let b := default {| tokens := capacity_; last_refill := now1 |} (f !! ip) in
  let '(ok, b') := take_token rnd rate_ capacity_ now2 b in (ok, <[ip := b']> f).

Fixpoint flat_run (ops : list op) (f : gmap bytes Bucket)
  : list (bytes * bool) * gmap bytes Bucket :=
  match ops with
  | [] => ([], f)
  | Allow now1 now2 ip :: ops' =>
      let '(ok, f1) := flat_allow now1 now2 ip f in
      let '(answers, f2) := flat_run ops' f1 in ((ip, ok) :: answers, f2)
  | Sweep _ :: ops' => flat_run ops' f
  end.

Lemma flat_run_app ops1 ops2 f :
  flat_run (ops1 ++ ops2) f =
  ((flat_run ops1 f).1 ++ (flat_run ops2 (flat_run ops1 f).2).1,
   (flat_run ops2 (flat_run ops1 f).2).2).
Proof.
  revert f; induction ops1 as [|[now1 now2 ip|now] ops1 IH]; intros f; cbn.
  - by destruct (flat_run ops2 f).
  - destruct (flat_allow now1 now2 ip f) as [ok f1]. rewrite IH.
    by destruct (flat_run ops1 f1).
  - apply IH.
Qed.
End Runs.

(** ** Tokens *)

Section Tokens.
Context (rnd : Q -> Q) `{!Rounding rnd} (rate capacity : Z).
Context (Hcap : 1 <= capacity <= 2 ^ 53) (Hrate : 0 <= rate).

Lemma rnd_ge n x : -(2 ^ 53) <= n <= 2 ^ 53 -> (inject_Z n <= x)%Q -> (inject_Z n <= rnd x)%Q.
Proof. intros Hn Hx. rewrite <- (rnd_int n Hn). by apply rnd_mono. Qed.

Lemma rnd_le n x : -(2 ^ 53) <= n <= 2 ^ 53 -> (x <= inject_Z n)%Q -> (rnd x <= inject_Z n)%Q.
Proof. intros Hn Hx. rewrite <- (rnd_int n Hn). by apply rnd_mono. Qed.

(** At least [k] seconds are at least [k] as a [duration<double>]. *)
Lemma duration_double_ge k ns :
  0 <= k <= 2 ^ 20 -> k * 1000000000 <= ns -> (inject_Z k <= duration_double rnd ns)%Q.
Proof.
  intros Hk Hns. unfold duration_double. apply rnd_ge; [lia|].
  apply Qle_shift_div_l; [done|]. rewrite <- inject_Z_mult. apply rnd_ge; [lia|].
  by rewrite <- Zle_Qle.
Qed.

Definition bucket_ok (b : Bucket) : Prop := (0 <= tokens b <= inject_Z capacity)%Q.

Lemma std_min_bounds lo a b : (lo <= a -> lo <= b -> lo <= std_min a b <= a)%Q.
Proof.
  intros Ha Hb. unfold std_min. destruct (Qle_bool a b) eqn:E; split; try done; try lra.
  destruct (Qlt_le_dec b a) as [|H]; [lra|]. apply Qle_bool_iff in H. congruence.
Qed.

Lemma refill_bounds now b :
  bucket_ok b -> last_refill b <= now ->
  (0 <= refill rnd (inject_Z rate) (inject_Z capacity) now b <= inject_Z capacity)%Q.
Proof.
  intros [H0 H1] Hnow. apply (std_min_bounds 0).
  - change 0%Q with (inject_Z 0). rewrite <- Zle_Qle. lia.
  - change 0%Q with (inject_Z 0). apply rnd_ge; [lia|].
    assert (inject_Z 0 <= rnd (duration_double rnd (now - last_refill b) * inject_Z rate))%Q.
    { apply rnd_ge; [lia|]. apply Qmult_le_0_compat.
      - apply (duration_double_ge 0); lia.
      - change 0%Q with (inject_Z 0). by rewrite <- Zle_Qle. }
    change (inject_Z 0) with 0%Q in *. lra.
Qed.

Lemma take_token_ok now b :
  bucket_ok b -> last_refill b <= now ->
  bucket_ok (take_token rnd (inject_Z rate) (inject_Z capacity) now b).2 /\
  last_refill (take_token rnd (inject_Z rate) (inject_Z capacity) now b).2 = now.
Proof.
  intros Hb Hnow. pose proof (refill_bounds now b Hb Hnow) as [H0 H1]. unfold take_token.
  set (x := refill rnd _ _ now b) in *. destruct (Qle_bool 1 x) eqn:E; cbn; [|done].
  apply Qle_bool_iff in E. split; [|done]. split; cbn.
  - change 0%Q with (inject_Z 0). apply rnd_ge; [lia|]. change (inject_Z 0) with 0%Q. lra.
  - apply rnd_le; [lia|]. lra.
Qed.

(** A bucket that has been idle long enough is full again, exactly. *)
Lemma refill_full k now b :
  0 <= k <= 2 ^ 20 -> k * 1000000000 <= now - last_refill b -> k * rate <= 2 ^ 53 ->
  bucket_ok b -> (inject_Z capacity <= tokens b + inject_Z (k * rate))%Q ->
  refill rnd (inject_Z rate) (inject_Z capacity) now b = inject_Z capacity.
Proof.
  intros Hk Hidle Hkr [H0 _] Hfull. unfold refill, std_min.
  destruct (Qle_bool _ _) eqn:E; [done|]. exfalso.
  assert (~ (inject_Z capacity <= rnd (tokens b +
    rnd (duration_double rnd (now - last_refill b) * inject_Z rate)))%Q) as Hn
    by (rewrite <- Qle_bool_iff; congruence).
  apply Hn, rnd_ge; [lia|]. eapply Qle_trans; [exact Hfull|]. apply Qplus_le_r.
  apply rnd_ge; [nia|]. rewrite inject_Z_mult. apply Qmult_le_compat_r.
  - by apply duration_double_ge.
  - change 0%Q with (inject_Z 0). by rewrite <- Zle_Qle.
Qed.
End Tokens.

(** ** Shards and heap *)

Section Layout.
Context (hash : bytes -> Z).

Definition slookup (s : t) (ip : bytes) : option Z :=
  m ← shards s !! shard_for hash ip; m !! ip.

(** The pointers of a list of shard maps are distinct. *)
Definition distinct (maps : list (gmap bytes Z)) : Prop :=
  forall i j m1 m2 ip1 ip2 l,
    maps !! i = Some m1 -> maps !! j = Some m2 -> m1 !! ip1 = Some l -> m2 !! ip2 = Some l ->
    i = j /\ ip1 = ip2.

Record wf (s : t) : Prop := {
  wf_shards : length (shards s) = Z.to_nat NUM_SHARDS;
  wf_distinct : distinct (shards s);
  wf_alloc i m ip l : shards s !! i = Some m -> m !! ip = Some l -> l < next s
}.

Lemma shard_for_lt ip : (shard_for hash ip < Z.to_nat NUM_SHARDS)%nat.
Proof.
  unfold shard_for. pose proof (Z.mod_pos_bound (hash ip) NUM_SHARDS ltac:(done)). lia.
Qed.

Lemma wf_shard s ip : wf s -> exists m, shards s !! shard_for hash ip = Some m.
Proof. intros H. apply lookup_lt_is_Some. rewrite (wf_shards _ H). apply shard_for_lt. Qed.

Lemma slookup_shard s ip m :
  shards s !! shard_for hash ip = Some m -> slookup s ip = m !! ip.
Proof. unfold slookup. by intros ->. Qed.

Lemma slookup_inj s ip1 ip2 l :
  wf s -> slookup s ip1 = Some l -> slookup s ip2 = Some l -> ip1 = ip2.
Proof.
  intros H. destruct (wf_shard s ip1 H) as [m1 H1], (wf_shard s ip2 H) as [m2 H2].
  rewrite (slookup_shard _ _ _ H1), (slookup_shard _ _ _ H2). intros Hl1 Hl2.
  by destruct (wf_distinct _ H _ _ _ _ _ _ _ H1 H2 Hl1 Hl2).
Qed.

Lemma wf_init : wf init.
Proof.
  constructor; cbn.
  - apply length_replicate.
  - intros i j m1 m2 ip1 ip2 l [-> _]%lookup_replicate_1 _ H. by rewrite lookup_empty in H.
  - intros i m ip l [-> _]%lookup_replicate_1 H. by rewrite lookup_empty in H.
Qed.

Lemma foldr_delete_lookup {A} (h : gmap Z A) ls l :
  foldr delete h ls !! l = if decide (l ∈ ls) then None else h !! l.
Proof.
  induction ls as [|k ls IH]; cbn.
  - by rewrite decide_False by apply not_elem_of_nil.
  - destruct (decide (l = k)) as [->|Hne].
    + rewrite lookup_delete_eq, decide_True; [done|apply elem_of_cons; by left].
    + rewrite lookup_delete_ne, IH by done.
      destruct (decide (l ∈ ls)) as [Hin|Hin].
      * by rewrite decide_True by (apply elem_of_cons; by right).
      * rewrite decide_False; [done|]. by intros [?|?]%elem_of_cons.
Qed.

Definition freed (now max_idle : Z) (h : gmap Z Bucket) (maps : list (gmap bytes Z)) (l : Z) : Prop :=
  stale_at now max_idle h l = true /\
  exists i m ip, maps !! i = Some m /\ m !! ip = Some l.

(** One shard: the stale buckets it points to are freed, with their entries. *)
Lemma sweep_shard_heap now max_idle h m l :
  (stale_at now max_idle h l = true -> (exists ip, m !! ip = Some l) ->
   (sweep_shard now max_idle h m).2 !! l = None) /\
  (stale_at now max_idle h l = false \/ ~ (exists ip, m !! ip = Some l) ->
   (sweep_shard now max_idle h m).2 !! l = h !! l).
Proof.
  cbn. rewrite foldr_delete_lookup.
  assert (l ∈ filter (fun bucket => stale_at now max_idle h bucket = true) (map_to_list m).*2 <->
    stale_at now max_idle h l = true /\ exists ip, m !! ip = Some l) as Hin.
  { rewrite list_elem_of_filter, list_elem_of_fmap. f_equiv. split.
    - intros ([ip l'] & -> & H%elem_of_map_to_list). by exists ip.
    - intros [ip H]. exists (ip, l). split; [done|]. by apply elem_of_map_to_list. }
  split.
  - intros. by rewrite decide_True by by apply Hin.
  - intros H. rewrite decide_False; [done|]. intros [Hs He]%Hin. destruct H; [congruence|done].
Qed.

Lemma sweep_shards_spec now max_idle h maps maps' h' :
  distinct maps -> sweep_shards now max_idle h maps = (maps', h') ->
  maps' = (filter (fun e => stale_at now max_idle h e.2 = false) : gmap bytes Z -> gmap bytes Z) <$> maps /\
  (forall l, freed now max_idle h maps l -> h' !! l = None) /\
  (forall l, ~ freed now max_idle h maps l -> h' !! l = h !! l).
Proof.
  revert h maps' h'. induction maps as [|m maps IH]; intros h maps' h' Hd.
  - intros [= <- <-]. split; [done|]. split; [|done]. intros l (_ & i & m & ip & H & _). done.
  - cbn [sweep_shards]. pose proof (sweep_shard_heap now max_idle h m) as Hh1.
    destruct (sweep_shard now max_idle h m) as [m' h1] eqn:E1. cbn in Hh1.
    destruct (sweep_shards now max_idle h1 maps) as [maps'' h2] eqn:E2. intros [= <- <-].
    apply IH in E2 as (-> & Hf & Hk).
    2:{ intros i j m1 m2 ip1 ip2 l H1 H2 H3 H4.
        destruct (Hd (S i) (S j) _ _ _ _ _ H1 H2 H3 H4). split; [lia|done]. }
    assert (forall i m0 ip l, maps !! i = Some m0 -> m0 !! ip = Some l ->
      h1 !! l = h !! l) as Hsame.
    { intros i m0 ip l H1 H2. apply Hh1. right. intros [ip' H3].
      by destruct (Hd (S i) 0%nat _ _ _ _ _ H1 eq_refl H2 H3). }
    split; [|split].
    + cbn. f_equal; [by injection E1|]. apply list_fmap_ext. intros i m0 Hi.
      apply map_filter_ext. intros ip l Hl. unfold stale_at. cbn. by rewrite (Hsame i m0 ip l).
    + intros l (Hs & [|i] & m0 & ip & Hi & Hl).
      * injection Hi as ->. assert (h1 !! l = None) as Hn by (apply Hh1; eauto).
        rewrite Hk; [done|]. intros (Hs' & _). unfold stale_at in Hs'. by rewrite Hn in Hs'.
      * apply Hf. split; [|by exists i, m0, ip]. unfold stale_at. by rewrite (Hsame i m0 ip l).
    + intros l Hnf. rewrite Hk.
      * apply Hh1. destruct (stale_at now max_idle h l) eqn:Hs; [right|by left].
        intros [ip Hip]. apply Hnf. split; [done|]. by exists 0%nat, m, ip.
      * intros (Hs & i & m0 & ip & Hi & Hl). apply Hnf. split; [|by exists (S i), m0, ip].
        unfold stale_at in *. by rewrite <- (Hsame i m0 ip l).
Qed.

(** The sweep as a whole. *)
Lemma sweep_stale_spec now max_idle s :
  wf s ->
  wf (sweep_stale now max_idle s) /\
  forall ip,
    match slookup s ip with
    | None => slookup (sweep_stale now max_idle s) ip = None
    | Some l =>
        if stale_at now max_idle (heap s) l
        then slookup (sweep_stale now max_idle s) ip = None /\
             heap (sweep_stale now max_idle s) !! l = None
        else slookup (sweep_stale now max_idle s) ip = Some l /\
             heap (sweep_stale now max_idle s) !! l = heap s !! l
    end.
Proof.
  intros Hwf. unfold sweep_stale.
  destruct (sweep_shards now max_idle (heap s) (shards s)) as [maps h] eqn:E.
  apply sweep_shards_spec in E as (-> & Hf & Hk); [|apply Hwf]. cbn [shards heap next].
  assert (forall i m ip l,
    ((filter (fun e => stale_at now max_idle (heap s) e.2 = false) : gmap bytes Z -> gmap bytes Z)
       <$> shards s) !! i = Some m -> m !! ip = Some l ->
    exists m0, shards s !! i = Some m0 /\ m0 !! ip = Some l) as Hsub.
  { intros i m ip l (m0 & -> & Hi)%list_lookup_fmap_Some Hl.
    exists m0. split; [done|]. by apply map_lookup_filter_Some in Hl as [? _]. }
  split.
  - constructor; cbn [shards heap next].
    + by rewrite length_fmap, (wf_shards _ Hwf).
    + intros i j m1 m2 ip1 ip2 l H1 H2 H3 H4.
      destruct (Hsub _ _ _ _ H1 H3) as (? & ? & ?), (Hsub _ _ _ _ H2 H4) as (? & ? & ?).
      by eapply (wf_distinct _ Hwf).
    + intros i m ip l H1 H2. destruct (Hsub _ _ _ _ H1 H2) as (? & ? & ?).
      by eapply (wf_alloc _ Hwf).
  - intros ip. destruct (wf_shard s ip Hwf) as [m Hm]. rewrite (slookup_shard _ _ _ Hm).
    unfold slookup. cbn [shards]. rewrite list_lookup_fmap, Hm. cbn [mbind option_bind fmap option_fmap option_map].
    destruct (m !! ip) as [l|] eqn:Hl.
    + destruct (stale_at now max_idle (heap s) l) eqn:Hs.
      * split; [|apply Hf; split; [done|by exists (shard_for hash ip), m, ip]].
        apply map_lookup_filter_None. right. intros l' Hl'. cbn. congruence.
      * split; [by apply map_lookup_filter_Some|]. apply Hk. intros [? _]. congruence.
    + apply map_lookup_filter_None. by left.
Qed.

(** A fresh pointer stored in one shard. *)
Lemma wf_add s i m ip h :
  wf s -> shards s !! i = Some m ->
  wf {| shards := <[i := <[ip := next s]> m]> (shards s); heap := h; next := next s + 1 |}.
Proof.
  intros Hwf Hi.
  assert (forall j m' ip' l, <[i := <[ip := next s]> m]> (shards s) !! j = Some m' -> m' !! ip' = Some l ->
    (j = i /\ ip' = ip /\ l = next s) \/ exists m0, shards s !! j = Some m0 /\ m0 !! ip' = Some l) as Hnew.
  { intros j m' ip' l. destruct (decide (j = i)) as [->|Hj].
    - rewrite list_lookup_insert_eq by by eapply lookup_lt_Some. intros [= <-].
      destruct (decide (ip' = ip)) as [->|Hip].
      + rewrite lookup_insert_eq. intros [= <-]. by left.
      + rewrite lookup_insert_ne by done. right. by exists m.
    - rewrite list_lookup_insert_ne by done. right. by exists m'. }
  constructor; cbn [shards next].
  - by rewrite length_insert, (wf_shards _ Hwf).
  - intros j k m1 m2 ip1 ip2 l H1 H2 H3 H4.
    destruct (Hnew _ _ _ _ H1 H3) as [(-> & -> & ->)|(m3 & H5 & H6)];
      destruct (Hnew _ _ _ _ H2 H4) as [(-> & -> & ?)|(m4 & H7 & H8)]; try done.
    + pose proof (wf_alloc _ Hwf _ _ _ _ H7 H8). lia.
    + pose proof (wf_alloc _ Hwf _ _ _ _ H5 H6). lia.
    + by eapply (wf_distinct _ Hwf).
  - intros j m' ip' l H1 H2. destruct (Hnew _ _ _ _ H1 H2) as [(-> & -> & ->)|(m3 & H5 & H6)]; [lia|].
    pose proof (wf_alloc _ Hwf _ _ _ _ H5 H6). lia.
Qed.
End Layout.

(** ** The refinement *)

Section Refinement.
Context (rnd : Q -> Q) `{!Rounding rnd} (hash : bytes -> Z) (rate capacity : Z).
Context (Hcap : 1 <= capacity <= 2 ^ 53).
(** [MAX_IDLE] seconds refill a bucket. *)
Context (Hrate : capacity <= MAX_IDLE * rate <= 2 ^ 53).

#[local] Abbreviation run := (run rnd hash (inject_Z rate) (inject_Z capacity)).
#[local] Abbreviation flat_run := (flat_run rnd (inject_Z rate) (inject_Z capacity)).
#[local] Abbreviation take := (take_token rnd (inject_Z rate) (inject_Z capacity)).

(** An address is known to the limiter with the bucket of the specification,
    or its bucket was swept because it was idle for more than [MAX_IDLE]. *)
Definition repr_ip (now : Z) (s : t) (f : gmap bytes Bucket) (ip : bytes) : Prop :=
  match f !! ip with
  | None => slookup hash s ip = None
  | Some b =>
      bucket_ok capacity b /\ last_refill b <= now /\
      match slookup hash s ip with
      | Some l => heap s !! l = Some b
      | None => last_refill b + MAX_IDLE * 1000000000 <= now
      end
  end.

Definition repr (now : Z) (s : t) (f : gmap bytes Bucket) : Prop :=
  wf s /\ forall ip, repr_ip now s f ip.

Lemma rate_nonneg : 0 <= rate.
Proof. unfold MAX_IDLE in *. lia. Qed.

Lemma repr_initial now : repr now init ∅.
Proof.
  split; [apply wf_init|]. intros ip. unfold repr_ip. rewrite lookup_empty.
  destruct (wf_shard hash init ip wf_init) as [m Hm]. rewrite (slookup_shard _ _ _ _ Hm).
  apply lookup_replicate_1 in Hm as [-> _]. apply lookup_empty.
Qed.

Lemma fresh_ok now : bucket_ok capacity {| tokens := inject_Z capacity; last_refill := now |}.
Proof.
  split; cbn; [|apply Qle_refl]. change 0%Q with (inject_Z 0). rewrite <- Zle_Qle. lia.
Qed.

(** A bucket created anew behaves as the one that was swept. *)
Lemma take_fresh now now1 now2 b :
  now <= now1 -> now1 <= now2 -> bucket_ok capacity b ->
  last_refill b + MAX_IDLE * 1000000000 <= now ->
  take now2 {| tokens := inject_Z capacity; last_refill := now1 |} = take now2 b.
Proof.
  intros H1 H2 Hb Hidle. pose proof rate_nonneg as Hr. unfold take_token.
  rewrite (refill_full rnd rate capacity Hcap Hr MAX_IDLE now2 b),
    (refill_full rnd rate capacity Hcap Hr 0 now2 _); unfold MAX_IDLE in *; cbn [last_refill tokens]; try lia; try done.
  - apply fresh_ok.
  - rewrite Z.mul_0_l. change (inject_Z 0) with 0%Q. lra.
  - destruct Hb. assert (inject_Z capacity <= inject_Z (300 * rate))%Q by (rewrite <- Zle_Qle; lia). lra.
Qed.

Lemma find_or_create_spec now1 ip s :
  wf s ->
  let '(l, s1) := find_or_create hash (inject_Z capacity) now1 ip s in
  wf s1 /\ slookup hash s1 ip = Some l /\
  (forall ip', ip' <> ip -> slookup hash s1 ip' = slookup hash s ip') /\
  (forall ip' l', slookup hash s ip' = Some l' -> heap s1 !! l' = heap s !! l') /\
  (slookup hash s ip = Some l \/
   slookup hash s ip = None /\
   heap s1 !! l = Some {| tokens := inject_Z capacity; last_refill := now1 |}).
Proof.
  intros Hwf. destruct (wf_shard hash s ip Hwf) as [m Hm].
  pose proof (slookup_shard _ _ _ _ Hm) as Hl. unfold find_or_create. rewrite Hm. cbn [default from_option].
  rewrite Hl. destruct (m !! ip) as [l|] eqn:Hip; cbn; rewrite ?Hip; [by auto 10|].
  assert (forall ip' l', slookup hash s ip' = Some l' -> l' <> next s) as Hfresh.
  { intros ip' l' H. destruct (wf_shard hash s ip' Hwf) as [m' Hm'].
    rewrite (slookup_shard _ _ _ _ Hm') in H. pose proof (wf_alloc _ Hwf _ _ _ _ Hm' H). lia. }
  split; [by apply wf_add|]. split; [|split; [|split; [|right; split; [done|apply lookup_insert_eq]]]].
  - unfold slookup. cbn [shards]. rewrite list_lookup_insert_eq by by eapply lookup_lt_Some.
    apply lookup_insert_eq.
  - intros ip' Hne. unfold slookup. cbn [shards].
    destruct (decide (shard_for hash ip' = shard_for hash ip)) as [->|Hj].
    + rewrite list_lookup_insert_eq by by eapply lookup_lt_Some. rewrite Hm. by apply lookup_insert_ne.
    + by rewrite list_lookup_insert_ne.
  - intros ip' l' H. cbn [heap]. apply lookup_insert_ne. symmetry. by eapply Hfresh.
Qed.

Lemma allow_step now now1 now2 ip s f :
  repr now s f -> now <= now1 -> now1 <= now2 ->
  let '(ok, f') := flat_allow rnd (inject_Z rate) (inject_Z capacity) now1 now2 ip f in
  exists s', allow rnd hash (inject_Z rate) (inject_Z capacity) now1 now2 ip s = Some (ok, s') /\
             repr now2 s' f'.
Proof.
  intros [Hwf Hr] H1 H2. unfold allow, flat_allow, refill_consume.
  pose proof (find_or_create_spec now1 ip s Hwf) as Hf.
  destruct (find_or_create _ _ now1 ip s) as [l s1]. destruct Hf as (Hwf1 & Hl & Hne & Hheap & Hcase).
  set (b0 := default _ (f !! ip)).
  assert (exists b, heap s1 !! l = Some b /\ take now2 b = take now2 b0 /\ bucket_ok capacity b0 /\
    last_refill b0 <= now2) as (b & Hb & Htake & Hok & Hlast).
  { specialize (Hr ip). unfold repr_ip in Hr. subst b0. destruct (f !! ip) as [b|]; cbn [default from_option id].
    - destruct Hr as (Hok & Hlast & Hs). destruct Hcase as [Hs0|[Hs0 Hnew]]; rewrite Hs0 in Hs.
      + exists b. rewrite (Hheap ip l Hs0). split_and!; [done..|lia].
      + eexists. split; [exact Hnew|]. split; [by eapply take_fresh|]. split; [done|lia].
    - destruct Hcase as [Hs0|[Hs0 Hnew]]; [congruence|]. eexists. split; [exact Hnew|].
      split; [done|]. split; [apply fresh_ok|cbn; lia]. }
  rewrite Hb. cbn [mbind option_bind]. rewrite Htake.
  pose proof (take_token_ok rnd rate capacity Hcap rate_nonneg now2 b0 Hok Hlast) as [Hok' Hlast'].
  destruct (take now2 b0) as [ok b']. cbn [fst snd] in *. eexists. split; [done|]. split.
  { constructor; apply Hwf1. }
  intros ip'. unfold repr_ip. destruct (decide (ip' = ip)) as [->|Hip].
  - rewrite lookup_insert_eq. split; [done|]. split; [lia|].
    change (slookup hash (mk (shards s1) _ _) ip) with (slookup hash s1 ip). rewrite Hl. cbn [heap].
    apply lookup_insert_eq.
  - rewrite lookup_insert_ne by done.
    change (slookup hash (mk (shards s1) _ _) ip') with (slookup hash s1 ip'). rewrite (Hne ip' Hip).
    specialize (Hr ip'). unfold repr_ip in Hr. destruct (f !! ip') as [b1|]; [|done].
    destruct Hr as (? & ? & Hs). split; [done|]. split; [lia|].
    destruct (slookup hash s ip') as [l'|] eqn:Hl'; [|lia]. cbn [heap].
    rewrite lookup_insert_ne, (Hheap ip' l' Hl'); [done|]. intros ->.
    apply Hip, (slookup_inj hash s1 ip' ip l' Hwf1); [|done]. by rewrite Hne.
Qed.

Lemma sweep_step now now' s f :
  repr now s f -> now <= now' -> repr now' (sweep_stale now' MAX_IDLE s) f.
Proof.
  intros [Hwf Hr] Hnow. destruct (sweep_stale_spec hash now' MAX_IDLE s Hwf) as [Hwf' Hs].
  split; [done|]. intros ip. specialize (Hr ip). specialize (Hs ip). unfold repr_ip in *.
  destruct (f !! ip) as [b|]; [|by rewrite Hr in Hs].
  destruct Hr as (Hok & Hlast & Hl). split; [done|]. split; [lia|].
  destruct (slookup hash s ip) as [l|]; [|rewrite Hs; lia].
  destruct (stale_at now' MAX_IDLE (heap s) l) eqn:Hst; destruct Hs as [-> Hh]; [|by rewrite Hh].
  unfold stale_at, stale in Hst. rewrite Hl in Hst. cbn in Hst. apply Z.ltb_lt in Hst.
  unfold MAX_IDLE in *. pose proof (Z.quot_rem' (now' - last_refill b) 1000000).
  pose proof (Z.rem_bound_pos (now' - last_refill b) 1000000 ltac:(lia) ltac:(lia)). lia.
Qed.

Lemma run_step ops now s f :
  repr now s f -> clocked now ops ->
  exists s', run ops s = Some ((flat_run ops f).1, s') /\ repr (last_time now ops) s' (flat_run ops f).2.
Proof.
  revert now s f; induction ops as [|[now1 now2 ip|now1] ops IH]; intros now s f Hr; cbn.
  - intros _. by exists s.
  - intros (H1 & H2 & Hc). pose proof (allow_step now now1 now2 ip s f Hr H1 H2) as Ha.
    destruct (flat_allow _ _ _ now1 now2 ip f) as [ok f1]. destruct Ha as (s1 & -> & Hr1). cbn.
    destruct (IH now2 s1 f1 Hr1 Hc) as (s' & -> & Hr'). exists s'. cbn.
    by destruct (flat_run ops f1).
  - intros (H1 & Hc). apply (IH now1); [by apply (sweep_step now)|done].
Qed.

(** C12: Sharding, heap buckets and sweeping are invisible: for any hash
    function and any calls at monotone times, the limiter never touches a freed
    bucket and answers exactly as the flat map of buckets that is never swept,
    provided [MAX_IDLE] seconds refill a bucket. *)
Theorem sharded_refines_flat (ops : list op) (t0 : Z) :
  clocked t0 ops ->
  exists s', run ops init = Some ((flat_run ops ∅).1, s').
Proof.
  intros Hc. destruct (run_step ops t0 init ∅ (repr_initial t0) Hc) as (s' & Hrun & _). by exists s'.
Qed.

(** After any calls at monotone times, every pointer stored in a shard
    leads to a live bucket that holds between 0 and [capacity_] tokens and was
    last refilled at a time already past, whatever the rounding. *)
Lemma tokens_bounded (ops : list op) (t0 : Z) answers s ip l :
  clocked t0 ops -> run ops init = Some (answers, s) -> slookup hash s ip = Some l ->
  exists b, heap s !! l = Some b /\ (0 <= tokens b <= inject_Z capacity)%Q /\
            last_refill b <= last_time t0 ops.
Proof.
  intros Hc Hrun Hl. destruct (run_step ops t0 init ∅ (repr_initial t0) Hc) as (s' & E & _ & Hr).
  rewrite Hrun in E. injection E as -> ->. specialize (Hr ip). unfold repr_ip in Hr. rewrite Hl in Hr.
  destruct ((flat_run ops ∅).2 !! ip) as [b|]; [|done]. destruct Hr as (? & ? & ?). by exists b.
Qed.
End Refinement.

(** ** The rate *)

Section Rate.
Context (rnd : Q -> Q) `{!Rounding rnd} (u eta : Q) `{!Accurate rnd u eta}.
Context (rate capacity : Z) (Hcap : 1 <= capacity <= 2 ^ 53) (Hrate : 0 <= rate).

#[local] Abbreviation flat_run := (flat_run rnd (inject_Z rate) (inject_Z capacity)).

(** The tokens earned in [ns] nanoseconds: four of the operations of a refill
    scale with the time, and each may be off by the factor [1 + u]. *)
Definition earned (ns : Z) : Q :=
  (inject_Z ns * (inject_Z rate / inject_Z 1000000000 * (1 + u) ^ 4))%Q.

(** What the rounding of one call may add besides. *)
Definition call_error : Q :=
  (2 * inject_Z capacity * u +
   eta * (((1 + u) / inject_Z 1000000000 + 1) * inject_Z rate * (1 + u) ^ 2 + (1 + u) + 2))%Q.

Lemma earned_add a b : (earned (a + b) == earned a + earned b)%Q.
Proof. unfold earned. rewrite inject_Z_plus. ring. Qed.

Lemma inject_Z_nonneg n : 0 <= n -> (0 <= inject_Z n)%Q.
Proof. intros H. change 0%Q with (inject_Z 0). by rewrite <- Zle_Qle. Qed.

Lemma earned_nonneg a : 0 <= a -> (0 <= earned a)%Q.
Proof.
  intros Ha. pose proof (inject_Z_nonneg _ Ha). pose proof (inject_Z_nonneg _ Hrate).
  pose proof (acc_u (rnd := rnd)). unfold earned.
  apply Qmult_le_0_compat; [done|]. apply Qmult_le_0_compat.
  - apply Qmult_le_0_compat; [done|]. by vm_compute.
  - cbn. repeat apply Qmult_le_0_compat; lra.
Qed.

Lemma std_min_le_r a b : (std_min a b <= b)%Q.
Proof.
  unfold std_min. destruct (Qle_bool a b) eqn:E; [by apply Qle_bool_iff|apply Qle_refl].
Qed.

(** The elapsed time, in seconds, is over-estimated by two roundings. *)
Lemma duration_double_high ns :
  0 <= ns ->
  (0 <= duration_double rnd ns <=
   inject_Z ns / inject_Z 1000000000 * (1 + u) ^ 2 + eta * ((1 + u) / inject_Z 1000000000 + 1))%Q.
Proof.
  intros Hns. split; [apply (duration_double_ge rnd 0); lia|].
  pose proof (acc_u (rnd := rnd)). pose proof (acc_eta (rnd := rnd)).
  pose proof (inject_Z_nonneg _ Hns). unfold duration_double.
  pose proof (acc_high (rnd := rnd) (inject_Z ns) ltac:(done)) as Hx1.
  assert (0 <= rnd (inject_Z ns))%Q as Hx2 by (by apply (rnd_ge rnd 0)).
  assert (0 <= rnd (inject_Z ns) / inject_Z 1000000000)%Q as Hx3
    by (apply Qmult_le_0_compat; [done|by vm_compute]).
  pose proof (acc_high (rnd := rnd) _ Hx3) as Hx4. eapply Qle_trans; [exact Hx4|].
  apply Qle_trans with ((inject_Z ns * (1 + u) + eta) / inject_Z 1000000000 * (1 + u) + eta)%Q.
  - apply Qplus_le_compat; [|apply Qle_refl]. apply Qmult_le_compat_r; [|lra].
    apply Qmult_le_compat_r; [done|by vm_compute].
  - apply Qle_lteq. right. field.
Qed.

(** A refill adds what the time since the last one has earned. *)
Lemma refill_high now b :
  bucket_ok capacity b -> last_refill b <= now ->
  (refill rnd (inject_Z rate) (inject_Z capacity) now b + inject_Z capacity * u + eta <=
   tokens b + earned (now - last_refill b) + call_error)%Q.
Proof.
  intros [Hb0 Hb1] Hnow. unfold refill.
  pose proof (acc_u (rnd := rnd)) as Hu. pose proof (acc_eta (rnd := rnd)).
  pose proof (duration_double_high (now - last_refill b) ltac:(lia)) as [Hd0 Hd1].
  pose proof (inject_Z_nonneg _ Hrate) as Hr.
  set (d := duration_double rnd (now - last_refill b)) in *.
  assert (0 <= d * inject_Z rate)%Q as Hx by by apply Qmult_le_0_compat.
  pose proof (acc_high (rnd := rnd) _ Hx) as Hx1.
  assert (0 <= rnd (d * inject_Z rate))%Q as Hx2 by (by apply (rnd_ge rnd 0)).
  set (y := rnd (d * inject_Z rate)) in *.
  pose proof (acc_high (rnd := rnd) (tokens b + y) ltac:(lra)) as Hx3.
  eapply Qle_trans; [apply Qplus_le_compat; [apply Qplus_le_compat; [apply std_min_le_r|]|]; apply Qle_refl|].
  assert (tokens b * u <= inject_Z capacity * u)%Q as Hc by by apply Qmult_le_compat_r.
  assert (y * (1 + u) <= (d * inject_Z rate * (1 + u) + eta) * (1 + u))%Q as Hy
    by (apply Qmult_le_compat_r; [done|lra]).
  assert (d * (inject_Z rate * (1 + u) ^ 2) <=
    (inject_Z (now - last_refill b) / inject_Z 1000000000 * (1 + u) ^ 2 +
     eta * ((1 + u) / inject_Z 1000000000 + 1)) * (inject_Z rate * (1 + u) ^ 2))%Q as Hd.
  { apply Qmult_le_compat_r; [done|]. cbn. repeat apply Qmult_le_0_compat; lra. }
  unfold earned, call_error.
  assert (inject_Z (now - last_refill b) * (inject_Z rate / inject_Z 1000000000 * (1 + u) ^ 4) ==
    inject_Z (now - last_refill b) / inject_Z 1000000000 * (1 + u) ^ 2 * (inject_Z rate * (1 + u) ^ 2))%Q as ->
    by field.
  lra.
Qed.

(** A grant is paid for by the tokens. *)
Lemma take_token_pays now b ok b' :
  bucket_ok capacity b -> last_refill b <= now ->
  take_token rnd (inject_Z rate) (inject_Z capacity) now b = (ok, b') ->
  (tokens b' + inject_Z (Z.b2z ok) <= tokens b + earned (now - last_refill b) + call_error)%Q /\
  (tokens b' + inject_Z (Z.b2z ok) <= inject_Z capacity + call_error)%Q.
Proof.
  intros Hb Hnow. pose proof (refill_high now b Hb Hnow) as Hh.
  pose proof (refill_bounds rnd rate capacity Hcap Hrate now b Hb Hnow) as [_ Hm]. revert Hh Hm.
  unfold take_token. set (x := refill _ _ _ now b). intros Hh Hm.
  pose proof (acc_u (rnd := rnd)). pose proof (acc_eta (rnd := rnd)).
  assert (0 <= inject_Z capacity * u)%Q by (apply Qmult_le_0_compat; [apply inject_Z_nonneg; lia|done]).
  assert (inject_Z capacity * u + eta <= call_error)%Q.
  { unfold call_error. 
    assert (0 <= eta * (((1 + u) / inject_Z 1000000000 + 1) * inject_Z rate * (1 + u) ^ 2 + (1 + u) + 1))%Q; [|lra].
    apply Qmult_le_0_compat; [done|].
    assert (0 <= ((1 + u) / inject_Z 1000000000 + 1) * inject_Z rate * (1 + u) ^ 2)%Q; [|lra].
    assert (0 <= (1 + u) / inject_Z 1000000000)%Q by (apply Qmult_le_0_compat; [lra|by vm_compute]).
    pose proof (inject_Z_nonneg _ Hrate). cbn. repeat apply Qmult_le_0_compat; lra. }
  destruct (Qle_bool 1 x) eqn:E; intros [= <- <-]; cbn [tokens Z.b2z].
  - apply Qle_bool_iff in E. pose proof (acc_high (rnd := rnd) (x - 1) ltac:(lra)).
    assert ((x - 1) * u <= inject_Z capacity * u)%Q by (apply Qmult_le_compat_r; [lra|done]).
    change (inject_Z 1) with 1%Q. lra.
  - change (inject_Z 0) with 0%Q. lra.
Qed.

(** The calls for one address, and the grants. *)
Fixpoint calls (ip : bytes) (ops : list op) : Z :=
  match ops with
  | [] => 0
  | Allow _ _ ip' :: ops' => (if decide (ip' = ip) then 1 else 0) + calls ip ops'
  | Sweep _ :: ops' => calls ip ops'
  end.

Definition granted (ip : bytes) (answers : list (bytes * bool)) : Z :=
  count (fun a => bool_decide (a = (ip, true))) answers.

Lemma granted_nil ip : granted ip [] = 0.
Proof. done. Qed.

Lemma granted_cons ip ip' ok answers :
  granted ip ((ip', ok) :: answers) =
  (if decide (ip' = ip) then Z.b2z ok else 0) + granted ip answers.
Proof.
  unfold granted. cbn. f_equal.
  destruct ok, (decide (ip' = ip)) as [->|Hne]; cbn; case_bool_decide; naive_solver.
Qed.

#[local] Arguments granted : simpl never.

Lemma grants_paid ops f ip b now :
  f !! ip = Some b -> last_refill b <= now -> clocked now ops ->
  bucket_ok capacity b ->
  (inject_Z (granted ip (flat_run ops f).1) <=
   tokens b + earned (last_time now ops - last_refill b) + inject_Z (calls ip ops) * call_error)%Q.
Proof.
  revert f b now; induction ops as [|[now1 now2 ip'|now1] ops IH]; intros f b now Hf Hnow; cbn.
  - intros _ [H0 _]. rewrite granted_nil. change (inject_Z 0) with 0%Q.
    pose proof (earned_nonneg (now - last_refill b) ltac:(lia)). lra.
  - intros (H1 & H2 & Hc) Hok. unfold flat_allow. destruct (decide (ip' = ip)) as [->|Hne].
    + rewrite Hf. cbn [default from_option id].
      pose proof (take_token_ok rnd rate capacity Hcap Hrate now2 b Hok ltac:(lia)) as [Hok' Hlast].
      destruct (take_token _ _ _ now2 b) as [ok b'] eqn:E. cbn in Hok', Hlast.
      apply take_token_pays in E as [Hpay _]; [|done|lia].
      specialize (IH (<[ip := b']> f) b' now2 (lookup_insert_eq _ _ _) ltac:(lia) Hc Hok').
      destruct (flat_run ops _) as [answers f']. cbn in *. rewrite granted_cons, decide_True by done.
      rewrite !inject_Z_plus, Hlast in *.
      replace (last_time now2 ops - last_refill b) with ((last_time now2 ops - now2) + (now2 - last_refill b)) by lia.
      rewrite earned_add. change (inject_Z 1) with 1%Q. lra.
    + destruct (take_token _ _ _ now2 _) as [ok b'].
      specialize (IH (<[ip' := b']> f) b now2). rewrite lookup_insert_ne in IH by done.
      specialize (IH Hf ltac:(lia) Hc Hok). destruct (flat_run ops _) as [answers f']. cbn in *.
      by rewrite granted_cons, decide_False.
  - intros (H1 & Hc) Hok. by apply (IH f b now1); [|lia|..].
Qed.

Lemma grants_window ops f ip now :
  (forall b, f !! ip = Some b -> bucket_ok capacity b /\ last_refill b <= now) -> clocked now ops ->
  (inject_Z (granted ip (flat_run ops f).1) <=
   inject_Z capacity + earned (last_time now ops - now) + inject_Z (calls ip ops) * call_error)%Q.
Proof.
  revert f now; induction ops as [|[now1 now2 ip'|now1] ops IH]; intros f now Hf; cbn.
  - intros _. rewrite granted_nil. change (inject_Z 0) with 0%Q.
    pose proof (earned_nonneg (now - now) ltac:(lia)).
    pose proof (inject_Z_nonneg capacity ltac:(lia)). lra.
  - intros (H1 & H2 & Hc). unfold flat_allow. set (b0 := default _ (f !! ip')).
    pose proof (last_time_ge _ _ Hc). pose proof (earned_nonneg (now2 - now) ltac:(lia)).
    replace (last_time now2 ops - now) with ((last_time now2 ops - now2) + (now2 - now)) by lia.
    destruct (take_token _ _ _ now2 b0) as [ok b'] eqn:E. destruct (decide (ip' = ip)) as [->|Hne].
    + assert (bucket_ok capacity b0 /\ last_refill b0 <= now2) as [Hok Hlast].
      { subst b0. destruct (f !! ip) as [b|] eqn:Hb; cbn [default from_option id].
        - destruct (Hf b eq_refl). split; [done|lia].
        - split; [by apply fresh_ok|cbn; lia]. }
      pose proof (take_token_ok rnd rate capacity Hcap Hrate now2 b0 Hok Hlast) as [Hok' Hlast'].
      rewrite E in Hok', Hlast'. cbn in Hok', Hlast'. apply take_token_pays in E as [_ Hpay]; [|done..].
      pose proof (grants_paid ops (<[ip := b']> f) ip b' now2 (lookup_insert_eq _ _ _) ltac:(lia) Hc Hok') as Hp.
      destruct (flat_run ops _) as [answers f']. cbn in *. rewrite granted_cons, decide_True by done.
      rewrite !inject_Z_plus, Hlast', earned_add in *. change (inject_Z 1) with 1%Q. lra.
    + specialize (IH (<[ip' := b']> f) now2). rewrite lookup_insert_ne in IH by done.
      destruct (flat_run ops _) as [answers f']. cbn in *.
      rewrite granted_cons, decide_False, earned_add by done.
      specialize (IH ltac:(intros b Hb; destruct (Hf b Hb); split; [done|lia]) Hc).
      rewrite !Z.add_0_l. lra.
  - intros (H1 & Hc). pose proof (earned_nonneg (now1 - now) ltac:(lia)).
    replace (last_time now1 ops - now) with ((last_time now1 ops - now1) + (now1 - now)) by lia.
    rewrite earned_add. specialize (IH f now1 ltac:(intros b Hb; destruct (Hf b Hb); split; [done|lia]) Hc).
    lra.
Qed.

Lemma window_bound (hash : bytes -> Z) (Hfull : capacity <= MAX_IDLE * rate <= 2 ^ 53)
    (pre win : list op) (t0 ta tb : Z) (ip : bytes) a0 s answers s' :
  clocked t0 pre -> last_time t0 pre <= ta -> clocked ta win -> last_time ta win <= tb ->
  run rnd hash (inject_Z rate) (inject_Z capacity) pre init = Some (a0, s) ->
  run rnd hash (inject_Z rate) (inject_Z capacity) win s = Some (answers, s') ->
  (inject_Z (granted ip answers) <=
   inject_Z capacity + earned (tb - ta) + inject_Z (calls ip win) * call_error)%Q.
Proof.
  intros Hc0 Hta Hc Htb Hr0 Hr.
  destruct (run_step rnd hash rate capacity Hcap Hfull pre t0 init ∅ (repr_initial hash capacity t0) Hc0) as (s1 & E1 & Hrep).
  rewrite Hr0 in E1. injection E1 as -> ->.
  destruct (run_step rnd hash rate capacity Hcap Hfull win _ s1 _ Hrep (clocked_mono _ _ _ Hta Hc)) as (s2 & E2 & _).
  rewrite Hr in E2. injection E2 as -> ->.
  pose proof (grants_window win (flat_run pre ∅).2 ip ta) as Hw.
  pose proof (earned_nonneg (tb - last_time ta win) ltac:(lia)).
  replace (tb - ta) with ((last_time ta win - ta) + (tb - last_time ta win)) by lia.
  rewrite earned_add. apply Hw in Hc; [lra|]. intros b Hb. destruct Hrep as [_ Hrep].
  specialize (Hrep ip). unfold repr_ip in Hrep. rewrite Hb in Hrep. destruct Hrep as (? & ? & _).
  split; [done|lia].
Qed.

(** C13: The rate is enforced in floating point.  Let the rounding have relative
    error [u] and absolute error [eta].  In any window of a run, with sharding
    and sweeps included, the limiter grants an address at most [capacity_]
    requests, plus [rate_] per second of the window times [(1 + u)^4], plus
    [call_error] for each of its calls in the window, which is about
    [2 * capacity_ * u]. *)
Theorem rate_bound (hash : bytes -> Z) (Hfull : capacity <= MAX_IDLE * rate <= 2 ^ 53)
    (pre win : list op) (t0 ta tb : Z) (ip : bytes) a0 s answers s' :
  clocked t0 pre -> last_time t0 pre <= ta -> clocked ta win -> last_time ta win <= tb ->
  run rnd hash (inject_Z rate) (inject_Z capacity) pre init = Some (a0, s) ->
  run rnd hash (inject_Z rate) (inject_Z capacity) win s = Some (answers, s') ->
  (inject_Z (granted ip answers) <=
   inject_Z capacity +
   inject_Z rate * (inject_Z (tb - ta) / inject_Z 1000000000) * (1 + u) ^ 4 +
   inject_Z (calls ip win) * call_error)%Q.
Proof.
  intros Hc0 Hta Hc Htb Hr0 Hr.
  eapply Qle_trans; [by eapply (window_bound hash Hfull pre win t0 ta tb)|].
  apply Qle_lteq. right. unfold earned. field.
Qed.
End Rate.

(** With double rounding and the limits of [EventLoop], a call adds less than
    10^-14 of a request. *)
Lemma call_error_double : (call_error (1 # 2 ^ 53) (1 # 2 ^ 1075) 10 20 < 1 # 100000000000000)%Q.
Proof. by vm_compute. Qed.

(** Without rounding errors the bound is exact. *)
Lemma rate_bound_exact (rate capacity : Z) (hash : bytes -> Z)
    (Hcap : 1 <= capacity <= 2 ^ 53) (Hrate : 0 <= rate) (Hfull : capacity <= MAX_IDLE * rate <= 2 ^ 53)
    (pre win : list op) (t0 ta tb : Z) (ip : bytes) a0 s answers s' :
  clocked t0 pre -> last_time t0 pre <= ta -> clocked ta win -> last_time ta win <= tb ->
  run id hash (inject_Z rate) (inject_Z capacity) pre init = Some (a0, s) ->
  run id hash (inject_Z rate) (inject_Z capacity) win s = Some (answers, s') ->
  1000000000 * granted ip answers <= 1000000000 * capacity + rate * (tb - ta).
Proof.
  intros Hc0 Hta Hc Htb Hr0 Hr.
  pose proof (window_bound id 0 0 rate capacity Hcap Hrate hash Hfull pre win t0 ta tb ip
    a0 s answers s' Hc0 Hta Hc Htb Hr0 Hr) as Hq.
  assert (call_error 0 0 rate capacity == 0)%Q as E by (unfold call_error; field). rewrite E in Hq.
  rewrite Zle_Qle, inject_Z_plus, !inject_Z_mult.
  assert (inject_Z rate * inject_Z (tb - ta) == inject_Z 1000000000 * earned 0 rate (tb - ta))%Q as ->
    by (unfold earned; field).
  change (inject_Z 1000000000) with (1000000000 # 1)%Q. lra.
Qed.

(** C38: The comment in [allow] that its pointer stays valid after the shard
    lock is released does not hold: if a sweep that finds the bucket idle runs
    between the two steps, step 2 locks and updates a freed bucket. *)
Theorem sweep_frees_bucket_in_use (rnd : Q -> Q) (hash : bytes -> Z) (rate_ capacity_ : Q)
    (s : t) (ip : bytes) (l : Z) (b : Bucket) (now1 now now2 : Z) :
  wf s -> slookup hash s ip = Some l -> heap s !! l = Some b -> stale now MAX_IDLE b = true ->
  let '(bucket, s1) := find_or_create hash capacity_ now1 ip s in
  refill_consume rnd rate_ capacity_ now2 bucket (sweep_stale now MAX_IDLE s1) = None.
Proof.
  intros Hwf Hl Hb Hst. unfold find_or_create.
  destruct (wf_shard hash s ip Hwf) as [m Hm]. pose proof (slookup_shard _ _ _ _ Hm) as Hm'.
  rewrite Hl in Hm'. rewrite Hm. cbn [default from_option id]. rewrite <- Hm'.
  destruct (sweep_stale_spec hash now MAX_IDLE s Hwf) as [_ Hs]. specialize (Hs ip). rewrite Hl in Hs.
  unfold stale_at in Hs. rewrite Hb in Hs. cbn [from_option] in Hs. rewrite Hst in Hs.
  destruct Hs as [_ Hs]. unfold refill_consume. by rewrite Hs.
Qed.

(** ** Witnesses: the limiter of [EventLoop], 10 requests a second, bursts of 20 *)

Definition two_calls : list op :=
  [Allow 0 5 (bs "10.0.0.1"); Sweep 400000000000; Allow 400000000001 400000000002 (bs "10.0.0.1")].

Lemma sharded_refines_flat_witness :
  exists s', run id (fun _ => 7) (inject_Z 10) (inject_Z 20) two_calls init =
    Some ([(bs "10.0.0.1", true); (bs "10.0.0.1", true)], s').
Proof.
  destruct (sharded_refines_flat id (fun _ => 7) 10 20 ltac:(lia) ltac:(by vm_compute)
    two_calls 0 ltac:(cbn; lia)) as [s' Hs].
  exists s'. refine (eq_trans Hs _). by vm_compute.
Defined.

Lemma tokens_bounded_witness :
  exists s b, heap s !! 1 = Some b /\ (0 <= tokens b <= inject_Z 20)%Q /\ last_refill b <= 400000000002.
Proof.
  destruct (run id (fun _ => 7) (inject_Z 10) (inject_Z 20) two_calls init) as [[answers s]|] eqn:E; [|by vm_compute in E].
  exists s. refine (tokens_bounded id (fun _ => 7) 10 20 ltac:(lia) ltac:(unfold MAX_IDLE; lia)
    two_calls 0 answers s (bs "10.0.0.1") 1 _ E _); [cbn; lia|].
  vm_compute in E. injection E as <- <-. by vm_compute.
Defined.

Lemma rate_bound_witness :
  exists answers s', run fixed_point (fun _ => 7) (inject_Z 10) (inject_Z 20) two_calls init = Some (answers, s') /\
  (inject_Z (granted (bs "10.0.0.1") answers) <=
   20 + 10 * (500000000000 / 1000000000) + 2 * call_error 0 (1 # 2 ^ 60) 10 20)%Q.
Proof.
  destruct (run fixed_point (fun _ => 7) (inject_Z 10) (inject_Z 20) two_calls init) as [[answers s']|] eqn:E; [|by vm_compute in E].
  exists answers, s'. split; [done|]. eapply Qle_trans.
  - refine (rate_bound fixed_point 0 (1 # 2 ^ 60) 10 20 ltac:(lia) ltac:(lia) (fun _ => 7)
      ltac:(unfold MAX_IDLE; lia) [] two_calls 0 0
      500000000000 (bs "10.0.0.1") [] init answers s' I (Z.le_refl 0) _ _ eq_refl E); cbn; lia.
  - by vm_compute.
Defined.

Lemma sweep_frees_bucket_in_use_witness :
  exists s, let '(bucket, s1) := find_or_create (fun _ => 7) (inject_Z 20) 400000000000 (bs "10.0.0.1") s in
  refill_consume id (inject_Z 10) (inject_Z 20) 400000000009 bucket (sweep_stale 400000000001 MAX_IDLE s1) = None.
Proof.
  pose (s := (find_or_create (fun _ => 7) (inject_Z 20) 0 (bs "10.0.0.1") init).2). exists s.
  apply (sweep_frees_bucket_in_use id (fun _ => 7) (inject_Z 10) (inject_Z 20) s (bs "10.0.0.1") 0
    {| tokens := inject_Z 20; last_refill := 0 |}); [|by vm_compute..].
  apply (find_or_create_spec (fun _ => 7) 20 0 (bs "10.0.0.1") init), wf_init.
Defined.

End RateLimiterSpec.
