(* ===== verification/Connection.v ===== *)
(** * [Connection] and the kernel it talks to

    [src/src/network/Connection.cpp]; the destructor is in [Lifetime].  A connection is used under its own
    mutex, so the code of one critical section is sequential; everything it
    observes of the outside (sockets, clock, the loop's atomic state, the rate
    limiter shared with other threads) is the interface [Env], whose state [K]
    may change arbitrarily between two calls.  [EnvLaws] states what POSIX says
    of [send] and [recv]; [Script] is an instance. *)

From Stdlib Require Import QArith.
From S2P Require Import Prelude CppStd Request Parser RateLimiter.
#[local] Open Scope Z_scope.

Module LoopState.
Inductive t := RUNNING | STOPPING | STOPPED.
#[global] Instance eq_dec : EqDecision t.
  Proof. solve_decision. Defined.
End LoopState.

Inductive send_result :=
| SendBytes (n : Z)        (* a non-negative return value *)
| SendAgain                (* -1 with EAGAIN or EWOULDBLOCK *)
| SendError.               (* -1 with any other errno *)

Inductive recv_result :=
| RecvData (d : bytes)
| RecvEof                  (* 0: the peer has closed its side *)
| RecvAgain
| RecvError.

(** What the code calls outside its own critical section. *)
Class Env (K : Type) := {
  env_state : K -> LoopState.t * K;              (* [state.load()] *)
  env_recv : Z -> Z -> K -> recv_result * K;     (* [recv(fd, buf, size, MSG_DONTWAIT)] *)
  env_send : Z -> bytes -> K -> send_result * K; (* [send(fd, data, MSG_DONTWAIT | MSG_NOSIGNAL)] *)
  env_now : K -> Z * K;                          (* [steady_clock::now()] *)
  env_allow : bytes -> K -> bool * K             (* [rate_limiter.allow(ip)] *)
}.

(** The bytes a socket has carried in each direction. *)
Class EnvLaws (K : Type) `{Env K} (sent received : K -> Z -> bytes) : Prop := {
  law_send fd d k r k' :
    env_send fd d k = (r, k') ->
    received k' fd = received k fd /\
    match r with
    | SendBytes n => 0 <= n <= zlen d /\ sent k' fd = sent k fd ++ take (Z.to_nat n) d
    | _ => sent k' fd = sent k fd
    end;
  law_recv fd n k r k' :
    env_recv fd n k = (r, k') ->
    sent k' fd = sent k fd /\
    match r with
    | RecvData d => 0 < zlen d <= n /\ received k' fd = received k fd ++ d
    | _ => received k' fd = received k fd
    end;
  law_state k st k' : env_state k = (st, k') -> sent k' = sent k /\ received k' = received k;
  law_now k t k' : env_now k = (t, k') -> sent k' = sent k /\ received k' = received k;
  law_allow ip k ok k' : env_allow ip k = (ok, k') -> sent k' = sent k /\ received k' = received k
}.

Module Connection.

Record t := mk {
  fd : Z;
  client_ip : bytes;
  read_buffer : bytes;
  write_buffer : bytes;
  close_after_write_flag : bool;
  last_activity : Z;
  parser : HttpRequestParser.t;
  request : HttpRequest.t
}.

(** The constructor, then [set_client_ip]. *)
Definition create (client_fd : Z) (ip : bytes) (now : Z) : t :=
  {| fd := client_fd; client_ip := ip; read_buffer := []; write_buffer := [];
     close_after_write_flag := false; last_activity := now;
     parser := HttpRequestParser.init; request := HttpRequest.init |}.

Definition update_activity (now : Z) (c : t) : t :=
  mk (fd c) (client_ip c) (read_buffer c) (write_buffer c) (close_after_write_flag c) now
    (parser c) (request c).

Definition seconds_since_last_activity (rnd : Q -> Q) (now : Z) (c : t) : Q :=
  RateLimiter.duration_double rnd (now - last_activity c).

Definition append_unsent_data (data : bytes) (now : Z) (c : t) : t :=
  mk (fd c) (client_ip c) (read_buffer c) (write_buffer c ++ data) (close_after_write_flag c) now
    (parser c) (request c).

Definition append_read_data (data : bytes) (now : Z) (c : t) : t :=
  mk (fd c) (client_ip c) (read_buffer c ++ data) (write_buffer c) (close_after_write_flag c) now
    (parser c) (request c).

Definition has_pending_writes (c : t) : bool := negb (bool_decide (write_buffer c = [])).

Definition mark_close_after_write (c : t) : t :=
  mk (fd c) (client_ip c) (read_buffer c) (write_buffer c) true (last_activity c)
    (parser c) (request c).

Definition should_close_after_write (c : t) : bool := close_after_write_flag c.

(** The parser works on the connection's buffer and request in place. *)
Definition to_cfg (c : t) : HttpRequestParser.cfg :=
  HttpRequestParser.mk_cfg (parser c) (read_buffer c) (request c).

Definition of_cfg (p : HttpRequestParser.cfg) (c : t) : t :=
  mk (fd c) (client_ip c) (HttpRequestParser.readBuffer p) (write_buffer c)
    (close_after_write_flag c) (last_activity c)
    (HttpRequestParser.c_parser p) (HttpRequestParser.request p).

Definition with_write_buffer (b : bytes) (c : t) : t :=
  mk (fd c) (client_ip c) (read_buffer c) b (close_after_write_flag c) (last_activity c)
    (parser c) (request c).

(** [req.reset(); parser.reset();] *)
Definition reset_http (c : t) : t :=
  mk (fd c) (client_ip c) (read_buffer c) (write_buffer c) (close_after_write_flag c)
    (last_activity c) (HttpRequestParser.reset (parser c)) (HttpRequest.reset (request c)).

Section Flush.
Context {K : Type} `{Env K}.

(** The answer of [flush], the write buffer it leaves and [has_error]. *)
Fixpoint flush_loop (fuel : nat) (fd : Z) (write_buffer : bytes) (has_error : bool) (k : K)
  : option (bool * bytes * bool * K) :=
  match write_buffer with
  | [] => Some (true, [], has_error, k)
  | _ =>
      match fuel with
      | O => None
      | S f =>
          match env_send fd write_buffer k with
          | (SendBytes n, k') =>
              if 0 <? n then flush_loop f fd (drop (Z.to_nat n) write_buffer) has_error k'
              else Some (false, write_buffer, has_error, k')
          | (SendAgain, k') => Some (false, write_buffer, has_error, k')
          | (SendError, k') => Some (false, write_buffer, true, k')
          end
      end
  end.

(** Every round sends a byte or returns, so that the length of the buffer is
    fuel enough ([flush_delivers]); the answer for too little fuel is never
    given. *)
Definition flush (c : t) (has_error : bool) (k : K) : bool * t * bool * K :=
  match flush_loop (length (write_buffer c)) (fd c) (write_buffer c) has_error k with
  | Some (ok, wb, err, k') => (ok, with_write_buffer wb c, err, k')
  | None => (false, c, true, k)
  end.

Context (sent received : K -> Z -> bytes) `{!EnvLaws K sent received}.

(** The socket did not take bytes. *)
Definition refuses (r : send_result) : Prop := match r with SendBytes n => n <= 0 | _ => True end.

(** What is left after a flush: nothing, or what the last [send] was given and
    the socket refused. *)
Definition as_far_as_it_goes (fd : Z) (left : bytes) (k' : K) : Prop :=
  left = [] \/ exists k1 r, env_send fd left k1 = (r, k') /\ refuses r.

Lemma flush_loop_spec fuel fd wb err k :
  (length wb <= fuel)%nat ->
  exists ok wb' err' k',
    flush_loop fuel fd wb err k = Some (ok, wb', err', k') /\
    sent k' fd ++ wb' = sent k fd ++ wb /\ received k' fd = received k fd /\
    (ok = true <-> wb' = []) /\
    (if ok then err' = err
     else exists k1 r, env_send fd wb' k1 = (r, k') /\ refuses r /\
            err' = (err || match r with SendError => true | _ => false end)).
Proof.
  revert wb k. induction fuel as [|f IH]; intros wb k Hlen.
  - destruct wb; [|cbn in Hlen; lia]. by exists true, [], err, k.
  - destruct wb as [|b wb]; [by exists true, [], err, k|]. cbn [flush_loop].
    destruct (env_send fd (b :: wb) k) as [r k1] eqn:E0. pose proof E0 as E. apply (law_send fd) in E as [Hrcv E].
    destruct r as [n| |].
    + destruct E as [Hn E]. destruct (Z.ltb_spec 0 n) as [Hpos|].
      * destruct (IH (drop (Z.to_nat n) (b :: wb)) k1) as (ok & wb' & err' & k' & -> & Hs & Hr & H1).
        { rewrite length_drop. cbn [length] in *. unfold zlen in Hn. cbn [length] in Hn. lia. }
        exists ok, wb', err', k'. split; [done|]. rewrite Hs, E, <- app_assoc, take_drop.
        split; [done|]. split; [congruence|done].
      * exists false, (b :: wb), err, k1. assert (n = 0) as -> by lia.
        rewrite E. cbn [Z.to_nat take]. rewrite app_nil_r. split_and!; try done.
        exists k, (SendBytes 0). by rewrite orb_false_r.
    + exists false, (b :: wb), err, k1. rewrite E. split_and!; try done. exists k, SendAgain. by rewrite orb_false_r.
    + exists false, (b :: wb), true, k1. rewrite E. split_and!; try done. exists k, SendError. by rewrite orb_true_r.
Qed.

Lemma flush_spec (c : t) (has_error : bool) (k : K) :
  let '(ok, c', err, k') := flush c has_error k in
  sent k' (fd c) ++ write_buffer c' = sent k (fd c) ++ write_buffer c /\
  (ok = true <-> write_buffer c' = []) /\ (ok = true -> err = has_error) /\
  with_write_buffer (write_buffer c) c' = c.
Proof.
  unfold flush.
  destruct (flush_loop_spec (length (write_buffer c)) (fd c) (write_buffer c) has_error k)
    as (ok & wb' & err' & k' & -> & Hs & _ & Hok & Herr); [done|].
  cbn. split; [done|]. split; [done|]. split; [by intros ->|]. by destruct c.
Qed.

Lemma flush_pushes (c : t) (has_error : bool) (k : K) :
  let '(_, c', _, k') := flush c has_error k in as_far_as_it_goes (fd c) (write_buffer c') k'.
Proof.
  unfold flush.
  destruct (flush_loop_spec (length (write_buffer c)) (fd c) (write_buffer c) has_error k)
    as (ok & wb' & err' & k' & -> & _ & _ & Hok & Hend); [done|]. cbn.
  destruct ok; [left; by apply Hok|]. right. destruct Hend as (k1 & r & E & Hr & _). by exists k1, r.
Qed.

(** C15: [flush] terminates: a round of its loop for each byte of the buffer is
    enough.  It loses, repeats and reorders no byte, whatever the socket takes of
    each [send], and goes on until nothing is left or the socket takes nothing
    of what is left: it answers [true] exactly when nothing is left, and
    otherwise its last call was a [send] of all that is left, which sent none of
    it.  [has_error] is set when that [send] failed for good, and only then. *)
Theorem flush_delivers (c : t) (has_error : bool) (k : K) :
  exists ok left err k',
    flush_loop (length (write_buffer c)) (fd c) (write_buffer c) has_error k = Some (ok, left, err, k') /\
    flush c has_error k = (ok, with_write_buffer left c, err, k') /\
    sent k' (fd c) ++ left = sent k (fd c) ++ write_buffer c /\ received k' (fd c) = received k (fd c) /\
    (ok = true <-> left = []) /\
    (if ok then err = has_error
     else exists k1 r, env_send (fd c) left k1 = (r, k') /\ refuses r /\
            err = (has_error || match r with SendError => true | _ => false end)).
Proof.
  destruct (flush_loop_spec (length (write_buffer c)) (fd c) (write_buffer c) has_error k)
    as (ok & left & err & k' & E & Hrest); [done|].
  exists ok, left, err, k'. unfold flush. by rewrite E.
Qed.
End Flush.

End Connection.

(** ** A scripted environment

    Lists of the results the calls will give; [sent] and [received] are
    recorded.  An exhausted list answers as a socket with nothing to do. *)
Module Script.

Record t := mk {
  states : list LoopState.t;
  recvs : list recv_result;
  sends : list Z;             (* how many bytes the socket accepts *)
  times : list Z;
  allows : list bool;
  out : Z -> bytes;
  inp : Z -> bytes
}.

Definition record (f : Z -> bytes) (fd : Z) (d : bytes) (fd' : Z) : bytes :=
  if fd' =? fd then f fd' ++ d else f fd'.

#[global] Instance env : Env t := {
  env_state k :=
    (default LoopState.RUNNING (head (states k)),
     mk (tail (states k)) (recvs k) (sends k) (times k) (allows k) (out k) (inp k));
  env_recv fd n k :=
    match recvs k with
    | RecvData d :: rs =>
        if (0 <? zlen d) && (zlen d <=? n)
        then (RecvData d, mk (states k) rs (sends k) (times k) (allows k) (out k) (record (inp k) fd d))
        else (RecvError, k)
    | r :: rs => (r, mk (states k) rs (sends k) (times k) (allows k) (out k) (inp k))
    | [] => (RecvAgain, k)
    end;
  env_send fd d k :=
    match sends k with
    | n :: ns =>
        let m := Z.max 0 (Z.min n (zlen d)) in
        (SendBytes m,
         mk (states k) (recvs k) ns (times k) (allows k)
           (record (out k) fd (take (Z.to_nat m) d)) (inp k))
    | [] => (SendAgain, k)
    end;
  env_now k :=
    (default 0 (head (times k)),
     mk (states k) (recvs k) (sends k) (tail (times k)) (allows k) (out k) (inp k));
  env_allow ip k :=
    (default true (head (allows k)),
     mk (states k) (recvs k) (sends k) (times k) (tail (allows k)) (out k) (inp k))
}.

Lemma record_eq f fd d : record f fd d fd = f fd ++ d.
Proof. unfold record. by rewrite Z.eqb_refl. Qed.

#[global] Instance env_laws : EnvLaws t out inp.
Proof.
  split.
  - intros fd d k r k'. cbn. destruct (sends k) as [|n ns]; intros [= <- <-]; cbn; [done|].
    split; [done|]. pose proof (zlen_nonneg d). split; [lia|]. apply record_eq.
  - intros fd n k r k'. cbn. destruct (recvs k) as [|[d| | |] rs]; try by intros [= <- <-].
    destruct (Z.ltb_spec 0 (zlen d)), (Z.leb_spec (zlen d) n); cbn; intros [= <- <-]; cbn; try done.
    split; [done|]. split; [lia|]. apply record_eq.
  - by intros k st k' [= <- <-].
  - by intros k st k' [= <- <-].
  - by intros ip k st k' [= <- <-].
Qed.

(** A socket that takes 3 bytes, then 2, then would block. *)
Lemma flush_delivers_witness :
  let k := mk [] [] [3; 2] [] [] (fun _ => []) (fun _ => []) in
  let c := Connection.append_unsent_data (bs "hello world") 0 (Connection.create 5 [] 0) in
  let '(ok, c', err, k') := Connection.flush c false k in
  out k' 5 ++ Connection.write_buffer c' = bs "hello world" /\ ok = false /\ out k' 5 = bs "hello".
Proof.
  intros k c. destruct (Connection.flush_delivers out inp c false k) as (ok & left & err & k' & _ & E & Hs & _).
  rewrite E. split; [exact Hs|]. vm_compute in E. by injection E as <- <- <- <-.
Defined.

End Script.
