(* ===== verification/Lifetime.v ===== *)
(** * Connection objects and the descriptors they own

    [Connection] closes its descriptor in its destructor
    ([src/src/network/Connection.cpp]), objects are shared through
    [std::shared_ptr], and a descriptor that has been closed is given out again
    by the kernel.  This file follows the references: those of the map
    [connections], of the tasks in the pool and of the local variables of
    [handle_accept] and [remove_connection] ([src/src/network/EventLoop.cpp]).

    An object and the socket it was created for have the same number here, so
    that the kernel's table says which connection a descriptor leads to. *)

From S2P Require Import Prelude.
#[local] Open Scope Z_scope.

Module Lifetime.

(** A function on the stack of a thread, with the reference it holds. *)
Inductive frame :=
| Accepted (fd : Z) (o : nat)   (* handle_accept: a descriptor, no object yet *)
| Created (o : nat)             (* std::make_shared<Connection>(client_fd) *)
| Inserted (o : nat)            (* connections[client_fd] = conn *)
| Failed (fd : Z) (o : nat)     (* epoll_ctl failed, the map entry is erased *)
| Leaving (o : nat)             (* and client_fd is closed: continue; *)
| Task (o : nat)                (* a task of the pool that captured conn *)
| Removing (o : nat).           (* remove_connection, after erase *)

#[global] Instance frame_eq_dec : EqDecision frame.
Proof. solve_decision. Defined.

(** The reference a frame holds, and the descriptor it alone knows of. *)
Definition holds (o : nat) (f : frame) : bool :=
  match f with
  | Created o' | Inserted o' | Failed _ o' | Leaving o' | Task o' | Removing o' => bool_decide (o' = o)
  | Accepted _ _ => false
  end.
Definition pending (o : nat) (f : frame) : bool :=
  match f with Accepted _ o' => bool_decide (o' = o) | _ => false end.

Record sys := mk {
  kernel : gmap Z nat;         (* the open descriptors, and the socket each leads to *)
  next : nat;                  (* the next socket *)
  heap : gmap nat Z;           (* the Connection objects alive: their member fd *)
  connections : gmap Z nat;    (* fd -> shared_ptr<Connection> *)
  stacks : list (list frame);  (* what the threads and the queued tasks are in *)
  batch : list (Z * nat)       (* events of epoll_wait not handled yet, and whom they were for *)
}.

Definition init (n : nat) : sys := mk ∅ 0 ∅ ∅ (replicate n []) [].

Definition frames (s : sys) : list frame := concat (stacks s).

Definition set_stack (i : nat) (st : list frame) (s : sys) : sys :=
  mk (kernel s) (next s) (heap s) (connections s) (<[i := st]> (stacks s)) (batch s).

(** [close(fd)]. *)
Definition close (fd : Z) (s : sys) : sys :=
  mk (delete fd (kernel s)) (next s) (heap s) (connections s) (stacks s) (batch s).

(** [use_count()]: map entries and local copies. *)
Definition use_count (o : nat) (s : sys) : Z :=
  Z.of_nat (size (filter (fun e => e.2 = o) (connections s))) + count (holds o) (frames s).

(** [~Connection()]: [if (fd >= 0) close(fd);]. *)
Definition destroy (o : nat) (s : sys) : sys :=
  match heap s !! o with
  | None => s
  | Some fd =>
      let s' := mk (kernel s) (next s) (delete o (heap s)) (connections s) (stacks s) (batch s) in
      if 0 <=? fd then close fd s' else s'
  end.

(** A reference to [o] has gone: the last one takes the object with it. *)
Definition drop (o : nat) (s : sys) : sys := if use_count o s =? 0 then destroy o s else s.

(** [handle_accept]; the error path after [epoll_ctl] is in [explicit_step]. *)
Inductive accept_step (i : nat) : sys -> sys -> Prop :=
(* accept(): a descriptor that is not open *)
| accept_fd s st fd :
    stacks s !! i = Some st -> kernel s !! fd = None -> 0 <= fd ->
    accept_step i s (mk (<[fd := next s]> (kernel s)) (S (next s)) (heap s) (connections s)
                       (<[i := Accepted fd (next s) :: st]> (stacks s)) (batch s))
(* try_acquire fails: close(client_fd); continue; *)
| accept_reject s st fd o :
    stacks s !! i = Some (Accepted fd o :: st) -> accept_step i s (set_stack i st (close fd s))
(* auto conn = std::make_shared<Connection>(client_fd); *)
| accept_create s st fd o :
    stacks s !! i = Some (Accepted fd o :: st) ->
    accept_step i s (mk (kernel s) (next s) (<[o := fd]> (heap s)) (connections s)
                       (<[i := Created o :: st]> (stacks s)) (batch s))
(* connections[client_fd] = conn; the entry that was there loses its reference *)
| accept_insert s st o fd :
    stacks s !! i = Some (Created o :: st) -> heap s !! o = Some fd ->
    accept_step i s
      (let s' := mk (kernel s) (next s) (heap s) (<[fd := o]> (connections s))
                   (<[i := Inserted o :: st]> (stacks s)) (batch s) in
       match connections s !! fd with Some o' => drop o' s' | None => s' end)
(* registered: conn goes out of scope *)
| accept_done s st o :
    stacks s !! i = Some (Inserted o :: st) -> accept_step i s (drop o (set_stack i st s)).

(** Tasks, [remove_connection], and the loop's batch of events. *)
Inductive serve_step (i : nat) : sys -> sys -> Prop :=
(* handle_client_read or handle_client_write: find, capture, submit *)
| serve_submit s fd o :
    connections s !! fd = Some o ->
    serve_step i s (mk (kernel s) (next s) (heap s) (connections s) (stacks s ++ [[Task o]]) (batch s))
(* the task returns and is destroyed *)
| serve_done s st o :
    stacks s !! i = Some (Task o :: st) -> serve_step i s (drop o (set_stack i st s))
(* remove_connection(fd): conn = it->second; connections.erase(it); *)
| remove_erase s st fd o :
    stacks s !! i = Some st -> connections s !! fd = Some o ->
    serve_step i s (mk (kernel s) (next s) (heap s) (delete fd (connections s))
                      (<[i := Removing o :: st]> (stacks s)) (batch s))
(* its return *)
| remove_done s st o :
    stacks s !! i = Some (Removing o :: st) -> serve_step i s (drop o (set_stack i st s))
(* epoll_wait *)
| wait s evs :
    batch s = [] -> Forall (fun e => connections s !! e.1 = Some e.2) evs ->
    serve_step i s (mk (kernel s) (next s) (heap s) (connections s) (stacks s) evs)
(* the next event: EPOLLHUP or EPOLLERR, remove_connection(current_fd) *)
| hup s st fd o o' evs :
    stacks s !! i = Some st -> batch s = (fd, o) :: evs -> connections s !! fd = Some o' ->
    serve_step i s (mk (kernel s) (next s) (heap s) (delete fd (connections s))
                      (<[i := Removing o' :: st]> (stacks s)) evs)
(* or one that only submits a task, or finds no connection *)
| handled s e evs :
    batch s = e :: evs ->
    serve_step i s (mk (kernel s) (next s) (heap s) (connections s) (stacks s) evs).

(** The paths that close a descriptor which an object owns: [handle_accept]
    when [epoll_ctl] fails, and [cleanup_all_connections]. *)
Inductive explicit_step (i : nat) : sys -> sys -> Prop :=
(* connections.erase(client_fd); *)
| fail_erase s st o fd :
    stacks s !! i = Some (Inserted o :: st) -> heap s !! o = Some fd ->
    explicit_step i s
      (let s' := mk (kernel s) (next s) (heap s) (delete fd (connections s))
                   (<[i := Failed fd o :: st]> (stacks s)) (batch s) in
       match connections s !! fd with Some o' => drop o' s' | None => s' end)
(* close(client_fd); *)
| fail_close s st o fd :
    stacks s !! i = Some (Failed fd o :: st) ->
    explicit_step i s (set_stack i (Leaving o :: st) (close fd s))
(* conn goes out of scope *)
| fail_done s st o :
    stacks s !! i = Some (Leaving o :: st) -> explicit_step i s (drop o (set_stack i st s))
(* for (auto& [fd, conn] : connections) close(fd); *)
| cleanup_close s fd o : connections s !! fd = Some o -> explicit_step i s (close fd s)
(* connections.clear(); *)
| cleanup_clear s fd o :
    connections s !! fd = Some o ->
    explicit_step i s
      (drop o (mk (kernel s) (next s) (heap s) (delete fd (connections s)) (stacks s) (batch s))).

Inductive raii_step (s s' : sys) : Prop :=
| raii_accept i : accept_step i s s' -> raii_step s s'
| raii_serve i : serve_step i s s' -> raii_step s s'.

Inductive step (s s' : sys) : Prop :=
| by_raii : raii_step s s' -> step s s'
| by_explicit i : explicit_step i s s' -> step s s'.

(** ** The invariant

    It is stated on what the steps change: the maps, the number of references
    that frames hold to an object and the number of frames that hold a bare
    descriptor.  [x] is an object whose last reference may just have gone. *)

Definition is_accepted (fd : Z) (o : nat) (f : frame) : bool :=
  match f with Accepted fd' o' => bool_decide (fd' = fd /\ o' = o) | _ => false end.

Record Inv (x : option nat) (k : gmap Z nat) (nx : nat) (h : gmap nat Z) (c : gmap Z nat)
    (nh : nat -> Z) (na : Z -> nat -> Z) : Prop := {
  inv_heap o fd : h !! o = Some fd -> k !! fd = Some o /\ 0 <= fd;
  inv_conn fd o : c !! fd = Some o -> h !! o = Some fd;
  inv_held o : 0 < nh o -> is_Some (h !! o);
  inv_accepted fd o : 0 < na fd o -> k !! fd = Some o /\ h !! o = None /\ 0 <= fd /\ na fd o = 1;
  inv_kernel fd o : k !! fd = Some o -> h !! o = Some fd \/ 0 < na fd o;
  inv_inj fd fd' o : k !! fd = Some o -> k !! fd' = Some o -> fd = fd';
  inv_next fd o : k !! fd = Some o -> (o < nx)%nat;
  inv_ref o fd : h !! o = Some fd -> x <> Some o -> c !! fd = Some o \/ 0 < nh o;
  inv_nonneg o fd : 0 <= nh o /\ 0 <= na fd o
}.

Definition inv (x : option nat) (s : sys) : Prop :=
  Inv x (kernel s) (next s) (heap s) (connections s)
    (fun o => count (holds o) (frames s)) (fun fd o => count (is_accepted fd o) (frames s)).

Lemma Inv_ext x k nx h c nh na nh' na' :
  (forall o, nh' o = nh o) -> (forall fd o, na' fd o = na fd o) ->
  Inv x k nx h c nh na -> Inv x k nx h c nh' na'.
Proof.
  intros Hh Ha []. constructor; intros *; rewrite ?Hh, ?Ha; eauto.
Qed.

Lemma Inv_weaken x k nx h c nh na : Inv None k nx h c nh na -> Inv x k nx h c nh na.
Proof. intros []. constructor; eauto. Qed.

(** One for the thing itself, none for the others. *)
Definition one_at (o o' : nat) : Z := if decide (o' = o) then 1 else 0.
Definition one_at2 (fd : Z) (o : nat) (fd' : Z) (o' : nat) : Z :=
  if decide (fd' = fd /\ o' = o) then 1 else 0.

Lemma one_at_cases o o' : (o' = o /\ one_at o o' = 1) \/ (o' <> o /\ one_at o o' = 0).
Proof. unfold one_at. case_decide; auto. Qed.
Lemma one_at2_cases fd o fd' o' :
  (fd' = fd /\ o' = o /\ one_at2 fd o fd' o' = 1) \/ (~ (fd' = fd /\ o' = o) /\ one_at2 fd o fd' o' = 0).
Proof. unfold one_at2. case_decide; [left|right]; naive_solver. Qed.

Section Moves.
Context (k : gmap Z nat) (nx : nat) (h : gmap nat Z) (c : gmap Z nat)
  (nh : nat -> Z) (na : Z -> nat -> Z).

Lemma Inv_accept x fd :
  k !! fd = None -> 0 <= fd -> Inv x k nx h c nh na ->
  Inv x (<[fd := nx]> k) (S nx) h c nh (fun fd' o => na fd' o + one_at2 fd nx fd' o).
Proof.
  intros Hk Hfd HI. pose proof HI as [Hheap Hconn Hheld Hacc Hker Hinj Hnx Href Hnn].
  constructor; intros *.
  - intros Ho. destruct (Hheap _ _ Ho) as [Hko ?]. split; [|done]. rewrite lookup_insert_ne; [done|congruence].
  - apply Hconn.
  - apply Hheld.
  - destruct (one_at2_cases fd nx fd0 o) as [(-> & -> & ->)|[Hne ->]].
    + intros _. rewrite lookup_insert_eq. split; [done|]. split.
      { destruct (h !! nx) as [fd'|] eqn:E; [|done]. destruct (Hheap _ _ E) as [E' _]. apply Hnx in E'. lia. }
      split; [done|]. destruct (decide (0 < na fd nx)) as [Hp|Hp].
      * destruct (Hacc _ _ Hp) as [E _]. congruence.
      * pose proof (Hnn nx fd). lia.
    + rewrite Z.add_0_r. intros Hp. destruct (Hacc _ _ Hp) as (E & ? & ? & ?). split; [|done].
      rewrite lookup_insert_ne; [done|congruence].
  - rewrite lookup_insert_Some. pose proof (Hnn o fd0).
    destruct (one_at2_cases fd nx fd0 o) as [(-> & -> & ->)|[Hne ->]].
    + right. lia.
    + intros [[<- <-]|[_ E]]; [by destruct Hne|]. destruct (Hker _ _ E); [by left|right; lia].
  - rewrite !lookup_insert_Some. intros [[<- <-]|[? E1]] [[<- ?]|[? E2]]; subst; try done.
    + apply Hnx in E2. lia.
    + apply Hnx in E1. lia.
    + by eapply Hinj.
  - rewrite lookup_insert_Some. intros [[<- <-]|[_ E]]; [lia|]. apply Hnx in E. lia.
  - apply Href.
  - pose proof (Hnn o fd0). destruct (one_at2_cases fd nx fd0 o) as [(_ & _ & ->)|[_ ->]]; lia.
Qed.

Lemma Inv_reject x fd o :
  0 < na fd o -> Inv x k nx h c nh na ->
  Inv x (delete fd k) nx h c nh (fun fd' o' => na fd' o' - one_at2 fd o fd' o').
Proof.
  intros Hpos HI. pose proof HI as [Hheap Hconn Hheld Hacc Hker Hinj Hnx Href Hnn].
  destruct (Hacc _ _ Hpos) as (Hk & Hh & _ & H1).
  constructor; intros *; try (rewrite lookup_delete_Some; intros [_ ?]; by eauto).
  - intros E. destruct (Hheap _ _ E) as [E' ?]. rewrite lookup_delete_ne; [done|congruence].
  - apply Hconn.
  - apply Hheld.
  - destruct (one_at2_cases fd o fd0 o0) as [(-> & -> & ->)|[Hne ->]]; [lia|]. rewrite Z.sub_0_r.
    intros Hp. destruct (Hacc _ _ Hp) as (E & ? & ? & ?). split; [|done]. rewrite lookup_delete_ne; [done|].
    intros ->. apply Hne. split; [done|congruence].
  - rewrite lookup_delete_Some. intros [Hne E].
    destruct (one_at2_cases fd o fd0 o0) as [(-> & _)|[_ ->]]; [done|]. rewrite Z.sub_0_r. by apply Hker.
  - rewrite !lookup_delete_Some. intros [_ ?] [_ ?]. by eapply Hinj.
  - apply Href.
  - pose proof (Hnn o0 fd0). destruct (one_at2_cases fd o fd0 o0) as [(-> & -> & ->)|[_ ->]]; lia.
Qed.

Lemma Inv_create x fd o :
  0 < na fd o -> Inv x k nx h c nh na ->
  Inv x k nx (<[o := fd]> h) c (fun o' => nh o' + one_at o o') (fun fd' o' => na fd' o' - one_at2 fd o fd' o').
Proof.
  intros Hpos HI. pose proof HI as [Hheap Hconn Hheld Hacc Hker Hinj Hnx Href Hnn].
  destruct (Hacc _ _ Hpos) as (Hk & Hh & ? & H1). constructor; intros *; try by eauto.
  - rewrite lookup_insert_Some. intros [[<- <-]|[_ E]]; [done|by apply Hheap].
  - intros E. apply Hconn in E. rewrite lookup_insert_ne; [done|congruence].
  - destruct (one_at_cases o o0) as [[-> ->]|[? ->]]; [by rewrite lookup_insert_eq|].
    rewrite Z.add_0_r, lookup_insert_ne by done. apply Hheld.
  - destruct (one_at2_cases fd o fd0 o0) as [(-> & -> & ->)|[Hne ->]]; [lia|]. rewrite Z.sub_0_r.
    intros Hp. destruct (Hacc _ _ Hp) as (E & ? & ? & ?). split; [done|]. split; [|done].
    rewrite lookup_insert_ne; [done|]. intros <-. apply Hne. split; [|done]. by eapply Hinj.
  - intros E. destruct (one_at2_cases fd o fd0 o0) as [(-> & -> & ->)|[Hne ->]].
    + left. apply lookup_insert_eq.
    + rewrite Z.sub_0_r. destruct (Hker _ _ E) as [E'|?]; [|by right]. left. rewrite lookup_insert_ne; [done|congruence].
  - rewrite lookup_insert_Some. pose proof (Hnn o0 fd).
    destruct (one_at_cases o o0) as [[-> ->]|[? ->]]; [intros; right; lia|].
    intros [[<- _]|[_ E]]; [done|]. rewrite Z.add_0_r. by apply Href.
  - pose proof (Hnn o0 fd0). unfold one_at, one_at2. repeat case_decide; destruct_and?; subst; lia.
Qed.

(** A reference is copied, given up, or passed from the map to a frame. *)
Lemma Inv_copy x o :
  is_Some (h !! o) -> Inv x k nx h c nh na -> Inv x k nx h c (fun o' => nh o' + one_at o o') na.
Proof.
  intros Ho HI. pose proof HI as [Hheap Hconn Hheld Hacc Hker Hinj Hnx Href Hnn].
  constructor; intros *; try by eauto.
  - destruct (one_at_cases o o0) as [[-> ->]|[? ->]]; [done|]. rewrite Z.add_0_r. apply Hheld.
  - intros E Hx. pose proof (Hnn o0 fd). destruct (Href _ _ E Hx); [by left|right].
    destruct (one_at_cases o o0) as [[-> ->]|[? ->]]; lia.
  - pose proof (Hnn o0 fd). destruct (one_at_cases o o0) as [[-> ->]|[? ->]]; lia.
Qed.

Lemma Inv_release o :
  0 < nh o -> Inv None k nx h c nh na -> Inv (Some o) k nx h c (fun o' => nh o' - one_at o o') na.
Proof.
  intros Ho HI. pose proof HI as [Hheap Hconn Hheld Hacc Hker Hinj Hnx Href Hnn].
  constructor; intros *; try by eauto.
  - intros Hp. apply Hheld. revert Hp. destruct (one_at_cases o o0) as [[-> ->]|[? ->]]; lia.
  - intros E Hx. destruct (Href _ _ E) as [?|?]; [done|by left|right].
    destruct (one_at_cases o o0) as [[-> ->]|[? ->]]; [done|lia].
  - pose proof (Hnn o0 fd). destruct (one_at_cases o o0) as [[-> ->]|[? ->]]; lia.
Qed.

Lemma Inv_insert o fd :
  h !! o = Some fd -> Inv None k nx h c nh na -> Inv None k nx h (<[fd := o]> c) nh na.
Proof.
  intros Ho HI. pose proof HI as [Hheap Hconn Hheld Hacc Hker Hinj Hnx Href Hnn].
  constructor; intros *; try by eauto.
  - rewrite lookup_insert_Some. intros [[<- <-]|[_ E]]; [done|by apply Hconn].
  - intros E Hx. rewrite lookup_insert_Some. destruct (Href _ _ E Hx) as [?|?]; [|by right].
    destruct (decide (fd = fd0)) as [<-|]; [|by left; right].
    left; left. split; [done|]. destruct (Hheap _ _ Ho), (Hheap _ _ E). congruence.
Qed.

Lemma Inv_erase o fd :
  c !! fd = Some o -> Inv None k nx h c nh na ->
  Inv None k nx h (delete fd c) (fun o' => nh o' + one_at o o') na.
Proof.
  intros Hc HI. pose proof HI as [Hheap Hconn Hheld Hacc Hker Hinj Hnx Href Hnn].
  apply (Inv_copy None o) in HI; [|by eexists; eapply Hconn].
  destruct HI as [_ _ Hheld' _ _ _ _ _ Hnn']. constructor; intros *; try by eauto.
  - rewrite lookup_delete_Some. intros [_ ?]. by apply Hconn.
  - intros E Hx. rewrite lookup_delete_Some. pose proof (Hnn o0 fd).
    destruct (one_at_cases o o0) as [[-> ->]|[? ->]]; [right; lia|]. rewrite Z.add_0_r.
    destruct (Href _ _ E Hx) as [E'|?]; [|by right]. left. split; [|done]. congruence.
Qed.

(** The destructor of an object nobody refers to. *)
Lemma Inv_destroy o fd :
  h !! o = Some fd -> (forall fd', c !! fd' <> Some o) -> nh o = 0 -> Inv (Some o) k nx h c nh na ->
  Inv None (delete fd k) nx (delete o h) c nh na.
Proof.
  intros Ho Hc Hn HI. pose proof HI as [Hheap Hconn Hheld Hacc Hker Hinj Hnx Href Hnn].
  destruct (Hheap _ _ Ho) as [Hk _]. constructor; intros *; rewrite ?lookup_delete_Some.
  - intros [Hne E]. destruct (Hheap _ _ E). split; [|done]. split; [congruence|done].
  - intros E. split; [|by apply Hconn]. intros <-. by apply (Hc fd0).
  - intros Hp. destruct (decide (o = o0)) as [<-|]; [lia|]. rewrite lookup_delete_ne by done. by apply Hheld.
  - intros Hp. destruct (Hacc _ _ Hp) as (E & Eh & ? & ?). split; [|split; [|done]].
    + split; [|done]. congruence.
    + rewrite lookup_delete_None. by right.
  - intros [Hne E]. destruct (Hker _ _ E) as [E'|?]; [left|by right]. split; [congruence|done].
  - intros [_ ?] [_ ?]. by eapply Hinj.
  - intros [_ ?]. by eapply Hnx.
  - intros [Hne E] _. apply Href; [done|congruence].
  - apply Hnn.
Qed.

End Moves.
(** ** The steps *)

Lemma count_stack {A} (P : A -> bool) (l : list (list A)) i st st' :
  l !! i = Some st -> count P (concat (<[i := st']> l)) = count P (concat l) - count P st + count P st'.
Proof.
  revert i; induction l as [|x l IH]; intros [|i]; try done.
  - intros [= ->]. cbn. rewrite !count_app. lia.
  - intros H. change (<[S i := st']> (x :: l)) with (x :: <[i := st']> l). cbn [concat].
    rewrite !count_app, (IH i H). lia.
Qed.

Lemma count_frames_pos (P : frame -> bool) s i st f :
  stacks s !! i = Some st -> f ∈ st -> P f = true -> 0 < count P (frames s).
Proof.
  intros Hi Hf HP. unfold frames. apply list_elem_of_lookup in Hf as [j Hj].
  pose proof (count_lookup_pos P st j f Hj HP). pose proof (count_stack P (stacks s) i st [] Hi) as E.
  pose proof (count_nonneg P (concat (<[i := []]> (stacks s)))). cbn in E. lia.
Qed.

Lemma use_count_zero o s :
  use_count o s = 0 <-> (forall fd, connections s !! fd <> Some o) /\ count (holds o) (frames s) = 0.
Proof.
  unfold use_count. pose proof (count_nonneg (holds o) (frames s)).
  set (m := filter _ _). assert (size m = 0%nat <-> forall fd, connections s !! fd <> Some o) as Hm.
  { rewrite map_size_empty_iff. unfold m. split.
    - intros E fd Hfd. assert (filter (fun e => e.2 = o) (connections s) !! fd = Some o) as H'
        by by apply map_lookup_filter_Some. by rewrite E in H'.
    - intros E. apply map_empty. intros fd. apply map_lookup_filter_None. right. intros o' Hfd Ho.
      cbn in Ho. subst o'. by apply (E fd). }
  rewrite <- Hm. lia.
Qed.

Lemma inv_drop o s : inv (Some o) s -> inv None (drop o s).
Proof.
  intros HI. unfold drop. destruct (Z.eqb_spec (use_count o s) 0) as [Hz|Hz].
  - apply use_count_zero in Hz as [Hc Hn]. unfold destroy. destruct (heap s !! o) as [fd|] eqn:Ho.
    + assert (0 <= fd) as Hfd by by apply (inv_heap _ _ _ _ _ _ _ HI) in Ho as [_ ?].
      destruct (Z.leb_spec 0 fd); [|lia]. by apply (Inv_destroy _ _ _ _ _ _ o fd).
    + unfold inv in *. destruct HI. constructor; eauto. intros o' fd' E _. apply inv_ref0; congruence.
  - destruct HI as [Hheap Hconn Hheld Hacc Hker Hinj Hnx Href Hnn]. constructor; try done.
    intros o' fd E _. destruct (decide (o' = o)) as [->|]; [|apply Href; congruence].
    destruct (decide (connections s !! fd = Some o)) as [?|Hne]; [by left|right].
    pose proof (Hnn o fd) as [Hnn' _]. destruct (decide (count (holds o) (frames s) = 0)) as [E0|]; [|lia].
    destruct Hz. apply use_count_zero. split; [|done]. intros fd' Hfd'. apply Hconn in Hfd' as E'. congruence.
Qed.

Lemma b2z_one_at o o' : Z.b2z (bool_decide (o = o')) = one_at o o'.
Proof. unfold one_at. by repeat case_match; repeat case_bool_decide; simplify_eq. Qed.
Lemma b2z_one_at2 fd o fd' o' : Z.b2z (bool_decide (fd = fd' /\ o = o')) = one_at2 fd o fd' o'.
Proof. unfold one_at2. case_bool_decide; case_decide; naive_solver. Qed.

(** The counts after stack [i] has changed, from those before. *)
Ltac stack_counts H :=
  intros; unfold frames; cbn [stacks set_stack close]; rewrite (count_stack _ _ _ _ _ H);
  cbn [count holds is_accepted Z.b2z]; rewrite ?b2z_one_at, ?b2z_one_at2; lia.

(** The frame on top of stack [i] is counted. *)
Ltac top_counted H := eapply (count_frames_pos _ _ _ _ _ H); [left|by apply bool_decide_eq_true_2].

(** The invariant after a move of the maps, with the counts of the new stacks. *)
Ltac inv_move HI Hi :=
  unfold inv; cbn [kernel next heap connections set_stack close]; eapply Inv_ext; [| |exact HI]; stack_counts Hi.

Lemma inv_release_top i s st f o :
  inv None s -> stacks s !! i = Some (f :: st) -> (forall o', holds o' f = bool_decide (o = o')) ->
  (forall fd o', is_accepted fd o' f = false) -> inv None (drop o (set_stack i st s)).
Proof.
  intros HI Hi Hh Ha. apply inv_drop.
  assert (0 < count (holds o) (frames s)) as Hpos
    by (apply (count_frames_pos _ _ _ _ f Hi); [left|by rewrite Hh, bool_decide_true]).
  pose proof (Inv_release _ _ _ _ _ _ o Hpos HI) as HI'. unfold inv. eapply Inv_ext; [| |exact HI']; intros *;
    unfold frames; cbn [stacks set_stack]; rewrite (count_stack _ _ _ _ _ Hi); cbn [count];
    rewrite ?Hh, ?Ha, ?b2z_one_at; cbn [Z.b2z]; lia.
Qed.

Lemma inv_accept_step i s s' : inv None s -> accept_step i s s' -> inv None s'.
Proof.
  intros HI H. destruct H as [s st fd Hi Hk Hfd|s st fd o Hi|s st fd o Hi|s st o fd Hi Ho|s st o Hi].
  - pose proof (Inv_accept _ _ _ _ _ _ _ fd Hk Hfd HI) as HI'. inv_move HI' Hi.
  - assert (0 < count (is_accepted fd o) (frames s)) as Hpos by top_counted Hi.
    pose proof (Inv_reject _ _ _ _ _ _ _ fd o Hpos HI) as HI'. inv_move HI' Hi.
  - assert (0 < count (is_accepted fd o) (frames s)) as Hpos by top_counted Hi.
    pose proof (Inv_create _ _ _ _ _ _ _ fd o Hpos HI) as HI'. inv_move HI' Hi.
  - assert (inv None (mk (kernel s) (next s) (heap s) (<[fd := o]> (connections s))
                        (<[i := Inserted o :: st]> (stacks s)) (batch s))) as Hins.
    { pose proof (Inv_insert _ _ _ _ _ _ o fd Ho HI) as HI'. inv_move HI' Hi. }
    cbv zeta. destruct (connections s !! fd) as [o'|]; [|done]. by apply inv_drop, Inv_weaken.
  - by eapply inv_release_top.
Qed.

Lemma inv_serve_step i s s' : inv None s -> serve_step i s s' -> inv None s'.
Proof.
  intros HI H. destruct H as [s fd o Hc|s st o Hi|s st fd o Hi Hc|s st o Hi|s evs _ _|s st fd o o' evs Hi _ Hc|s e evs _].
  - assert (is_Some (heap s !! o)) as Ho by (eexists; by eapply (inv_conn _ _ _ _ _ _ _ HI)).
    pose proof (Inv_copy _ _ _ _ _ _ None o Ho HI) as HI'. unfold inv. eapply Inv_ext; [| |exact HI']; intros *;
      unfold frames; cbn [stacks]; rewrite concat_app, count_app; cbn [concat app count holds is_accepted Z.b2z];
      rewrite ?b2z_one_at; lia.
  - by eapply inv_release_top.
  - pose proof (Inv_erase _ _ _ _ _ _ o fd Hc HI) as HI'. inv_move HI' Hi.
  - by eapply inv_release_top.
  - exact HI.
  - pose proof (Inv_erase _ _ _ _ _ _ o' fd Hc HI) as HI'. inv_move HI' Hi.
  - exact HI.
Qed.

Lemma inv_fresh_sys n : inv None (init n).
Proof.
  assert (forall P, count P (frames (init n)) = 0) as H0 by by intros P; induction n.
  unfold inv. constructor; intros *; cbn [init kernel next heap connections];
    rewrite ?H0, ?lookup_empty; try done; lia.
Qed.

Lemma inv_reachable_raii n s : rtc raii_step (init n) s -> inv None s.
Proof.
  assert (forall s1 s2, rtc raii_step s1 s2 -> inv None s1 -> inv None s2) as H.
  { induction 1 as [|s1 s2 s3 [i Hs|i Hs] _ IH]; [done| |]; intros Hi; apply IH;
      [by eapply inv_accept_step|by eapply inv_serve_step]. }
  intros Hr. apply (H _ _ Hr), inv_fresh_sys.
Qed.

(** C16: As long as no path closes a descriptor behind an object's back, ownership is
    exact under every interleaving of accepts, tasks and removals: whoever holds
    a connection (the map, a queued or running task, a local variable) holds a
    live object whose descriptor leads to the connection's own socket, however
    often descriptor numbers are reused; and when no function is on a stack, the
    open client sockets are those of the map, so none has leaked. *)
Theorem descriptor_ownership n s :
  rtc raii_step (init n) s ->
  (forall i st f o, stacks s !! i = Some st -> f ∈ st -> holds o f = true ->
     exists fd, heap s !! o = Some fd /\ kernel s !! fd = Some o) /\
  (forall fd o, connections s !! fd = Some o -> heap s !! o = Some fd /\ kernel s !! fd = Some o) /\
  (Forall (eq []) (stacks s) -> kernel s = connections s).
Proof.
  intros HI%inv_reachable_raii. pose proof HI as [Hheap Hconn Hheld Hacc Hker Hinj Hnx Href Hnn].
  split; [|split].
  - intros i st f o Hi Hf Ho. destruct (Hheld o) as [fd Hfd]; [by eapply count_frames_pos|].
    exists fd. split; [done|]. by apply Hheap.
  - intros fd o Hc. apply Hconn in Hc as Ho. split; [done|]. by apply Hheap.
  - intros Hs. assert (frames s = []) as Hf.
    { unfold frames. clear -Hs. induction Hs as [|st l <- _ IH]; [done|]. cbn. done. }
    rewrite Hf in *. apply map_eq. intros fd. apply option_eq. intros o. split; intros E.
    + destruct (Hker _ _ E) as [Ho|Hn]; [|by cbn in Hn].
      destruct (Href _ _ Ho) as [?|Hn]; [done|done|by cbn in Hn].
    + by apply Hheap, Hconn.
Qed.

(** ** Executions *)

Lemma step_accept i s s' : accept_step i s s' -> step s s'.
Proof. intros H. by eapply by_raii, raii_accept. Qed.
Lemma step_explicit i s s' : explicit_step i s s' -> step s s'.
Proof. intros H. by eapply by_explicit. Qed.

Lemma drop_keep o s : use_count o s <> 0 -> drop o s = s.
Proof. intros H. unfold drop. by destruct (Z.eqb_spec (use_count o s) 0). Qed.

Lemma drop_last o s fd :
  use_count o s = 0 -> heap s !! o = Some fd -> 0 <= fd ->
  drop o s = mk (delete fd (kernel s)) (next s) (delete o (heap s)) (connections s) (stacks s) (batch s).
Proof.
  intros H Ho Hfd. unfold drop, destroy. rewrite H, Ho. by destruct (Z.leb_spec 0 fd); [|lia].
Qed.

Lemma insert_new i s st o fd :
  stacks s !! i = Some (Created o :: st) -> heap s !! o = Some fd -> connections s !! fd = None ->
  accept_step i s (mk (kernel s) (next s) (heap s) (<[fd := o]> (connections s))
                     (<[i := Inserted o :: st]> (stacks s)) (batch s)).
Proof. intros Hi Ho Hc. pose proof (accept_insert i s st o fd Hi Ho) as H. by rewrite Hc in H. Qed.

Lemma fail_erase_own i s st o fd :
  stacks s !! i = Some (Inserted o :: st) -> heap s !! o = Some fd -> connections s !! fd = Some o ->
  explicit_step i s (drop o (mk (kernel s) (next s) (heap s) (delete fd (connections s))
                               (<[i := Failed fd o :: st]> (stacks s)) (batch s))).
Proof. intros Hi Ho Hc. pose proof (fail_erase i s st o fd Hi Ho) as H. by rewrite Hc in H. Qed.

(** Take one step of a concrete execution and write the new state out. *)
Ltac tidy := unfold set_stack, close, init; cbn [kernel next heap connections stacks batch].
Tactic Notation "takes" uconstr(kind) uconstr(rule) :=
  eapply rtc_l; [apply kind; eapply rule; first [lia | vm_compute; reflexivity | by_decide]|];
  tidy; try (rewrite drop_keep by (vm_compute; discriminate)); tidy.
Ltac loses fd := rewrite (drop_last _ _ fd) by first [lia | vm_compute; reflexivity]; tidy.

(** C39: The failure path of [handle_accept] closes the descriptor and lets the
    destructor close it again.  Between the two another thread may accept a
    client on the same number: that client's connection stays in the map, and
    its descriptor is closed. *)
Theorem double_close_hits_successor :
  exists s, rtc step (init 2) s /\ Forall (eq []) (stacks s) /\
    connections s !! 5 = Some 1%nat /\ heap s !! 1%nat = Some 5 /\ kernel s !! 5 = None.
Proof.
  eexists. split.
  - takes (step_accept 0) (accept_fd 0 _ [] 5). takes (step_accept 0) (accept_create 0 _ [] 5 0).
    takes (step_accept 0) (insert_new 0 _ [] 0 5). takes (step_explicit 0) (fail_erase_own 0 _ [] 0 5).
    takes (step_explicit 0) (fail_close 0 _ [] 0 5).
    takes (step_accept 1) (accept_fd 1 _ [] 5). takes (step_accept 1) (accept_create 1 _ [] 5 1).
    takes (step_accept 1) (insert_new 1 _ [] 1 5). takes (step_accept 1) (accept_done 1 _ [] 1).
    takes (step_explicit 0) (fail_done 0 _ [] 0). loses 5. apply rtc_refl.
  - tidy. by_decide.
Qed.

(** An event fetched for one connection can remove its successor.  A worker
    removes connection 0, whose number 5 the next client gets; the loop then
    handles the old [EPOLLHUP] for 5 and removes connection 1. *)
Lemma stale_event_removes_successor :
  exists s s', rtc raii_step (init 2) s /\ batch s = [(5, 0%nat)] /\ connections s !! 5 = Some 1%nat /\
    serve_step 0 s s' /\ connections s' !! 5 = None /\ stacks s' = [[Removing 1]; []].
Proof.
  eexists _, _. split.
  - takes (raii_accept _ _ 0) (accept_fd 0 _ [] 5). takes (raii_accept _ _ 0) (accept_create 0 _ [] 5 0).
    takes (raii_accept _ _ 0) (insert_new 0 _ [] 0 5). takes (raii_accept _ _ 0) (accept_done 0 _ [] 0).
    takes (raii_serve _ _ 0) (wait 0 _ [(5, 0%nat)]).
    takes (raii_serve _ _ 1) (remove_erase 1 _ [] 5 0). takes (raii_serve _ _ 1) (remove_done 1 _ [] 0). loses 5.
    takes (raii_accept _ _ 1) (accept_fd 1 _ [] 5). takes (raii_accept _ _ 1) (accept_create 1 _ [] 5 1).
    takes (raii_accept _ _ 1) (insert_new 1 _ [] 1 5). takes (raii_accept _ _ 1) (accept_done 1 _ [] 1).
    apply rtc_refl.
  - tidy. split; [done|]. split; [by_decide|].
    split; [eapply (hup 0 _ [] 5 0 1 []); vm_compute; reflexivity|].
    tidy. split; [by_decide|done].
Qed.

(** A client is accepted on descriptor 5 and served by one task. *)
Definition serving : sys :=
  mk {[5 := 0%nat]} 1 {[0%nat := 5]} {[5 := 0%nat]} [[]; [Task 0]] [].

Lemma reach_serving : rtc raii_step (init 1) serving.
Proof.
  takes (raii_accept _ _ 0) (accept_fd 0 _ [] 5). takes (raii_accept _ _ 0) (accept_create 0 _ [] 5 0).
  takes (raii_accept _ _ 0) (insert_new 0 _ [] 0 5). takes (raii_accept _ _ 0) (accept_done 0 _ [] 0).
  takes (raii_serve _ _ 0) (serve_submit 0 _ 5 0). apply rtc_refl.
Qed.

Lemma descriptor_ownership_witness :
  exists fd, heap serving !! 0%nat = Some fd /\ kernel serving !! fd = Some 0%nat.
Proof.
  destruct (descriptor_ownership 1 serving reach_serving) as (H & _ & _).
  apply (H 1%nat [Task 0] (Task 0) 0%nat eq_refl); [by left|by_decide].
Defined.

End Lifetime.
