(* ===== verification/Objects.v ===== *)
(** * Connection objects, descriptors and references, as a store

    What [connections[fd] = conn], [connections.erase], [close], [accept] and a
    [std::shared_ptr<Connection>] that goes out of scope do
    ([src/src/network/EventLoop.cpp], [src/src/network/Connection.cpp]), on the
    maps of [Lifetime] alone: [Admission] and [Watch] put their own threads and
    tasks on top.  The number of references held outside the map is an argument.
    The laws are those of [Lifetime.Inv]. *)

From S2P Require Import Prelude Lifetime.
#[local] Open Scope Z_scope.

Module Objects.

Record t := mk {
  kernel : gmap Z nat;        (* the open descriptors, and the socket each leads to *)
  next : nat;                 (* the next socket, and its object *)
  heap : gmap nat Z;          (* the Connection objects alive: their member fd *)
  connections : gmap Z nat    (* fd -> shared_ptr<Connection> *)
}.

Definition init : t := mk ∅ 0 ∅ ∅.

(** [accept()] gave [fd]. *)
Definition accept (fd : Z) (s : t) : t :=
  mk (<[fd := next s]> (kernel s)) (S (next s)) (heap s) (connections s).

Definition close (fd : Z) (s : t) : t := mk (delete fd (kernel s)) (next s) (heap s) (connections s).

(** [~Connection()]. *)
Definition destroy (o : nat) (s : t) : t :=
  match heap s !! o with
  | None => s
  | Some fd =>
      let s' := mk (kernel s) (next s) (delete o (heap s)) (connections s) in
      if 0 <=? fd then close fd s' else s'
  end.

(** A reference to [o] has gone, and [others] are left outside the map. *)
Definition drop (others : Z) (o : nat) (s : t) : t :=
  if (Z.of_nat (size (filter (fun e => e.2 = o) (connections s))) + others =? 0) then destroy o s else s.

(** A reference the map has lost, if it had one. *)
Definition drop_entry (others : nat -> Z) (e : option nat) (s : t) : t :=
  match e with Some o => drop (others o) o s | None => s end.

(** [auto conn = std::make_shared<Connection>(fd); connections[fd] = conn;] *)
Definition put (others : nat -> Z) (fd : Z) (o : nat) (s : t) : t :=
  drop_entry others (connections s !! fd)
    (mk (kernel s) (next s) (<[o := fd]> (heap s)) (<[fd := o]> (connections s))).

(** [connections.erase(fd)], the entry being dropped ... *)
Definition erase (others : nat -> Z) (fd : Z) (s : t) : t :=
  drop_entry others (connections s !! fd) (mk (kernel s) (next s) (heap s) (delete fd (connections s))).

(** ... or after [conn = it->second]. *)
Definition take_out (fd : Z) (s : t) : t := mk (kernel s) (next s) (heap s) (delete fd (connections s)).

(** ** What they do to the map *)

Lemma connections_drop others o s : connections (drop others o s) = connections s.
Proof.
  unfold drop, destroy. case_match; [|done]. destruct (heap s !! o); [|done]. by case_match.
Qed.

Lemma heap_drop others o s o' fd : heap (drop others o s) !! o' = Some fd -> heap s !! o' = Some fd.
Proof.
  unfold drop, destroy. case_match; [|done]. destruct (heap s !! o); [|done].
  case_match; cbn; by intros [_ ?]%lookup_delete_Some.
Qed.

Lemma connections_put others fd o s : connections (put others fd o s) = <[fd := o]> (connections s).
Proof. unfold put, drop_entry. destruct (connections s !! fd); [|done]. by rewrite connections_drop. Qed.

Lemma connections_erase others fd s : connections (erase others fd s) = delete fd (connections s).
Proof. unfold erase, drop_entry. destruct (connections s !! fd); [|done]. by rewrite connections_drop. Qed.

Lemma put_new others fd o s :
  connections s !! fd = None ->
  put others fd o s = mk (kernel s) (next s) (<[o := fd]> (heap s)) (<[fd := o]> (connections s)).
Proof. intros Hc. unfold put. by rewrite Hc. Qed.

(** An object in the map stays. *)
Lemma drop_shared others fd o s : connections s !! fd = Some o -> 0 <= others -> drop others o s = s.
Proof.
  intros Hc Ho. unfold drop. destruct (Z.eqb_spec (Z.of_nat (size (filter (fun e => e.2 = o) (connections s))) + others) 0); [|done].
  exfalso. assert (size (filter (fun e => e.2 = o) (connections s)) = 0%nat) as Hz by lia.
  apply map_size_empty_iff in Hz. assert (filter (fun e => e.2 = o) (connections s) !! fd = Some o) as Hm
    by by apply map_lookup_filter_Some. by rewrite Hz in Hm.
Qed.

(** ** Ownership *)

(** [nh o]: references to [o] held outside the map; [na fd o]: whether somebody
    holds the bare descriptor [fd] of socket [o]. *)
Definition owned (s : t) (nh : nat -> Z) (na : Z -> nat -> Z) : Prop :=
  Lifetime.Inv None (kernel s) (next s) (heap s) (connections s) nh na.

Section Owned.
Context (s : t) (nh : nat -> Z) (na : Z -> nat -> Z) (HI : owned s nh na).

Lemma owned_ext nh' na' :
  (forall o, nh' o = nh o) -> (forall fd o, na' fd o = na fd o) -> owned s nh' na'.
Proof. intros Hh Ha. by eapply Lifetime.Inv_ext. Qed.

(** A descriptor that [accept] has just given out is in no map entry. *)
Lemma owned_not_in_map fd o : 0 < na fd o -> connections s !! fd = None.
Proof.
  intros Hp. destruct (Lifetime.inv_accepted _ _ _ _ _ _ _ HI _ _ Hp) as (Hk & Hh & _).
  destruct (connections s !! fd) as [o'|] eqn:E; [|done].
  apply (Lifetime.inv_conn _ _ _ _ _ _ _ HI) in E. destruct (Lifetime.inv_heap _ _ _ _ _ _ _ HI _ _ E). congruence.
Qed.

(** An entry of the map leads to the socket it was made for. *)
Lemma owned_open fd o : connections s !! fd = Some o -> kernel s !! fd = Some o.
Proof.
  intros E. apply (Lifetime.inv_conn _ _ _ _ _ _ _ HI) in E. by apply (Lifetime.inv_heap _ _ _ _ _ _ _ HI).
Qed.

(** So does the descriptor of an object that somebody holds. *)
Lemma owned_held o : 0 < nh o -> exists fd, heap s !! o = Some fd /\ kernel s !! fd = Some o.
Proof.
  intros Hp. destruct (Lifetime.inv_held _ _ _ _ _ _ _ HI _ Hp) as [fd E]. exists fd. split; [done|].
  by apply (Lifetime.inv_heap _ _ _ _ _ _ _ HI).
Qed.

Lemma owned_accept fd :
  kernel s !! fd = None -> 0 <= fd ->
  owned (accept fd s) nh (fun fd' o => na fd' o + Lifetime.one_at2 fd (next s) fd' o).
Proof. intros. by apply Lifetime.Inv_accept. Qed.

Lemma owned_reject fd o :
  0 < na fd o -> owned (close fd s) nh (fun fd' o' => na fd' o' - Lifetime.one_at2 fd o fd' o').
Proof. intros. by apply Lifetime.Inv_reject. Qed.

Lemma owned_put others fd o :
  0 < na fd o ->
  owned (put others fd o s) (fun o' => nh o' + Lifetime.one_at o o')
    (fun fd' o' => na fd' o' - Lifetime.one_at2 fd o fd' o').
Proof.
  intros Hp. unfold put. rewrite (owned_not_in_map fd o Hp). cbn [drop_entry].
  apply Lifetime.Inv_insert; [apply lookup_insert_eq|]. by apply Lifetime.Inv_create.
Qed.

Lemma owned_copy fd o :
  connections s !! fd = Some o -> owned s (fun o' => nh o' + Lifetime.one_at o o') na.
Proof.
  intros E. apply Lifetime.Inv_copy; [|exact HI]. exists fd. by eapply (Lifetime.inv_conn _ _ _ _ _ _ _ HI).
Qed.

Lemma owned_take_out fd o :
  connections s !! fd = Some o -> owned (take_out fd s) (fun o' => nh o' + Lifetime.one_at o o') na.
Proof. intros E. by apply Lifetime.Inv_erase. Qed.

Lemma uses_zero o :
  Z.of_nat (size (filter (fun e => e.2 = o) (connections s))) = 0 <-> forall fd, connections s !! fd <> Some o.
Proof.
  trans (size (filter (fun e => e.2 = o) (connections s)) = 0%nat); [lia|]. rewrite map_size_empty_iff. split.
  - intros E fd Hfd. assert (filter (fun e => e.2 = o) (connections s) !! fd = Some o) as H'
      by by apply map_lookup_filter_Some. by rewrite E in H'.
  - intros E. apply map_empty. intros fd. apply map_lookup_filter_None. right. intros o' Hfd Ho.
    cbn in Ho. subst o'. by apply (E fd).
Qed.

(** A reference goes out of scope, and with the last one the object. *)
Lemma owned_drop o :
  0 < nh o -> owned (drop (nh o - 1) o s) (fun o' => nh o' - Lifetime.one_at o o') na.
Proof.
  intros Hp. pose proof (Lifetime.Inv_release _ _ _ _ _ _ o Hp HI) as HR. unfold drop.
  set (m := Z.of_nat (size (filter (fun e => e.2 = o) (connections s)))).
  destruct (Z.eqb_spec (m + (nh o - 1)) 0) as [Hz|Hz].
  - assert (forall fd, connections s !! fd <> Some o) as Hc by (apply uses_zero; subst m; lia).
    destruct (owned_held o Hp) as (fd & Ho & _).
    destruct (Lifetime.inv_heap _ _ _ _ _ _ _ HI _ _ Ho) as [_ Hfd]. unfold destroy. rewrite Ho.
    destruct (Z.leb_spec 0 fd); [|lia]. apply (Lifetime.Inv_destroy _ _ _ _ _ _ o fd); [done|done| |exact HR].
    destruct (Lifetime.one_at_cases o o) as [[_ ->]|[? _]]; [subst m; lia|done].
  - destruct HR as [Hheap Hconn Hheld Hacc Hker Hinj Hnx Href Hnn]. constructor; try done.
    intros o' fd E _. destruct (decide (o' = o)) as [->|]; [|apply Href; congruence].
    destruct (Lifetime.one_at_cases o o) as [[_ ->]|[? _]]; [|done].
    destruct (decide (m = 0)) as [Hm|Hm]; [right; subst m; lia|left].
    destruct (decide (connections s !! fd = Some o)) as [|Hne]; [done|]. destruct Hm. apply uses_zero.
    intros fd' Hfd'. apply Hconn in Hfd' as E'. congruence.
Qed.
End Owned.

Lemma owned_init nh na : (forall o, nh o = 0) -> (forall fd o, na fd o = 0) -> owned init nh na.
Proof.
  intros Hh Ha. constructor; intros *; cbn [init kernel next heap connections]; rewrite ?Hh, ?Ha, ?lookup_empty;
    try done; lia.
Qed.

End Objects.
