(* ===== verification/EventLoop.v ===== *)
(** * [EventLoop]: the tasks that serve a connection

    [src/src/network/EventLoop.cpp]: the bodies of the two lambdas that
    [handle_client_read] and [handle_client_write] give to the thread pool.
    Logging is left out ([LogGuard] has it), handlers return ([TaskErrors] has
    those that throw); the loop itself is in [Loop].  How
    accepting and removing connections interleave is in [Admission]. *)

From Stdlib Require Import QArith.
From S2P Require Import Prelude CppStd Headers Request Parser Response Encoder Router Connection.
#[local] Open Scope Z_scope.

Module EventLoop.

Definition EPOLLIN : Z := 1.
Definition EPOLLOUT : Z := 4.
Definition EPOLLERR : Z := 8.
Definition EPOLLHUP : Z := 16.
Definition EPOLLONESHOT : Z := 2 ^ 30.
Definition EPOLLET : Z := 2 ^ 31.

(** [ev & mask] as a condition. *)
Definition has_flag (mask ev : Z) : bool := negb (Z.land ev mask =? 0).

(** How a task ends: with [remove_connection(client_fd)], or with
    [modify_epoll(client_fd, flags)] and, if [resubmit], a further read task. *)
Inductive task_end :=
| Remove
| Rearm (flags : Z) (resubmit : bool).

Section Tasks.
Context {K : Type} `{Env K} (ord : gmap bytes bytes -> list (bytes * bytes)) (router : HttpRouter.t).

(** ** [handle_client_read] *)

Definition RECV_SIZE : Z := 4096.

(** 1. Drain the socket.  The result is [close_connections]; [None] when the
    peer is still sending after [fuel] passes. *)
Fixpoint drain (fuel : nat) (conn : Connection.t) (k : K) : option (bool * Connection.t * K) :=
  match fuel with
  | O => None
  | S f =>
      let '(st, k1) := env_state k in
      if bool_decide (st = LoopState.RUNNING) then
        let '(r, k2) := env_recv (Connection.fd conn) RECV_SIZE k1 in
        match r with
        | RecvData d =>
            let '(t, k3) := env_now k2 in drain f (Connection.append_read_data d t conn) k3
        | RecvEof => Some (true, conn, k2)
        | RecvAgain => Some (false, conn, k2)
        | RecvError => Some (true, conn, k2)
        end
      else Some (false, conn, k1)
  end.

Definition bad_request_res : HttpResponse.t :=
  HttpResponse.finalize_for_connection false false
    (HttpResponse.html (bs "<h1>400 Bad Request</h1>")
      (HttpResponse.set_status 400 (bs "Bad Request") HttpResponse.init)).

Definition too_many_requests_res : HttpResponse.t :=
  HttpResponse.finalize_for_connection false false
    (HttpResponse.html (bs "<h1>429 Too Many Requests</h1>")
      (HttpResponse.set_header (bs "Retry-After") (bs "1")
        (HttpResponse.set_status 429 (bs "Too Many Requests") HttpResponse.init))).

(** The handler's response, made ready for this connection. *)
Definition respond (req : HttpRequest.t) : HttpResponse.t :=
  let keep_alive := HttpRequest.wants_keep_alive req in
  let is_head := bool_decide (HttpRequest.method req = HttpMethod.HEAD) in
  HttpResponse.finalize_for_connection keep_alive is_head (HttpRouter.route router req).

(** [HttpResponseEncoder::encode(res)], with [is_head_request = false]. *)
Definition wire_of (res : HttpResponse.t) : bytes :=
  fst (HttpResponseEncoder.encode ord res false).

Definition queue_response (res : HttpResponse.t) (conn : Connection.t) (k : K) : Connection.t * K :=
  let '(t, k') := env_now k in (Connection.append_unsent_data (wire_of res) t conn, k').

(** An error answer: queue it, flush once, then [goto cleanup]. *)
Definition answer_and_close (res : HttpResponse.t) (conn : Connection.t) (k : K) : Connection.t * K :=
  let '(conn1, k1) := queue_response res conn k in
  let '(_, conn2, _, k2) := Connection.flush conn1 false k1 in (conn2, k2).

(** How the parse loop is left: [goto cleanup] with [close_connections] set, or
    with the values of [close_after_response] and [has_more_parseable]. *)
Inductive parse_exit :=
| ToCleanup
| LoopDone (close_after_response has_more_parseable : bool).

(** 2. The parse loop. *)
Fixpoint process (fuel : nat) (loop_counter : Z) (conn : Connection.t) (k : K)
  : option (parse_exit * Connection.t * K) :=
  if bool_decide (Connection.read_buffer conn = []) then Some (LoopDone false false, conn, k)
  else
    match fuel with
    | O => None
    | S f =>
        let loop_counter := loop_counter + 1 in
        let '(p_result, cfg) := HttpRequestParser.parse (Connection.to_cfg conn) in
        let conn := Connection.of_cfg cfg conn in
        match p_result with
        | ParseResult.Incomplete => Some (LoopDone false false, conn, k)
        | ParseResult.Error =>
            let '(conn, k) := answer_and_close bad_request_res conn k in Some (ToCleanup, conn, k)
        | ParseResult.Success =>
            let '(allowed, k) := env_allow (Connection.client_ip conn) k in
            if negb allowed then
              let '(conn, k) := answer_and_close too_many_requests_res conn k in
              Some (ToCleanup, conn, k)
            else
              let res := respond (Connection.request conn) in
              let close_after_response := HttpResponse.close_after_send res in
              let '(conn, k) := queue_response res conn k in
              let conn := Connection.reset_http conn in
              if close_after_response then Some (LoopDone true false, conn, k)
              else if 50 <? loop_counter then Some (LoopDone false true, conn, k)
              else process f loop_counter conn k
        end
    end.

(** The loop breaks in its 51st round at the latest ([process_total]). *)
Definition PROCESS_FUEL : nat := 51.

(** 3. and 4. Flush, then close or re-arm. *)
Definition finish (close_after_response has_more_parseable : bool) (conn : Connection.t) (k : K)
  : task_end * Connection.t * K :=
  let '(fully_flushed, conn, has_error, k) := Connection.flush conn false k in
  if has_error then (Remove, conn, k)
  else if close_after_response then
    if fully_flushed then (Remove, conn, k)
    else (Rearm (Z.lor (Z.lor EPOLLOUT EPOLLET) EPOLLONESHOT) false,
          Connection.mark_close_after_write conn, k)
  else
    let flags := Z.lor (Z.lor EPOLLIN EPOLLET) EPOLLONESHOT in
    let flags :=
      if negb fully_flushed || Connection.has_pending_writes conn then Z.lor flags EPOLLOUT else flags in
    if has_more_parseable then
      let '(st, k) := env_state k in (Rearm flags (bool_decide (st = LoopState.RUNNING)), conn, k)
    else (Rearm flags false, conn, k).

Definition read_task (fuel : nat) (conn : Connection.t) (k : K)
  : option (task_end * Connection.t * K) :=
  match drain fuel conn k with
  | None => None
  | Some (true, conn, k) => Some (Remove, conn, k)
  | Some (false, conn, k) =>
      match process PROCESS_FUEL 0 conn k with
      | None => None
      | Some (ToCleanup, conn, k) => Some (Remove, conn, k)
      | Some (LoopDone close_after_response has_more_parseable, conn, k) =>
          Some (finish close_after_response has_more_parseable conn k)
      end
  end.

(** ** [handle_client_write] *)

Definition write_task (conn : Connection.t) (k : K) : task_end * Connection.t * K :=
  let '(fully_flushed, conn, has_error, k) := Connection.flush conn false k in
  let should_close := if fully_flushed then Connection.should_close_after_write conn else false in
  if has_error then (Remove, conn, k)
  else if should_close then (Remove, conn, k)
  else
    let '(st, k) := env_state k in
    if fully_flushed then
      if bool_decide (st = LoopState.RUNNING)
      then (Rearm (Z.lor (Z.lor EPOLLIN EPOLLET) EPOLLONESHOT) false, conn, k)
      else (Remove, conn, k)
    else
      let flags := Z.lor (Z.lor EPOLLOUT EPOLLET) EPOLLONESHOT in
      let flags := if bool_decide (st = LoopState.RUNNING) then Z.lor flags EPOLLIN else flags in
      (Rearm flags false, conn, k).

End Tasks.
End EventLoop.
