(* ===== verification/EventLoopSpec.v ===== *)
(** * What the connection tasks guarantee

    The parse loop ends, pipelined requests are answered in order, refused
    input is answered once and closes, and no connection with pending output is
    left unwatched. *)

From S2P Require Import Prelude CppStd Headers Request Parser ParserLoop ParserSpec RequestWire.
From S2P Require Import Response Encoder EncoderSpec Router App Connection EventLoop.
#[local] Open Scope Z_scope.

Import EventLoop.

Module EventLoopSpec.

Section Total.
Context {K : Type} `{Env K} (ord : gmap bytes bytes -> list (bytes * bytes)) (router : HttpRouter.t).

Lemma process_some fuel loop_counter conn k :
  51 - Z.of_nat fuel <= loop_counter -> loop_counter <= 50 ->
  is_Some (process ord router fuel loop_counter conn k).
Proof.
  revert loop_counter conn k; induction fuel as [|f IH]; intros lc conn k Hlo Hhi; [lia|].
  cbn [process]. case_bool_decide; [by eexists|].
  destruct (HttpRequestParser.parse _) as [[] cfg].
  - destruct (env_allow _ k) as [[] k1]; cbn [negb].
    + destruct (queue_response _ _ _ _) as [conn2 k2].
      destruct (HttpResponse.close_after_send _); [by eexists|].
      destruct (Z.ltb_spec 50 (lc + 1)); [by eexists|]. apply IH; lia.
    + destruct (answer_and_close _ _ _ _); by eexists.
  - by eexists.
  - destruct (answer_and_close _ _ _ _); by eexists.
Qed.

(** The parse loop terminates on every connection and under every
    behaviour of the environment: a call with the loop counter at 0 is over
    within [PROCESS_FUEL] rounds. *)
Lemma process_total conn k :
  exists e conn' k', process ord router PROCESS_FUEL 0 conn k = Some (e, conn', k').
Proof.
  destruct (process_some PROCESS_FUEL 0 conn k) as [[[e conn'] k'] Hp]; [done..|].
  by exists e, conn', k'.
Qed.
End Total.

(** ** Messages on the wire *)

(** [w] is one whole request message, parsed as [req]. *)
Definition message (w : bytes) (req : HttpRequest.t) : Prop :=
  exists p, HttpRequestParser.parse (ParserSpec.initial w) =
    (ParseResult.Success, HttpRequestParser.mk_cfg p [] req).

(** What is left in the buffer is no whole message. *)
Definition unfinished (tail : bytes) : Prop :=
  (HttpRequestParser.parse (ParserSpec.initial tail)).1 = ParseResult.Incomplete.

Lemma message_push w req rest :
  message w req ->
  exists p, HttpRequestParser.parse (ParserSpec.initial (w ++ rest)) =
    (ParseResult.Success, HttpRequestParser.mk_cfg p rest req).
Proof.
  intros [p Hp]. exists p.
  pose proof (ParserLoop.parse_runs (ParserSpec.initial w)) as Hr. rewrite Hp in Hr.
  apply (ParserLoop.runs_success_push _ _ rest) in Hr. by apply ParserLoop.runs_parse in Hr.
Qed.

Lemma message_nonempty w req : message w req -> w <> [].
Proof. intros [p Hp] ->. by vm_compute in Hp. Qed.

(** The parser state between two requests. *)
Definition fresh (conn : Connection.t) : Prop :=
  Connection.parser conn = HttpRequestParser.init /\ Connection.request conn = HttpRequest.init.

Lemma to_cfg_fresh conn :
  fresh conn -> Connection.to_cfg conn = ParserSpec.initial (Connection.read_buffer conn).
Proof. intros [H1 H2]. unfold Connection.to_cfg. by rewrite H1, H2. Qed.

Lemma fresh_reset conn : fresh (Connection.reset_http conn).
Proof. done. Qed.

(** ** The tasks and the wire *)

Section Wire.
Context {K : Type} `{Env K} (sent received : K -> Z -> bytes) `{!EnvLaws K sent received}.
Context (ord : gmap bytes bytes -> list (bytes * bytes)) (router : HttpRouter.t).

#[local] Abbreviation wire_of := (wire_of ord).
#[local] Abbreviation respond := (respond router).

Lemma queue_response_spec res conn k :
  let '(conn', k') := queue_response ord res conn k in
  Connection.write_buffer conn' = Connection.write_buffer conn ++ wire_of res /\
  sent k' = sent k /\ received k' = received k /\
  Connection.read_buffer conn' = Connection.read_buffer conn /\
  Connection.fd conn' = Connection.fd conn /\ Connection.request conn' = Connection.request conn /\
  Connection.client_ip conn' = Connection.client_ip conn.
Proof.
  unfold queue_response. destruct (env_now k) as [t k'] eqn:E. apply law_now in E as [Es Er].
  by split_and!.
Qed.

(** Draining appends to the read buffer what the socket delivered. *)
Lemma drain_spec fuel conn k b conn' k' :
  drain fuel conn k = Some (b, conn', k') ->
  exists d,
    Connection.read_buffer conn' = Connection.read_buffer conn ++ d /\
    received k' (Connection.fd conn) = received k (Connection.fd conn) ++ d /\
    sent k' (Connection.fd conn) = sent k (Connection.fd conn) /\
    Connection.write_buffer conn' = Connection.write_buffer conn /\
    Connection.fd conn' = Connection.fd conn /\ (fresh conn -> fresh conn').
Proof.
  revert conn k; induction fuel as [|f IH]; intros conn k; cbn [drain]; [done|].
  destruct (env_state k) as [st k1] eqn:E1. apply law_state in E1 as [Es Er]. case_bool_decide.
  2:{ intros [= <- <- <-]. exists []. rewrite Es, Er, !app_nil_r. by split_and!. }
  destruct (env_recv _ _ k1) as [r k2] eqn:E2. apply (law_recv (Connection.fd conn)) in E2 as [Es2 E2].
  destruct r as [d| | |].
  2,3,4: intros [= <- <- <-]; exists []; rewrite Es2, E2, Es, Er, !app_nil_r; by split_and!.
  destruct (env_now k2) as [t k3] eqn:E3. apply law_now in E3 as [Es3 Er3].
  destruct E2 as [_ E2]. intros (d' & H1 & H2 & H3 & H4 & H5 & H6)%IH. exists (d ++ d').
  cbn in *. rewrite H1, H2, H3, H4, H5, Es3, Er3, E2, Es2, Es, Er, !app_assoc. by split_and!.
Qed.

(** The responses to a run of requests: the one that closes is the last. *)
Fixpoint served (reqs : list HttpRequest.t) : list HttpResponse.t :=
  match reqs with
  | [] => []
  | req :: reqs' =>
      respond req :: (if HttpResponse.close_after_send (respond req) then [] else served reqs')
  end.

Definition closes (reqs : list HttpRequest.t) : bool :=
  existsb (fun req => HttpResponse.close_after_send (respond req)) reqs.

(** An environment whose limiter lets requests through, for as long as the task
    runs. *)
Definition permissive (calm : K -> Prop) : Prop :=
  forall k, calm k -> calm (env_now k).2 /\
    forall ip, (env_allow ip k).1 = true /\ calm (env_allow ip k).2.

Lemma process_pipeline calm ws reqs tail fuel lc conn k :
  permissive calm -> calm k -> Forall2 message ws reqs -> unfinished tail -> fresh conn ->
  Connection.read_buffer conn = concat ws ++ tail ->
  lc + zlen ws <= 50 -> (length ws < fuel)%nat ->
  exists conn' k',
    process ord router fuel lc conn k = Some (LoopDone (closes reqs) false, conn', k') /\
    Connection.write_buffer conn' =
      Connection.write_buffer conn ++ concat (wire_of <$> served reqs) /\
    Connection.fd conn' = Connection.fd conn /\ sent k' = sent k.
Proof.
  intros Hperm Hcalm Hws Htail. revert fuel lc conn k Hcalm.
  induction Hws as [|w req ws reqs Hw Hws IH]; intros fuel lc conn k Hcalm Hf Hbuf Hlc Hfuel;
    (destruct fuel as [|f]; [cbn in Hfuel; lia|]); cbn [process].
  - cbn [concat app] in Hbuf. rewrite Hbuf. case_bool_decide.
    + exists conn, k. cbn. rewrite app_nil_r. by split_and!.
    + rewrite (to_cfg_fresh conn Hf), Hbuf. unfold unfinished in Htail.
      destruct (HttpRequestParser.parse _) as [r cfg]. cbn in Htail. subst r.
      eexists _, k. split; [done|]. cbn. by rewrite app_nil_r.
  - rewrite zlen_cons in Hlc. pose proof (zlen_nonneg ws). cbn [length] in Hfuel.
    cbn [concat] in Hbuf. rewrite <- app_assoc in Hbuf. rewrite Hbuf, bool_decide_false.
    2:{ pose proof (message_nonempty _ _ Hw). by destruct w. }
    destruct (message_push _ _ (concat ws ++ tail) Hw) as [p Hp].
    rewrite (to_cfg_fresh conn Hf), Hbuf, Hp.
    destruct (Hperm k Hcalm) as [_ Hallow]. specialize (Hallow (Connection.client_ip conn)).
    change (Connection.client_ip (Connection.of_cfg _ conn)) with (Connection.client_ip conn).
    destruct (env_allow _ k) as [ok k1] eqn:Ea. cbn in Hallow. destruct Hallow as [-> Hcalm1].
    apply law_allow in Ea as [Hs1 _]. cbn [negb]. unfold queue_response.
    pose proof (proj1 (Hperm k1 Hcalm1)) as Hcalm2.
    destruct (env_now k1) as [t k2] eqn:En. apply law_now in En as [Hs2 _]. cbn in Hcalm2.
    change (Connection.request (Connection.of_cfg _ conn)) with req.
    cbn [closes existsb served]. destruct (HttpResponse.close_after_send (respond req)); cbn [orb].
    + eexists _, k2. split; [done|]. cbn. by rewrite app_nil_r, Hs2, Hs1.
    + destruct (Z.ltb_spec 50 (lc + 1)); [lia|].
      match goal with |- context [process ord router f _ ?c ?k] =>
        destruct (IH f (lc + 1) c k) as (conn' & k' & Hproc & Hwb & Hfd & Hs) end;
        [exact Hcalm2|apply fresh_reset|reflexivity|lia|lia|].
      eexists _, k'. split; [exact Hproc|]. rewrite Hwb, Hfd, Hs, Hs2, Hs1. cbn.
      by rewrite <- app_assoc.
Qed.

Lemma finish_wire close more conn k e conn' k' :
  finish close more conn k = (e, conn', k') ->
  sent k' (Connection.fd conn) ++ Connection.write_buffer conn' =
    sent k (Connection.fd conn) ++ Connection.write_buffer conn.
Proof.
  unfold finish. pose proof (Connection.flush_spec sent received conn false k) as Hf.
  destruct (Connection.flush conn false k) as [[[ok c1] err] k1]. destruct Hf as (Hf & _).
  repeat match goal with
  | |- context [if ?b then _ else _] => destruct b
  | |- context [let '(_, _) := env_state ?k in _] =>
      let E := fresh "E" in destruct (env_state k) eqn:E; apply law_state in E as [E _]
  end; intros [= <- <- <-]; cbn; by rewrite ?E.
Qed.

Lemma read_task_pipeline calm fuel conn k conn1 k1 ws reqs tail :
  permissive calm -> drain fuel conn k = Some (false, conn1, k1) -> calm k1 ->
  fresh conn -> Connection.read_buffer conn1 = concat ws ++ tail ->
  Forall2 message ws reqs -> unfinished tail -> zlen ws <= 50 ->
  exists e conn' k',
    read_task ord router fuel conn k = Some (e, conn', k') /\
    sent k' (Connection.fd conn) ++ Connection.write_buffer conn' =
      sent k (Connection.fd conn) ++ Connection.write_buffer conn ++
      concat (wire_of <$> served reqs).
Proof.
  intros Hperm Hd Hcalm Hf Hbuf Hws Htail Hlen. unfold read_task. rewrite Hd.
  apply drain_spec in Hd as (d & _ & _ & Hs1 & Hwb1 & Hfd1 & Hf1).
  destruct (process_pipeline calm ws reqs tail PROCESS_FUEL 0 conn1 k1) as (conn2 & k2 & -> & Hwb & Hfd & Hs2);
    [auto..|unfold PROCESS_FUEL; unfold zlen in Hlen; lia|].
  destruct (finish _ _ conn2 k2) as [[e conn'] k'] eqn:E. exists e, conn', k'. split; [done|].
  apply finish_wire in E. rewrite Hfd, Hfd1 in E. rewrite E, Hs2, Hs1, Hwb, Hwb1. done.
Qed.

(** C5: Pipelined requests are answered in order.  When the drained buffer
    holds up to 50 whole request messages followed by an unfinished rest, and
    the rate limiter lets them through, the task puts on the wire (or leaves
    queued behind it) exactly the encoded responses of the router, in request
    order, up to the first response that closes the connection. *)
Theorem pipelining_in_order calm fuel conn k conn1 k1 ws reqs tail :
  permissive calm -> drain fuel conn k = Some (false, conn1, k1) -> calm k1 ->
  fresh conn -> Connection.read_buffer conn1 = concat ws ++ tail ->
  Forall2 message ws reqs -> unfinished tail -> zlen ws <= 50 ->
  exists e conn' k',
    read_task ord router fuel conn k = Some (e, conn', k') /\
    sent k' (Connection.fd conn) ++ Connection.write_buffer conn' =
      sent k (Connection.fd conn) ++ Connection.write_buffer conn ++
      concat (wire_of <$> served reqs).
Proof. apply read_task_pipeline. Qed.

(** ** Refused input *)

Lemma answer_and_close_wire res conn k :
  let '(conn', k') := answer_and_close ord res conn k in
  sent k' (Connection.fd conn) ++ Connection.write_buffer conn' =
    sent k (Connection.fd conn) ++ Connection.write_buffer conn ++ wire_of res /\
  Connection.as_far_as_it_goes (Connection.fd conn) (Connection.write_buffer conn') k'.
Proof.
  unfold answer_and_close. pose proof (queue_response_spec res conn k) as Hq.
  destruct (queue_response _ _ _ _) as [c1 k1]. destruct Hq as (Hwb & Hs & _ & _ & Hfd & _).
  pose proof (Connection.flush_spec sent received c1 false k1) as Hf.
  pose proof (Connection.flush_pushes sent received c1 false k1) as Hp.
  destruct (Connection.flush c1 false k1) as [[[ok c2] err] k2]. destruct Hf as (Hf & _).
  rewrite <- Hfd. split; [by rewrite Hf, Hwb, Hs, Hfd|done].
Qed.

(** C22: Input the parser refuses is answered by the 400 response and the
    connection is removed, and a request the rate limiter refuses by the 429
    response; nothing else is added to the output, and the router is not
    consulted.  The answer is sent before the connection goes, as far as the
    socket takes it: if bytes of it are left, the last call the task made was a
    [send] of them which sent none. *)
Theorem refused_input_closes fuel conn k conn1 k1 :
  drain fuel conn k = Some (false, conn1, k1) -> Connection.read_buffer conn1 <> [] ->
  let p := HttpRequestParser.parse (Connection.to_cfg conn1) in
  let refusal :=
    match p.1 with
    | ParseResult.Error => Some bad_request_res
    | ParseResult.Success =>
        if (env_allow (Connection.client_ip conn1) k1).1 then None else Some too_many_requests_res
    | ParseResult.Incomplete => None
    end in
  forall res, refusal = Some res ->
  exists conn' k',
    read_task ord router fuel conn k = Some (Remove, conn', k') /\
    sent k' (Connection.fd conn) ++ Connection.write_buffer conn' =
      sent k (Connection.fd conn) ++ Connection.write_buffer conn ++ wire_of res /\
    Connection.as_far_as_it_goes (Connection.fd conn) (Connection.write_buffer conn') k'.
Proof.
  intros Hd Hbuf p refusal res Hres. unfold read_task. rewrite Hd.
  apply drain_spec in Hd as (d & _ & _ & Hs1 & Hwb1 & Hfd1 & _).
  unfold PROCESS_FUEL. cbn [process]. rewrite bool_decide_false by done.
  subst refusal. fold p. destruct p as [r cfg]. cbn [fst] in Hres.
  set (c2 := Connection.of_cfg cfg conn1).
  assert (forall k2, sent k2 = sent k1 ->
    let '(conn', k') := answer_and_close ord res c2 k2 in
    sent k' (Connection.fd conn) ++ Connection.write_buffer conn' =
      sent k (Connection.fd conn) ++ Connection.write_buffer conn ++ wire_of res /\
    Connection.as_far_as_it_goes (Connection.fd conn) (Connection.write_buffer conn') k') as Hans.
  { intros k2 Hk2. pose proof (answer_and_close_wire res c2 k2) as Ha.
    destruct (answer_and_close _ _ _ _) as [c3 k3]. cbn in Ha.
    by rewrite Hfd1, Hwb1, Hk2, Hs1 in Ha. }
  destruct r; [|done|].
  - change (Connection.client_ip c2) with (Connection.client_ip conn1).
    destruct (env_allow _ k1) as [[] k2] eqn:Ea; [done|]. cbn in Hres. injection Hres as <-.
    cbn [negb]. apply law_allow in Ea as [Ea _]. specialize (Hans k2 Ea).
    destruct (answer_and_close _ _ _ _) as [c3 k3]. by exists c3, k3.
  - injection Hres as <-. specialize (Hans k1 eq_refl).
    destruct (answer_and_close _ _ _ _) as [c3 k3]. by exists c3, k3.
Qed.

(** ** Watching a connection *)

(** How a task leaves a connection it does not remove. *)
Definition watched (flags : Z) (conn : Connection.t) : Prop :=
  has_flag EPOLLONESHOT flags = true /\ has_flag EPOLLET flags = true /\
  has_flag (if Connection.has_pending_writes conn then EPOLLOUT else EPOLLIN) flags = true.

Lemma flush_pending conn k :
  let '(ok, conn', err, _) := Connection.flush conn false k in
  Connection.has_pending_writes conn' = negb ok.
Proof.
  pose proof (Connection.flush_spec sent received conn false k) as Hf.
  destruct (Connection.flush conn false k) as [[[ok c1] err] k1]. destruct Hf as (_ & Hok & _).
  unfold Connection.has_pending_writes. f_equal. destruct ok; case_bool_decide; naive_solver.
Qed.

Lemma finish_watched close more conn k flags b conn' k' :
  finish close more conn k = (Rearm flags b, conn', k') -> watched flags conn'.
Proof.
  unfold finish. pose proof (flush_pending conn k) as Hp.
  destruct (Connection.flush conn false k) as [[[ok c1] err] k1].
  destruct err; [done|]. destruct close, ok; cbn [negb orb] in *; try done.
  - intros [= <- <- <- <-]. unfold watched.
    change (Connection.has_pending_writes (Connection.mark_close_after_write c1))
      with (Connection.has_pending_writes c1). by rewrite Hp.
  - rewrite Hp. destruct more; [destruct (env_state k1) as [st k2]|];
      intros [= <- <- <- <-]; unfold watched; by rewrite Hp.
  - destruct more; [destruct (env_state k1) as [st k2]|];
      intros [= <- <- <- <-]; unfold watched; by rewrite Hp.
Qed.

Lemma read_task_watched fuel conn k flags b conn' k' :
  read_task ord router fuel conn k = Some (Rearm flags b, conn', k') -> watched flags conn'.
Proof.
  unfold read_task. destruct (drain fuel conn k) as [[[[] c1] k1]|]; try done.
  destruct (process _ _ _ 0 c1 k1) as [[[[|close more] c2] k2]|]; try done.
  intros [= Hfin]. by eapply finish_watched.
Qed.

(** A write task that has drained a connection marked to close removes it. *)
Lemma write_task_spec conn k :
  match write_task conn k with
  | (Rearm flags _, conn', _) =>
      watched flags conn' /\
      (Connection.should_close_after_write conn = true -> Connection.has_pending_writes conn' = true)
  | (Remove, _, _) => True
  end.
Proof.
  unfold write_task. pose proof (flush_pending conn k) as Hp.
  pose proof (Connection.flush_spec sent received conn false k) as Hf.
  destruct (Connection.flush conn false k) as [[[ok c1] err] k1].
  destruct Hf as (_ & _ & _ & Hc). destruct err; [done|].
  assert (Connection.should_close_after_write c1 = Connection.should_close_after_write conn) as Hsc
    by by rewrite <- Hc.
  rewrite Hsc. destruct ok; cbn [negb] in Hp;
    [destruct (Connection.should_close_after_write conn); [done|]|];
    destruct (env_state k1) as [st k2]; case_bool_decide; try done; unfold watched; by rewrite Hp.
Qed.

Lemma write_task_watched conn k flags b conn' k' :
  write_task conn k = (Rearm flags b, conn', k') -> watched flags conn'.
Proof. intros E. pose proof (write_task_spec conn k) as Hw. rewrite E in Hw. apply Hw. Qed.

(** ** Divergences *)

(** A read pass that meets end-of-file discards what it has just received:
    a client that sends a whole request and then shuts down its sending side
    gets no answer, although the request was complete. *)
Lemma eof_discards_request fuel conn k conn1 k1 w req :
  drain fuel conn k = Some (true, conn1, k1) ->
  fresh conn -> Connection.read_buffer conn1 = w -> message w req ->
  read_task ord router fuel conn k = Some (Remove, conn1, k1) /\
  sent k1 (Connection.fd conn) = sent k (Connection.fd conn) /\
  Connection.write_buffer conn1 = Connection.write_buffer conn /\
  (HttpRequestParser.parse (Connection.to_cfg conn1)).1 = ParseResult.Success.
Proof.
  intros Hd Hf Hbuf [p Hp]. unfold read_task. rewrite Hd. split; [done|].
  apply drain_spec in Hd as (d & _ & _ & Hs & Hwb & _ & Hf1). split; [done|]. split; [done|].
  rewrite (to_cfg_fresh conn1 (Hf1 Hf)), Hbuf, Hp. done.
Qed.
(** The requests of a run that are answered. *)
Fixpoint answered (reqs : list HttpRequest.t) : list HttpRequest.t :=
  match reqs with
  | [] => []
  | req :: reqs' =>
      req :: (if HttpResponse.close_after_send (respond req) then [] else answered reqs')
  end.

Lemma served_answered reqs : served reqs = respond <$> answered reqs.
Proof.
  induction reqs as [|req reqs IH]; [done|]. cbn [served answered fmap list_fmap]. f_equal.
  rewrite IH. by destruct (HttpResponse.close_after_send _).
Qed.

(** The answer the encoder gives when it is told that the request was a HEAD. *)
Definition proper_wire (req : HttpRequest.t) : bytes :=
  (HttpResponseEncoder.encode ord (respond req) (bool_decide (HttpRequest.method req = HttpMethod.HEAD))).1.

(** The body of the answer as [encode] puts it on the wire. *)
Definition body_wire (req : HttpRequest.t) : bytes :=
  EncoderSpec.payload (HttpResponseEncoder.set_response_header (respond req)).

Lemma wire_split req : wire_of (respond req) = (HttpResponseEncoder.encode ord (respond req) true).1 ++ body_wire req.
Proof.
  unfold EventLoop.wire_of, body_wire. rewrite !EncoderSpec.encode_eq. cbv zeta. cbn [fst].
  by rewrite app_nil_r, <- !app_assoc.
Qed.

Lemma body_wire_body req :
  let body := HttpResponse.body (HttpRouter.route router req) in
  0 < zlen body <= HttpResponseEncoder.MAX_CHUCK_SIZE -> body_wire req = body.
Proof.
  cbv zeta. intros H0. unfold body_wire, HttpResponseEncoder.set_response_header. cbv zeta.
  change (HttpResponse.body (respond req)) with (HttpResponse.body (HttpRouter.route router req)).
  destruct (Z.ltb_spec HttpResponseEncoder.MAX_CHUCK_SIZE (zlen (HttpResponse.body (HttpRouter.route router req)))); [lia|].
  destruct (Z.eqb_spec (zlen (HttpResponse.body (HttpRouter.route router req))) 0); [lia|]. done.
Qed.

Lemma wire_proper req :
  wire_of (respond req) =
    proper_wire req ++ (if bool_decide (HttpRequest.method req = HttpMethod.HEAD) then body_wire req else []).
Proof.
  unfold proper_wire. case_bool_decide; [apply wire_split|]. by rewrite app_nil_r.
Qed.

(** The surplus of an answer to HEAD is the only one. *)
Lemma wire_length reqs :
  (length (concat (proper_wire <$> reqs)) <= length (concat (wire_of <$> (respond <$> reqs))))%nat /\
  (length (concat (proper_wire <$> reqs)) = length (concat (wire_of <$> (respond <$> reqs))) ->
   Forall (fun req => HttpRequest.method req = HttpMethod.HEAD -> body_wire req = []) reqs).
Proof.
  induction reqs as [|req reqs [IH1 IH2]]; [by split; [|constructor]|].
  cbn [fmap list_fmap concat]. rewrite wire_proper, !length_app. split; [lia|].
  intros Hlen. constructor; [|apply IH2; lia]. intros Hh. rewrite bool_decide_true in Hlen by done.
  apply nil_length_inv. lia.
Qed.

Lemma wire_all_proper reqs :
  Forall (fun req => HttpRequest.method req = HttpMethod.HEAD -> body_wire req = []) reqs ->
  concat (wire_of <$> (respond <$> reqs)) = concat (proper_wire <$> reqs).
Proof.
  induction 1 as [|req reqs Hreq _ IH]; [done|]. cbn [fmap list_fmap concat].
  rewrite wire_proper, IH. case_bool_decide; [by rewrite Hreq, app_nil_r|by rewrite app_nil_r].
Qed.

(** C36: Responses to HEAD carry their body.  The loop computes [is_head] but
    calls [encode] without it.  In the situation of [pipelining_in_order], the
    bytes the task puts on the wire are what a server that tells [encode] about
    HEAD would put there if and only if no answered HEAD request has a body in
    its response.  At the first HEAD request that has one, the client finds
    behind the head the bytes of the body, which [body_wire_body] says are the
    handler's body, up to 64 KiB, and behind those the answers to the rest. *)
Theorem head_response_has_body calm fuel conn k conn1 k1 ws reqs tail :
  permissive calm -> drain fuel conn k = Some (false, conn1, k1) -> calm k1 ->
  fresh conn -> Connection.read_buffer conn1 = concat ws ++ tail ->
  Forall2 message ws reqs -> unfinished tail -> zlen ws <= 50 ->
  exists e conn' k' out,
    read_task ord router fuel conn k = Some (e, conn', k') /\
    sent k' (Connection.fd conn) ++ Connection.write_buffer conn' =
      sent k (Connection.fd conn) ++ Connection.write_buffer conn ++ out /\
    (out = concat (proper_wire <$> answered reqs) <->
     Forall (fun req => HttpRequest.method req = HttpMethod.HEAD -> body_wire req = []) (answered reqs)) /\
    forall pre req post,
      answered reqs = pre ++ req :: post -> HttpRequest.method req = HttpMethod.HEAD ->
      Forall (fun req => HttpRequest.method req = HttpMethod.HEAD -> body_wire req = []) pre ->
      out = concat (proper_wire <$> pre) ++ proper_wire req ++ body_wire req ++
            concat (wire_of <$> (respond <$> post)).
Proof.
  intros Hperm Hd Hcalm Hf Hbuf Hws Htail Hlen.
  destruct (read_task_pipeline calm fuel conn k conn1 k1 ws reqs tail) as (e & conn' & k' & Hr & Hw); [done..|].
  exists e, conn', k', (concat (wire_of <$> served reqs)). split; [done|]. split; [done|].
  rewrite served_answered. split; [split|].
  - intros Hout. apply wire_length. by rewrite Hout.
  - apply wire_all_proper.
  - intros pre req post -> Hh Hpre. rewrite !fmap_app, concat_app, (wire_all_proper pre Hpre).
    cbn [fmap list_fmap concat]. by rewrite wire_proper, bool_decide_true, <- !app_assoc.
Qed.
End Wire.

(** ** Witnesses: the application's router on a scripted connection *)

Definition get_root_wire : bytes := bs "GET / HTTP/1.1" ++ CRLF ++ bs "Host: localhost" ++ CRLF ++ CRLF.

Definition get_root : HttpRequest.t :=
  HttpRequest.mk HttpMethod.GET (bs "/") (bs "HTTP/1.1")
    (HttpHeaders.set (bs "Host") (bs "localhost") HttpHeaders.empty) [].

Lemma get_root_message : message get_root_wire get_root.
Proof. exists (HttpRequestParser.mk State.Complete 0). by vm_compute. Qed.

Definition conn0 : Connection.t := Connection.create 5 (bs "10.0.0.1") 0.

(** The results [recv] will give; the socket accepts 10 bytes of output. *)
Definition script (recvs : list recv_result) : Script.t :=
  Script.mk [] recvs [10] [] [] (fun _ => []) (fun _ => []).

Definition generous (k : Script.t) : Prop := Script.allows k = [].

Lemma script_permissive : permissive generous.
Proof. intros k Hk. unfold generous in *. cbn. rewrite Hk. done. Qed.

Lemma pipelining_in_order_witness :
  let k := script [RecvData (get_root_wire ++ get_root_wire ++ bs "GET /api"); RecvAgain] in
  exists e conn' k',
    read_task map_to_list App.router 2 conn0 k = Some (e, conn', k') /\
    Script.out k' 5 ++ Connection.write_buffer conn' =
      [] ++ [] ++ concat (wire_of map_to_list <$> served App.router [get_root; get_root]).
Proof.
  intros k. refine (pipelining_in_order Script.out Script.inp map_to_list App.router generous 2
    conn0 k _ _ [get_root_wire; get_root_wire] [get_root; get_root] (bs "GET /api")
    script_permissive eq_refl _ _ _ _ _ _).
  - done.
  - done.
  - by vm_compute.
  - constructor; [apply get_root_message|]. constructor; [apply get_root_message|done].
  - by vm_compute.
  - by vm_compute.
Defined.

Lemma refused_input_closes_witness :
  let k := script [RecvData (bs "nonsense" ++ CRLF); RecvAgain] in
  exists conn' k',
    read_task map_to_list App.router 2 conn0 k = Some (Remove, conn', k') /\
    Script.out k' 5 ++ Connection.write_buffer conn' = [] ++ [] ++ wire_of map_to_list bad_request_res /\
    Connection.as_far_as_it_goes 5 (Connection.write_buffer conn') k'.
Proof.
  intros k. refine (refused_input_closes Script.out Script.inp map_to_list App.router 2
    conn0 k _ _ eq_refl _ bad_request_res _); [done|by vm_compute].
Defined.

Lemma eof_discards_request_witness :
  let k := script [RecvData get_root_wire; RecvEof] in
  exists conn1 k1,
    read_task map_to_list App.router 2 conn0 k = Some (Remove, conn1, k1) /\
    Script.out k1 5 = Script.out k 5.
Proof.
  intros k. exists (Connection.append_read_data get_root_wire 0 conn0),
    (Script.mk [] [] [10] [] [] (fun _ => []) (Script.record (fun _ => []) 5 get_root_wire)).
  destruct (eof_discards_request Script.out Script.inp map_to_list App.router 2 conn0 k
    (Connection.append_read_data get_root_wire 0 conn0)
    (Script.mk [] [] [10] [] [] (fun _ => []) (Script.record (fun _ => []) 5 get_root_wire))
    get_root_wire get_root) as (H1 & H2 & _); [by vm_compute|done|done|apply get_root_message|].
  exact (conj H1 H2).
Defined.

Definition head_root : HttpRequest.t :=
  HttpRequest.mk HttpMethod.HEAD (bs "/") (bs "HTTP/1.1")
    (HttpHeaders.set (bs "Host") (bs "localhost") HttpHeaders.empty) [].

Definition head_root_wire : bytes := bs "HEAD / HTTP/1.1" ++ CRLF ++ bs "Host: localhost" ++ CRLF ++ CRLF.

Lemma head_root_message : message head_root_wire head_root.
Proof. exists (HttpRequestParser.mk State.Complete 0). by vm_compute. Qed.

(** A HEAD and a GET for the application's root page. *)
Lemma head_response_has_body_witness :
  let k := script [RecvData (head_root_wire ++ get_root_wire); RecvAgain] in
  exists e conn' k' out,
    read_task map_to_list App.router 2 conn0 k = Some (e, conn', k') /\
    Script.out k' 5 ++ Connection.write_buffer conn' = out /\
    out <> concat (proper_wire map_to_list App.router <$> [head_root; get_root]) /\
    out = proper_wire map_to_list App.router head_root ++ body_wire App.router head_root ++
          concat (wire_of map_to_list <$> (respond App.router <$> [get_root])).
Proof.
  intros k. destruct (head_response_has_body Script.out Script.inp map_to_list App.router generous 2
    conn0 k (Connection.append_read_data (head_root_wire ++ get_root_wire) 0 conn0)
    (Script.mk [] [] [10] [] [] (fun _ => []) (Script.record (fun _ => []) 5 (head_root_wire ++ get_root_wire)))
    [head_root_wire; get_root_wire] [head_root; get_root] []) as (e & conn' & k' & out & H1 & H2 & H3 & H4).
  - exact script_permissive.
  - by vm_compute.
  - done.
  - done.
  - done.
  - constructor; [apply head_root_message|]. constructor; [apply get_root_message|done].
  - by vm_compute.
  - by vm_compute.
  - exists e, conn', k', out. split; [exact H1|]. split; [exact H2|].
    assert (answered App.router [head_root; get_root] = [head_root; get_root]) as E by by vm_compute.
    rewrite E in H3, H4. split.
    + intros Hout. apply H3 in Hout. apply Forall_cons in Hout as [Hn _]. specialize (Hn eq_refl).
      by vm_compute in Hn.
    + exact (H4 [] head_root [get_root] eq_refl eq_refl (Forall_nil_2 _)).
Defined.

End EventLoopSpec.
