(* ===== verification/TaskErrors.v ===== *)
(** * The read task when a handler throws

    [handle_client_read] ([src/src/network/EventLoop.cpp]) runs the handlers of
    the application inside [try]; both [catch] clauses set [close_connections],
    and the task goes on at [cleanup].  [EventLoop] takes handlers to return;
    here a request may make its handler throw instead. *)

From S2P Require Import Prelude CppStd Headers Request Parser Response Encoder Router App Connection.
From S2P Require Import EventLoop EventLoopSpec.
#[local] Open Scope Z_scope.

Import EventLoop EventLoopSpec.

Module TaskErrors.

Section Tasks.
Context {K : Type} `{Env K} (ord : gmap bytes bytes -> list (bytes * bytes)) (router : HttpRouter.t).

(** Whether the handler of a request throws an exception. *)
Context (throws : HttpRequest.t -> bool).

(** How the parse loop is left, an exception included. *)
Inductive try_exit :=
| Left (e : parse_exit)
| Threw.

(** 2. The parse loop. *)
Fixpoint process_try (fuel : nat) (loop_counter : Z) (conn : Connection.t) (k : K)
  : option (try_exit * Connection.t * K) :=
  if bool_decide (Connection.read_buffer conn = []) then Some (Left (LoopDone false false), conn, k)
  else
    match fuel with
    | O => None
    | S f =>
        let loop_counter := loop_counter + 1 in
        let '(p_result, cfg) := HttpRequestParser.parse (Connection.to_cfg conn) in
        let conn := Connection.of_cfg cfg conn in
        match p_result with
        | ParseResult.Incomplete => Some (Left (LoopDone false false), conn, k)
        | ParseResult.Error =>
            let '(conn, k) := answer_and_close ord bad_request_res conn k in Some (Left ToCleanup, conn, k)
        | ParseResult.Success =>
            let '(allowed, k) := env_allow (Connection.client_ip conn) k in
            if negb allowed then
              let '(conn, k) := answer_and_close ord too_many_requests_res conn k in
              Some (Left ToCleanup, conn, k)
            else if throws (Connection.request conn) then Some (Threw, conn, k)
            else
              let res := respond router (Connection.request conn) in
              let close_after_response := HttpResponse.close_after_send res in
              let '(conn, k) := queue_response ord res conn k in
              let conn := Connection.reset_http conn in
              if close_after_response then Some (Left (LoopDone true false), conn, k)
              else if 50 <? loop_counter then Some (Left (LoopDone false true), conn, k)
              else process_try f loop_counter conn k
        end
    end.

(** The task: an exception leads to [remove_connection] without a flush. *)
Definition read_task_try (fuel : nat) (conn : Connection.t) (k : K)
  : option (task_end * Connection.t * K) :=
  match drain fuel conn k with
  | None => None
  | Some (true, conn, k) => Some (Remove, conn, k)
  | Some (false, conn, k) =>
      match process_try PROCESS_FUEL 0 conn k with
      | None => None
      | Some (Threw, conn, k) => Some (Remove, conn, k)
      | Some (Left ToCleanup, conn, k) => Some (Remove, conn, k)
      | Some (Left (LoopDone close_after_response has_more_parseable), conn, k) =>
          Some (finish close_after_response has_more_parseable conn k)
      end
  end.

(** Up to the first exception the loop is that of [EventLoop]. *)
Lemma process_try_left fuel lc conn k e conn' k' :
  process_try fuel lc conn k = Some (Left e, conn', k') ->
  process ord router fuel lc conn k = Some (e, conn', k').
Proof.
  revert lc conn k; induction fuel as [|f IH]; intros lc conn k; cbn [process process_try];
    (case_bool_decide; [by intros [= <- <- <-]|]); [done|].
  destruct (HttpRequestParser.parse _) as [[] cfg]; [|by intros [= <- <- <-]|].
  - destruct (env_allow _ k) as [[] k1]; cbn [negb].
    + destruct (throws _); [done|]. destruct (queue_response _ _ _ k1) as [c2 k2].
      destruct (HttpResponse.close_after_send _); [by intros [= <- <- <-]|].
      destruct (50 <? lc + 1); [by intros [= <- <- <-]|apply IH].
    + destruct (answer_and_close _ _ _ k1). by intros [= <- <- <-].
  - destruct (answer_and_close _ _ _ k). by intros [= <- <- <-].
Qed.

Lemma process_try_some fuel lc conn k :
  51 - Z.of_nat fuel <= lc -> lc <= 50 -> is_Some (process_try fuel lc conn k).
Proof.
  revert lc conn k; induction fuel as [|f IH]; intros lc conn k Hlo Hhi; [lia|].
  cbn [process_try]. case_bool_decide; [by eexists|].
  destruct (HttpRequestParser.parse _) as [[] cfg]; [|by eexists|by destruct (answer_and_close _ _ _ k)].
  destruct (env_allow _ k) as [[] k1]; cbn [negb]; [|by destruct (answer_and_close _ _ _ k1)].
  destruct (throws _); [by eexists|]. destruct (queue_response _ _ _ k1) as [c2 k2].
  destruct (HttpResponse.close_after_send _); [by eexists|].
  destruct (Z.ltb_spec 50 (lc + 1)); [by eexists|]. apply IH; lia.
Qed.

End Tasks.

Section Wire.
Context {K : Type} `{Env K} (sent received : K -> Z -> bytes) `{!EnvLaws K sent received}.
Context (ord : gmap bytes bytes -> list (bytes * bytes)) (router : HttpRouter.t).
Context (throws : HttpRequest.t -> bool).

#[local] Abbreviation wire_of := (wire_of ord).
#[local] Abbreviation respond := (respond router).

(** Requests answered before one whose handler throws. *)
Lemma process_try_throws calm ws reqs w req tail fuel lc conn k :
  permissive calm -> calm k -> Forall2 message ws reqs -> message w req -> throws req = true ->
  Forall (fun r => throws r = false) reqs -> closes router reqs = false -> fresh conn ->
  Connection.read_buffer conn = concat ws ++ w ++ tail -> lc + zlen ws <= 50 -> (length ws < fuel)%nat ->
  exists conn' k',
    process_try ord router throws fuel lc conn k = Some (Threw, conn', k') /\
    Connection.write_buffer conn' = Connection.write_buffer conn ++ concat ((fun r => wire_of (respond r)) <$> reqs) /\
    sent k' = sent k.
Proof.
  intros Hperm Hcalm Hws Hw Ht. revert fuel lc conn k Hcalm.
  induction Hws as [|w1 r1 ws reqs Hw1 Hws IH]; intros fuel lc conn k Hcalm Hts Hcl Hf Hbuf Hlc Hfuel;
    (destruct fuel as [|f]; [cbn in Hfuel; lia|]); cbn [process_try].
  - cbn [concat app] in Hbuf. rewrite Hbuf, bool_decide_false
      by (pose proof (message_nonempty _ _ Hw); by destruct w).
    destruct (message_push _ _ tail Hw) as [p Hp]. rewrite (to_cfg_fresh conn Hf), Hbuf, Hp.
    change (Connection.client_ip (Connection.of_cfg _ conn)) with (Connection.client_ip conn).
    destruct (Hperm k Hcalm) as [_ Hallow]. specialize (Hallow (Connection.client_ip conn)).
    destruct (env_allow _ k) as [ok k1] eqn:Ea. cbn in Hallow. destruct Hallow as [-> _].
    apply law_allow in Ea as [Hs1 _]. cbn [negb].
    change (Connection.request (Connection.of_cfg _ conn)) with req. rewrite Ht.
    eexists _, k1. split; [done|]. cbn. by rewrite app_nil_r.
  - rewrite zlen_cons in Hlc. pose proof (zlen_nonneg ws). cbn [length] in Hfuel.
    cbn [concat] in Hbuf. rewrite <- app_assoc in Hbuf. rewrite Hbuf, bool_decide_false
      by (pose proof (message_nonempty _ _ Hw1); by destruct w1).
    destruct (message_push _ _ (concat ws ++ w ++ tail) Hw1) as [p Hp].
    rewrite (to_cfg_fresh conn Hf), Hbuf, Hp.
    change (Connection.client_ip (Connection.of_cfg _ conn)) with (Connection.client_ip conn).
    destruct (Hperm k Hcalm) as [_ Hallow]. specialize (Hallow (Connection.client_ip conn)).
    destruct (env_allow _ k) as [ok k1] eqn:Ea. cbn in Hallow. destruct Hallow as [-> Hcalm1].
    apply law_allow in Ea as [Hs1 _]. cbn [negb].
    change (Connection.request (Connection.of_cfg _ conn)) with r1.
    apply Forall_cons in Hts as [-> Hts]. cbn [closes existsb] in Hcl. apply orb_false_iff in Hcl as [Hcl1 Hcl].
    unfold queue_response. pose proof (proj1 (Hperm k1 Hcalm1)) as Hcalm2.
    destruct (env_now k1) as [t k2] eqn:En. apply law_now in En as [Hs2 _]. cbn in Hcalm2.
    rewrite Hcl1. destruct (Z.ltb_spec 50 (lc + 1)); [lia|].
    match goal with |- context [process_try ord router throws f _ ?c ?k] =>
      destruct (IH f (lc + 1) c k) as (conn' & k' & Hproc & Hwb & Hs) end;
      [done..|lia|lia|].
    eexists _, k'. split; [exact Hproc|]. rewrite Hwb, Hs, Hs2, Hs1. cbn. by rewrite <- app_assoc.
Qed.

(** C23: Exceptions.  The task always comes to an end.  If the handlers of the
    requests in a pass return, it does what the task without exceptions does.
    If one throws, the task removes the connection, and the responses to the
    requests of the pass before it are not sent: they stay in the write buffer of
    a connection that is on its way out, and the pass has sent nothing. *)
Theorem exception_drops_responses fuel conn k conn1 k1 :
  drain fuel conn k = Some (false, conn1, k1) ->
  (exists r, read_task_try ord router throws fuel conn k = Some r /\
     ((forall c k2, process_try ord router throws PROCESS_FUEL 0 conn1 k1 <> Some (Threw, c, k2)) ->
      read_task ord router fuel conn k = Some r)) /\
  forall calm ws reqs w req tail,
    permissive calm -> calm k1 -> fresh conn ->
    Connection.read_buffer conn1 = concat ws ++ w ++ tail ->
    Forall2 message ws reqs -> Forall (fun r => throws r = false) reqs -> closes router reqs = false ->
    message w req -> throws req = true -> zlen ws <= 50 ->
    exists conn' k',
      read_task_try ord router throws fuel conn k = Some (Remove, conn', k') /\
      sent k' (Connection.fd conn) = sent k (Connection.fd conn) /\
      Connection.write_buffer conn' =
        Connection.write_buffer conn ++ concat ((fun r => wire_of (respond r)) <$> reqs).
Proof.
  intros Hd. unfold read_task_try, read_task. rewrite Hd. split.
  - destruct (process_try_some ord router throws PROCESS_FUEL 0 conn1 k1) as [[[e c2] k2] Hp]; [done..|].
    pose proof (process_try_left ord router throws PROCESS_FUEL 0 conn1 k1) as Hl. rewrite Hp in *.
    destruct e as [e|]; [|eexists; split; [done|]; intros Hn; by destruct (Hn c2 k2)].
    rewrite (Hl _ _ _ eq_refl). destruct e; by eexists.
  - intros calm ws reqs w req tail Hperm Hcalm Hf Hbuf Hws Hts Hcl Hw Ht Hlen.
    apply (drain_spec sent received) in Hd as (d & _ & _ & Hs1 & Hwb1 & _ & Hf1).
    destruct (process_try_throws calm ws reqs w req tail PROCESS_FUEL 0 conn1 k1)
      as (c2 & k2 & -> & Hwb & Hs2); [auto..|unfold PROCESS_FUEL; unfold zlen in Hlen; lia|].
    exists c2, k2. by rewrite Hwb, Hs2, Hs1, Hwb1.
Qed.
End Wire.

(** A second request that asks for "/boom", whose handler throws. *)
Definition boom_wire : bytes := bs "GET /boom HTTP/1.1" ++ CRLF ++ CRLF.
Definition boom : HttpRequest.t :=
  HttpRequest.mk HttpMethod.GET (bs "/boom") (bs "HTTP/1.1") HttpHeaders.empty [].
Definition boom_throws (req : HttpRequest.t) : bool := bool_decide (HttpRequest.path req = bs "/boom").

Lemma exception_drops_responses_witness :
  let k := script [RecvData (get_root_wire ++ boom_wire); RecvAgain] in
  exists conn' k',
    read_task_try map_to_list App.router boom_throws 2 conn0 k = Some (Remove, conn', k') /\
    Script.out k' 5 = [] /\
    Connection.write_buffer conn' = wire_of map_to_list (respond App.router get_root).
Proof.
  intros k. set (k1 := Script.mk [] [] [10] [] [] (fun _ => [])
    (Script.record (fun _ => []) 5 (get_root_wire ++ boom_wire))).
  destruct (exception_drops_responses Script.out Script.inp map_to_list App.router boom_throws 2 conn0 k
    (Connection.append_read_data (get_root_wire ++ boom_wire) 0 conn0) k1) as [_ H]; [by vm_compute|].
  destruct (H generous [get_root_wire] [get_root] boom_wire boom []) as (c & k2 & H1 & H2 & H3).
  - exact script_permissive.
  - done.
  - done.
  - by vm_compute.
  - constructor; [apply get_root_message|done].
  - repeat constructor.
  - by vm_compute.
  - exists (HttpRequestParser.mk State.Complete 0). by vm_compute.
  - by vm_compute.
  - by vm_compute.
  - exists c, k2. split; [exact H1|]. split; [exact H2|]. rewrite H3. cbn [fmap list_fmap concat]. apply app_nil_r.
Defined.

End TaskErrors.
