(* ===== verification/Conversation.v ===== *)
(** * A connection from its first byte on

    What a client sees over all the tasks that serve its connection
    ([handle_client_read] and [handle_client_write] in
    [src/src/network/EventLoop.cpp]), in any order and with anything happening
    in between.  The specification is a transducer of byte streams: cut the
    stream received so far into requests, one call of the parser for each, and
    answer them in order. *)

From S2P Require Import Prelude CppStd Headers Request Parser ParserLoop ParserSpec.
From S2P Require Import Response Encoder Router App Connection EventLoop EventLoopSpec.
#[local] Open Scope Z_scope.

Import EventLoop EventLoopSpec.
Import ParserSpec(initial).
Import ParserLoop(push).

Module Conversation.

(** ** The specification *)

(** The first [n] requests of a stream, and what follows them. *)
Fixpoint requests (n : nat) (stream : bytes) : option (list HttpRequest.t * bytes) :=
  match n with
  | O => Some ([], stream)
  | S m =>
      '(rs, rest) ← requests m stream;
      match HttpRequestParser.parse (initial rest) with
      | (ParseResult.Success, c) =>
          Some (rs ++ [HttpRequestParser.request c], HttpRequestParser.readBuffer c)
      | _ => None
      end
  end.

Lemma requests_push n stream rs rest d :
  requests n stream = Some (rs, rest) -> requests n (stream ++ d) = Some (rs, rest ++ d).
Proof.
  revert rs rest; induction n as [|n IH]; intros rs rest; cbn [requests]; [by intros [= <- <-]|].
  destruct (requests n stream) as [[rs0 rest0]|]; [|done]. cbn.
  rewrite (IH _ _ eq_refl). cbn. pose proof (ParserLoop.parse_runs (initial rest0)) as Hr.
  destruct (HttpRequestParser.parse (initial rest0)) as [[] c]; try done. intros [= <- <-].
  apply (ParserLoop.runs_success_push _ _ d), ParserLoop.runs_parse in Hr.
  by change (push d (initial rest0)) with (initial (rest0 ++ d)) in Hr; rewrite Hr.
Qed.

(** A connection that has stopped somewhere in [rest]. *)
Definition resumes (rest : bytes) (conn : Connection.t) : Prop :=
  (forall d, HttpRequestParser.parse (push d (Connection.to_cfg conn)) = HttpRequestParser.parse (initial (rest ++ d))) /\
  (Connection.read_buffer conn = [] -> unfinished rest).

Lemma resumes_now rest conn :
  resumes rest conn ->
  HttpRequestParser.parse (Connection.to_cfg conn) = HttpRequestParser.parse (initial rest).
Proof. intros [H _]. specialize (H []). by rewrite ParserLoop.push_nil, app_nil_r in H. Qed.

Lemma resumes_fresh conn : fresh conn -> resumes (Connection.read_buffer conn) conn.
Proof.
  intros Hf. split; [intros d; by rewrite (to_cfg_fresh conn Hf)|].
  intros ->. by vm_compute.
Qed.

(** The parser has paused. *)
Lemma resumes_pause rest conn c :
  resumes rest conn -> HttpRequestParser.parse (Connection.to_cfg conn) = (ParseResult.Incomplete, c) ->
  resumes rest (Connection.of_cfg c conn).
Proof.
  intros Hres Hp. assert (unfinished rest) as Hu
    by (unfold unfinished; by rewrite <- (resumes_now _ _ Hres), Hp).
  split; [|done]. intros d. rewrite <- (proj1 Hres d).
  change (Connection.to_cfg (Connection.of_cfg c conn)) with
    (HttpRequestParser.mk_cfg (HttpRequestParser.c_parser c) (HttpRequestParser.readBuffer c) (HttpRequestParser.request c)).
  pose proof (ParserLoop.parse_runs (Connection.to_cfg conn)) as Hr. rewrite Hp in Hr. destruct c as [p b q].
  symmetry. apply ParserLoop.runs_parse. eapply ParserLoop.runs_resume; [exact Hr|]. apply ParserLoop.parse_runs.
Qed.

(** More input has arrived, or something else of the connection has changed. *)
Lemma resumes_push rest conn conn' d :
  Connection.to_cfg conn' = push d (Connection.to_cfg conn) -> resumes rest conn -> resumes (rest ++ d) conn'.
Proof.
  intros E [H Hn]. split.
  - intros d'. by rewrite E, ParserLoop.push_push, H, app_assoc.
  - intros Hb. pose proof (f_equal HttpRequestParser.readBuffer E) as Eb. cbn in Eb. rewrite Hb in Eb.
    symmetry in Eb. apply app_eq_nil in Eb as [Eb ->]. rewrite app_nil_r. by apply Hn.
Qed.

Lemma resumes_ext rest conn conn' :
  Connection.to_cfg conn' = Connection.to_cfg conn -> resumes rest conn -> resumes rest conn'.
Proof.
  intros E H. rewrite <- (app_nil_r rest). apply (resumes_push _ conn); [|done]. by rewrite ParserLoop.push_nil.
Qed.

(** ** The steps of a task *)

Section Wire.
Context {K : Type} `{Env K} (sent received : K -> Z -> bytes) `{!EnvLaws K sent received}.
Context (ord : gmap bytes bytes -> list (bytes * bytes)) (router : HttpRouter.t).

#[local] Abbreviation wire_of := (wire_of ord).
#[local] Abbreviation respond := (respond router).

(** What the client has been sent and will be sent. *)
Definition output (conn : Connection.t) (k : K) : bytes :=
  sent k (Connection.fd conn) ++ Connection.write_buffer conn.

Definition answers (rs : list HttpRequest.t) : bytes := concat ((fun r => wire_of (respond r)) <$> rs).

Lemma answers_app rs rs' : answers (rs ++ rs') = answers rs ++ answers rs'.
Proof. unfold answers. by rewrite fmap_app, concat_app. Qed.

(** What neither the input nor the parser state of a connection is touched by,
    and which adds [o] to its output. *)
Definition emits (o : bytes) (conn : Connection.t) (k : K) (conn' : Connection.t) (k' : K) : Prop :=
  output conn' k' = output conn k ++ o /\ Connection.fd conn' = Connection.fd conn /\
  received k' (Connection.fd conn) = received k (Connection.fd conn) /\
  Connection.to_cfg conn' = Connection.to_cfg conn.

Lemma emits_trans o o' c k c1 k1 c2 k2 :
  emits o c k c1 k1 -> emits o' c1 k1 c2 k2 -> emits (o ++ o') c k c2 k2.
Proof.
  intros (H1 & H2 & H3 & H4) (H1' & H2' & H3' & H4'). unfold emits.
  rewrite H1', H1, H2', H2, H4', H4, <- app_assoc. rewrite H2 in H3'. by rewrite H3', H3.
Qed.

Lemma emits_env c k k' : sent k' = sent k -> received k' = received k -> emits [] c k c k'.
Proof. intros Hs Hr. unfold emits, output. by rewrite Hs, Hr, app_nil_r. Qed.

Lemma flush_emits c k :
  let '(_, c', _, k') := Connection.flush c false k in emits [] c k c' k'.
Proof.
  unfold Connection.flush.
  destruct (Connection.flush_loop_spec sent received (length (Connection.write_buffer c)) (Connection.fd c)
    (Connection.write_buffer c) false k) as (ok & wb' & err' & k' & -> & Hs & Hr & _); [done|].
  unfold emits, output. cbn. by rewrite app_nil_r.
Qed.

Lemma queue_emits res c k :
  let '(c', k') := queue_response ord res c k in emits (wire_of res) c k c' k'.
Proof.
  unfold queue_response. destruct (env_now k) as [t k'] eqn:E. apply law_now in E as [Es Er].
  unfold emits, output. cbn. by rewrite Es, Er, app_assoc.
Qed.

Lemma answer_emits res c k :
  let '(c', k') := answer_and_close ord res c k in emits (wire_of res) c k c' k'.
Proof.
  unfold answer_and_close. pose proof (queue_emits res c k) as Hq. destruct (queue_response _ _ _ _) as [c1 k1].
  pose proof (flush_emits c1 k1) as Hf. destruct (Connection.flush c1 false k1) as [[[ok c2] err] k2].
  rewrite <- (app_nil_r (wire_of res)). by eapply emits_trans.
Qed.

Lemma finish_emits close more c k :
  let '(_, c', k') := finish close more c k in emits [] c k c' k'.
Proof.
  unfold finish. pose proof (flush_emits c k) as Hf. destruct (Connection.flush c false k) as [[[ok c1] err] k1].
  destruct err; [done|]. destruct close; [by destruct ok|]. destruct more; [|done].
  destruct (env_state k1) as [st k2] eqn:E. apply law_state in E as [Es Er].
  rewrite <- (app_nil_r []). eapply emits_trans; [exact Hf|by apply emits_env].
Qed.

Lemma write_emits c k :
  let '(_, c', k') := write_task c k in emits [] c k c' k'.
Proof.
  unfold write_task. pose proof (flush_emits c k) as Hf. destruct (Connection.flush c false k) as [[[ok c1] err] k1].
  destruct err; [done|]. destruct (if ok then _ else _); [done|].
  destruct (env_state k1) as [st k2] eqn:E. apply law_state in E as [Es Er].
  assert (emits [] c k c1 k2) by (rewrite <- (app_nil_r []); eapply emits_trans; [exact Hf|by apply emits_env]).
  destruct ok; [by case_bool_decide|done].
Qed.

Lemma drain_cfg fuel c k b c' k' :
  drain fuel c k = Some (b, c', k') ->
  Connection.parser c' = Connection.parser c /\ Connection.request c' = Connection.request c.
Proof.
  revert c k; induction fuel as [|f IH]; intros c k; cbn [drain]; [done|].
  destruct (env_state k) as [st k1]. case_bool_decide; [|by intros [= <- <- <-]].
  destruct (env_recv _ _ k1) as [[d| | |] k2]; try by intros [= <- <- <-].
  destruct (env_now k2) as [t k3]. intros Hd. by apply IH in Hd.
Qed.

(** The stream grows, the connection has it in its buffer. *)
Lemma drain_step fuel c k b c' k' rest :
  drain fuel c k = Some (b, c', k') -> resumes rest c ->
  exists d, received k' (Connection.fd c) = received k (Connection.fd c) ++ d /\ output c' k' = output c k /\
    Connection.fd c' = Connection.fd c /\ resumes (rest ++ d) c'.
Proof.
  intros Hd Hres. pose proof (drain_cfg _ _ _ _ _ _ Hd) as [Hp Hq].
  apply (drain_spec sent received) in Hd as (d & Hb & Hr & Hs & Hwb & Hfd & _). exists d.
  split; [done|]. split; [unfold output; by rewrite Hfd, Hs, Hwb|]. split; [done|].
  apply (resumes_push _ c); [|done]. unfold Connection.to_cfg, push. cbn. by rewrite Hp, Hq, Hb.
Qed.

(** The last of the requests is answered by a response that closes. *)
Definition closing (rs : list HttpRequest.t) : Prop :=
  exists rs0 r, rs = rs0 ++ [r] /\ HttpResponse.close_after_send (respond r) = true.

(** Where a connection stands when a pass of the parse loop, or a task, has
    answered the requests number [n] to [n' - 1] of [stream], and [last] after
    them to refused input: it has answered all there are, as many as the limit
    [limit] of a pass, or up to one that closes. *)
Definition caught_up (n n' limit : nat) (rs : list HttpRequest.t) (rest : bytes) : Prop :=
  unfinished rest \/ n' = (n + limit)%nat \/ ((n < n')%nat /\ closing rs).

Definition refused (rest last : bytes) : Prop :=
  let verdict := (HttpRequestParser.parse (initial rest)).1 in
  (verdict = ParseResult.Error /\ last = wire_of bad_request_res) \/
  (verdict = ParseResult.Success /\ last = wire_of too_many_requests_res).

(** One request is answered. *)
Lemma answer_one c k k1 cfg n stream rs rest :
  HttpRequestParser.parse (Connection.to_cfg c) = (ParseResult.Success, cfg) ->
  sent k1 = sent k -> received k1 = received k ->
  requests n stream = Some (rs, rest) -> resumes rest c ->
  let rq := HttpRequestParser.request cfg in
  let '(c2, k2) := queue_response ord (respond rq) (Connection.of_cfg cfg c) k1 in
  let c3 := Connection.reset_http c2 in
  requests (S n) stream = Some (rs ++ [rq], HttpRequestParser.readBuffer cfg) /\
  resumes (HttpRequestParser.readBuffer cfg) c3 /\ output c3 k2 = output c k ++ answers [rq] /\
  received k2 (Connection.fd c) = received k (Connection.fd c) /\ Connection.fd c3 = Connection.fd c.
Proof.
  intros Hparse Es Er Hreq Hres rq. pose proof (queue_emits (respond rq) (Connection.of_cfg cfg c) k1) as Hq.
  destruct (queue_response _ _ _ k1) as [c2 k2]. destruct Hq as (Ho & Hfd & Hrc & Hcfg).
  change (Connection.fd (Connection.of_cfg cfg c)) with (Connection.fd c) in *.
  change (output (Connection.of_cfg cfg c) k1) with (output c k1) in Ho. intros c3. split_and!.
  - cbn [requests]. rewrite Hreq. cbn. by rewrite <- (resumes_now _ _ Hres), Hparse.
  - pose proof (f_equal HttpRequestParser.readBuffer Hcfg) as Eb. cbn in Eb. rewrite <- Eb.
    apply (resumes_fresh c3), fresh_reset.
  - change (output c3 k2) with (output c2 k2). rewrite Ho. unfold output. rewrite Es. cbn. by rewrite app_nil_r.
  - by rewrite Hrc, Er.
  - done.
Qed.

Lemma process_step fuel lc c k e c' k' n stream rs rest :
  process ord router fuel lc c k = Some (e, c', k') -> lc <= 50 ->
  requests n stream = Some (rs, rest) -> resumes rest c ->
  exists n' new rest' last, (n <= n')%nat /\ requests n' stream = Some (rs ++ new, rest') /\
    received k' (Connection.fd c) = received k (Connection.fd c) /\ Connection.fd c' = Connection.fd c /\
    output c' k' = output c k ++ answers new ++ last /\
    match e with
    | ToCleanup => refused rest' last
    | LoopDone _ _ =>
        last = [] /\ resumes rest' c' /\ caught_up n n' (Z.to_nat (51 - lc)) (rs ++ new) rest'
    end.
Proof.
  revert lc c k n rs rest; induction fuel as [|f IH]; intros lc c k n rs rest Hp Hlc Hreq Hres; cbn [process] in Hp;
    (case_bool_decide as Hb;
     [injection Hp as <- <- <-; exists n, [], rest, []; rewrite !app_nil_r;
      split_and!; try done; left; by apply (proj2 Hres)|]); [done|].
  pose proof (resumes_now _ _ Hres) as Hnow. pose proof (resumes_pause rest c) as Hpause.
  destruct (HttpRequestParser.parse (Connection.to_cfg c)) as [v cfg] eqn:Hparse.
  set (c1 := Connection.of_cfg cfg c) in *. destruct v.
  - destruct (env_allow _ k) as [ok k1] eqn:Ea. apply law_allow in Ea as [Es Er].
    destruct ok; cbn [negb] in Hp.
    + pose proof (answer_one c k k1 cfg n stream rs rest Hparse Es Er Hreq Hres) as Hone.
      cbv zeta in Hone. fold c1 in Hone.
      set (rq := HttpRequestParser.request cfg) in *. change (Connection.request c1) with rq in *.
      destruct (queue_response ord (respond rq) c1 k1) as [c2 k2]. set (c3 := Connection.reset_http c2) in *.
      destruct Hone as (Hreq' & Hres' & Ho' & Hrc' & Hfd).
      destruct (HttpResponse.close_after_send (respond rq)) eqn:Hcl.
      { injection Hp as <- <- <-. exists (S n), [rq], (HttpRequestParser.readBuffer cfg), [].
        rewrite app_nil_r. split_and!; try done; [lia|]. right; right. split; [lia|]. by exists rs, rq. }
      destruct (Z.ltb_spec 50 (lc + 1)).
      { injection Hp as <- <- <-. exists (S n), [rq], (HttpRequestParser.readBuffer cfg), [].
        rewrite app_nil_r. split_and!; try done; [lia|]. right; left. lia. }
      destruct (IH (lc + 1) c3 k2 (S n) (rs ++ [rq]) _ Hp ltac:(lia) Hreq' Hres')
        as (n' & new & rest' & last & Hn & Hreqs & Hr3 & Hf3 & Ho3 & He).
      exists n', (rq :: new), rest', last. rewrite Hfd in *.
      rewrite <- app_assoc in *. split; [lia|]. split; [done|]. split; [by rewrite Hr3|]. split; [done|].
      split; [rewrite Ho3, Ho', <- app_assoc; f_equal; by rewrite app_assoc, <- answers_app|].
      destruct e; [done|]. destruct He as (-> & He & Hc). split; [done|]. split; [done|].
      destruct Hc as [?|[Hc|[? ?]]]; [by left|right; left; lia|right; right; split; [lia|done]].
    + pose proof (answer_emits too_many_requests_res c1 k1) as Hq.
      destruct (answer_and_close _ _ _ k1) as [c2 k2]. destruct Hq as (Ho & Hfd & Hrc & Hcfg).
      injection Hp as <- <- <-. exists n, [], rest, (wire_of too_many_requests_res).
      change (Connection.fd c1) with (Connection.fd c) in *. change (output c1 k1) with (output c k1) in Ho.
      rewrite app_nil_r. split_and!; try done; [by rewrite Hrc, Er|unfold output in *; by rewrite Ho, Es|].
      right. by rewrite <- Hnow.
  - injection Hp as <- <- <-. exists n, [], rest, []. rewrite !app_nil_r. split_and!; try done.
    + by apply Hpause.
    + left. unfold unfinished. by rewrite <- Hnow.
  - pose proof (answer_emits bad_request_res c1 k) as Hq.
    destruct (answer_and_close _ _ _ k) as [c2 k2]. destruct Hq as (Ho & Hfd & Hrc & Hcfg).
    injection Hp as <- <- <-. exists n, [], rest, (wire_of bad_request_res).
    rewrite app_nil_r. split_and!; try done. left. by rewrite <- Hnow.
Qed.

(** A read task, from a connection that stands in [rest]. *)
Lemma read_step fuel c k e c' k' n stream rs rest :
  read_task ord router fuel c k = Some (e, c', k') ->
  stream = received k (Connection.fd c) -> requests n stream = Some (rs, rest) -> resumes rest c ->
  exists n' new rest' last, (n <= n')%nat /\
    requests n' (received k' (Connection.fd c)) = Some (rs ++ new, rest') /\ Connection.fd c' = Connection.fd c /\
    output c' k' = output c k ++ answers new ++ last /\
    match e with
    | Rearm _ _ => last = [] /\ resumes rest' c' /\ caught_up n n' 51 (rs ++ new) rest'
    | Remove => last = [] \/ refused rest' last
    end.
Proof.
  unfold read_task. intros Ht -> Hreq Hres.
  destruct (drain fuel c k) as [[[b c1] k1]|] eqn:Hd; [|done].
  destruct (drain_step _ _ _ _ _ _ _ Hd Hres) as (d & Hr & Ho & Hfd & Hres1).
  apply (requests_push _ _ _ _ d) in Hreq. rewrite <- Hr, <- Hfd in Hreq. destruct b.
  { injection Ht as <- <- <-. exists n, [], (rest ++ d), []. rewrite <- Hfd, Ho, !app_nil_r.
    split_and!; try done. by left. }
  destruct (process ord router PROCESS_FUEL 0 c1 k1) as [[[ex c2] k2]|] eqn:Hp; [|done].
  destruct (process_step _ _ _ _ _ _ _ _ _ _ _ Hp ltac:(lia) Hreq Hres1)
    as (n' & new & rest' & last & Hn & Hreq2 & Hr2 & Hfd2 & Ho2 & He).
  rewrite <- Hr2 in Hreq2. rewrite Ho in Ho2. destruct ex as [|close more].
  - injection Ht as <- <- <-. exists n', new, rest', last. rewrite <- Hfd. split_and!; try done. by right.
  - destruct He as (-> & Hres2 & Hc). pose proof (finish_emits close more c2 k2) as Hf.
    injection Ht as Ht. rewrite Ht in Hf. destruct Hf as (Ho3 & Hf3 & Hr3 & Hcfg).
    rewrite app_nil_r in Ho3. exists n', new, rest', []. rewrite <- Hfd, <- Hfd2, Hr3, Ho3, Hf3, Hfd2.
    split_and!; try done. destruct e; [by left|]. split_and!; try done. by eapply resumes_ext.
Qed.

(** ** Executions of a connection

    Tasks of one connection exclude each other by its mutex; between two of
    them other threads may do anything but use its socket. *)

Inductive alive (fd : Z) : Connection.t -> K -> Prop :=
| opened c k :
    fresh c -> Connection.fd c = fd -> Connection.read_buffer c = [] -> Connection.write_buffer c = [] ->
    sent k fd = [] -> received k fd = [] -> alive fd c k
| elsewhere c k k' :
    alive fd c k -> sent k' fd = sent k fd -> received k' fd = received k fd -> alive fd c k'
| reads fuel c k flags b c' k' :
    alive fd c k -> read_task ord router fuel c k = Some (Rearm flags b, c', k') -> alive fd c' k'
| writes c k flags b c' k' :
    alive fd c k -> write_task c k = (Rearm flags b, c', k') -> alive fd c' k'.

Lemma alive_stands fd c k :
  alive fd c k ->
  Connection.fd c = fd /\ exists n rs rest, requests n (received k fd) = Some (rs, rest) /\ resumes rest c /\
    output c k = answers rs.
Proof.
  induction 1 as [c k Hf Hfd Hrb Hwb Hs Hr|c k k' _ [Hfd (n & rs & rest & Hreq & Hres & Ho)] Hs Hr
    |fuel c k flags b c' k' _ [Hfd (n & rs & rest & Hreq & Hres & Ho)] Ht
    |c k flags b c' k' _ [Hfd (n & rs & rest & Hreq & Hres & Ho)] Ht].
  - split; [done|]. exists 0%nat, [], []. rewrite Hr. split; [done|]. split.
    + rewrite <- Hrb. by apply resumes_fresh.
    + unfold output. by rewrite Hfd, Hs, Hwb.
  - split; [done|]. exists n, rs, rest. unfold output in *. rewrite Hfd in *. by rewrite Hr, Hs.
  - rewrite <- Hfd in Hreq.
    destruct (read_step _ _ _ _ _ _ _ _ _ _ Ht eq_refl Hreq Hres)
      as (n' & new & rest' & last & _ & Hreq' & Hfd' & Ho' & -> & Hres' & _).
    split; [congruence|]. exists n', (rs ++ new), rest'. rewrite <- Hfd. split; [done|]. split; [done|].
    by rewrite Ho', Ho, app_nil_r, answers_app.
  - pose proof (write_emits c k) as Hw. rewrite Ht in Hw. destruct Hw as (Ho' & Hfd' & Hr' & Hcfg).
    split; [congruence|]. exists n, rs, rest. rewrite <- Hfd, Hr', Hfd. split; [done|].
    split; [by eapply resumes_ext|]. by rewrite Ho', Ho, app_nil_r.
Qed.

(** C4: A connection is a transducer.  After any tasks, in any order, under any
    fragmentation and any partial sends, what it has sent followed by what is
    queued is the encoded responses of the router to the first [n] requests of
    the stream received, in order, once each.  The next read task goes on from
    there: unless it ends the connection, it has then answered all the requests
    received, or 51 of them, or up to one that closes; and if it ends it, at
    most one 400 or 429 was added, the first only if what follows the answered
    requests is no request, the second only in place of an answer. *)
Theorem connection_is_transducer fd c k :
  alive fd c k ->
  exists n rs rest, requests n (received k fd) = Some (rs, rest) /\
    sent k fd ++ Connection.write_buffer c = answers rs /\
    forall fuel e c' k', read_task ord router fuel c k = Some (e, c', k') ->
      exists n' new rest' last, (n <= n')%nat /\ requests n' (received k' fd) = Some (rs ++ new, rest') /\
        sent k' fd ++ Connection.write_buffer c' = answers (rs ++ new) ++ last /\
        match e with
        | Rearm _ _ => last = [] /\ caught_up n n' 51 (rs ++ new) rest'
        | Remove => last = [] \/ refused rest' last
        end.
Proof.
  intros [<- (n & rs & rest & Hreq & Hres & Ho)]%alive_stands. exists n, rs, rest.
  split; [done|]. split; [done|]. intros fuel e c' k' Ht.
  destruct (read_step _ _ _ _ _ _ _ _ _ _ Ht eq_refl Hreq Hres)
    as (n' & new & rest' & last & Hn & Hreq' & Hfd & Ho' & He).
  exists n', new, rest', last. split; [done|]. split; [done|]. split.
  - rewrite <- Hfd. fold (output c' k'). by rewrite Ho', Ho, answers_app, <- app_assoc.
  - destruct e; [done|]. by destruct He as (? & _ & ?).
Qed.
End Wire.

(** ** A request to close that is forgotten

    The client asks to close; its answer does not fit into the socket at once,
    and while the rest waits it sends another request. *)

Definition close_wire : bytes := bs "GET / HTTP/1.0" ++ CRLF ++ CRLF.

Definition conn_script : Script.t := script [RecvData close_wire; RecvAgain].

(** The socket has new input and room for [n] bytes. *)
Definition offers (d : bytes) (n : Z) (k : Script.t) : Script.t :=
  Script.mk (Script.states k) [RecvData d; RecvAgain] [n] (Script.times k) (Script.allows k)
    (Script.out k) (Script.inp k).

(** A read, a write that is woken but cannot send, and, since that re-arms for
    input, a read: the end of the last. *)
Definition rearmed {A} (r : option (task_end * Connection.t * A)) : option (Z * Connection.t * A) :=
  match r with Some (Rearm flags _, c, k) => Some (flags, c, k) | _ => None end.

Definition read_write_read (c : Connection.t) (k : Script.t) : option (Z * Connection.t * Script.t) :=
  '(_, c1, k1) ← rearmed (read_task map_to_list App.router 2 c k);
  '(flags, c2, k2) ← rearmed (Some (write_task c1 k1));
  if has_flag EPOLLIN flags
  then rearmed (read_task map_to_list App.router 2 c2 (offers get_root_wire 1000 k2)) else None.

Definition close_then_more : option (Z * Connection.t * Script.t) := read_write_read conn0 conn_script.

Lemma alive_conn_script : alive Script.out Script.inp map_to_list App.router 5 conn0 conn_script.
Proof. by apply opened. Qed.

Lemma rearmed_some {A} (r : option (task_end * Connection.t * A)) flags c k :
  rearmed r = Some (flags, c, k) -> exists b, r = Some (Rearm flags b, c, k).
Proof. destruct r as [[[[|f b] c'] k']|]; try done. intros [= <- <- <-]. by exists b. Qed.

Lemma read_write_read_alive c k flags c' k' :
  alive Script.out Script.inp map_to_list App.router 5 c k -> read_write_read c k = Some (flags, c', k') ->
  alive Script.out Script.inp map_to_list App.router 5 c' k'.
Proof.
  intros Ha. unfold read_write_read. intros ([[f1 c1] k1] & [b1 E1]%rearmed_some & H1)%bind_Some.
  apply bind_Some in H1 as ([[f2 c2] k2] & [b2 E2]%rearmed_some & H2).
  destruct (has_flag EPOLLIN f2); [|done]. apply rearmed_some in H2 as [b3 E3].
  eapply reads; [|exact E3]. apply (elsewhere _ _ _ _ _ _ k2); [|done..].
  injection E2 as E2. eapply writes; [|exact E2]. by eapply reads; [|exact E1].
Qed.

Definition is_forgotten (o : option (Z * Connection.t * Script.t)) : bool :=
  match o with
  | Some (flags, c, k) =>
      Connection.should_close_after_write c && bool_decide (Connection.write_buffer c = []) &&
      negb (has_flag EPOLLOUT flags) &&
      match requests 2 (Script.inp k 5) with
      | Some (rs, rest) =>
          bool_decide (rest = []) && forallb (fun r => HttpResponse.close_after_send (respond App.router r)) (take 1 rs) &&
          bool_decide (Script.out k 5 = answers map_to_list App.router rs)
      | None => false
      end
  | None => false
  end.

(** The first request asked to close, both have been answered and everything has
    been sent; the connection is open and marked, and watched for input only.
    ([CloseMark] says what follows.) *)
Lemma forgotten_run :
  exists flags c k rs,
    close_then_more = Some (flags, c, k) /\ alive Script.out Script.inp map_to_list App.router 5 c k /\
    Connection.should_close_after_write c = true /\ Connection.write_buffer c = [] /\
    has_flag EPOLLOUT flags = false /\
    requests 2 (Script.inp k 5) = Some (rs, []) /\ Script.out k 5 = answers map_to_list App.router rs /\
    forallb (fun r => HttpResponse.close_after_send (respond App.router r)) (take 1 rs) = true.
Proof.
  assert (is_forgotten close_then_more = true) as H by (vm_compute; reflexivity).
  destruct close_then_more as [[[flags c] k]|] eqn:E; [|discriminate H].
  pose proof (read_write_read_alive _ _ _ _ _ alive_conn_script E) as Ha.
  cbn [is_forgotten] in H. destruct (requests 2 (Script.inp k 5)) as [[rs rest]|] eqn:Hreq; simplify_bools; [|done].
  exists flags, c, k, rs. subst rest. split_and!; first [assumption | apply eq_refl].
Qed.

Lemma connection_is_transducer_witness :
  exists flags c k n rs rest,
    close_then_more = Some (flags, c, k) /\ requests n (Script.inp k 5) = Some (rs, rest) /\
    Script.out k 5 ++ Connection.write_buffer c = answers map_to_list App.router rs.
Proof.
  assert (is_forgotten close_then_more = true) as H by (vm_compute; reflexivity).
  destruct close_then_more as [[[flags c] k]|] eqn:E; [|discriminate H].
  destruct (connection_is_transducer Script.out Script.inp map_to_list App.router 5 c k
    (read_write_read_alive _ _ _ _ _ alive_conn_script E)) as (n & rs & rest & H1 & H2 & _).
  exists flags, c, k, n, rs, rest. exact (conj eq_refl (conj H1 H2)).
Defined.

End Conversation.
