(* ===== verification/Admission.v ===== *)
(** * Admission: accepting and removing connections concurrently

    [EventLoop::handle_accept] and [EventLoop::remove_connection]
    ([src/src/network/EventLoop.cpp]).  The loop's thread and every worker may
    be in either function at once ([remove_connection] ends with a call of
    [handle_accept]), so they are modelled as threads that interleave at their
    critical sections, atomic operations and system calls.  [remove_connection]
    may be called for any descriptor at any time.  The map, the [Connection]
    objects, the references to them and the descriptors they close are an
    [Objects.t]. *)

From S2P Require Import Prelude IpLimiter Lifetime Objects.
#[local] Open Scope Z_scope.

Module Admission.

Definition MAX_TOTAL_CONNECTIONS : Z := 10000.
Definition MAX_PER_IP : Z := 100.

(** The next action of a thread; [o] is the socket accepted, or the reference
    the local [conn] holds to its object. *)
Inductive pc :=
| Idle                              (* in neither function *)
| Accept                            (* the head of the loop of handle_accept *)
| Accepting                         (* past the capacity check, before accept() *)
| TryAcquire (fd : Z) (o : nat)
| Reject (fd : Z) (o : nat)         (* close(client_fd); continue; *)
| Insert (fd : Z) (o : nat)         (* conn = make_shared; connections[client_fd] = conn *)
| Register (fd : Z) (o : nat)       (* epoll_ctl(EPOLL_CTL_ADD) *)
| UndoRelease (fd : Z) (o : nat)    (* it has failed: ip_conn_limiter.release *)
| UndoErase (fd : Z) (o : nat)      (* connections.erase(client_fd) *)
| UndoClose (fd : Z) (o : nat)      (* close(client_fd); continue; *)
| Count (o : nat)                   (* active_connections.fetch_add(1) *)
| Drop (o : nat)                    (* the end of the round: conn goes out of scope *)
| Release (o : nat)                 (* remove_connection: ip_conn_limiter.release *)
| Uncount (o : nat)                 (* active_connections.fetch_sub(1) *)
| Deregister (o : nat).             (* epoll_ctl(EPOLL_CTL_DEL), under conn's mutex *)

#[global] Instance pc_eq_dec : EqDecision pc.
Proof. solve_decision. Defined.

(** The listening socket: connections waiting in the kernel, whether
    [epoll_wait] has an edge to report (one is raised when a connection arrives,
    and only then), and whether an [accept] has failed for lack of resources. *)
Record listener := mk_listener { backlog : nat; edge : bool; failed : bool }.

Record sys := mk {
  running : bool;                      (* state == RUNNING and server_fd >= 0 *)
  store : Objects.t;                   (* the map [connections], objects, descriptors *)
  limiter : gmap bytes Z;
  active : Z;                          (* std::atomic<size_t> *)
  threads : list pc;
  refs : list nat;                     (* the references of tasks, and of calls of
                                          remove_connection that have come to handle_accept *)
  listen : listener;
  add_failed : bool                    (* history: an epoll_ctl(ADD) has failed *)
}.

Definition connections (s : sys) : gmap Z nat := Objects.connections (store s).

Definition init (n : nat) : sys :=
  {| running := true; store := Objects.init; limiter := ∅; active := 0;
     threads := replicate n Idle; refs := []; listen := mk_listener 0 false false; add_failed := false |}.

(** The reference a thread holds, and the descriptor it alone knows of. *)
Definition holds (o : nat) (p : pc) : bool :=
  match p with
  | Register _ o' | UndoRelease _ o' | UndoErase _ o' | UndoClose _ o' | Count o' | Drop o'
  | Release o' | Uncount o' | Deregister o' => bool_decide (o' = o)
  | _ => false
  end.
Definition accepted (fd : Z) (o : nat) (p : pc) : bool :=
  match p with
  | TryAcquire fd' o' | Reject fd' o' | Insert fd' o' => bool_decide (fd' = fd /\ o' = o)
  | _ => false
  end.

(** The references outside the map. *)
Definition references (s : sys) (o : nat) : Z :=
  count (holds o) (threads s) + count (fun r => bool_decide (r = o)) (refs s).

Definition goto (i : nat) (p : pc) (s : sys) : sys :=
  mk (running s) (store s) (limiter s) (active s) (<[i := p]> (threads s)) (refs s) (listen s) (add_failed s).
Definition with_listen (l : listener) (s : sys) : sys :=
  mk (running s) (store s) (limiter s) (active s) (threads s) (refs s) l (add_failed s).
Definition with_store (x : Objects.t) (s : sys) : sys :=
  mk (running s) x (limiter s) (active s) (threads s) (refs s) (listen s) (add_failed s).
Definition with_limiter (l : gmap bytes Z) (s : sys) : sys :=
  mk (running s) (store s) l (active s) (threads s) (refs s) (listen s) (add_failed s).
Definition with_active (n : Z) (s : sys) : sys :=
  mk (running s) (store s) (limiter s) n (threads s) (refs s) (listen s) (add_failed s).
Definition with_refs (r : list nat) (s : sys) : sys :=
  mk (running s) (store s) (limiter s) (active s) (threads s) r (listen s) (add_failed s).

(** [epoll_ctl(ADD)] has failed. *)
Definition failure (s : sys) : sys :=
  mk (running s) (store s) (limiter s) (active s) (threads s) (refs s) (listen s) true.

Section Steps.
(** The client address of each socket accepted, and the bound on the number of
    connections, [MAX_TOTAL_CONNECTIONS] in the code. *)
Context (address : nat -> bytes) (MAX : Z).

(** [handle_accept]. *)
Inductive accept_step (s : sys) (i : nat) : sys -> Prop :=
(* the loop's thread enters handle_accept because epoll reported the socket *)
| step_enter :
    threads s !! i = Some Idle -> edge (listen s) = true ->
    accept_step s i (goto i (if running s then Accept else Idle)
      (with_listen (mk_listener (backlog (listen s)) false (failed (listen s))) s))
(* while (state == RUNNING) { if (active_connections >= MAX) break; *)
| step_check_stop : threads s !! i = Some Accept -> running s = false -> accept_step s i (goto i Idle s)
| step_check_full : threads s !! i = Some Accept -> MAX <= active s -> accept_step s i (goto i Idle s)
| step_check :
    threads s !! i = Some Accept -> running s = true -> active s < MAX -> accept_step s i (goto i Accepting s)
(* accept(): a descriptor that is not open, or nothing left (EAGAIN), out of resources, transient *)
| step_accept fd n :
    threads s !! i = Some Accepting -> backlog (listen s) = S n ->
    Objects.kernel (store s) !! fd = None -> 0 <= fd ->
    accept_step s i (goto i (TryAcquire fd (Objects.next (store s)))
      (with_store (Objects.accept fd (store s))
        (with_listen (mk_listener n (edge (listen s)) (failed (listen s))) s)))
| step_accept_none :
    threads s !! i = Some Accepting -> backlog (listen s) = 0%nat -> accept_step s i (goto i Idle s)
| step_accept_fails :
    threads s !! i = Some Accepting ->
    accept_step s i (goto i Idle
      (with_listen (mk_listener (backlog (listen s)) (edge (listen s)) true) s))
| step_accept_transient : threads s !! i = Some Accepting -> accept_step s i (goto i Accept s)
(* if (!ip_conn_limiter.try_acquire(ip)) { close(client_fd); continue; } *)
| step_try_acquire fd o ok l' :
    threads s !! i = Some (TryAcquire fd o) ->
    PerIpConnectionLimiter.try_acquire MAX_PER_IP (address o) (limiter s) = (ok, l') ->
    accept_step s i (goto i (if ok then Insert fd o else Reject fd o) (with_limiter l' s))
| step_reject fd o :
    threads s !! i = Some (Reject fd o) ->
    accept_step s i (goto i Accept (with_store (Objects.close fd (store s)) s))
(* the entry that was there loses its reference *)
| step_insert fd o :
    threads s !! i = Some (Insert fd o) ->
    accept_step s i (let s' := goto i (Register fd o) s in
                     with_store (Objects.put (references s') fd o (store s)) s')
| step_register fd o :
    threads s !! i = Some (Register fd o) -> accept_step s i (goto i (Count o) s)
| step_register_fails fd o :
    threads s !! i = Some (Register fd o) -> accept_step s i (goto i (UndoRelease fd o) (failure s))
| step_undo_release fd o :
    threads s !! i = Some (UndoRelease fd o) ->
    accept_step s i (goto i (UndoErase fd o)
      (with_limiter (PerIpConnectionLimiter.release (address o) (limiter s)) s))
| step_undo_erase fd o :
    threads s !! i = Some (UndoErase fd o) ->
    accept_step s i (let s' := goto i (UndoClose fd o) s in
                     with_store (Objects.erase (references s') fd (store s)) s')
| step_undo_close fd o :
    threads s !! i = Some (UndoClose fd o) ->
    accept_step s i (goto i (Drop o) (with_store (Objects.close fd (store s)) s))
| step_count o :
    threads s !! i = Some (Count o) -> accept_step s i (goto i (Drop o) (with_active (u64 (active s + 1)) s))
| step_drop o :
    threads s !! i = Some (Drop o) ->
    accept_step s i (let s' := goto i Accept s in
                     with_store (Objects.drop (references s' o) o (store s)) s').

(** [remove_connection]. *)
Inductive remove_step (s : sys) (i : nat) : sys -> Prop :=
(* called on an event, at the end of a task, or when idle; for any descriptor,
   since the number may be given out again meanwhile *)
| step_find_none fd : threads s !! i = Some Idle -> connections s !! fd = None -> remove_step s i s
| step_find fd o :
    threads s !! i = Some Idle -> connections s !! fd = Some o ->
    remove_step s i (goto i (Release o) (with_store (Objects.take_out fd (store s)) s))
| step_release o :
    threads s !! i = Some (Release o) ->
    remove_step s i (goto i (Uncount o)
      (with_limiter (PerIpConnectionLimiter.release (address o) (limiter s)) s))
| step_uncount o :
    threads s !! i = Some (Uncount o) ->
    remove_step s i (goto i (Deregister o) (with_active (u64 (active s - 1)) s))
(* epoll_ctl(DEL); if (state == RUNNING && server_fd >= 0) handle_accept();
   conn is held for as long as that call lasts *)
| step_deregister o :
    threads s !! i = Some (Deregister o) ->
    remove_step s i (goto i (if running s then Accept else Idle) (with_refs (refs s ++ [o]) s)).

Inductive step (s : sys) : sys -> Prop :=
| in_accept i s' : accept_step s i s' -> step s s'
| in_remove i s' : remove_step s i s' -> step s s'
(* a task captures the connection ... *)
| in_submit fd o : connections s !! fd = Some o -> step s (with_refs (refs s ++ [o]) s)
(* ... and is destroyed; or remove_connection returns *)
| in_release pre o post :
    refs s = pre ++ o :: post ->
    step s (let s' := with_refs (pre ++ post) s in
            with_store (Objects.drop (references s' o) o (store s)) s')
(* a client connects *)
| in_arrival :
    step s (with_listen (mk_listener (S (backlog (listen s))) true (failed (listen s))) s)
| in_stop :
    step s (mk false (store s) (limiter s) (active s) (threads s) (refs s) (listen s) (add_failed s)).

Definition reachable (n : nat) (s : sys) : Prop := rtc step (init n) s.

(** ** What the counters count *)

(** Connections of an address that are in the map. *)
Definition slots (ip : bytes) (s : sys) : gmap Z nat := filter (fun e => address e.2 = ip) (connections s).

(** A thread that holds a slot itself, for a connection not in the map. *)
Definition pc_slot (ip : bytes) (p : pc) : bool :=
  match p with Insert _ o | Release o => bool_decide (address o = ip) | _ => false end.

(** In [handle_accept] or [remove_connection]. *)
Definition pc_busy (p : pc) : bool := match p with Idle => false | _ => true end.

Definition pc_entering (p : pc) : bool :=
  match p with Accepting | TryAcquire _ _ | Insert _ _ => true | _ => false end.

(** Inserted, not counted yet; and counted still, no longer in the map. *)
Definition pc_pending (p : pc) : bool :=
  match p with Register _ _ | Count _ => true | _ => false end.
Definition pc_leaving (p : pc) : bool :=
  match p with Release _ | Uncount _ => true | _ => false end.

(** On the failure path. *)
Definition pc_undoing (p : pc) : bool :=
  match p with UndoRelease _ _ | UndoErase _ _ | UndoClose _ _ => true | _ => false end.

Definition msize (m : gmap Z nat) : Z := Z.of_nat (size m).

(** ** Ownership, as long as no [epoll_ctl(ADD)] has failed *)

Definition bare (s : sys) (fd : Z) (o : nat) : Z := count (accepted fd o) (threads s).

Record sound (s : sys) : Prop := {
  sound_owned : Objects.owned (store s) (references s) (bare s);
  sound_clean i p : threads s !! i = Some p -> pc_undoing p = false
}.

(** What a move of one thread does to the counts. *)
Lemma references_goto i p p' s o :
  threads s !! i = Some p ->
  references (goto i p' s) o = references s o - Z.b2z (holds o p) + Z.b2z (holds o p').
Proof. intros Hi. unfold references. cbn [goto threads refs]. rewrite (count_insert _ _ _ _ _ Hi). lia. Qed.

Lemma bare_goto i p p' s fd o :
  threads s !! i = Some p ->
  bare (goto i p' s) fd o = bare s fd o - Z.b2z (accepted fd o p) + Z.b2z (accepted fd o p').
Proof. intros Hi. unfold bare. cbn [goto threads]. rewrite (count_insert _ _ _ _ _ Hi). lia. Qed.

Lemma references_refs s pre o post o' :
  refs s = pre ++ o :: post ->
  references (with_refs (pre ++ post) s) o' = references s o' - Lifetime.one_at o o'.
Proof.
  intros E. unfold references. cbn [with_refs threads refs]. rewrite E, !count_app. cbn [count].
  rewrite Lifetime.b2z_one_at. lia.
Qed.

Lemma references_add s o o' :
  references (with_refs (refs s ++ [o]) s) o' = references s o' + Lifetime.one_at o o'.
Proof.
  unfold references. cbn [with_refs threads refs]. rewrite count_app. cbn [count].
  rewrite Lifetime.b2z_one_at. lia.
Qed.

Lemma references_nonneg s o : 0 <= references s o.
Proof. apply Z.add_nonneg_nonneg; apply count_nonneg. Qed.

Lemma holds_pos i p s o : threads s !! i = Some p -> holds o p = true -> 0 < references s o.
Proof.
  intros Hi Hp. pose proof (count_lookup_pos _ _ _ _ Hi Hp).
  pose proof (count_nonneg (fun r => bool_decide (r = o)) (refs s)). unfold references. lia.
Qed.

Lemma accepted_pos i p s fd o : threads s !! i = Some p -> accepted fd o p = true -> 0 < bare s fd o.
Proof. apply count_lookup_pos. Qed.

(** The invariant after a move of thread [i], from that of the new store with the
    counts adjusted. *)
Lemma sound_move i p p' s s' nh na :
  sound s -> threads s !! i = Some p -> threads s' = <[i := p']> (threads s) -> refs s' = refs s ->
  pc_undoing p' = false -> Objects.owned (store s') nh na ->
  (forall o, nh o = references s o - Z.b2z (holds o p) + Z.b2z (holds o p')) ->
  (forall fd o, na fd o = bare s fd o - Z.b2z (accepted fd o p) + Z.b2z (accepted fd o p')) ->
  sound s'.
Proof.
  intros [_ Hc] Hi Ht Hr Hp HI Hh Ha. constructor.
  - eapply Objects.owned_ext; [exact HI| |].
    + intros o. rewrite Hh, <- (references_goto i p p' s o Hi). unfold references. by rewrite Ht, Hr.
    + intros fd o. rewrite Ha, <- (bare_goto i p p' s fd o Hi). unfold bare. by rewrite Ht.
  - intros j q. rewrite Ht. intros [(-> & <- & _)|[_ Hj]]%list_lookup_insert_Some; [done|by eapply Hc].
Qed.

(** A move that changes neither the store nor what is held. *)
Lemma sound_goto i p p' s s' :
  sound s -> threads s !! i = Some p -> threads s' = <[i := p']> (threads s) -> refs s' = refs s ->
  store s' = store s -> pc_undoing p' = false ->
  (forall o, holds o p' = holds o p) -> (forall fd o, accepted fd o p' = accepted fd o p) -> sound s'.
Proof.
  intros Hs Hi Ht Hr Hst Hp Hh Ha. eapply (sound_move i p p' s); [exact Hs|exact Hi|exact Ht|exact Hr|exact Hp| | |].
  - rewrite Hst. apply Hs.
  - intros o. rewrite Hh. lia.
  - intros fd o. rewrite Ha. lia.
Qed.

Ltac counts := intros; cbn [holds accepted]; rewrite ?Lifetime.b2z_one_at, ?Lifetime.b2z_one_at2; cbn [Z.b2z]; lia.
Ltac is_so := cbn; by rewrite bool_decide_true.

(** The local [conn] of thread [i] goes out of scope. *)
Lemma sound_drop i o s :
  sound s -> threads s !! i = Some (Drop o) ->
  sound (let s' := goto i Accept s in with_store (Objects.drop (references s' o) o (store s)) s').
Proof.
  intros Hs Hi. pose proof (sound_owned _ Hs) as HI. cbv zeta.
  assert (0 < references s o) as Hpos by (eapply holds_pos; [exact Hi|is_so]).
  assert (references (goto i Accept s) o = references s o - 1) as ->.
  { rewrite (references_goto i _ _ _ _ Hi). cbn. rewrite bool_decide_true by done. cbn. lia. }
  eapply (sound_move i _ Accept s); [exact Hs|exact Hi|done|done|done|by eapply Objects.owned_drop|counts..].
Qed.

Lemma sound_accept_step s i s' :
  sound s -> accept_step s i s' -> add_failed s' = false -> sound s'.
Proof.
  intros Hs Hstep Hf. pose proof (sound_owned _ Hs) as HI. pose proof (sound_clean _ Hs) as Hc.
  destruct Hstep as [Hi _|Hi _|Hi _|Hi _ _|fd n Hi _ Hk Hfd|Hi _|Hi|Hi|fd o ok l' Hi _|fd o Hi|fd o Hi|fd o Hi|fd o Hi
    |fd o Hi|fd o Hi|fd o Hi|o Hi|o Hi]; try (by pose proof (Hc _ _ Hi)).
  all: try (by eapply (sound_goto i); [exact Hs|exact Hi|..]).
  - destruct (running s); by eapply (sound_goto i); [exact Hs|exact Hi|..].
  - eapply (sound_move i); [exact Hs|exact Hi|done|done|done|by apply Objects.owned_accept|counts..].
  - destruct ok; by eapply (sound_goto i); [exact Hs|exact Hi|..].
  - assert (0 < bare s fd o) as Hpos by (eapply accepted_pos; [exact Hi|is_so]).
    eapply (sound_move i); [exact Hs|exact Hi|done|done|done|by eapply Objects.owned_reject|counts..].
  - assert (0 < bare s fd o) as Hpos by (eapply accepted_pos; [exact Hi|is_so]).
    eapply (sound_move i); [exact Hs|exact Hi|done|done|done|by eapply Objects.owned_put|counts..].
  - by apply sound_drop.
Qed.

Lemma sound_remove_step s i s' : sound s -> remove_step s i s' -> sound s'.
Proof.
  intros Hs Hstep. pose proof (sound_owned _ Hs) as HI.
  destruct Hstep as [fd Hi _|fd o Hi Hm|o Hi|o Hi|o Hi].
  - done.
  - eapply (sound_move i); [exact Hs|exact Hi|done|done|done|by eapply Objects.owned_take_out|counts..].
  - by eapply (sound_goto i); [exact Hs|exact Hi|..].
  - by eapply (sound_goto i); [exact Hs|exact Hi|..].
  - constructor.
    + eapply Objects.owned_ext; [exact HI| |].
      * intros o'. rewrite (references_goto i (Deregister o)) by done. rewrite references_add.
        destruct (running s); counts.
      * intros fd o'. rewrite (bare_goto i (Deregister o)) by done. unfold bare. cbn [threads with_refs]. destruct (running s); counts.
    + intros j q [(-> & <- & _)|[_ Hj]]%list_lookup_insert_Some; [by destruct (running s)|by eapply (sound_clean _ Hs)].
Qed.

Lemma sound_step s s' : sound s -> step s s' -> add_failed s' = false -> sound s'.
Proof.
  intros Hs Hstep Hf. pose proof (sound_owned _ Hs) as HI.
  destruct Hstep as [i s' Hstep|i s' Hstep|fd o Hm|pre o post Hr| |].
  - by eapply sound_accept_step.
  - by eapply sound_remove_step.
  - constructor; [|exact (sound_clean _ Hs)]. eapply Objects.owned_ext; [by eapply Objects.owned_copy| |done].
    intros o'. apply references_add.
  - constructor; [|exact (sound_clean _ Hs)]. cbv zeta.
    assert (references (with_refs (pre ++ post) s) o = references s o - 1) as E.
    { rewrite (references_refs s pre o post o Hr). destruct (Lifetime.one_at_cases o o) as [[_ ->]|[? _]]; done. }
    rewrite E. eapply Objects.owned_ext; [eapply Objects.owned_drop; [exact HI|]| |done].
    + unfold references. rewrite Hr, count_app. cbn [count]. rewrite bool_decide_true by done.
      pose proof (count_nonneg (holds o) (threads s)).
      pose proof (count_nonneg (fun r => bool_decide (r = o)) pre).
      pose proof (count_nonneg (fun r => bool_decide (r = o)) post). cbn [Z.b2z]. lia.
    + intros o'. by apply references_refs.
  - by destruct Hs.
  - by destruct Hs.
Qed.

Lemma sound_init n : sound (init n).
Proof.
  assert (forall P : pc -> bool, P Idle = false -> count P (replicate n Idle) = 0) as Hz.
  { intros P HP. apply count_none. by intros i p [-> _]%lookup_replicate_1. }
  constructor.
  - apply Objects.owned_init; intros; unfold references, bare; cbn [init threads refs]; by rewrite Hz.
  - by intros i p [-> _]%lookup_replicate_1.
Qed.

(** A thread about to insert has a descriptor that is in no entry. *)
Lemma insert_fresh i fd o s : sound s -> threads s !! i = Some (Insert fd o) -> connections s !! fd = None.
Proof.
  intros Hs Hi. apply (Objects.owned_not_in_map _ _ _ (sound_owned _ Hs) fd o).
  eapply accepted_pos; [exact Hi|is_so].
Qed.

(** ** Counting connections *)

Definition occ {A} (o : option A) : Z := match o with Some _ => 1 | None => 0 end.

Lemma msize_delete f (m : gmap Z nat) : msize m = msize (delete f m) + occ (m !! f).
Proof.
  unfold msize, occ. destruct (m !! f) as [c|] eqn:Hf.
  - rewrite <- (insert_delete_id m f c Hf) at 1. rewrite map_size_insert_None by apply lookup_delete_eq. lia.
  - rewrite delete_id by done. lia.
Qed.

Lemma msize_focus f (m m' : gmap Z nat) :
  (forall fd, fd <> f -> m' !! fd = m !! fd) ->
  msize m' = msize m - occ (m !! f) + occ (m' !! f).
Proof.
  intros Hoff. rewrite (msize_delete f m), (msize_delete f m').
  assert (delete f m' = delete f m) as ->; [|lia]. apply map_eq. intros fd.
  destruct (decide (fd = f)) as [->|Hne]; [by rewrite !lookup_delete_eq|].
  rewrite !lookup_delete_ne by done. by apply Hoff.
Qed.

(** Two states whose maps differ at one descriptor at most. *)
Definition agree_off (f : Z) (s s' : sys) : Prop :=
  forall fd, fd <> f -> connections s' !! fd = connections s !! fd.

Lemma slots_lookup ip s fd :
  slots ip s !! fd =
    match connections s !! fd with
    | Some o => if decide (address o = ip) then Some o else None
    | None => None
    end.
Proof.
  unfold slots. destruct (connections s !! fd) as [o|] eqn:Hc.
  - case_decide as Hd; [by apply map_lookup_filter_Some|].
    apply map_lookup_filter_None. right. intros o' Ho'. cbn. congruence.
  - apply map_lookup_filter_None. by left.
Qed.

Lemma slots_focus ip f s s' :
  agree_off f s s' ->
  msize (slots ip s') = msize (slots ip s) - occ (slots ip s !! f) + occ (slots ip s' !! f).
Proof. intros Ha. apply msize_focus. intros fd Hne. rewrite !slots_lookup. by rewrite (Ha fd Hne). Qed.

(** The slots of an address, in the map or in a thread's hands. *)
Definition held (ip : bytes) (s : sys) : Z := msize (slots ip s) + count (pc_slot ip) (threads s).

Lemma held_nonneg ip s : 0 <= held ip s.
Proof. unfold held, msize. pose proof (count_nonneg (pc_slot ip) (threads s)). lia. Qed.

Lemma held_move ip f i p p' s s' :
  threads s !! i = Some p -> threads s' = <[i := p']> (threads s) -> agree_off f s s' ->
  held ip s' = held ip s - occ (slots ip s !! f) + occ (slots ip s' !! f)
               - Z.b2z (pc_slot ip p) + Z.b2z (pc_slot ip p').
Proof.
  intros Hi Ht Ha. unfold held. rewrite (slots_focus ip f s s' Ha), Ht, (count_insert _ _ _ _ _ Hi). lia.
Qed.

(** The limiter's entries are the slots held. *)
Definition exact (s : sys) : Prop :=
  forall ip, limiter s !! ip = PerIpConnectionLimiter.entry (held ip s) /\ held ip s <= MAX_PER_IP.

Lemma exact_same s s' :
  exact s -> limiter s' = limiter s -> (forall ip, held ip s' = held ip s) -> exact s'.
Proof. intros He Hl Hh ip. rewrite Hl, Hh. apply He. Qed.

Lemma exact_release s s' ip :
  exact s -> limiter s' = PerIpConnectionLimiter.release ip (limiter s) -> 0 < held ip s ->
  (forall ip', held ip' s' = held ip' s - (if decide (ip' = ip) then 1 else 0)) -> exact s'.
Proof.
  intros He Hl Hpos Hh ip'. rewrite Hl, Hh. destruct (PerIpConnectionLimiter.release_spec ip (limiter s)) as [Hne Heq].
  destruct (He ip) as [Hip Hmax]. rewrite Hip, PerIpConnectionLimiter.default_entry in Heq.
  case_decide as Hd; [subst ip'|rewrite Hne, Z.sub_0_r by done; apply He].
  rewrite Heq by done. split; [|lia]. unfold PerIpConnectionLimiter.entry.
  destruct (Z.eqb_spec (held ip s) 1), (Z.eqb_spec (held ip s - 1) 0); done || lia.
Qed.

Lemma exact_acquire s s' ip ok l' :
  exact s -> PerIpConnectionLimiter.try_acquire MAX_PER_IP ip (limiter s) = (ok, l') -> limiter s' = l' ->
  (forall ip', held ip' s' = held ip' s + (if decide (ip' = ip) then Z.b2z ok else 0)) -> exact s'.
Proof.
  intros He Ha Hl Hh ip'. rewrite Hl, Hh.
  apply PerIpConnectionLimiter.try_acquire_spec in Ha as (Hok & Hne & Heq).
  destruct (He ip) as [Hip Hmax]. rewrite Hip, PerIpConnectionLimiter.default_entry in *.
  pose proof (held_nonneg ip s). unfold MAX_PER_IP in *.
  case_decide as Hd; [subst ip'|rewrite Hne, Z.add_0_r by done; apply He]. rewrite Heq.
  destruct (Z.ltb_spec (held ip s) 100); subst ok; cbn [Z.b2z];
    rewrite PerIpConnectionLimiter.entry_pos by lia; split; done || lia.
Qed.

Lemma held_goto ip i p p' s s' :
  threads s !! i = Some p -> threads s' = <[i := p']> (threads s) -> connections s' = connections s ->
  held ip s' = held ip s - Z.b2z (pc_slot ip p) + Z.b2z (pc_slot ip p').
Proof.
  intros Hi Ht Hc. unfold held. rewrite Ht, (count_insert _ _ _ _ _ Hi). unfold slots. rewrite Hc. lia.
Qed.

Lemma exact_goto i p p' s s' :
  exact s -> threads s !! i = Some p -> threads s' = <[i := p']> (threads s) ->
  limiter s' = limiter s -> connections s' = connections s ->
  (forall ip, pc_slot ip p' = pc_slot ip p) -> exact s'.
Proof.
  intros He Hi Ht Hl Hc Hp. apply (exact_same s); [done|done|]. intros ip.
  rewrite (held_goto ip i p p' s s' Hi Ht Hc), Hp. lia.
Qed.

(** A thread that holds a slot is counted. *)
Lemma held_pos ip i p s : threads s !! i = Some p -> pc_slot ip p = true -> 0 < held ip s.
Proof.
  intros Hi Hp. pose proof (count_lookup_pos _ _ _ _ Hi Hp). unfold held, msize. lia.
Qed.

Lemma bool_decide_b2z (P : Prop) `{Decision P} : Z.b2z (bool_decide P) = if decide P then 1 else 0.
Proof. by case_bool_decide; case_decide. Qed.

(** The steps that change the map. *)
Lemma held_insert ip i fd o s :
  sound s -> threads s !! i = Some (Insert fd o) ->
  held ip (let s' := goto i (Register fd o) s in
           with_store (Objects.put (references s') fd o (store s)) s') = held ip s.
Proof.
  intros Hs Hi. pose proof (insert_fresh i fd o s Hs Hi) as Hc. cbv zeta.
  erewrite (held_move ip fd i _ (Register fd o) s); [|exact Hi|done|].
  - rewrite !slots_lookup, Hc. unfold connections. cbn [with_store store].
    rewrite Objects.connections_put, lookup_insert_eq. cbn. rewrite bool_decide_b2z. case_decide; cbn; lia.
  - intros fd' Hne. unfold connections. cbn [with_store store].
    by rewrite Objects.connections_put, lookup_insert_ne.
Qed.

Lemma held_find ip i fd o s :
  threads s !! i = Some Idle -> connections s !! fd = Some o ->
  held ip (goto i (Release o) (with_store (Objects.take_out fd (store s)) s)) = held ip s.
Proof.
  intros Hi Hc. erewrite (held_move ip fd i _ (Release o) s); [|exact Hi|done|].
  - rewrite !slots_lookup, Hc. unfold connections. cbn [goto with_store store Objects.take_out Objects.connections].
    rewrite lookup_delete_eq. cbn. rewrite bool_decide_b2z. case_decide; cbn; lia.
  - intros fd' Hne. unfold connections. cbn. by rewrite lookup_delete_ne.
Qed.

Lemma exact_step s s' : sound s -> exact s -> step s s' -> add_failed s' = false -> exact s'.
Proof.
  intros Hs He Hstep Hf. pose proof (sound_clean _ Hs) as Hcl.
  destruct Hstep as [i ? [Hi _|Hi _|Hi _|Hi _ _|fd n Hi _ Hk Hfd|Hi _|Hi|Hi|fd o ok l' Hi Ha|fd o Hi|fd o Hi|fd o Hi|fd o Hi
    |fd o Hi|fd o Hi|fd o Hi|o Hi|o Hi]|i ? [fd Hi _|fd o Hi Hm|o Hi|o Hi|o Hi]|fd o Hm|pre o post Hr| |];
    try (by pose proof (Hcl _ _ Hi)).
  all: try (by eapply (exact_goto i); [exact He|exact Hi|..]).
  all: try done.
  - destruct (running s); by eapply (exact_goto i); [exact He|exact Hi|..].
  - (* try_acquire *) eapply (exact_acquire s); [exact He|exact Ha|done|]. intros ip'.
    erewrite (held_goto ip' i); [|exact Hi|done..]. destruct ok; cbn.
    + rewrite bool_decide_b2z. repeat case_decide; congruence || lia.
    + case_decide; lia.
  - (* insert *) apply (exact_same s); [exact He|done|]. intros ip. by apply held_insert.
  - (* drop *) eapply (exact_goto i); [exact He|exact Hi|done|done|apply Objects.connections_drop|done].
  - (* find *) apply (exact_same s); [exact He|done|]. intros ip. by apply held_find.
  - (* release *) eapply (exact_release s _ (address o)); [exact He|done| |].
    + eapply held_pos; [exact Hi|cbn; by rewrite bool_decide_true].
    + intros ip'. erewrite (held_goto ip' i); [|exact Hi|done..]. cbn. rewrite bool_decide_b2z.
      repeat case_decide; congruence || lia.
  - (* deregister *) destruct (running s); by eapply (exact_goto i); [exact He|exact Hi|..].
  - (* the reference of a task *) apply (exact_same s); [exact He|done|]. intros ip. unfold held, slots, connections.
    cbn [with_store store threads with_refs]. by rewrite Objects.connections_drop.
Qed.

Lemma exact_init n : exact (init n).
Proof.
  intros ip. assert (held ip (init n) = 0) as ->; [|done]. unfold held.
  rewrite count_none by by intros i p [-> _]%lookup_replicate_1. done.
Qed.

(** ** The global counter *)

Section Total.
Context (n : Z) (HMAX : 1 <= MAX) (Hn : MAX + 2 * n < 2 ^ 64).

Record counters (s : sys) : Prop := {
  c_threads : zlen (threads s) = n;
  c_active : active s =
    u64 (msize (connections s) - count pc_pending (threads s) + count pc_leaving (threads s));
  c_total : msize (connections s) + count pc_entering (threads s) <= MAX + n - 1
}.

Lemma u64_add a b : u64 (u64 a + b) = u64 (a + b).
Proof. unfold u64. apply Zplus_mod_idemp_l. Qed.

(** One thread moves; the number of connections changes by [d]. *)
Lemma counters_move d i p p' s s' :
  counters s -> threads s !! i = Some p -> threads s' = <[i := p']> (threads s) ->
  msize (connections s') = msize (connections s) + d ->
  let diff P := Z.b2z (P p') - Z.b2z (P p) in
  active s' = u64 (active s + (d - diff pc_pending + diff pc_leaving)) ->
  (d + diff pc_entering <= 0 \/
   msize (connections s) + count pc_entering (threads s) + d + diff pc_entering <= MAX + n - 1) ->
  counters s'.
Proof.
  intros [Ht Ha Hm] Hi Ht' Hc diff Ha' Hm'.
  assert (forall P, count P (threads s') = count P (threads s) + diff P) as Hcount
    by (intros P; rewrite Ht', (count_insert P _ _ _ _ Hi); subst diff; cbn; lia).
  constructor.
  - by rewrite Ht', zlen_insert.
  - rewrite Ha', Ha, !Hcount, Hc, u64_add. f_equal. lia.
  - rewrite Hcount, Hc. lia.
Qed.

Lemma active_wraps s : counters s -> active s = u64 (active s + 0).
Proof. intros []. rewrite c_active0, u64_add. f_equal. lia. Qed.

Lemma counters_goto i p p' s s' :
  counters s -> threads s !! i = Some p -> threads s' = <[i := p']> (threads s) ->
  connections s' = connections s -> active s' = active s ->
  pc_pending p' = pc_pending p -> pc_leaving p' = pc_leaving p ->
  (Z.b2z (pc_entering p') <= Z.b2z (pc_entering p) \/
   msize (connections s) + count pc_entering (threads s) + 1 <= MAX + n - 1) ->
  counters s'.
Proof.
  intros Hcs Hi Ht' Hc Ha' Hp Hl He. eapply (counters_move 0 i); [exact Hcs|exact Hi|exact Ht'| | |].
  - rewrite Hc. lia.
  - rewrite Hp, Hl, Ha', (active_wraps s Hcs) at 1. f_equal. lia.
  - destruct (pc_entering p'), (pc_entering p); cbn in *; lia.
Qed.

(** A thread that passes the capacity check leaves room for one more. *)
Lemma check_room i s :
  counters s -> threads s !! i = Some Accept -> active s < MAX ->
  msize (connections s) + count pc_entering (threads s) + 1 <= MAX + n - 1.
Proof.
  intros [Ht Ha Hm] Hi Hlt.
  pose proof (count_or pc_pending pc_entering (threads s) ltac:(by intros [])) as Hor.
  pose proof (count_lt (fun p => pc_pending p || pc_entering p) (threads s) i Accept Hi eq_refl).
  pose proof (count_nonneg pc_leaving (threads s)). pose proof (count_le pc_leaving (threads s)).
  pose proof (count_nonneg pc_pending (threads s)). pose proof (count_nonneg pc_entering (threads s)).
  assert (0 <= msize (connections s)) by (unfold msize; lia).
  rewrite Ha in Hlt. set (x := msize (connections s) - _ + _) in *.
  destruct (Z.lt_ge_cases x 0); [lia|].
  rewrite u64_small in Hlt; lia.
Qed.

Lemma msize_insert i fd o s :
  sound s -> threads s !! i = Some (Insert fd o) ->
  msize (connections (let s' := goto i (Register fd o) s in
    with_store (Objects.put (references s') fd o (store s)) s')) = msize (connections s) + 1.
Proof.
  intros Hs Hi. pose proof (insert_fresh i fd o s Hs Hi) as Hc. unfold connections in *. cbn [with_store store].
  rewrite Objects.connections_put, (msize_focus fd (Objects.connections (store s))), Hc, lookup_insert_eq; [cbn; lia|].
  intros fd' Hne. by rewrite lookup_insert_ne.
Qed.

Lemma msize_find fd o s :
  connections s !! fd = Some o ->
  msize (Objects.connections (Objects.take_out fd (store s))) = msize (connections s) + - 1.
Proof.
  intros Hc. rewrite (msize_focus fd (connections s)), Hc; cbn; [rewrite lookup_delete_eq; cbn; lia|].
  intros fd' Hne. by rewrite lookup_delete_ne.
Qed.

Lemma counters_step s s' : sound s -> counters s -> step s s' -> add_failed s' = false -> counters s'.
Proof.
  intros Hs Hcs Hstep Hf. pose proof (sound_clean _ Hs) as Hcl.
  destruct Hstep as [i ? [Hi _|Hi _|Hi _|Hi _ Hlt|fd n' Hi _ Hk Hfd|Hi _|Hi|Hi|fd o ok l' Hi Ha|fd o Hi|fd o Hi|fd o Hi|fd o Hi
    |fd o Hi|fd o Hi|fd o Hi|o Hi|o Hi]|i ? [fd Hi _|fd o Hi Hm|o Hi|o Hi|o Hi]|fd o Hm|pre o post Hr| |];
    try (by pose proof (Hcl _ _ Hi)).
  all: try (eapply (counters_goto i); [exact Hcs|exact Hi|done..|left; cbn; lia]).
  all: try done.
  - destruct (running s); (eapply (counters_goto i); [exact Hcs|exact Hi|done..|left; cbn; lia]).
  - eapply (counters_goto i); [exact Hcs|exact Hi|done..|]. right. by eapply check_room.
  - destruct ok; (eapply (counters_goto i); [exact Hcs|exact Hi|done..|left; cbn; lia]).
  - eapply (counters_move 1 i); [exact Hcs|exact Hi|done|by eapply msize_insert| |left; cbn; lia].
    exact (active_wraps s Hcs).
  - eapply (counters_move 0 i); [exact Hcs|exact Hi|done|by rewrite Z.add_0_r| |left; cbn; lia].
    cbn -[u64]; f_equal; lia.
  - eapply (counters_goto i); [exact Hcs|exact Hi|done|apply Objects.connections_drop|done..|left; cbn; lia].
  - eapply (counters_move (-1) i); [exact Hcs|exact Hi|done|by eapply msize_find| |left; cbn; lia].
    exact (active_wraps s Hcs).
  - eapply (counters_move 0 i); [exact Hcs|exact Hi|done|by rewrite Z.add_0_r| |left; cbn; lia].
    cbn -[u64]; f_equal; lia.
  - destruct (running s); (eapply (counters_goto i); [exact Hcs|exact Hi|done..|by left]).
  - by destruct Hcs.
  - destruct Hcs as [H1 H2 H3]. unfold connections in *.
    constructor; unfold connections; cbn [with_store store threads with_refs active]; by rewrite ?Objects.connections_drop.
  - by destruct Hcs.
  - by destruct Hcs.
Qed.

Lemma counters_init : 0 < n -> counters (init (Z.to_nat n)).
Proof.
  intros H0. assert (forall P, P Idle = false -> count P (threads (init (Z.to_nat n))) = 0) as Hz.
  { intros P HP. apply count_none. by intros i p [-> _]%lookup_replicate_1. }
  constructor.
  - unfold zlen. cbn. rewrite length_replicate. lia.
  - by rewrite !Hz.
  - rewrite Hz by done. change (msize (connections (init (Z.to_nat n)))) with 0. lia.
Qed.
End Total.

(** The history flag is never cleared. *)
Lemma add_failed_mono s s' : step s s' -> add_failed s' = false -> add_failed s = false.
Proof.
  intros [i ? []|i ? []|fd o Hm|pre o post Hr| |]; try done. 
Qed.

Lemma reachable_inv n s :
  1 <= MAX -> 0 < n -> MAX + 2 * n < 2 ^ 64 -> reachable (Z.to_nat n) s -> add_failed s = false ->
  sound s /\ exact s /\ counters n s.
Proof.
  intros HMAX H0 Hn Hr Hf. unfold reachable in Hr.
  assert (forall s1 s2, rtc step s1 s2 -> (add_failed s1 = false -> sound s1 /\ exact s1 /\ counters n s1) ->
    add_failed s2 = false -> sound s2 /\ exact s2 /\ counters n s2) as Hind.
  { induction 1 as [|s1 s2 s3 Hs _ IH]; intros Hinv; [done|]. apply IH. intros Hf2.
    destruct Hinv as (H1 & H2 & H3); [by eapply add_failed_mono|]. split; [|split].
    - by eapply sound_step.
    - by eapply exact_step.
    - by eapply counters_step. }
  apply (Hind _ _ Hr); [|done]. intros _. split; [apply sound_init|]. split; [apply exact_init|by apply counters_init].
Qed.
End Steps.

(** ** The limits *)

(** C10: The limits hold under every interleaving of [n] threads that accept
    and remove connections, for as long as no [epoll_ctl(ADD)] has failed.  No
    address ever holds more than 100 connections, slots in the hands of threads
    included, and the number of connections never exceeds
    [MAX_TOTAL_CONNECTIONS] by more than the number of other threads, which is
    what the unlocked check of the atomic counter allows.  Connections may be
    removed at any time, also before they are registered and counted, and
    by stale events; descriptor numbers are given out again as soon as they are
    closed. *)
Theorem admission_limits (address : nat -> bytes) (n : Z) (s : sys) :
  0 < n -> n <= 2 ^ 32 -> reachable address MAX_TOTAL_CONNECTIONS (Z.to_nat n) s -> add_failed s = false ->
  (forall ip, 0 <= msize (slots address ip s) + count (pc_slot address ip) (threads s) <= MAX_PER_IP) /\
  msize (connections s) <= MAX_TOTAL_CONNECTIONS + n - 1.
Proof.
  intros H0 Hn Hr Hf. destruct (reachable_inv address MAX_TOTAL_CONNECTIONS n s) as (_ & He & Hc);
    [done|done|unfold MAX_TOTAL_CONNECTIONS; lia|done|done|]. split.
  - intros ip. split; [apply held_nonneg|apply He].
  - destruct Hc as [_ _ Hm]. pose proof (count_nonneg pc_entering (threads s)). lia.
Qed.

(** C11: No slot is leaked.  For as long as no [epoll_ctl(ADD)] has failed,
    whenever no thread is inside [handle_accept] or [remove_connection], the
    atomic counter is the number of connections and the limiter has for each
    address the number of its connections, without left-over entries, whatever
    accepts, refusals and removals have happened and however they interleaved.
    ([failed_add_breaks_counters]: one failure is enough to lose this.) *)
Theorem counters_exact_at_rest (address : nat -> bytes) (n : Z) (s : sys) :
  0 < n -> n <= 2 ^ 32 -> reachable address MAX_TOTAL_CONNECTIONS (Z.to_nat n) s -> add_failed s = false ->
  (forall i p, threads s !! i = Some p -> p = Idle) ->
  active s = msize (connections s) /\
  forall ip, limiter s !! ip =
    PerIpConnectionLimiter.entry (msize (filter (fun e => address e.2 = ip) (connections s))).
Proof.
  intros H0 Hn Hr Hf Hidle. destruct (reachable_inv address MAX_TOTAL_CONNECTIONS n s) as (_ & He & Hc);
    [done|done|unfold MAX_TOTAL_CONNECTIONS; lia|done|done|].
  assert (forall P, P Idle = false -> count P (threads s) = 0) as Hz.
  { intros P HP. apply count_none. intros i p Hi. by rewrite (Hidle i p Hi). }
  destruct Hc as [_ Ha Hm]. rewrite !Hz in * by done. split.
  - rewrite Ha, u64_small; [lia|]. unfold msize, MAX_TOTAL_CONNECTIONS in *. lia.
  - intros ip. destruct (He ip) as [-> _]. f_equal. unfold held. rewrite Hz by done. apply Z.add_0_r.
Qed.

(** ** Recovery at capacity *)

(** Somebody will look at the backlog, or nothing can be accepted. *)
Definition attended (MAX : Z) (s : sys) : Prop :=
  running s = true -> failed (listen s) = false ->
  backlog (listen s) = 0%nat \/ edge (listen s) = true \/ MAX <= active s \/
  0 < count pc_busy (threads s).

(** A thread that moves and stays busy attends to the backlog. *)
Lemma attended_busy MAX i p p' s s' :
  threads s !! i = Some p -> threads s' = <[i := p']> (threads s) -> pc_busy p' = true -> attended MAX s'.
Proof.
  intros Hi Ht Hp _ _. right. right. right. rewrite Ht.
  apply (count_lookup_pos _ _ i p'); [|done]. apply list_lookup_insert_eq. by eapply lookup_lt_Some.
Qed.

Lemma attended_step address MAX s s' : attended MAX s -> step address MAX s s' -> attended MAX s'.
Proof.
  intros Hat Hstep.
  destruct Hstep as [i ? [Hi _|Hi Hrun|Hi Hfull|Hi _ Hlt|fd n' Hi _ Hk Hfd|Hi Hm|Hi|Hi|fd o ok l' Hi Ha|fd o Hi|fd o Hi|fd o Hi|fd o Hi
    |fd o Hi|fd o Hi|fd o Hi|o Hi|o Hi]|i ? [fd Hi _|fd o Hi Hm|o Hi|o Hi|o Hi]|fd o Hm|pre o post Hr| |];
    try (eapply (attended_busy _ i); [exact Hi|done|done]); try done.
  - destruct (running s) eqn:Hrun; [eapply (attended_busy _ i); [exact Hi|done|done]|].
    intros Hr. cbn in Hr. congruence.
  - intros Hr. cbn in Hr. congruence.
  - intros _ _. by right; right; left.
  - intros _ _. by left.
  - eapply (attended_busy _ i); [exact Hi|done|by destruct ok].
  - destruct (running s) eqn:Hrun; [eapply (attended_busy _ i); [exact Hi|done|done]|].
    intros Hr. cbn in Hr. congruence.
  - intros _ _. by right; left.
Qed.

(** C9: The accept loop recovers.  The listening socket is edge-triggered, so a
    connection left waiting because the server was full is reported by no
    further event; still, whatever the interleaving of threads that accept and
    remove, whenever all of them are done, the server is running, connections
    are waiting and no edge is left to be reported, the server is at capacity
    (or an [accept] has failed for lack of resources): the call of
    [handle_accept] at the end of [remove_connection] is never missed. *)
Theorem accept_loop_recovers (address : nat -> bytes) (n : Z) (s : sys) :
  reachable address MAX_TOTAL_CONNECTIONS (Z.to_nat n) s ->
  running s = true -> (forall i p, threads s !! i = Some p -> p = Idle) ->
  (0 < backlog (listen s))%nat -> edge (listen s) = false ->
  MAX_TOTAL_CONNECTIONS <= active s \/ failed (listen s) = true.
Proof.
  intros Hr Hrun Hidle Hb He.
  assert (forall s1 s2, rtc (step address MAX_TOTAL_CONNECTIONS) s1 s2 ->
    attended MAX_TOTAL_CONNECTIONS s1 -> attended MAX_TOTAL_CONNECTIONS s2) as Hind.
  { induction 1 as [|s1 s2 s3 Hs _ IH]; intros H1; [done|]. by apply IH, (attended_step address _ _ _ H1). }
  assert (attended MAX_TOTAL_CONNECTIONS s) as Hat by (apply (Hind _ _ Hr); intros _ _; by left).
  destruct (failed (listen s)) eqn:Hf; [by right|]. left.
  destruct (Hat Hrun Hf) as [H|[H|[H|H]]]; [lia|congruence|done|].
  rewrite count_none in H; [lia|]. intros i p Hi. by rewrite (Hidle i p Hi).
Qed.

(** ** The limit can be passed *)

(** Every client from an address of its own. *)
Definition own_address (o : nat) : bytes := replicate o Byte.x00.

Section Filling.
Context (MAX : Z).
#[local] Abbreviation own_step := (step own_address MAX).
#[local] Abbreviation own_reachable := (reachable own_address MAX).

(** [k] connections, with descriptors below [k]. *)
Record filled (k : nat) (s : sys) : Prop := {
  f_running : running s = true;
  f_active : active s = Z.of_nat k;
  f_size : msize (connections s) = Z.of_nat k;
  f_next : Objects.next (store s) = k;
  f_conns fd : Z.of_nat k <= fd -> connections s !! fd = None /\ Objects.kernel (store s) !! fd = None;
  f_limiter ip : (k <= length ip)%nat -> limiter s !! ip = None;
  f_failed : failed (listen s) = false;
  f_add : add_failed s = false;
  f_refs : refs s = []
}.

(** One round of [handle_accept] that succeeds, with nobody else about. *)
Section Round.
Context (i : nat) (s : sys) (Hlt : (i < length (threads s))%nat).

(** Thread [i] at [p], with the rest of the state given. *)
Definition at_ (p : pc) (x : Objects.t) (l : gmap bytes Z) (a : Z) (ls : listener) : sys :=
  mk (running s) x l a (<[i := p]> (threads s)) (refs s) ls (add_failed s).

Lemma at_thread p x l a ls : threads (at_ p x l a ls) !! i = Some p.
Proof. by apply list_lookup_insert_eq. Qed.

Lemma goto_at p' p x l a ls : goto i p' (at_ p x l a ls) = at_ p' x l a ls.
Proof. unfold goto, at_. cbn. by rewrite list_insert_insert_eq. Qed.

Lemma round_insert fd o x l a ls :
  Objects.connections x !! fd = None ->
  own_step (at_ (Insert fd o) x l a ls)
    (at_ (Register fd o)
       (Objects.mk (Objects.kernel x) (Objects.next x) (<[o := fd]> (Objects.heap x)) (<[fd := o]> (Objects.connections x)))
       l a ls).
Proof.
  intros Hc. pose proof (in_accept own_address MAX _ i _ (step_insert own_address MAX _ i fd o (at_thread (Insert fd o) x l a ls))) as Hs.
  cbv zeta in Hs. rewrite goto_at, Objects.put_new in Hs by exact Hc. exact Hs.
Qed.

Lemma round_drop fd o x l a ls :
  Objects.connections x !! fd = Some o -> own_step (at_ (Drop o) x l a ls) (at_ Accept x l a ls).
Proof.
  intros Hc. pose proof (in_accept own_address MAX _ i _ (step_drop own_address MAX _ i o (at_thread (Drop o) x l a ls))) as Hs.
  cbv zeta in Hs. rewrite goto_at, (Objects.drop_shared _ fd) in Hs by (exact Hc || apply references_nonneg). exact Hs.
Qed.

Lemma round_goto p p' x l a ls x' l' a' ls' :
  accept_step own_address MAX (at_ p x l a ls) i (goto i p' (at_ p x' l' a' ls')) ->
  own_step (at_ p x l a ls) (at_ p' x' l' a' ls').
Proof. rewrite goto_at. apply in_accept. Qed.

Definition after_accept (fd : Z) (l' : gmap bytes Z) : sys :=
  let st := store s in
  at_ Accept
    (Objects.mk (<[fd := Objects.next st]> (Objects.kernel st)) (S (Objects.next st))
       (<[Objects.next st := fd]> (Objects.heap st)) (<[fd := Objects.next st]> (Objects.connections st)))
    l' (u64 (active s + 1)) (mk_listener (backlog (listen s)) true (failed (listen s))).

Lemma accept_round fd l' :
  threads s !! i = Some Accepting -> connections s !! fd = None -> Objects.kernel (store s) !! fd = None -> 0 <= fd ->
  PerIpConnectionLimiter.try_acquire MAX_PER_IP (own_address (Objects.next (store s))) (limiter s) = (true, l') ->
  rtc own_step s (after_accept fd l').
Proof.
  intros Hi Hc Hk Hfd Ha. set (o := Objects.next (store s)) in *.
  eapply rtc_l; [apply in_arrival|]. set (ls := mk_listener (S (backlog (listen s))) true (failed (listen s))).
  assert (with_listen ls s = at_ Accepting (store s) (limiter s) (active s) ls) as ->
    by (unfold with_listen, at_; by rewrite list_insert_id).
  set (ls' := mk_listener (backlog (listen s)) true (failed (listen s))). set (x := Objects.accept fd (store s)).
  apply (rtc_l _ _ (at_ (TryAcquire fd o) x (limiter s) (active s) ls')).
  { by apply round_goto, (step_accept _ _ (at_ Accepting (store s) (limiter s) (active s) ls) i fd (backlog (listen s)));
      [apply at_thread|..]. }
  apply (rtc_l _ _ (at_ (Insert fd o) x l' (active s) ls')).
  { apply round_goto, (step_try_acquire _ _ (at_ (TryAcquire fd o) x (limiter s) (active s) ls') i fd o true l');
      [apply at_thread|exact Ha]. }
  eapply rtc_l; [apply round_insert; exact Hc|]. set (x' := Objects.mk _ _ _ _).
  apply (rtc_l _ _ (at_ (Count o) x' l' (active s) ls')).
  { apply round_goto, (step_register _ _ (at_ (Register fd o) x' l' (active s) ls') i fd o), at_thread. }
  apply (rtc_l _ _ (at_ (Drop o) x' l' (u64 (active s + 1)) ls')).
  { apply round_goto, (step_count _ _ (at_ (Count o) x' l' (active s) ls') i o), at_thread. }
  eapply rtc_l; [apply (round_drop fd), lookup_insert_eq|]. apply rtc_refl.
Qed.
End Round.

(** A thread past the check accepts one more. *)
Lemma accept_one k i s :
  filled k s -> Z.of_nat k + 1 < 2 ^ 64 -> threads s !! i = Some Accepting ->
  exists s', rtc own_step s s' /\ filled (S k) s' /\ threads s' = <[i := Accept]> (threads s).
Proof.
  intros [Hrun Ha Hs Hnx Hc Hl Hfail Hadd Hrefs] Hk Hi. destruct (Hc (Z.of_nat k) ltac:(lia)) as [Hc1 Hc2].
  assert (limiter s !! own_address k = None) as Hip by (apply Hl; unfold own_address; rewrite length_replicate; lia).
  assert (i < length (threads s))%nat as Hlt by by eapply lookup_lt_Some.
  exists (after_accept i s (Z.of_nat k) (<[own_address k := 1]> (limiter s))). split; [|split].
  - apply accept_round; [done..|lia|]. rewrite Hnx. unfold PerIpConnectionLimiter.try_acquire. by rewrite Hip.
  - constructor; try done; cbn -[u64].
    + rewrite Ha, u64_small; lia.
    + unfold connections in *. cbn. rewrite (msize_focus (Z.of_nat k) (Objects.connections (store s))), Hc1, lookup_insert_eq, Hs; [cbn; lia|].
      intros fd Hne. by rewrite lookup_insert_ne.
    + by rewrite Hnx.
    + intros fd Hge. destruct (Hc fd ltac:(lia)) as [H1 H2]. unfold connections in *. cbn.
      split; by rewrite lookup_insert_ne by lia.
    + intros ip' Hlen. rewrite lookup_insert_ne; [apply Hl; lia|]. intros <-. unfold own_address in Hlen.
      rewrite length_replicate in Hlen. lia.
  - done.
Qed.

Lemma reachable_trans n s s' : own_reachable n s -> rtc own_step s s' -> own_reachable n s'.
Proof. unfold Admission.reachable. intros. by etrans. Qed.

Lemma fill k :
  Z.of_nat k <= MAX -> MAX < 2 ^ 64 ->
  exists s, own_reachable 2 s /\ filled k s /\ threads s = [Accept; Accept].
Proof.
  intros Hk HM. induction k as [|k IH].
  - eexists. split; [|split].
    + eapply rtc_l; [apply in_arrival|]. eapply rtc_l; [by apply (in_accept _ _ _ 0), step_enter|].
      eapply rtc_l; [apply in_arrival|]. eapply rtc_l; [by apply (in_accept _ _ _ 1), step_enter|].
      apply rtc_refl.
    + by constructor.
    + done.
  - destruct IH as (s & Hr & Hf & Ht); [lia|].
    destruct (accept_one k 0 (goto 0 Accepting s)) as (s' & Hr' & Hf' & Ht').
    + destruct Hf. by constructor.
    + lia.
    + cbn. by rewrite Ht.
    + exists s'. split; [|split; [done|]].
      * eapply reachable_trans; [exact Hr|]. eapply rtc_l; [|exact Hr'].
        apply (in_accept _ _ _ 0), step_check; [by rewrite Ht|apply Hf|rewrite (f_active _ _ Hf); lia].
      * rewrite Ht'. cbn. by rewrite Ht.
Qed.

Lemma overshoot k :
  Z.of_nat k + 1 = MAX -> MAX + 1 < 2 ^ 64 ->
  exists s, own_reachable 2 s /\ add_failed s = false /\ msize (connections s) = MAX + 1.
Proof.
  intros Hk HM. destruct (fill k) as (s & Hr & Hf & Ht); [lia|lia|].
  destruct (accept_one k 0 (goto 1 Accepting (goto 0 Accepting s)))
    as (s' & Hr' & Hf' & Ht'); [destruct Hf; by constructor|lia|cbn; by rewrite Ht|].
  cbn in Ht'. rewrite Ht in Ht'. cbn in Ht'.
  destruct (accept_one (S k) 1 s') as (s'' & Hr'' & Hf'' & _); [done|lia|by rewrite Ht'|].
  exists s''. split; [|split; [apply Hf''|rewrite (f_size _ _ Hf''); lia]].
  eapply reachable_trans; [exact Hr|].
  apply (rtc_l _ _ (goto 0 Accepting s)).
  { apply (in_accept _ _ _ 0), step_check; [by rewrite Ht|apply Hf|rewrite (f_active _ _ Hf); lia]. }
  apply (rtc_l _ _ (goto 1 Accepting (goto 0 Accepting s))); [|by etrans].
  apply (in_accept _ _ _ 1), step_check; cbn; [by rewrite Ht|apply Hf|rewrite (f_active _ _ Hf); lia].
Qed.
End Filling.

(** The capacity check can be passed: with two threads accepting at once
    (two workers that have just removed a connection, or a worker and the loop)
    the server reaches 10001 connections, because the check and the increment
    of the atomic counter are separate steps. *)
Lemma capacity_overshoot :
  exists s, reachable own_address MAX_TOTAL_CONNECTIONS 2 s /\ add_failed s = false /\
            msize (connections s) = MAX_TOTAL_CONNECTIONS + 1.
Proof. by apply (overshoot _ (Z.to_nat 9999)). Qed.

(** ** A failed [epoll_ctl(ADD)] *)

(** What decides the next step of a thread in [handle_accept]: the descriptor
    that [accept] gives, the answer of [epoll_ctl], or nothing. *)
Inductive choice := Go | Gives (fd : Z) | AddFails.

Section Execution.
Context (address : nat -> bytes) (MAX : Z).

Definition exec_thread (c : choice) (i : nat) (s : sys) : option sys :=
  match threads s !! i with
  | Some Idle =>
      if edge (listen s)
      then Some (goto i (if running s then Accept else Idle)
             (with_listen (mk_listener (backlog (listen s)) false (failed (listen s))) s))
      else None
  | Some Accept =>
      if running s then if active s <? MAX then Some (goto i Accepting s) else Some (goto i Idle s)
      else Some (goto i Idle s)
  | Some Accepting =>
      match c, backlog (listen s) with
      | Gives fd, S n =>
          if bool_decide (Objects.kernel (store s) !! fd = None) && (0 <=? fd)
          then Some (goto i (TryAcquire fd (Objects.next (store s)))
                 (with_store (Objects.accept fd (store s))
                   (with_listen (mk_listener n (edge (listen s)) (failed (listen s))) s)))
          else None
      | _, O => Some (goto i Idle s)
      | _, _ => None
      end
  | Some (TryAcquire fd o) =>
      let '(ok, l') := PerIpConnectionLimiter.try_acquire MAX_PER_IP (address o) (limiter s) in
      Some (goto i (if ok then Insert fd o else Reject fd o) (with_limiter l' s))
  | Some (Reject fd o) => Some (goto i Accept (with_store (Objects.close fd (store s)) s))
  | Some (Insert fd o) =>
      let s' := goto i (Register fd o) s in
      Some (with_store (Objects.put (references s') fd o (store s)) s')
  | Some (Register fd o) =>
      match c with AddFails => Some (goto i (UndoRelease fd o) (failure s)) | _ => Some (goto i (Count o) s) end
  | Some (UndoRelease fd o) =>
      Some (goto i (UndoErase fd o)
        (with_limiter (PerIpConnectionLimiter.release (address o) (limiter s)) s))
  | Some (UndoErase fd o) =>
      let s' := goto i (UndoClose fd o) s in
      Some (with_store (Objects.erase (references s') fd (store s)) s')
  | Some (UndoClose fd o) => Some (goto i (Drop o) (with_store (Objects.close fd (store s)) s))
  | Some (Count o) => Some (goto i (Drop o) (with_active (u64 (active s + 1)) s))
  | Some (Drop o) =>
      let s' := goto i Accept s in Some (with_store (Objects.drop (references s' o) o (store s)) s')
  | _ => None
  end.

Lemma exec_thread_step c i s s' : exec_thread c i s = Some s' -> accept_step address MAX s i s'.
Proof.
  unfold exec_thread. destruct (threads s !! i) as [p|] eqn:Hi; [|done]. destruct p; try done.
  - destruct (edge (listen s)) eqn:He; [|done]. intros [= <-]. by apply step_enter.
  - destruct (running s) eqn:Hr; [destruct (Z.ltb_spec (active s) MAX)|]; intros [= <-];
      [by apply step_check|by apply step_check_full|by apply step_check_stop].
  - destruct (backlog (listen s)) as [|n] eqn:Hb; [by destruct c; intros [= <-]; apply step_accept_none|].
    destruct c as [|fd|]; try done. case_bool_decide as Hk; [|done]. destruct (Z.leb_spec 0 fd); [|done].
    intros [= <-]. by apply step_accept.
  - destruct (PerIpConnectionLimiter.try_acquire _ _ _) as [ok l'] eqn:Ha. intros [= <-].
    by apply step_try_acquire.
  - intros [= <-]. by apply step_reject with o.
  - intros [= <-]. by apply step_insert.
  - destruct c; intros [= <-]; [by apply step_register with fd..|by apply step_register_fails].
  - intros [= <-]. by apply step_undo_release.
  - intros [= <-]. by apply step_undo_erase.
  - intros [= <-]. by apply step_undo_close.
  - intros [= <-]. by apply step_count.
  - intros [= <-]. by apply step_drop.
Qed.

(** [None]: a client connects. *)
Fixpoint exec (script : list (option (nat * choice))) (s : sys) : option sys :=
  match script with
  | [] => Some s
  | None :: script' =>
      exec script' (with_listen (mk_listener (S (backlog (listen s))) true (failed (listen s))) s)
  | Some (i, c) :: script' => s' ← exec_thread c i s; exec script' s'
  end.

Lemma exec_steps script s s' : exec script s = Some s' -> rtc (step address MAX) s s'.
Proof.
  revert s; induction script as [|[[i c]|] script IH]; intros s; cbn [exec].
  - intros [= <-]. constructor.
  - intros (s1 & H1%exec_thread_step & H2)%bind_Some. eapply rtc_l; [by eapply in_accept|]. by apply IH.
  - intros Hs. eapply rtc_l; [apply in_arrival|]. by apply IH.
Qed.
End Execution.

(** Thread 0 accepts a client, [epoll_ctl] fails, and it closes the descriptor;
    thread 1 accepts the next client on the same number; the destructor of the
    first object closes it under the second; the third client is accepted on it
    again, and replaces the entry of the second. *)
Definition add_failure_script : list (option (nat * choice)) :=
  let by_thread i cs := (fun c => Some (i, c)) <$> cs in
  [None; Some (0%nat, Go); None; Some (1%nat, Go); None] ++
  by_thread 0%nat [Go; Gives 5; Go; Go; AddFails; Go; Go; Go] ++
  by_thread 1%nat [Go; Gives 5; Go; Go; Go; Go; Go] ++
  by_thread 0%nat [Go] ++
  by_thread 1%nat [Go; Gives 5; Go; Go; Go; Go; Go] ++
  by_thread 0%nat [Go; Go] ++ by_thread 1%nat [Go; Go].

(** After one failure the counters may be wrong for good: with nobody inside
    [handle_accept] or [remove_connection] there is one connection, the counter
    says two, and the limiter holds a slot of an address without connection. *)
Lemma failed_add_breaks_counters :
  exists s, reachable own_address MAX_TOTAL_CONNECTIONS 2 s /\ threads s = [Idle; Idle] /\
    connections s !! 5 = Some 2%nat /\ msize (connections s) = 1 /\ active s = 2 /\
    limiter s !! own_address 1 = Some 1.
Proof.
  assert (match exec own_address MAX_TOTAL_CONNECTIONS add_failure_script (init 2) with
          | Some s => bool_decide (threads s = [Idle; Idle] /\ connections s !! 5 = Some 2%nat /\
                        msize (connections s) = 1 /\ active s = 2 /\ limiter s !! own_address 1 = Some 1)
          | None => false
          end = true) as H by (vm_compute; reflexivity).
  destruct (exec own_address MAX_TOTAL_CONNECTIONS add_failure_script (init 2)) as [s|] eqn:E; [|discriminate H].
  apply bool_decide_eq_true_1 in H. exists s. split; [exact (exec_steps _ _ _ _ _ E)|exact H].
Qed.

(** ** Witnesses *)

Lemma one_connection :
  exists s, reachable own_address MAX_TOTAL_CONNECTIONS 2 s /\ add_failed s = false /\
            msize (connections s) = 1 /\ threads s = [Idle; Idle].
Proof.
  destruct (fill MAX_TOTAL_CONNECTIONS 1) as (s & Hr & Hf & Ht); [done|done|].
  assert (forall s i, threads s !! i = Some Accept -> running s = true -> active s = 1 ->
    exists s', rtc (step own_address MAX_TOTAL_CONNECTIONS) s s' /\ threads s' = <[i := Idle]> (threads s) /\
    running s' = running s /\ active s' = active s /\ connections s' = connections s /\
    add_failed s' = add_failed s) as Hleave.
  { intros s0 i Hi H1 H2. eexists. split.
    - eapply rtc_l; [apply (in_accept _ _ _ i), step_check; [done|done|by rewrite H2]|].
      eapply rtc_l; [|apply rtc_refl]. apply (in_accept _ _ _ i), step_accept_fails.
      cbn. apply list_lookup_insert_eq. by eapply lookup_lt_Some.
    - cbn. by rewrite list_insert_insert_eq. }
  destruct Hf as [H1 H2 H3 _ _ _ _ H4 _].
  destruct (Hleave s 0%nat) as (s1 & Hr1 & Ht1 & Hrun1 & Ha1 & Hc1 & Hf1); [by rewrite Ht|done|done|].
  rewrite Ht in Ht1. cbn in Ht1.
  destruct (Hleave s1 1%nat) as (s2 & Hr2 & Ht2 & Hrun2 & Ha2 & Hc2 & Hf2);
    [by rewrite Ht1|congruence|by rewrite Ha1, H2|].
  exists s2. split; [|split; [by rewrite Hf2, Hf1|split; [by rewrite Hc2, Hc1|by rewrite Ht2, Ht1]]].
  eapply reachable_trans; [exact Hr|]. by etrans.
Qed.

(** The server full, and a client waiting. *)
Lemma full_server :
  exists s, reachable own_address MAX_TOTAL_CONNECTIONS 2 s /\ running s = true /\ threads s = [Idle; Idle] /\
            (0 < backlog (listen s))%nat /\ edge (listen s) = false /\ failed (listen s) = false.
Proof.
  destruct (fill MAX_TOTAL_CONNECTIONS (Z.to_nat 10000)) as (s & Hr & Hf & Ht); [done|done|].
  destruct Hf as [H1 H2 _ _ _ _ Hfail _ _].
  eexists. split; [|split].
  - eapply reachable_trans; [exact Hr|].
    eapply rtc_l; [apply (in_accept _ _ _ 0), step_check_full; [by rewrite Ht|by rewrite H2]|].
    eapply rtc_l; [apply (in_accept _ _ _ 1), step_check_full; [cbn; by rewrite Ht|cbn; by rewrite H2]|].
    eapply rtc_l; [apply in_arrival|].
    eapply rtc_l; [apply (in_accept _ _ _ 0), step_enter; [cbn; by rewrite Ht|done]|].
    eapply rtc_l; [apply (in_accept _ _ _ 0), step_check_full; [cbn; by rewrite Ht, H1|cbn; by rewrite H2]|].
    apply rtc_refl.
  - done.
  - cbn. rewrite Ht. split; [done|]. split; [lia|done].
Qed.

Lemma accept_loop_recovers_witness :
  exists s, (0 < backlog (listen s))%nat /\ MAX_TOTAL_CONNECTIONS <= active s.
Proof.
  destruct full_server as (s & Hr & Hrun & Ht & Hb & He & Hf). exists s. split; [exact Hb|].
  destruct (accept_loop_recovers own_address 2 s Hr Hrun) as [H|H]; [| | |exact H|congruence].
  - rewrite Ht. intros [|[|[|i]]] p Hp; cbn in Hp; congruence.
  - exact Hb.
  - exact He.
Defined.

Lemma admission_limits_witness :
  exists s, msize (connections s) = 1 /\
    msize (connections s) <= MAX_TOTAL_CONNECTIONS + 2 - 1 /\
    forall ip, msize (slots own_address ip s) + count (pc_slot own_address ip) (threads s) <= MAX_PER_IP.
Proof.
  destruct one_connection as (s & Hr & Hf & Hs & _). exists s. split; [exact Hs|].
  destruct (admission_limits own_address 2 s ltac:(lia) ltac:(lia) Hr Hf) as [H1 H2].
  split; [exact H2|]. intros ip. apply H1.
Defined.

Lemma counters_exact_at_rest_witness :
  exists s, msize (connections s) = 1 /\ active s = msize (connections s).
Proof.
  destruct one_connection as (s & Hr & Hf & Hs & Ht). exists s. split; [exact Hs|].
  refine (proj1 (counters_exact_at_rest own_address 2 s ltac:(lia) ltac:(lia) Hr Hf _)).
  rewrite Ht. intros [|[|[|i]]] p Hp; cbn in Hp; congruence.
Defined.

End Admission.
