(* ===== verification/Loop.v ===== *)
(** * [EventLoop::run]: dispatch, shutdown, idle sweep and clean-up

    [src/src/network/EventLoop.cpp].  One iteration of [run] is a function of
    what the kernel and the clock tell it ([tick]); [stop()], called from a
    signal handler, takes effect while the loop is in [epoll_wait], where it
    spends its time.  The actions are the calls the iteration makes. *)

From Stdlib Require Import QArith.
From S2P Require Import Prelude IpLimiter RateLimiter RateLimiterSpec Connection EventLoop.
#[local] Open Scope Z_scope.

Module Loop.
Import EventLoop.

(** [SHUTDOWN_TIMEOUT], in milliseconds. *)
Definition SHUTDOWN_TIMEOUT : Z := 5000.
Definition CHECK_INTERVAL_SECONDS : Z := 10.
Definition IDLE_TIMEOUT_SECONDS : Z := 30.

Record t := mk {
  state : LoopState.t;
  server_fd : Z;
  wakeup_fd : Z;
  shutdown_start : Z
}.

Definition set_state (st : LoopState.t) (l : t) : t :=
  mk st (server_fd l) (wakeup_fd l) (shutdown_start l).

Inductive action :=
| CloseServer (fd : Z)             (* epoll_ctl(DEL) and close of the listening socket *)
| DrainWakeup
| HandleAccept
| RemoveConnection (fd : Z)
| HandleClientRead (fd : Z)
| HandleClientWrite (fd : Z)
| CheckIdleTimeouts
| CleanupAllConnections.

(** [stop()]: the compare-and-swap, then the time, then the wake-up. *)
Definition stop_cas (l : t) : bool * t :=
  if bool_decide (state l = LoopState.RUNNING) then (true, set_state LoopState.STOPPING l)
  else (false, l).

Definition stop_time (now : Z) (l : t) : t :=
  mk (state l) (server_fd l) (wakeup_fd l) now.

Definition stop (now : Z) (l : t) : t :=
  let '(first, l') := stop_cas l in if first then stop_time now l' else l'.

(** The body of the loop over the ready events. *)
Definition handle_event (l : t) (e : Z * Z) : list action :=
  let '(current_fd, ev) := e in
  if current_fd =? wakeup_fd l then [DrainWakeup]
  else if current_fd =? server_fd l then
    if bool_decide (state l = LoopState.RUNNING) then [HandleAccept] else []
  else if has_flag (Z.lor EPOLLHUP EPOLLERR) ev then [RemoveConnection current_fd]
  else
    (if has_flag EPOLLIN ev && bool_decide (state l = LoopState.RUNNING)
     then [HandleClientRead current_fd] else []) ++
    (if has_flag EPOLLOUT ev then [HandleClientWrite current_fd] else []).

Inductive wait_result :=
| WaitEintr
| WaitError
| WaitReady (events : list (Z * Z)).

Record tick := mk_tick {
  t_stop : t -> t;           (* what happened to the loop during epoll_wait *)
  t_wait : wait_result;
  t_empty : bool;            (* connections.empty(), after the events *)
  t_clock : Z                (* the clock, after the events *)
}.

(** How an iteration ends: [continue] or the end of the body, or [break]. *)
Definition iteration (l : t) (k : tick) : bool * t * list action :=
  let '(l1, a1) :=
    if bool_decide (state l = LoopState.STOPPING) && (0 <=? server_fd l)
    then (mk (state l) (-1) (wakeup_fd l) (shutdown_start l), [CloseServer (server_fd l)])
    else (l, []) in
  let l2 := t_stop k l1 in
  match t_wait k with
  | WaitEintr => (true, l2, a1)
  | WaitError => (false, l2, a1)
  | WaitReady events =>
      let a2 := concat (handle_event l2 <$> events) in
      let l3 :=
        if bool_decide (state l2 = LoopState.STOPPING) then
          let elapsed := Z.quot (t_clock k - shutdown_start l2) 1000000 in
          if t_empty k || (SHUTDOWN_TIMEOUT <=? elapsed) then set_state LoopState.STOPPED l2 else l2
        else l2 in
      (true, l3, a1 ++ a2 ++ [CheckIdleTimeouts])
  end.

(** [run], on the ticks to come; [true] when it has returned. *)
Fixpoint run_loop (l : t) (ks : list tick) : bool * t * list action :=
  if bool_decide (state l = LoopState.STOPPED) then (true, l, [CleanupAllConnections])
  else
    match ks with
    | [] => (false, l, [])
    | k :: ks' =>
        let '(go_on, l', a) := iteration l k in
        if go_on then
          let '(done, l'', a') := run_loop l' ks' in (done, l'', a ++ a')
        else (true, l', a ++ [CleanupAllConnections])
    end.

Definition run (l : t) (ks : list tick) : bool * t * list action :=
  run_loop (set_state LoopState.RUNNING l) ks.

(** ** Shutdown *)

(** A tick in which nobody touches the loop, or calls [stop] again. *)
Definition quiet (k : tick) : Prop := exists now, t_stop k = (fun l => l) \/ t_stop k = stop now.

(** The tick ends the shutdown begun at [t0]. *)
Definition final_tick (t0 : Z) (k : tick) : bool :=
  match t_wait k with
  | WaitEintr => false
  | WaitError => true
  | WaitReady _ => t_empty k || (SHUTDOWN_TIMEOUT <=? Z.quot (t_clock k - t0) 1000000)
  end.

Definition new_work (a : action) : bool :=
  match a with HandleAccept | HandleClientRead _ => true | _ => false end.

Lemma stop_stopping l now : state l = LoopState.STOPPING -> stop now l = l.
Proof. intros H. unfold stop, stop_cas. by rewrite H. Qed.

Lemma handle_event_stopping l e :
  state l <> LoopState.RUNNING -> forallb (fun a => negb (new_work a)) (handle_event l e) = true.
Proof.
  intros H. destruct e as [fd ev]. unfold handle_event. rewrite (bool_decide_false (state l = _)) by done.
  rewrite andb_false_r. by repeat split_if.
Qed.

Definition closes_server (a : action) : bool := match a with CloseServer _ => true | _ => false end.

Lemma handle_event_keeps_server l e : forallb (fun a => negb (closes_server a)) (handle_event l e) = true.
Proof. destruct e as [fd ev]. unfold handle_event. by repeat split_if. Qed.

Lemma forallb_concat {A B} (P : B -> bool) (f : A -> list B) l :
  (forall x, forallb P (f x) = true) -> forallb P (concat (f <$> l)) = true.
Proof. intros H; induction l as [|x l IH]; cbn; [done|]. by rewrite forallb_app, H, IH. Qed.

Lemma filter_none {A} (P : A -> bool) l :
  forallb (fun x => negb (P x)) l = true -> List.filter P l = [].
Proof. induction l as [|x l IH]; cbn; [done|]. destruct (P x); cbn; [done|apply IH]. Qed.

(** An iteration while the loop is stopping. *)
Lemma iteration_stopping l k :
  state l = LoopState.STOPPING -> quiet k ->
  let '(go_on, l', a) := iteration l k in
  forallb (fun a => negb (new_work a)) a = true /\
  List.filter closes_server a = (if 0 <=? server_fd l then [CloseServer (server_fd l)] else []) /\
  server_fd l' < 0 /\ shutdown_start l' = shutdown_start l /\
  (go_on = true -> state l' =
    if final_tick (shutdown_start l) k then LoopState.STOPPED else LoopState.STOPPING) /\
  (go_on = false -> final_tick (shutdown_start l) k = true).
Proof.
  intros Hst Hq. unfold iteration, final_tick. rewrite Hst, bool_decide_true by done. cbn [andb].
  set (l1 := if 0 <=? server_fd l then _ else _).
  assert (exists l0, l1 = (l0, if 0 <=? server_fd l then [CloseServer (server_fd l)] else []) /\
    state l0 = LoopState.STOPPING /\ server_fd l0 < 0 /\ shutdown_start l0 = shutdown_start l)
    as (l0 & -> & Hst0 & Hfd & Hsd).
  { subst l1. destruct (Z.leb_spec 0 (server_fd l)); [by eexists|by exists l]. }
  assert (t_stop k l0 = l0) as ->.
  { destruct Hq as [now [-> | ->]]; [done|by apply stop_stopping]. }
  set (a1 := if 0 <=? server_fd l then _ else _).
  assert (forallb (fun a => negb (new_work a)) a1 = true /\ List.filter closes_server a1 = a1)
    as [Ha1 Hc1] by (subst a1; by destruct (0 <=? server_fd l)).
  destruct (t_wait k) as [| |events]; [by rewrite Ha1, Hc1, Hst0|by rewrite Ha1, Hc1|].
  rewrite Hst0, bool_decide_true, Hsd by done.
  rewrite !forallb_app, Ha1, forallb_concat by (intros; apply handle_event_stopping; congruence).
  rewrite !List.filter_app, Hc1, (filter_none _ (concat _)) by (apply forallb_concat, handle_event_keeps_server).
  cbn [forallb andb negb new_work List.filter closes_server app]. rewrite app_nil_r.
  by destruct (t_empty k || _).
Qed.

(** C21: Graceful shutdown.  Once [stop()] has run, the loop returns exactly at
    the first tick at which no connection is left, the timeout has passed or
    [epoll_wait] fails, neither earlier nor later; until then it accepts and
    reads nothing; the listening socket is closed exactly once; and the last
    thing it does is to clean up the connections. *)
Theorem shutdown_exact (l : t) (ks : list tick) :
  state l = LoopState.STOPPING -> Forall quiet ks ->
  let '(returned, l', actions) := run_loop l ks in
  returned = existsb (final_tick (shutdown_start l)) ks /\
  forallb (fun a => negb (new_work a)) actions = true /\
  List.filter closes_server actions =
    (if (0 <=? server_fd l) && negb (bool_decide (ks = [])) then [CloseServer (server_fd l)] else []) /\
  (returned = true -> last actions = Some CleanupAllConnections).
Proof.
  intros Hst Hq. revert l Hst. induction Hq as [|k ks Hk Hq IH]; intros l Hst; cbn [run_loop];
    rewrite Hst, bool_decide_false by done; [by rewrite andb_false_r|].
  pose proof (iteration_stopping l k Hst Hk) as Hit.
  destruct (iteration l k) as [[go_on l'] a]. destruct Hit as (Hw & Hc & Hfd & Hsd & Hgo & Hstop).
  rewrite (bool_decide_false (k :: ks = [])), andb_true_r by done. cbn [existsb].
  destruct go_on.
  - specialize (Hgo eq_refl). destruct (final_tick (shutdown_start l) k).
    + assert (run_loop l' ks = (true, l', [CleanupAllConnections])) as -> by (destruct ks; cbn; by rewrite Hgo).
      rewrite forallb_app, List.filter_app, Hw, Hc. cbn. rewrite app_nil_r. split_and!; try done.
      intros _. by rewrite last_snoc.
    + specialize (IH l' Hgo). destruct (run_loop l' ks) as [[returned l''] a'].
      destruct IH as (Hret & Hw' & Hc' & Hlast). rewrite Hsd in Hret.
      rewrite forallb_app, List.filter_app, Hw, Hw', Hc, Hc'. cbn [orb andb].
      destruct (Z.leb_spec 0 (server_fd l')); [lia|]. cbn [andb]. rewrite app_nil_r.
      split_and!; try done. intros Hr. by rewrite last_app, (Hlast Hr).
  - rewrite (Hstop eq_refl), forallb_app, List.filter_app, Hw, Hc. cbn. rewrite app_nil_r.
    split_and!; try done. intros _. by rewrite last_snoc.
Qed.

(** The shutdown timeout can be skipped.  [stop()] stores the state before
    the time; when the loop wakes between the two stores, it measures the
    timeout from the default value of [shutdown_start] and stops at once, with
    connections still open, if the clock has passed 5 seconds at all. *)
Lemma stop_race (l : t) (events : list (Z * Z)) (now : Z) :
  state l = LoopState.RUNNING -> shutdown_start l = 0 -> 5000000000 <= now ->
  let k := mk_tick (fun l => (stop_cas l).2) (WaitReady events) false now in
  (iteration l k).1.2 = set_state LoopState.STOPPED l /\
  final_tick now (mk_tick (fun l => l) (WaitReady events) false now) = false.
Proof.
  destruct l as [st sfd wfd ss]. intros Hst Hss Hnow k. cbn in Hst, Hss. subst st ss.
  assert (5000 <= Z.quot now 1000000) by (apply Z.quot_le_lower_bound; lia).
  unfold iteration, final_tick, stop_cas. subst k. cbn -[Z.quot Z.leb Z.sub].
  rewrite bool_decide_false by done. cbn -[Z.quot Z.leb Z.sub].
  rewrite bool_decide_true by done. cbn -[Z.quot Z.leb Z.sub].
  rewrite Z.sub_0_r, Z.sub_diag.
  unfold SHUTDOWN_TIMEOUT. destruct (Z.leb_spec 5000 (Z.quot now 1000000)); [done|lia].
Qed.

(** ** The idle sweep *)

Section Sweep.
Context (rnd : Q -> Q) `{!Rounding rnd}.

(** [check_idle_timeouts()]: [None] when the interval has not passed; otherwise
    the new [last_timeout_check], the connections it removes and the limiter
    after [sweep_stale()].  [clock fd] is the time read for a connection and
    [sweep_now] the one the sweep reads. *)
Definition check_idle_timeouts (now last_timeout_check : Z) (clock : Z -> Z)
    (connections : gmap Z Connection.t) (sweep_now : Z) (rate_limiter : RateLimiter.t)
    : option (Z * list Z * RateLimiter.t) :=
  if negb (Qle_bool (inject_Z CHECK_INTERVAL_SECONDS)
             (RateLimiter.duration_double rnd (now - last_timeout_check)))
  then None
  else
    let last_timeout_check := now in
    let time_out_fds :=
      (map_to_list (filter (fun e : Z * Connection.t =>
         Qle_bool (inject_Z IDLE_TIMEOUT_SECONDS)
           (Connection.seconds_since_last_activity rnd (clock e.1) e.2) = true) connections)).*1 in
    Some (last_timeout_check, time_out_fds,
          RateLimiter.sweep_stale sweep_now RateLimiterSpec.MAX_IDLE rate_limiter).

Lemma duration_double_le k ns :
  0 <= k <= 2 ^ 20 -> ns <= k * 1000000000 -> (RateLimiter.duration_double rnd ns <= inject_Z k)%Q.
Proof.
  intros Hk Hns. unfold RateLimiter.duration_double. apply RateLimiterSpec.rnd_le; [done|lia|].
  apply Qle_shift_div_r; [done|]. rewrite <- inject_Z_mult.
  apply RateLimiterSpec.rnd_le; [done|lia|]. by rewrite <- Zle_Qle.
Qed.

(** C32: The idle sweep, whatever the rounding: it runs when 10 seconds have
    passed since the last one and not within 9; when it runs it removes each
    connection that has been idle for 30 seconds or more, once, and none that
    has been active within 29; the next interval starts now, and of the rate
    limiter exactly the buckets not refilled for 5 minutes are forgotten. *)
Theorem idle_sweep (now last_timeout_check : Z) (clock : Z -> Z) (connections : gmap Z Connection.t)
    (hash : bytes -> Z) (sweep_now : Z) (limiter : RateLimiter.t) :
  match check_idle_timeouts now last_timeout_check clock connections sweep_now limiter with
  | None => now - last_timeout_check < 10 * 1000000000
  | Some (last', fds, limiter') =>
      9 * 1000000000 < now - last_timeout_check /\ last' = now /\ NoDup fds /\
      (forall fd, fd ∈ fds -> exists c, connections !! fd = Some c /\
        29 * 1000000000 < clock fd - Connection.last_activity c) /\
      (forall fd c, connections !! fd = Some c ->
        30 * 1000000000 <= clock fd - Connection.last_activity c -> fd ∈ fds) /\
      (RateLimiterSpec.wf limiter -> forall ip, RateLimiterSpec.slookup hash limiter' ip =
         match RateLimiterSpec.slookup hash limiter ip with
         | Some l => if RateLimiter.stale_at sweep_now RateLimiterSpec.MAX_IDLE (RateLimiter.heap limiter) l
                     then None else Some l
         | None => None
         end)
  end.
Proof.
  unfold check_idle_timeouts, CHECK_INTERVAL_SECONDS, IDLE_TIMEOUT_SECONDS, Connection.seconds_since_last_activity.
  assert (forall k ns, 0 <= k <= 1000 ->
    Qle_bool (inject_Z (k + 1)) (RateLimiter.duration_double rnd ns) = true -> k * 1000000000 < ns) as Hlt.
  { intros k ns Hk Hq%Qle_bool_iff. apply Z.nle_gt. intros Hle.
    apply (duration_double_le k ns) in Hle; [|lia]. pose proof (Qle_trans _ _ _ Hq Hle) as Hc.
    rewrite <- Zle_Qle in Hc. lia. }
  assert (forall k ns, 0 <= k <= 1000 -> k * 1000000000 <= ns ->
    Qle_bool (inject_Z k) (RateLimiter.duration_double rnd ns) = true) as Hge.
  { intros k ns Hk Hle. apply Qle_bool_iff, RateLimiterSpec.duration_double_ge; [done|lia|done]. }
  destruct (Qle_bool (inject_Z 10) _) eqn:Hdue; cbn [negb].
  2:{ apply Z.nle_gt. intros Hle. rewrite Hge in Hdue; [done|lia|done]. }
  split; [by apply (Hlt 9)|]. split; [done|]. split; [apply NoDup_fst_map_to_list|]. split_and!.
  - intros fd ([fd' c] & -> & Hin%elem_of_map_to_list)%list_elem_of_fmap.
    apply map_lookup_filter_Some in Hin as [Hc Hq]. exists c. split; [done|]. by apply (Hlt 29).
  - intros fd c Hc Hidle. apply list_elem_of_fmap. exists (fd, c). split; [done|].
    apply elem_of_map_to_list, map_lookup_filter_Some. split; [done|]. by apply Hge.
  - intros Hwf ip. destruct (RateLimiterSpec.sweep_stale_spec hash sweep_now RateLimiterSpec.MAX_IDLE limiter Hwf) as [_ Hs].
    specialize (Hs ip). destruct (RateLimiterSpec.slookup hash limiter ip); [|done].
    by destruct (RateLimiter.stale_at _ _ _ _); destruct Hs.
Qed.
End Sweep.

(** [has_pending_writes()], which nothing calls. *)
Definition has_pending_writes (connections : gmap Z Connection.t) : bool :=
  existsb (fun e => Connection.has_pending_writes e.2) (map_to_list connections).

(** ** Clean-up *)

(** [cleanup_all_connections()], in some order of the map. *)
Definition cleanup_all_connections (conns : list (Z * Connection.t)) (limiter : gmap bytes Z)
    (active : Z) : gmap bytes Z * Z :=
  foldl (fun s e => (PerIpConnectionLimiter.release (Connection.client_ip e.2) s.1, u64 (s.2 - 1)))
    (limiter, active) conns.

Definition of_ip (ip : bytes) (e : Z * Connection.t) : bool := bool_decide (Connection.client_ip e.2 = ip).

(** C33: Clean-up leaves the counters at zero: if the limiter and the atomic
    counter are exact when the loop ends, every slot is released and no entry
    is left, in whatever order the connections are visited. *)
Theorem cleanup_releases_all (connections : gmap Z Connection.t) (order : list (Z * Connection.t))
    (limiter : gmap bytes Z) (active : Z) :
  order ≡ₚ map_to_list connections -> zlen order < 2 ^ 64 ->
  active = Z.of_nat (size connections) ->
  (forall ip, limiter !! ip = PerIpConnectionLimiter.entry (count (of_ip ip) order)) ->
  cleanup_all_connections order limiter active = (∅, 0).
Proof.
  intros Hord Hlen Hact. assert (active = zlen order) as ->
    by (rewrite Hact; unfold zlen; by rewrite Hord, length_map_to_list). clear Hact Hord.
  revert limiter Hlen. unfold cleanup_all_connections.
  induction order as [|[fd c] order IH]; intros limiter Hlen Hl.
  - cbn. f_equal. apply map_eq. intros ip. by rewrite Hl, lookup_empty.
  - cbn [foldl fst snd]. rewrite zlen_cons in *. pose proof (zlen_nonneg order).
    rewrite u64_small by lia. replace (1 + zlen order - 1) with (zlen order) by lia.
    apply IH; [lia|]. intros ip. set (ip0 := Connection.client_ip c).
    destruct (PerIpConnectionLimiter.release_spec ip0 limiter) as [Hne Heq].
    assert (forall ip', count (of_ip ip') ((fd, c) :: order) =
      (if decide (ip' = ip0) then 1 else 0) + count (of_ip ip') order) as Hc.
    { intros ip'. cbn. f_equal. unfold of_ip. cbn. fold ip0.
      case_bool_decide; case_decide; congruence || done. }
    pose proof (count_nonneg (of_ip ip) order).
    destruct (decide (ip = ip0)) as [->|Hip].
    + rewrite Hl, Hc, decide_True, PerIpConnectionLimiter.default_entry in Heq by done.
      rewrite Heq by lia. unfold PerIpConnectionLimiter.entry.
      destruct (Z.eqb_spec (1 + count (of_ip ip0) order) 1), (Z.eqb_spec (count (of_ip ip0) order) 0);
        try lia; [done|f_equal; lia].
    + by rewrite Hne, Hl, Hc, decide_False.
Qed.

(** ** Witnesses *)

Definition stopping : t := mk LoopState.STOPPING 3 4 1000.

Lemma shutdown_exact_witness :
  let ks := [mk_tick (fun l => l) (WaitReady [(9, EPOLLOUT)]) false 2000;
             mk_tick (stop 5000) (WaitReady []) true 3000] in
  run_loop stopping ks =
    (true, mk LoopState.STOPPED (-1) 4 1000,
     [CloseServer 3; HandleClientWrite 9; CheckIdleTimeouts; CheckIdleTimeouts; CleanupAllConnections]) /\
  (run_loop stopping ks).1.1 = existsb (final_tick 1000) ks.
Proof.
  intros ks. pose proof (shutdown_exact stopping ks eq_refl) as H.
  destruct (run_loop stopping ks) as [[returned l'] actions] eqn:E.
  split; [rewrite <- E; by vm_compute|]. apply H.
  constructor; [exists 0; by left|]. constructor; [exists 5000; by right|constructor].
Defined.

Lemma stop_race_witness :
  (iteration (mk LoopState.RUNNING 3 4 0)
     (mk_tick (fun l => (stop_cas l).2) (WaitReady []) false 6000000000)).1.2 =
    mk LoopState.STOPPED 3 4 0.
Proof.
  exact (proj1 (stop_race (mk LoopState.RUNNING 3 4 0) [] 6000000000 eq_refl eq_refl ltac:(lia))).
Defined.

Lemma idle_sweep_witness :
  match check_idle_timeouts id 40000000000 0 (fun _ => 40000000000) {[5 := Connection.create 5 [] 0]}
          40000000000 RateLimiter.init with
  | None => False
  | Some (last', fds, _) => last' = 40000000000 /\ 5 ∈ fds
  end.
Proof.
  pose proof (idle_sweep id 40000000000 0 (fun _ => 40000000000) {[5 := Connection.create 5 [] 0]}
    (fun _ => 0) 40000000000 RateLimiter.init) as H.
  destruct (check_idle_timeouts _ _ _ _ _ _ _) as [[[last' fds] s']|]; [|lia].
  destruct H as (H1 & H2 & _ & _ & H3 & _). split; [exact H2|]. eapply H3; [reflexivity|]. by vm_compute.
Defined.

Lemma cleanup_releases_all_witness :
  cleanup_all_connections [(5, Connection.create 5 (bs "10.0.0.1") 0)] {[bs "10.0.0.1" := 1]} 1 = (∅, 0).
Proof.
  refine (cleanup_releases_all {[5 := Connection.create 5 (bs "10.0.0.1") 0]}
    [(5, Connection.create 5 (bs "10.0.0.1") 0)] {[bs "10.0.0.1" := 1]} 1 _ _ _ _); [done|done|done|].
  intros ip. unfold of_ip. cbn [count fst snd Connection.client_ip Connection.create]. destruct (decide (ip = bs "10.0.0.1")) as [->|Hne].
  - by rewrite lookup_singleton_eq, bool_decide_true.
  - rewrite lookup_singleton_ne, bool_decide_false by done. done.
Defined.

End Loop.
