(* ===== verification/CloseMark.v ===== *)
(** * The mark to close, and the events that follow it

    [src/src/network/EventLoop.cpp]: the loop's dispatch and the two kinds of
    task on one connection.  A read task that cannot send its last response at
    once marks the connection ([mark_close_after_write]); only a write task
    looks at the mark. *)

From stdpp Require Import relations.
From S2P Require Import Prelude CppStd Headers Request Parser Response Encoder Router App.
From S2P Require Import Connection EventLoop EventLoopSpec Conversation Loop.
#[local] Open Scope Z_scope.

Import EventLoop.

Module CloseMark.

#[local] Abbreviation mark := Connection.mark_close_after_write.

(** ** Read tasks do not look at the mark *)

Section Tasks.
Context {K : Type} `{Env K} (ord : gmap bytes bytes -> list (bytes * bytes)) (router : HttpRouter.t).

(** A result on the marked connection. *)
Definition mark_of {A} (r : A * Connection.t * K) : A * Connection.t * K :=
  let '(a, c, k) := r in (a, mark c, k).

Lemma flush_mark conn err k :
  Connection.flush (mark conn) err k =
    let '(ok, c, err', k') := Connection.flush conn err k in (ok, mark c, err', k').
Proof.
  unfold Connection.flush. cbn [Connection.write_buffer Connection.fd Connection.mark_close_after_write].
  by destruct (Connection.flush_loop _ _ _ _ _) as [[[[]]]|].
Qed.

Lemma drain_mark fuel conn k : drain fuel (mark conn) k = mark_of <$> drain fuel conn k.
Proof.
  revert conn k; induction fuel as [|f IH]; intros conn k; cbn [drain]; [done|].
  destruct (env_state k) as [st k1]. case_bool_decide; [|done].
  change (Connection.fd (mark conn)) with (Connection.fd conn).
  destruct (env_recv _ _ k1) as [[d| | |] k2]; try done. destruct (env_now k2) as [t k3].
  exact (IH (Connection.append_read_data d t conn) k3).
Qed.

Lemma queue_response_mark res conn k :
  queue_response ord res (mark conn) k =
    let '(c, k') := queue_response ord res conn k in (mark c, k').
Proof. unfold queue_response. by destruct (env_now k). Qed.

Lemma answer_and_close_mark res conn k :
  answer_and_close ord res (mark conn) k =
    let '(c, k') := answer_and_close ord res conn k in (mark c, k').
Proof.
  unfold answer_and_close. rewrite queue_response_mark. destruct (queue_response _ _ _ _) as [c k1].
  rewrite flush_mark. by destruct (Connection.flush c false k1) as [[[]]].
Qed.

Lemma process_mark fuel lc conn k :
  process ord router fuel lc (mark conn) k = mark_of <$> process ord router fuel lc conn k.
Proof.
  revert lc conn k; induction fuel as [|f IH]; intros lc conn k; cbn [process];
    change (Connection.read_buffer (mark conn)) with (Connection.read_buffer conn);
    (case_bool_decide; [done|]); [done|].
  change (Connection.to_cfg (mark conn)) with (Connection.to_cfg conn).
  destruct (HttpRequestParser.parse _) as [r cfg]. change (Connection.of_cfg cfg (mark conn)) with (mark (Connection.of_cfg cfg conn)).
  generalize (Connection.of_cfg cfg conn). intros c. destruct r; [|done|].
  2:{ rewrite answer_and_close_mark. by destruct (answer_and_close _ _ _ _). }
  change (Connection.client_ip (mark c)) with (Connection.client_ip c).
  destruct (env_allow _ k) as [[|] k1]; cbn [negb].
  2:{ rewrite answer_and_close_mark. by destruct (answer_and_close _ _ _ _). }
  rewrite queue_response_mark. change (Connection.request (mark c)) with (Connection.request c).
  destruct (queue_response _ _ _ _) as [c1 k2]. destruct (HttpResponse.close_after_send _); [done|].
  destruct (50 <? lc + 1); [done|]. exact (IH (lc + 1) (Connection.reset_http c1) k2).
Qed.

Lemma finish_mark close more conn k : finish close more (mark conn) k = mark_of (finish close more conn k).
Proof.
  unfold finish. rewrite flush_mark. destruct (Connection.flush conn false k) as [[[ok c] err] k1].
  change (Connection.has_pending_writes (mark c)) with (Connection.has_pending_writes c).
  destruct err; [done|]. destruct close; [by destruct ok|]. destruct more; [|done]. by destruct (env_state k1).
Qed.

Lemma read_task_mark fuel conn k :
  read_task ord router fuel (mark conn) k = mark_of <$> read_task ord router fuel conn k.
Proof.
  unfold read_task. rewrite drain_mark. destruct (drain fuel conn k) as [[[[|] c] k1]|]; [done| |done].
  cbn [fmap option_fmap option_map mark_of]. rewrite process_mark.
  destruct (process _ _ _ _ c k1) as [[[[|cl mo] c2] k2]|]; [done| |done].
  cbn [fmap option_fmap option_map mark_of]. by rewrite finish_mark.
Qed.

(** A read task that has sent everything re-arms for input only. *)
Lemma flush_loop_all_sent fuel fd wb err k ok err' k' :
  Connection.flush_loop fuel fd wb err k = Some (ok, [], err', k') -> ok = true.
Proof.
  revert wb k; induction fuel as [|f IH]; intros wb k; (destruct wb as [|b wb]; [by intros [= <- <- <-]|]);
    cbn [Connection.flush_loop]; [done|].
  destruct (env_send _ _ k) as [[m| |] k1]; [|done..]. destruct (0 <? m); [apply IH|done].
Qed.

Lemma flush_all_sent conn err k ok c err' k' :
  Connection.flush conn err k = (ok, c, err', k') -> Connection.write_buffer c = [] -> ok = true.
Proof.
  unfold Connection.flush.
  destruct (Connection.flush_loop _ _ _ _ _) as [[[[ok1 wb] err1] k1]|] eqn:E; intros [= <- <- <- <-]; cbn.
  - intros ->. by apply flush_loop_all_sent in E.
  - intros Hwb. by rewrite Hwb in E.
Qed.

Lemma finish_all_sent close more conn k flags again c k' :
  finish close more conn k = (Rearm flags again, c, k') -> Connection.write_buffer c = [] ->
  has_flag EPOLLOUT flags = false.
Proof.
  unfold finish. destruct (Connection.flush conn false k) as [[[ok c1] err] k1] eqn:E.
  destruct err; [done|]. destruct close.
  { destruct ok; [done|]. intros [= <- <- <- <-] Hwb. by pose proof (flush_all_sent _ _ _ _ _ _ _ E Hwb). }
  intros Hf Hwb. assert (c1 = c) as -> by (destruct more; [destruct (env_state k1)|]; congruence).
  rewrite (flush_all_sent _ _ _ _ _ _ _ E Hwb) in Hf. unfold Connection.has_pending_writes in Hf.
  rewrite Hwb in Hf. cbn in Hf. destruct more; [destruct (env_state k1)|]; by injection Hf as <-.
Qed.

Lemma read_task_all_sent fuel conn k flags again c k' :
  read_task ord router fuel conn k = Some (Rearm flags again, c, k') -> Connection.write_buffer c = [] ->
  has_flag EPOLLOUT flags = false.
Proof.
  unfold read_task. destruct (drain fuel conn k) as [[[[|] c1] k1]|]; [done| |done].
  destruct (process _ _ _ _ c1 k1) as [[[[|cl mo] c2] k2]|]; [done| |done].
  intros [= Hf]. by apply (finish_all_sent cl mo c2 k2 flags again c k').
Qed.
End Tasks.

(** ** A connection under the loop *)

Section Serving.
Context {K : Type} `{Env K} (ord : gmap bytes bytes -> list (bytes * bytes)) (router : HttpRouter.t).

Record serving := mk {
  armed : Z;                      (* the events epoll watches; 0 after one is reported *)
  tasks : list Loop.action;       (* what the loop has started for this connection *)
  conn : Connection.t;
  outside : K;
  gone : bool                     (* [remove_connection] has been called *)
}.

(** What [epoll_wait] may report for a descriptor. *)
Definition reported (armed ev : Z) : Prop :=
  armed <> 0 /\ Z.land ev (Z.lor armed (Z.lor EPOLLHUP EPOLLERR)) = ev.

(** The end of a task. *)
Definition ended (e : task_end) (rest : list Loop.action) (c : Connection.t) (k : K) : serving :=
  match e with
  | Remove => mk 0 rest c k true
  | Rearm flags again => mk flags (rest ++ if again then [Loop.HandleClientRead (Connection.fd c)] else []) c k false
  end.

(** The outside does something; the loop, in whatever state, dispatches an
    event; the pool runs one of the tasks. *)
Inductive step (s : serving) : serving -> Prop :=
| elsewhere k : step s (mk (armed s) (tasks s) (conn s) k (gone s))
| event (l : Loop.t) ev :
    gone s = false -> reported (armed s) ev ->
    step s (mk 0 (tasks s ++ Loop.handle_event l (Connection.fd (conn s), ev)) (conn s) (outside s) false)
| read fuel pre fd post e c k :
    gone s = false -> tasks s = pre ++ Loop.HandleClientRead fd :: post ->
    read_task ord router fuel (conn s) (outside s) = Some (e, c, k) ->
    step s (ended e (pre ++ post) c k)
| write pre fd post e c k :
    gone s = false -> tasks s = pre ++ Loop.HandleClientWrite fd :: post ->
    write_task (conn s) (outside s) = (e, c, k) ->
    step s (ended e (pre ++ post) c k)
| hangup pre fd post :
    gone s = false -> tasks s = pre ++ Loop.RemoveConnection fd :: post ->
    step s (mk 0 (pre ++ post) (conn s) (outside s) true).

(** A step after which nothing is left to send (or nobody to send it). *)
Definition step_sent (s s' : serving) : Prop :=
  step s s' /\ (gone s' = true \/ Connection.write_buffer (conn s') = []).

Definition is_write (a : Loop.action) : bool :=
  match a with Loop.HandleClientWrite _ => true | _ => false end.

(** Nothing will look at the mark: output is not watched and no write task is
    under way. *)
Definition parked (s : serving) : Prop :=
  has_flag EPOLLOUT (armed s) = false /\ forallb (fun a => negb (is_write a)) (tasks s) = true.

Definition marked (s : serving) : serving := mk (armed s) (tasks s) (mark (conn s)) (outside s) (gone s).

Lemma reported_parked armed ev :
  has_flag EPOLLOUT armed = false -> reported armed ev -> has_flag EPOLLOUT ev = false.
Proof.
  unfold has_flag. rewrite !negb_false_iff, !Z.eqb_eq. intros Ha [_ <-].
  rewrite <- Z.land_assoc, (Z.land_comm (Z.lor _ _)), Z.land_lor_distr_r, (Z.land_comm EPOLLOUT armed), Ha.
  apply Z.land_0_r.
Qed.

Lemma handle_event_no_write l fd ev :
  has_flag EPOLLOUT ev = false ->
  forallb (fun a => negb (is_write a)) (Loop.handle_event l (fd, ev)) = true.
Proof.
  intros Hev. unfold Loop.handle_event. repeat split_if; try done. all: by rewrite ?Hev in *.
Qed.

Lemma forallb_middle {A} (f : A -> bool) pre x post :
  forallb f (pre ++ x :: post) = true -> f x = true /\ forallb f (pre ++ post) = true.
Proof. rewrite !forallb_app. cbn [forallb]. rewrite !andb_true_iff. tauto. Qed.

Lemma ended_parked fuel conn0 k0 e rest c k :
  read_task ord router fuel conn0 k0 = Some (e, c, k) ->
  forallb (fun a => negb (is_write a)) rest = true ->
  gone (ended e rest c k) = true \/ Connection.write_buffer (conn (ended e rest c k)) = [] ->
  parked (ended e rest c k).
Proof.
  intros Hr Hrest. destruct e as [|flags again]; [by split|]. cbn. intros [?|Hwb]; [done|]. split.
  - by apply (read_task_all_sent _ _ _ _ _ _ _ _ _ Hr).
  - cbn. rewrite forallb_app, Hrest. by destruct again.
Qed.

Lemma parked_step s s' : parked s -> step_sent s s' -> parked s'.
Proof.
  intros [Ha Hw] [Hs Hout]. destruct Hs as [k|l ev Hg Hev|fuel pre fd post e c k Hg Ht Hr|pre fd post e c k Hg Ht _|pre fd post Hg Ht].
  - done.
  - split; [done|]. cbn. rewrite forallb_app, Hw. apply handle_event_no_write. by eapply reported_parked.
  - rewrite Ht in Hw. apply forallb_middle in Hw as [_ Hw]. by eapply ended_parked.
  - rewrite Ht in Hw. by apply forallb_middle in Hw as [? _].
  - rewrite Ht in Hw. apply forallb_middle in Hw as [_ Hw]. done.
Qed.

Lemma marked_ended e rest c k : marked (ended e rest c k) = ended e rest (mark c) k.
Proof. by destruct e. Qed.

Lemma marked_step s s' : parked s -> step_sent s s' -> step_sent (marked s) (marked s').
Proof.
  intros [_ Hw] [Hs Hout]. split; [|done].
  destruct Hs as [k|l ev Hg Hev|fuel pre fd post e c k Hg Ht Hr|pre fd post e c k Hg Ht _|pre fd post Hg Ht].
  - apply (elsewhere (marked s)).
  - by apply (event (marked s)).
  - rewrite marked_ended. apply (read (marked s) fuel pre fd post); [done..|].
    cbn [marked conn outside]. by rewrite read_task_mark, Hr.
  - rewrite Ht in Hw. by apply forallb_middle in Hw as [? _].
  - by apply (hangup (marked s) pre fd post).
Qed.

Lemma unmarked_step s s' :
  parked s -> step_sent (marked s) s' -> exists t, s' = marked t /\ step_sent s t.
Proof.
  intros [_ Hw] [Hs Hout].
  destruct Hs as [k|l ev Hg Hev|fuel pre fd post e c k Hg Ht Hr|pre fd post e c k Hg Ht _|pre fd post Hg Ht].
  - eexists (mk (armed s) (tasks s) (conn s) k (gone s)). split; [done|]. split; [constructor|done].
  - eexists (mk 0 (tasks s ++ Loop.handle_event l (Connection.fd (conn s), ev)) (conn s) (outside s) false).
    split; [done|]. split; [by constructor|done].
  - cbn [marked conn outside] in Hr. rewrite read_task_mark in Hr.
    destruct (read_task ord router fuel (conn s) (outside s)) as [[[e1 c1] k1]|] eqn:E; [|done].
    injection Hr as -> <- ->. exists (ended e (pre ++ post) c1 k). rewrite marked_ended. split; [done|].
    split; [by apply (read s fuel pre fd post)|]. by rewrite <- marked_ended in Hout.
  - cbn in Ht. rewrite Ht in Hw. by apply forallb_middle in Hw as [? _].
  - exists (mk 0 (pre ++ post) (conn s) (outside s) true). split; [done|]. split; [by apply (hangup s pre fd post)|by left].
Qed.

(** C37: A request to close can be forgotten.  Consider a connection for which
    output is not watched and no write task is under way, and any run of the
    loop and of its tasks in which every read task sends all it has to send.
    Marking the connection to close makes no difference to the run: the same
    events and tasks are possible, with the same bytes on the wire and the same
    state of the connection but for the mark, and it is removed in the one case
    exactly when it is in the other.  No write task, which alone would act on
    the mark, is ever started, and output is never watched.

    The witness reaches such a state with the mark set: a client asks to close
    and its answer does not fit into the socket at once; the write task that is
    woken in vain re-arms for input as well, and a read task sends the rest
    while answering the client's next request. *)
Theorem close_request_forgotten (s s' : serving) :
  parked s ->
  (rtc step_sent (marked s) s' <-> exists t, s' = marked t /\ rtc step_sent s t /\ parked t).
Proof.
  intros Hp. split.
  - remember (marked s) as m eqn:Em. intros Hrun. revert s Hp Em.
    induction Hrun as [m|m m1 m2 Hstep _ IH]; intros s Hp ->.
    + by exists s; split; [|split; [constructor|]].
    + apply unmarked_step in Hstep as (t1 & -> & Hstep); [|done].
      pose proof (parked_step _ _ Hp Hstep) as Hp1.
      destruct (IH t1 Hp1 eq_refl) as (t & -> & Hrun & Hpt). exists t. split; [done|]. split; [|done].
      by eapply rtc_l.
  - intros (t & -> & Hrun & _). induction Hrun as [s|s s1 s2 Hstep _ IH]; [constructor|].
    eapply rtc_l; [by apply marked_step|]. by apply IH, (parked_step s).
Qed.
End Serving.

(** ** Witness *)

(** The execution of [Conversation.close_then_more] ends in such a state, with
    the mark set. *)
Lemma close_request_forgotten_witness :
  exists flags c k,
    Conversation.close_then_more = Some (flags, mark c, k) /\
    let s := mk flags [] c k false in
    parked s /\
    forall s', rtc (step_sent map_to_list App.router) (marked s) s' ->
      exists t, s' = marked t /\ rtc (step_sent map_to_list App.router) s t /\ parked t.
Proof.
  destruct Conversation.forgotten_run as (flags & c & k & rs & E & _ & Hm & _ & Hf & _).
  exists flags, c, k. split.
  - rewrite E. destruct c as [? ? ? ? fl ? ? ?]. cbn in Hm. by rewrite Hm.
  - assert (parked (mk flags [] c k false)) as Hp by by split. split; [exact Hp|].
    intros s'. apply (close_request_forgotten map_to_list App.router (mk flags [] c k false) s' Hp).
Defined.

End CloseMark.
