(* ===== verification/Watch.v ===== *)
(** * One-shot events: who watches a connection

    A connection is registered with [EPOLLONESHOT]: an event disarms it, and only
    [modify_epoll], at the end of a task, arms it again.  This file follows the
    registration through [handle_accept], [run], [handle_client_read],
    [handle_client_write], the tasks they submit, and [remove_connection]
    ([src/src/network/EventLoop.cpp]), with [Loop.handle_event] for the dispatch
    and the tasks of [EventLoop] for how a task may end.  Descriptors, objects
    and references are an [Objects.t]; closing a descriptor takes it out of
    epoll. *)

From S2P Require Import Prelude CppStd Response Router Lifetime Objects Connection EventLoop EventLoopSpec Loop App.
#[local] Open Scope Z_scope.

Import EventLoop.

Module Watch.

(** What a thread or a queued task still has to do; [o] is the reference it
    holds. *)
Inductive job :=
| Accepted (fd : Z) (o : nat)      (* handle_accept: a descriptor, no object yet *)
| Registering (fd : Z) (o : nat)   (* between the map and epoll_ctl(ADD) *)
| Failed (fd : Z) (o : nat)        (* epoll_ctl(ADD) has failed: connections.erase(client_fd) *)
| Closing (fd : Z) (o : nat)       (* and then close(client_fd) *)
| ReadTask (fd : Z) (o : nat)
| WriteTask (fd : Z) (o : nat)
| ReadAgain (fd : Z)               (* the task submitted by a read task: handle_client_read(fd) *)
| Leaving (fd : Z) (o : nat)       (* remove_connection, between erase and epoll_ctl(DEL) *)
| Dropping (o : nat).              (* the local conn, or the task's, is about to go *)

#[global] Instance job_eq_dec : EqDecision job.
Proof. solve_decision. Defined.

(** The reference a job holds, and the descriptor it alone knows of. *)
Definition job_ref (j : job) : option nat :=
  match j with
  | Registering _ o | Failed _ o | Closing _ o | ReadTask _ o | WriteTask _ o | Leaving _ o | Dropping o => Some o
  | Accepted _ _ | ReadAgain _ => None
  end.
Definition holds (o : nat) (j : job) : bool := bool_decide (job_ref j = Some o).
Definition bare (fd : Z) (o : nat) (j : job) : bool :=
  match j with Accepted fd' o' => bool_decide (fd' = fd /\ o' = o) | _ => false end.

Record sys := mk {
  running : bool;                (* state == RUNNING; otherwise STOPPING *)
  store : Objects.t;             (* the map [connections], objects, descriptors *)
  interest : gset Z;             (* the clients registered with epoll *)
  armed : gmap Z Z;              (* those whose events are enabled, and which *)
  batch : list (Z * Z);          (* events of epoll_wait not looked at yet *)
  calls : list Loop.action;      (* what the loop does for the present event *)
  jobs : list job;
  add_failed : bool              (* history: an epoll_ctl(ADD) has failed *)
}.

Definition connections (s : sys) : gmap Z nat := Objects.connections (store s).

(** The references outside the map. *)
Definition references (s : sys) (o : nat) : Z := count (holds o) (jobs s).

Section Steps.
Context {K : Type} `{Env K} (ord : gmap bytes bytes -> list (bytes * bytes)) (router : HttpRouter.t).
Context (server_fd wakeup_fd : Z).

Definition init : sys := mk true Objects.init ∅ ∅ [] [] [] false.

Definition loop (s : sys) : Loop.t :=
  Loop.mk (if running s then LoopState.RUNNING else LoopState.STOPPING) server_fd wakeup_fd 0.

Definition with_jobs (js : list job) (s : sys) : sys :=
  mk (running s) (store s) (interest s) (armed s) (batch s) (calls s) js (add_failed s).
Definition with_calls (cs : list Loop.action) (s : sys) : sys :=
  mk (running s) (store s) (interest s) (armed s) (batch s) cs (jobs s) (add_failed s).
Definition with_epoll (i : gset Z) (a : gmap Z Z) (s : sys) : sys :=
  mk (running s) (store s) i a (batch s) (calls s) (jobs s) (add_failed s).
Definition with_store (x : Objects.t) (s : sys) : sys :=
  mk (running s) x (interest s) (armed s) (batch s) (calls s) (jobs s) (add_failed s).
Definition failure (s : sys) : sys :=
  mk (running s) (store s) (interest s) (armed s) (batch s) (calls s) (jobs s) true.

(** The descriptors that are closed leave epoll. *)
Definition is_open (s : sys) (fd : Z) : Prop := is_Some (Objects.kernel (store s) !! fd).
#[global] Instance is_open_dec s fd : Decision (is_open s fd).
Proof. unfold is_open. apply _. Defined.

Definition settle (s : sys) : sys :=
  with_epoll (filter (is_open s) (interest s)) (filter (fun e => is_open s e.1) (armed s)) s.

(** [thread_pool.submit]; the pool takes tasks for as long as the loop runs. *)
Definition submit (j : job) (s : sys) : sys := with_jobs (jobs s ++ [j]) s.

Definition handle_client_read (fd : Z) (s : sys) : sys :=
  if negb (running s) then s
  else match connections s !! fd with Some o => submit (ReadTask fd o) s | None => s end.

Definition handle_client_write (fd : Z) (s : sys) : sys :=
  match connections s !! fd with Some o => submit (WriteTask fd o) s | None => s end.

(** [epoll_ctl(EPOLL_CTL_MOD)], which fails for a descriptor not registered. *)
Definition modify_epoll (fd flags : Z) (s : sys) : sys :=
  with_epoll (interest s) (if decide (fd ∈ interest s) then <[fd := flags]> (armed s) else armed s) s.

(** Its first half; [Leaving] is the second. *)
Definition remove_connection (fd : Z) (s : sys) : sys :=
  match connections s !! fd with
  | Some o => submit (Leaving fd o) (with_store (Objects.take_out fd (store s)) s)
  | None => s
  end.

(** A call the loop makes for an event; accepting is a step of its own. *)
Definition call (a : Loop.action) (s : sys) : sys :=
  match a with
  | Loop.HandleClientRead fd => handle_client_read fd s
  | Loop.HandleClientWrite fd => handle_client_write fd s
  | Loop.RemoveConnection fd => remove_connection fd s
  | _ => s
  end.

(** What a task does last. *)
Definition task_ends (fd : Z) (e : task_end) (s : sys) : sys :=
  match e with
  | Remove => remove_connection fd s
  | Rearm flags resubmit =>
      let s := modify_epoll fd flags s in if resubmit then submit (ReadAgain fd) s else s
  end.

(** An event that [epoll_wait] can report for a client armed with [flags]. *)
Definition reports (flags ev : Z) : Prop :=
  (has_flag EPOLLIN ev = true -> has_flag EPOLLIN flags = true) /\
  (has_flag EPOLLOUT ev = true -> has_flag EPOLLOUT flags = true) /\
  (has_flag EPOLLIN ev = true \/ has_flag EPOLLOUT ev = true \/ has_flag (Z.lor EPOLLHUP EPOLLERR) ev = true).

(** The clients among the events are disarmed. *)
Definition disarm (evs : list (Z * Z)) (m : gmap Z Z) : gmap Z Z := foldr (fun e m => delete e.1 m) m evs.

Definition ADD_FLAGS : Z := Z.lor (Z.lor EPOLLIN EPOLLET) EPOLLONESHOT.

(** Job [i] becomes [j]. *)
Definition becomes (i : nat) (j : job) (s : sys) : sys := with_jobs (<[i := j]> (jobs s)) s.

Inductive step (s : sys) : sys -> Prop :=
(* handle_accept: a descriptor that is not open, as the listening socket and the eventfd are *)
| accept_fd fd :
    Objects.kernel (store s) !! fd = None -> 0 <= fd -> fd <> server_fd -> fd <> wakeup_fd ->
    step s (submit (Accepted fd (Objects.next (store s))) (with_store (Objects.accept fd (store s)) s))
(* refused by the limiter: close(client_fd) *)
| accept_reject fd o i :
    jobs s !! i = Some (Accepted fd o) ->
    step s (settle (with_jobs (delete i (jobs s)) (with_store (Objects.close fd (store s)) s)))
(* connections[client_fd] = conn; the entry that was there loses its reference *)
| accept_insert fd o i :
    jobs s !! i = Some (Accepted fd o) ->
    step s (let s' := becomes i (Registering fd o) s in
            settle (with_store (Objects.put (references s') fd o (store s)) s'))
(* epoll_ctl(EPOLL_CTL_ADD), for an open descriptor not registered yet *)
| accept_add fd o i :
    jobs s !! i = Some (Registering fd o) -> is_open s fd -> fd ∉ interest s ->
    step s (becomes i (Dropping o) (with_epoll ({[fd]} ∪ interest s) (<[fd := ADD_FLAGS]> (armed s)) s))
(* or its failure: connections.erase(client_fd); close(client_fd); *)
| accept_fails fd o i :
    jobs s !! i = Some (Registering fd o) -> step s (becomes i (Failed fd o) (failure s))
| fail_erase fd o i :
    jobs s !! i = Some (Failed fd o) ->
    step s (let s' := becomes i (Closing fd o) s in
            settle (with_store (Objects.erase (references s') fd (store s)) s'))
| fail_close fd o i :
    jobs s !! i = Some (Closing fd o) ->
    step s (settle (becomes i (Dropping o) (with_store (Objects.close fd (store s)) s)))
(* a shared_ptr<Connection> goes *)
| drop_ref o i :
    jobs s !! i = Some (Dropping o) ->
    step s (let s' := with_jobs (delete i (jobs s)) s in
            settle (with_store (Objects.drop (references s' o) o (store s)) s'))
(* epoll_wait *)
| wait evs :
    batch s = [] -> calls s = [] ->
    (forall fd ev, (fd, ev) ∈ evs -> fd = server_fd \/ fd = wakeup_fd \/
       exists flags, armed s !! fd = Some flags /\ reports flags ev) ->
    step s (mk (running s) (store s) (interest s) (disarm evs (armed s)) evs [] (jobs s) (add_failed s))
(* the next event, and the calls made for it *)
| event e evs :
    batch s = e :: evs -> calls s = [] ->
    step s (mk (running s) (store s) (interest s) (armed s) evs (Loop.handle_event (loop s) e) (jobs s) (add_failed s))
| make_call a cs : calls s = a :: cs -> step s (call a (with_calls cs s))
(* the tasks; what they do to the connection is in EventLoop *)
| read_ends i fd o fuel conn k e conn' k' :
    jobs s !! i = Some (ReadTask fd o) -> read_task ord router fuel conn k = Some (e, conn', k') ->
    step s (task_ends fd e (becomes i (Dropping o) s))
| write_ends i fd o conn k e conn' k' :
    jobs s !! i = Some (WriteTask fd o) -> write_task conn k = (e, conn', k') ->
    step s (task_ends fd e (becomes i (Dropping o) s))
| read_again i fd :
    jobs s !! i = Some (ReadAgain fd) -> step s (handle_client_read fd (with_jobs (delete i (jobs s)) s))
(* the second half of remove_connection *)
| deregister i fd o :
    jobs s !! i = Some (Leaving fd o) ->
    step s (becomes i (Dropping o) (with_epoll (interest s ∖ {[fd]}) (delete fd (armed s)) s))
(* the idle sweep *)
| idle fd : step s (remove_connection fd s)
(* stop() *)
| stopped : step s (mk false (store s) (interest s) (armed s) (batch s) (calls s) (jobs s) (add_failed s)).

Definition reachable : sys -> Prop := rtc step init.

(** ** Ownership, as long as no [epoll_ctl(ADD)] has failed *)

Definition bares (s : sys) (fd : Z) (o : nat) : Z := count (bare fd o) (jobs s).

(** What a job knows of its descriptor. *)
Definition job_ok (s : sys) (j : job) : Prop :=
  match j with
  | Accepted fd _ => fd <> server_fd /\ fd <> wakeup_fd
  | Leaving fd o => Objects.heap (store s) !! o = Some fd /\ connections s !! fd = None
  | Failed _ _ | Closing _ _ => False
  | _ => True
  end.

Record sound (s : sys) : Prop := {
  sound_owned : Objects.owned (store s) (references s) (bares s);
  sound_client fd : is_Some (connections s !! fd) -> fd <> server_fd /\ fd <> wakeup_fd;
  sound_job j : j ∈ jobs s -> job_ok s j
}.

Lemma count_delete {A} (P : A -> bool) (l : list A) i x :
  l !! i = Some x -> count P (delete i l) = count P l - Z.b2z (P x).
Proof.
  intros Hi. rewrite delete_take_drop. rewrite <- (take_drop_middle l i x Hi) at 3.
  rewrite !count_app. cbn [count]. lia.
Qed.

(** The jobs after one has become another, or has gone, or one has been added. *)
Lemma becomes_elem i j j' k s : jobs s !! i = Some j -> k ∈ <[i := j']> (jobs s) -> k = j' \/ k ∈ jobs s.
Proof.
  intros _ [n Hn]%list_elem_of_lookup.
  apply list_lookup_insert_Some in Hn as [(_ & <- & _)|[_ Hn]]; [by left|right]. by eapply list_elem_of_lookup_2.
Qed.

Lemma becomes_keeps i j j' k s : jobs s !! i = Some j -> k ∈ jobs s -> k = j \/ k ∈ <[i := j']> (jobs s).
Proof.
  intros Hi [n Hn]%list_elem_of_lookup. destruct (decide (n = i)) as [->|Hne].
  - left. congruence.
  - right. apply list_elem_of_lookup. exists n. by rewrite list_lookup_insert_ne.
Qed.

Lemma becomes_new i j j' s : jobs s !! i = Some j -> j' ∈ <[i := j']> (jobs s).
Proof.
  intros Hi. apply list_elem_of_lookup. exists i. apply list_lookup_insert_eq. by eapply lookup_lt_Some.
Qed.

Lemma delete_elem {A} (l : list A) i k : k ∈ delete i l -> k ∈ l.
Proof. intros Hk. eapply elem_of_sublist; [exact Hk|apply sublist_delete]. Qed.

Lemma delete_keeps {A} (l : list A) i j k : l !! i = Some j -> k ∈ l -> k = j \/ k ∈ delete i l.
Proof.
  intros Hi Hk. rewrite delete_take_drop. rewrite <- (take_drop_middle l i j Hi) in Hk.
  apply elem_of_app in Hk as [Hk|Hk]; [right; apply elem_of_app; by left|].
  apply elem_of_cons in Hk as [->|Hk]; [by left|right; apply elem_of_app; by right].
Qed.

(** ** What the steps do to ownership *)

Lemma references_becomes i j j' s o :
  jobs s !! i = Some j -> references (becomes i j' s) o = references s o - Z.b2z (holds o j) + Z.b2z (holds o j').
Proof. intros Hi. unfold references, becomes. cbn [with_jobs jobs]. rewrite (count_insert _ _ _ _ _ Hi). lia. Qed.

Lemma bares_becomes i j j' s fd o :
  jobs s !! i = Some j -> bares (becomes i j' s) fd o = bares s fd o - Z.b2z (bare fd o j) + Z.b2z (bare fd o j').
Proof. intros Hi. unfold bares, becomes. cbn [with_jobs jobs]. rewrite (count_insert _ _ _ _ _ Hi). lia. Qed.

Lemma references_pos j s o : j ∈ jobs s -> holds o j = true -> 0 < references s o.
Proof. intros [i Hi]%list_elem_of_lookup Hj. by eapply count_lookup_pos. Qed.

Lemma bares_pos i s fd o : jobs s !! i = Some (Accepted fd o) -> 0 < bares s fd o.
Proof. intros Hi. eapply (count_lookup_pos _ _ _ _ Hi). cbn. by rewrite bool_decide_true. Qed.

Lemma sound_settle s : sound s -> sound (settle s).
Proof. by intros []. Qed.

(** What is known of [Leaving] jobs survives. *)
Lemma sound_frame s s' :
  sound s -> Objects.owned (store s') (references s') (bares s') ->
  (forall fd, is_Some (connections s' !! fd) -> fd <> server_fd /\ fd <> wakeup_fd) ->
  (forall o fd, Objects.heap (store s) !! o = Some fd -> 0 < references s' o ->
     Objects.heap (store s') !! o = Some fd) ->
  (forall fd o, Objects.heap (store s) !! o = Some fd -> connections s !! fd = None -> connections s' !! fd = None) ->
  (forall j, j ∈ jobs s' -> job_ok s' j \/ j ∈ jobs s) ->
  sound s'.
Proof.
  intros Hs HI Hcl Hh Hc Hj. constructor; [done|done|]. intros j Hin.
  destruct (Hj j Hin) as [?|Hold]; [done|]. pose proof (sound_job _ Hs _ Hold) as Hok.
  destruct j as [| | | | | | |fd o|]; try done. destruct Hok as [H1 H2]. split; [|by eapply Hc].
  apply Hh; [done|]. apply (references_pos _ _ o Hin). by apply bool_decide_eq_true_2.
Qed.

(** The store has only lost objects. *)
Lemma heap_shrinks s s' :
  Objects.owned (store s') (references s') (bares s') ->
  (forall o fd, Objects.heap (store s') !! o = Some fd -> Objects.heap (store s) !! o = Some fd) ->
  forall o fd, Objects.heap (store s) !! o = Some fd -> 0 < references s' o ->
    Objects.heap (store s') !! o = Some fd.
Proof.
  intros HI Hsub o fd Ho Hp. destruct (Objects.owned_held _ _ _ HI o Hp) as (fd' & Ho' & _).
  rewrite Ho'. apply Hsub in Ho'. congruence.
Qed.

Lemma b2z_ref o o' : Z.b2z (bool_decide (Some o = Some o')) = Lifetime.one_at o o'.
Proof. rewrite <- Lifetime.b2z_one_at. f_equal. apply bool_decide_ext. naive_solver. Qed.

Ltac counts :=
  intros; unfold holds; cbn [job_ref bare]; rewrite ?b2z_ref, ?Lifetime.b2z_one_at2, ?(bool_decide_false (None = Some _)) by done;
  cbn [Z.b2z]; lia.

(** A task is added, for a connection in the map, or one without a reference. *)
Lemma sound_submit j s :
  sound s -> job_ok s j -> (forall o, job_ref j = Some o -> exists fd, connections s !! fd = Some o) ->
  (forall fd o, bare fd o j = false) -> sound (submit j s).
Proof.
  intros Hs Hok Hh Hb. eapply sound_frame; [exact Hs| |by apply Hs|done|done|].
  - assert (forall fd o, bares (submit j s) fd o = bares s fd o) as Hbs.
    { intros fd o. unfold bares, submit. cbn [with_jobs jobs]. rewrite count_app. cbn. rewrite Hb. cbn. lia. }
    assert (forall o, references (submit j s) o = references s o + Z.b2z (holds o j)) as Hr.
    { intros o. unfold references, submit. cbn [with_jobs jobs]. rewrite count_app. cbn. lia. }
    destruct (job_ref j) as [o|] eqn:Hj.
    + destruct (Hh o eq_refl) as [fd Hc].
      eapply Objects.owned_ext; [by eapply (Objects.owned_copy _ _ _ (sound_owned _ Hs) fd o)| |exact Hbs].
      intros o'. rewrite Hr. unfold holds. rewrite Hj, b2z_ref. lia.
    + eapply Objects.owned_ext; [apply Hs| |exact Hbs]. intros o'. rewrite Hr. unfold holds. rewrite Hj.
      rewrite bool_decide_false by done. cbn. lia.
  - intros k Hk. apply elem_of_app in Hk as [?| ->%list_elem_of_singleton]; [by right|by left].
Qed.

(** A job becomes another with the same reference. *)
Lemma sound_becomes i j j' s s' :
  sound s -> jobs s !! i = Some j -> store s' = store s -> jobs s' = <[i := j']> (jobs s) ->
  job_ref j' = job_ref j -> (forall fd o, bare fd o j' = bare fd o j) -> job_ok s' j' -> sound s'.
Proof.
  intros Hs Hi Hst Hjs Hr Hb Hok. assert (connections s' = connections s) as Hc by (unfold connections; by rewrite Hst).
  eapply sound_frame; [exact Hs|rewrite Hst|rewrite Hc; apply Hs|by rewrite Hst|by rewrite Hc|].
  - eapply Objects.owned_ext; [apply Hs| |].
    + intros o. transitivity (references (becomes i j' s) o); [unfold references; by rewrite Hjs|].
      rewrite (references_becomes i j _ _ _ Hi). unfold holds. rewrite Hr. lia.
    + intros fd o. transitivity (bares (becomes i j' s) fd o); [unfold bares; by rewrite Hjs|].
      rewrite (bares_becomes i j _ _ _ _ Hi), Hb. lia.
  - intros k. rewrite Hjs. intros Hk. destruct (becomes_elem i j j' k s Hi Hk) as [->|?]; [by left|by right].
Qed.

(** A job without a reference goes. *)
Lemma sound_delete i j s :
  sound s -> jobs s !! i = Some j -> job_ref j = None -> (forall fd o, bare fd o j = false) ->
  sound (with_jobs (delete i (jobs s)) s).
Proof.
  intros Hs Hi Hr Hb. eapply sound_frame; [exact Hs| |by apply Hs|done|done|].
  - eapply Objects.owned_ext; [apply Hs| |]; intros *; unfold references, bares; cbn [with_jobs jobs];
      rewrite (count_delete _ _ _ _ Hi); unfold holds; rewrite ?Hr, ?Hb, ?bool_decide_false by done; cbn; lia.
  - intros k Hk. right. exact (delete_elem _ _ _ Hk).
Qed.

Lemma sound_accept_fd fd s :
  sound s -> Objects.kernel (store s) !! fd = None -> 0 <= fd -> fd <> server_fd -> fd <> wakeup_fd ->
  sound (submit (Accepted fd (Objects.next (store s))) (with_store (Objects.accept fd (store s)) s)).
Proof.
  intros Hs Hk H0 Hsf Hwf. eapply sound_frame; [exact Hs| |by apply Hs|done|done|].
  - eapply Objects.owned_ext; [by apply (Objects.owned_accept _ _ _ (sound_owned _ Hs) fd)| |]; intros *;
      unfold references, bares, submit; cbn [with_jobs with_store jobs]; rewrite count_app; cbn [count]; counts.
  - intros k Hk'. apply elem_of_app in Hk' as [?| ->%list_elem_of_singleton]; [by right|by left].
Qed.

Lemma sound_reject i fd o s :
  sound s -> jobs s !! i = Some (Accepted fd o) ->
  sound (with_jobs (delete i (jobs s)) (with_store (Objects.close fd (store s)) s)).
Proof.
  intros Hs Hi. eapply sound_frame; [exact Hs| |by apply Hs|done|done|].
  - eapply Objects.owned_ext; [eapply (Objects.owned_reject _ _ _ (sound_owned _ Hs) fd o); by eapply bares_pos| |];
      intros *; unfold references, bares; cbn [with_jobs with_store jobs];
      rewrite (count_delete _ _ _ _ Hi); counts.
  - intros k Hk. right. exact (delete_elem _ _ _ Hk).
Qed.

Lemma sound_insert i fd o s :
  sound s -> jobs s !! i = Some (Accepted fd o) ->
  sound (let s' := becomes i (Registering fd o) s in with_store (Objects.put (references s') fd o (store s)) s').
Proof.
  intros Hs Hi. pose proof (bares_pos _ _ _ _ Hi) as Hp. pose proof (sound_owned _ Hs) as HI. cbv zeta.
  destruct (Lifetime.inv_accepted _ _ _ _ _ _ _ HI fd o Hp) as (Hk & Hh & _).
  pose proof (Objects.owned_not_in_map _ _ _ HI fd o Hp) as Hc.
  eapply sound_frame; [exact Hs| | | | |]; cbn [store with_store].
  - eapply Objects.owned_ext; [by eapply (Objects.owned_put _ _ _ HI _ fd o)| |]; intros *.
    + change (references (with_store ?x ?y)) with (references y). rewrite (references_becomes _ _ _ _ _ Hi). counts.
    + change (bares (with_store ?x ?y)) with (bares y). rewrite (bares_becomes _ _ _ _ _ _ Hi). counts.
  - intros fd'. unfold connections. cbn [store with_store]. rewrite Objects.connections_put.
    destruct (decide (fd' = fd)) as [->|Hne]; [|rewrite lookup_insert_ne by done; apply Hs].
    intros _. apply (sound_job _ Hs (Accepted fd o)). by eapply list_elem_of_lookup_2.
  - intros o' fd' Ho' _. rewrite Objects.put_new by done. cbn. rewrite lookup_insert_ne; [done|congruence].
  - intros fd' o' Ho' Hc'. unfold connections. cbn [store with_store]. rewrite Objects.connections_put.
    rewrite lookup_insert_ne; [done|]. intros ->. destruct (Lifetime.inv_heap _ _ _ _ _ _ _ HI _ _ Ho'). congruence.
  - intros k Hk'. destruct (becomes_elem _ _ _ _ _ Hi Hk') as [->|?]; [by left|by right].
Qed.

Lemma sound_remove fd s : sound s -> sound (remove_connection fd s).
Proof.
  intros Hs. unfold remove_connection. destruct (connections s !! fd) as [o|] eqn:Hc; [|done].
  eapply sound_frame; [exact Hs| | | | |]; cbn [submit with_jobs with_store store].
  - eapply Objects.owned_ext; [by eapply (Objects.owned_take_out _ _ _ (sound_owned _ Hs) fd o)| |]; intros *;
      unfold references, bares, submit; cbn [with_jobs with_store jobs]; rewrite count_app; cbn [count]; counts.
  - intros fd'. unfold connections. cbn. intros [o' [_ Ho']%lookup_delete_Some]. apply Hs. by exists o'.
  - done.
  - intros fd' o' _ Hn. unfold connections. cbn. rewrite lookup_delete_None. by right.
  - intros k Hk. apply elem_of_app in Hk as [?| ->%list_elem_of_singleton]; [by right|left]. cbn. split.
    + by eapply (Lifetime.inv_conn _ _ _ _ _ _ _ (sound_owned _ Hs)).
    + unfold connections. cbn. apply lookup_delete_eq.
Qed.

Lemma sound_drop_ref i o s :
  sound s -> jobs s !! i = Some (Dropping o) ->
  sound (let s' := with_jobs (delete i (jobs s)) s in with_store (Objects.drop (references s' o) o (store s)) s').
Proof.
  intros Hs Hi. pose proof (sound_owned _ Hs) as HI. cbv zeta.
  assert (forall o', references (with_jobs (delete i (jobs s)) s) o' = references s o' - Lifetime.one_at o o') as Hr.
  { intros o'. unfold references. cbn [with_jobs jobs]. rewrite (count_delete _ _ _ _ Hi). counts. }
  assert (0 < references s o) as Hp.
  { eapply (references_pos (Dropping o)); [by eapply list_elem_of_lookup_2|]. by apply bool_decide_eq_true_2. }
  assert (references (with_jobs (delete i (jobs s)) s) o = references s o - 1) as E.
  { rewrite Hr. destruct (Lifetime.one_at_cases o o) as [[_ ->]|[? _]]; done. }
  rewrite E. pose proof (Objects.owned_drop _ _ _ HI o Hp) as HI'.
  assert (Objects.owned (Objects.drop (references s o - 1) o (store s))
    (references (with_jobs (delete i (jobs s)) s)) (bares (with_jobs (delete i (jobs s)) s))) as HI2.
  { eapply Objects.owned_ext; [exact HI'|exact Hr|]. intros *. unfold bares. cbn [with_jobs jobs].
    rewrite (count_delete _ _ _ _ Hi). counts. }
  eapply sound_frame; [exact Hs|exact HI2| | | |].
  - intros fd. unfold connections. cbn [store with_store]. rewrite Objects.connections_drop. apply Hs.
  - apply heap_shrinks; [exact HI2|]. intros o' fd. cbn [store with_store]. apply Objects.heap_drop.
  - intros fd o' _. unfold connections. cbn [store with_store]. by rewrite Objects.connections_drop.
  - intros k Hk. right. exact (delete_elem _ _ _ Hk).
Qed.

(** ** Nobody is forgotten *)

Definition listens (flags : Z) : Prop := has_flag EPOLLIN flags = true \/ has_flag EPOLLOUT flags = true.

Definition useful (ev : Z) : Prop :=
  has_flag EPOLLIN ev = true \/ has_flag EPOLLOUT ev = true \/ has_flag (Z.lor EPOLLHUP EPOLLERR) ev = true.

Definition call_fd (a : Loop.action) : option Z :=
  match a with
  | Loop.HandleClientRead fd | Loop.HandleClientWrite fd | Loop.RemoveConnection fd => Some fd
  | _ => None
  end.

(** The connection a job will act upon. *)
Definition job_fd (j : job) : option Z :=
  match j with
  | Registering fd _ | ReadTask fd _ | WriteTask fd _ | ReadAgain fd => Some fd
  | _ => None
  end.

(** Something will be done for the connection: its events are enabled, or one
    has been fetched, or the loop or a task is at it. *)
Definition attended (s : sys) (fd : Z) : Prop :=
  (exists flags, armed s !! fd = Some flags /\ listens flags) \/
  (exists ev, (fd, ev) ∈ batch s /\ useful ev) \/
  (exists a, a ∈ calls s /\ call_fd a = Some fd) \/
  (exists j, j ∈ jobs s /\ job_fd j = Some fd).

Definition in_map (s : sys) (fd : Z) : Prop := is_Some (connections s !! fd).

(** [x] is a connection that has just lost what attended to it. *)
Record watch (x : option Z) (s : sys) : Prop := {
  watch_registered fd : in_map s fd -> fd ∈ interest s \/ exists o, Registering fd o ∈ jobs s;
  watch_attended fd : running s = true -> in_map s fd -> x <> Some fd -> attended s fd
}.

(** What attends to a connection still does after a change elsewhere. *)
Lemma attended_mono s s' fd :
  (forall flags, armed s !! fd = Some flags -> armed s' !! fd = Some flags) ->
  (forall ev, (fd, ev) ∈ batch s -> (fd, ev) ∈ batch s') ->
  (forall a, call_fd a = Some fd -> a ∈ calls s -> a ∈ calls s') ->
  (forall j, job_fd j = Some fd -> j ∈ jobs s -> j ∈ jobs s') ->
  attended s fd -> attended s' fd.
Proof. unfold attended. naive_solver. Qed.

Lemma watch_mono x y s s' :
  watch x s -> (running s' = true -> running s = true) ->
  (forall fd, in_map s' fd -> in_map s fd /\ (fd ∈ interest s -> fd ∈ interest s') /\
    (forall o, Registering fd o ∈ jobs s -> fd ∈ interest s' \/ Registering fd o ∈ jobs s')) ->
  (forall fd, in_map s' fd -> y <> Some fd -> (x <> Some fd -> attended s fd) -> attended s' fd) ->
  watch y s'.
Proof.
  intros [H1 H2] Hr Hm Ha. constructor.
  - intros fd Hfd. destruct (Hm fd Hfd) as (Hin & Hi & Hj).
    destruct (H1 fd Hin) as [?|[o Ho]]; [left; by apply Hi|]. destruct (Hj o Ho); [by left|right; by exists o].
  - intros fd Hrun Hfd Hy. destruct (Hm fd Hfd) as (Hin & _). apply Ha; [done..|]. intros Hx. apply H2; auto.
Qed.

Lemma watch_weaken x s : watch None s -> watch x s.
Proof. intros []. constructor; eauto. Qed.

(** Only the jobs change, and only those go that act upon [y]. *)
Lemma watch_jobs y s s' :
  watch None s -> (running s' = true -> running s = true) -> connections s' = connections s ->
  interest s' = interest s -> armed s' = armed s -> batch s' = batch s -> calls s' = calls s ->
  (forall fd o, Registering fd o ∈ jobs s -> Registering fd o ∈ jobs s') ->
  (forall j fd, job_fd j = Some fd -> y <> Some fd -> j ∈ jobs s -> j ∈ jobs s') ->
  watch y s'.
Proof.
  intros Hw Hr Hc Hi Ha Hb Hcl Hreg Hj. apply (watch_mono None y s); [done|done| |].
  - intros fd. unfold in_map. rewrite Hc, Hi. eauto.
  - intros fd _ Hy Hat. eapply attended_mono; [..|by apply Hat]; [by rewrite Ha|by rewrite Hb|by rewrite Hcl|].
    intros j Hjf. by eapply Hj.
Qed.

Lemma watch_submit x j s : watch x s -> watch x (submit j s).
Proof.
  intros Hw. apply (watch_mono x x s); [done|done| |].
  - intros fd Hfd. split; [done|]. split; [done|]. intros o Ho. right. apply elem_of_app. by left.
  - intros fd _ Hx Hat. eapply attended_mono; [..|by apply Hat]; try done. intros k _ Hk. apply elem_of_app. by left.
Qed.

Lemma watch_becomes i j j' s :
  watch None s -> jobs s !! i = Some j -> (forall fd o, j <> Registering fd o) ->
  watch (job_fd j) (becomes i j' s).
Proof.
  intros Hw Hi Hj. apply (watch_jobs _ s); try done; cbn [becomes with_jobs jobs].
  - intros fd o Ho. destruct (becomes_keeps i j j' _ s Hi Ho) as [<-|?]; [by destruct (Hj fd o)|done].
  - intros k fd Hk Hy Hin. destruct (becomes_keeps i j j' _ s Hi Hin) as [->|?]; [congruence|done].
Qed.

Lemma watch_delete i j s :
  watch None s -> jobs s !! i = Some j -> (forall fd o, j <> Registering fd o) ->
  watch (job_fd j) (with_jobs (delete i (jobs s)) s).
Proof.
  intros Hw Hi Hj. apply (watch_jobs _ s); try done; cbn [with_jobs jobs].
  - intros fd o Ho. destruct (delete_keeps _ i j _ Hi Ho) as [<-|?]; [by destruct (Hj fd o)|done].
  - intros k fd Hk Hy Hin. destruct (delete_keeps _ i j _ Hi Hin) as [->|?]; [congruence|done].
Qed.

(** The store changes below the map. *)
Lemma watch_store x y s : Objects.connections y = connections s -> watch x s -> watch x (with_store y s).
Proof.
  intros Hy Hw. apply (watch_mono x x s); [done|done| |by eauto].
  intros fd. unfold in_map, connections in *. cbn [with_store store interest jobs]. rewrite Hy. auto.
Qed.

Lemma watch_settle x s : sound s -> watch x s -> watch x (settle s).
Proof.
  intros Hs Hw. assert (forall fd, in_map s fd -> is_open s fd) as Hopen.
  { intros fd [o Hc]. exists o. by apply (Objects.owned_open _ _ _ (sound_owned _ Hs)). }
  apply (watch_mono x x s); [done|done| |].
  - intros fd Hfd. split; [done|]. split; [|by right]. intros Hi. apply elem_of_filter. split; [by apply Hopen|done].
  - intros fd Hfd Hx Hat. eapply attended_mono; [..|by apply Hat]; try done. intros fl Hfl.
    apply map_lookup_filter_Some. split; [done|]. by apply Hopen.
Qed.

(** The three ways to look after it again. *)
Lemma watch_modify fd flags s : watch (Some fd) s -> listens flags -> watch None (modify_epoll fd flags s).
Proof.
  intros Hw Hl. constructor.
  - apply (watch_registered _ _ Hw).
  - intros fd' Hr Hfd _. destruct (decide (fd' = fd)) as [->|Hne].
    + destruct (watch_registered _ _ Hw fd Hfd) as [Hin|[o Hreg]].
      * left. exists flags. cbn. rewrite decide_True by done. by rewrite lookup_insert_eq.
      * right; right; right. by exists (Registering fd o).
    + eapply attended_mono; [..|apply (watch_attended _ _ Hw fd'); [done..|congruence]]; cbn; try done.
      intros fl Hfl. case_decide; [|done]. by rewrite lookup_insert_ne.
Qed.

Lemma watch_remove fd s : watch (Some fd) s -> watch None (remove_connection fd s).
Proof.
  intros Hw. unfold remove_connection. destruct (connections s !! fd) as [o|] eqn:Hc.
  - apply watch_submit, (watch_mono (Some fd) None s); [done|done| |].
    + intros fd'. unfold in_map, connections. cbn. intros [o' [_ Ho']%lookup_delete_Some]. split; [by exists o'|]. auto.
    + intros fd' [o' Hin] _ Hat. unfold connections in Hin. cbn in Hin. apply lookup_delete_Some in Hin as [Hne _].
      apply Hat. congruence.
  - apply (watch_mono (Some fd) None s); [done|done|by auto|]. intros fd' [o' Hin] _ Hat. apply Hat. congruence.
Qed.

Lemma watch_task fd j s :
  watch (Some fd) s -> job_fd j = Some fd -> watch None (submit j s).
Proof.
  intros Hw Hj. apply (watch_submit _ j) in Hw. apply (watch_mono (Some fd) None (submit j s)); [done|done|by auto|].
  intros fd' Hin _ Hat. destruct (decide (fd' = fd)) as [->|]; [|apply Hat; congruence].
  right; right; right. exists j. split; [apply elem_of_app; right; by apply list_elem_of_singleton|done].
Qed.

Lemma watch_absent fd s : watch (Some fd) s -> (running s = true -> connections s !! fd = None) -> watch None s.
Proof.
  intros [H1 H2] Hc. constructor; [done|]. intros fd' Hr [o Hin] _. apply H2; [done|by exists o|].
  intros [= ->]. rewrite (Hc Hr) in Hin. done.
Qed.

Lemma watch_read fd s : watch (Some fd) s -> watch None (handle_client_read fd s).
Proof.
  intros Hw. unfold handle_client_read. destruct (running s) eqn:Hr; cbn [negb].
  - destruct (connections s !! fd) as [o|] eqn:Hc; [by apply (watch_task fd)|by apply (watch_absent fd)].
  - apply (watch_absent fd); [done|congruence].
Qed.

Lemma watch_write fd s : watch (Some fd) s -> watch None (handle_client_write fd s).
Proof.
  intros Hw. unfold handle_client_write.
  destruct (connections s !! fd) as [o|] eqn:Hc; [by apply (watch_task fd)|by apply (watch_absent fd)].
Qed.

Lemma watch_task_ends fd e s :
  watch (Some fd) s -> (forall flags b, e = Rearm flags b -> listens flags) -> watch None (task_ends fd e s).
Proof.
  intros Hw He. destruct e as [|flags b]; cbn [task_ends]; [by apply watch_remove|].
  specialize (He flags b eq_refl). destruct b; [apply watch_submit|]; by apply watch_modify.
Qed.

Lemma sound_task_ends fd e s : sound s -> sound (task_ends fd e s).
Proof.
  intros Hs. destruct e as [|flags b]; cbn [task_ends]; [by apply sound_remove|].
  assert (sound (modify_epoll fd flags s)) as Hm by by destruct Hs. destruct b; [|done]. by apply sound_submit.
Qed.

Lemma sound_read fd s : sound s -> sound (handle_client_read fd s).
Proof.
  intros Hs. unfold handle_client_read. destruct (negb (running s)); [done|].
  destruct (connections s !! fd) as [o|] eqn:Hc; [|done]. apply sound_submit; try done.
  intros o' [= <-]. by exists fd.
Qed.

Lemma sound_write fd s : sound s -> sound (handle_client_write fd s).
Proof.
  intros Hs. unfold handle_client_write.
  destruct (connections s !! fd) as [o|] eqn:Hc; [|done]. apply sound_submit; try done.
  intros o' [= <-]. by exists fd.
Qed.

(** ** The steps *)

Lemma sound_watch_step s s' : sound s -> step s s' -> add_failed s' = false -> sound s'.
Proof.
  intros Hs Hst Hf. destruct Hst as [fd Hk H0 Hsf Hwf|fd o i Hj|fd o i Hj|fd o i Hj Ho Hn|fd o i Hj|fd o i Hj|fd o i Hj
    |o i Hj|evs Hb Hc Hev|e evs Hb Hc|a cs Ha|i fd o fuel conn k e conn' k' Hj Ht|i fd o conn k e conn' k' Hj Ht
    |i fd Hj|i fd o Hj|fd|].
  - by apply sound_accept_fd.
  - by eapply sound_settle, sound_reject.
  - by apply sound_settle, sound_insert.
  - by eapply (sound_becomes i).
  - done.
  - by destruct (sound_job _ Hs _ (list_elem_of_lookup_2 _ _ _ Hj)).
  - by destruct (sound_job _ Hs _ (list_elem_of_lookup_2 _ _ _ Hj)).
  - by apply sound_settle, sound_drop_ref.
  - by destruct Hs.
  - by destruct Hs.
  - assert (sound (with_calls cs s)) as Hs' by by destruct Hs.
    destruct a; cbn [call]; try done; [by apply sound_remove|by apply sound_read|by apply sound_write].
  - by apply sound_task_ends; eapply (sound_becomes i).
  - by apply sound_task_ends; eapply (sound_becomes i).
  - by apply sound_read; eapply (sound_delete i).
  - by eapply (sound_becomes i).
  - by apply sound_remove.
  - by destruct Hs.
Qed.

Lemma watch_insert i fd o s :
  sound s -> watch None s -> jobs s !! i = Some (Accepted fd o) ->
  watch None (let s' := becomes i (Registering fd o) s in with_store (Objects.put (references s') fd o (store s)) s').
Proof.
  intros Hs Hw Hi. cbv zeta. set (s' := with_store _ _).
  assert (forall fd', in_map s' fd' -> fd' = fd \/ in_map s fd') as Hin.
  { intros fd' [o' Ho']. unfold s', connections in Ho'. cbn [store with_store] in Ho'.
    rewrite Objects.connections_put in Ho'. apply lookup_insert_Some in Ho' as [[? _]|[_ ?]]; [by left|right; by exists o']. }
  assert (Registering fd o ∈ jobs s') as Hnew by exact (becomes_new _ _ _ _ Hi).
  assert (forall j, j ∈ jobs s -> j = Accepted fd o \/ j ∈ jobs s') as Hkeep
    by (intros j Hj; exact (becomes_keeps _ _ (Registering fd o) _ _ Hi Hj)).
  constructor.
  - intros fd' [->|Hm]%Hin; [right; by exists o|].
    destruct (watch_registered _ _ Hw fd' Hm) as [?|[o' Ho']]; [by left|right; exists o'].
    by destruct (Hkeep _ Ho').
  - intros fd' Hr [->|Hm]%Hin _; [right; right; right; by exists (Registering fd o)|].
    eapply attended_mono; [..|by apply (watch_attended _ _ Hw fd')]; try done.
    intros j Hj Hjs. destruct (Hkeep _ Hjs) as [->|?]; done.
Qed.

Lemma watch_add i fd o s :
  watch None s -> jobs s !! i = Some (Registering fd o) ->
  watch None (becomes i (Dropping o) (with_epoll ({[fd]} ∪ interest s) (<[fd := ADD_FLAGS]> (armed s)) s)).
Proof.
  intros Hw Hi. apply (watch_mono None None s); [done|done| |].
  - intros fd' Hm. split; [done|]. split; [cbn; set_solver|]. intros o' Ho'.
    destruct (becomes_keeps _ _ (Dropping o) _ s Hi Ho') as [[= -> ->]|?]; [left; cbn; set_solver|by right].
  - intros fd' _ _ Hat. destruct (decide (fd' = fd)) as [->|Hne].
    + left. exists ADD_FLAGS. cbn. rewrite lookup_insert_eq. split; [done|by left].
    + eapply attended_mono; [..|by apply Hat]; cbn; try done.
      * intros fl Hfl. by rewrite lookup_insert_ne.
      * intros j Hj Hjs. destruct (becomes_keeps _ _ (Dropping o) _ s Hi Hjs) as [->|?]; [cbn in Hj; congruence|done].
Qed.

Lemma disarm_lookup evs m fd flags :
  m !! fd = Some flags -> disarm evs m !! fd = Some flags \/ exists ev, (fd, ev) ∈ evs.
Proof.
  intros Hm. induction evs as [|[fd' ev] evs IH]; [by left|]. cbn [disarm foldr].
  destruct (decide (fd' = fd)) as [->|]; [right; exists ev; by left|].
  destruct IH as [IH|[ev' Hin]]; [left; by rewrite lookup_delete_ne|right; exists ev'; by right].
Qed.

Lemma watch_wait s evs :
  sound s -> watch None s -> batch s = [] -> calls s = [] ->
  (forall fd ev, (fd, ev) ∈ evs -> fd = server_fd \/ fd = wakeup_fd \/
     exists flags, armed s !! fd = Some flags /\ reports flags ev) ->
  watch None (mk (running s) (store s) (interest s) (disarm evs (armed s)) evs [] (jobs s) (add_failed s)).
Proof.
  intros Hs Hw Hb Hc Hev. constructor; [exact (watch_registered _ _ Hw)|]. intros fd Hr Hfd _.
  destruct (watch_attended _ _ Hw fd Hr Hfd) as [(fl & Hfl & Hl)|[(ev & Hin & _)|[(a & Hin & _)|(j & Hin & Hj)]]]; [done|..].
  - destruct (disarm_lookup evs _ _ _ Hfl) as [?|[ev Hin]]; [left; by exists fl|].
    right; left. exists ev. split; [done|].
    destruct (sound_client _ Hs _ Hfd), (Hev _ _ Hin) as [?|[?|(fl' & _ & _ & _ & Hu)]]; done.
  - rewrite Hb in Hin. by apply not_elem_of_nil in Hin.
  - rewrite Hc in Hin. by apply not_elem_of_nil in Hin.
  - right; right; right. by exists j.
Qed.

Lemma event_calls s fd ev :
  running s = true -> fd <> server_fd -> fd <> wakeup_fd -> useful ev ->
  exists a, a ∈ Loop.handle_event (loop s) (fd, ev) /\ call_fd a = Some fd.
Proof.
  intros Hr Hs Hw Hu. unfold Loop.handle_event, loop. rewrite Hr. cbn [Loop.server_fd Loop.wakeup_fd Loop.state].
  destruct (Z.eqb_spec fd wakeup_fd), (Z.eqb_spec fd server_fd); try done.
  destruct (has_flag (Z.lor _ _) ev) eqn:Eh; [eexists; split; [by left|done]|].
  destruct (has_flag EPOLLIN ev) eqn:Ei; [eexists; split; [by left|done]|].
  destruct (has_flag EPOLLOUT ev) eqn:Eo; [eexists; split; [by left|done]|].
  destruct Hu as [?|[?|?]]; congruence.
Qed.

Lemma watch_event s e evs :
  sound s -> watch None s -> batch s = e :: evs -> calls s = [] ->
  watch None (mk (running s) (store s) (interest s) (armed s) evs (Loop.handle_event (loop s) e) (jobs s) (add_failed s)).
Proof.
  intros Hs Hw Hb Hc. constructor; [exact (watch_registered _ _ Hw)|]. intros fd Hr Hfd _.
  destruct (sound_client _ Hs _ Hfd) as [Hsf Hwf].
  destruct (watch_attended _ _ Hw fd Hr Hfd) as [(fl & Hfl & Hl)|[(ev & Hin & Hu)|[(a & Hin & _)|(j & Hin & Hj)]]]; [done|..].
  - left. by exists fl.
  - rewrite Hb in Hin. apply elem_of_cons in Hin as [<-|Hin].
    + right; right; left. by apply event_calls.
    + right; left. by exists ev.
  - rewrite Hc in Hin. by apply not_elem_of_nil in Hin.
  - right; right; right. by exists j.
Qed.

Lemma watch_take_call a cs s : watch None s -> calls s = a :: cs -> watch (call_fd a) (with_calls cs s).
Proof.
  intros Hw Ha. apply (watch_mono None _ s); [done|done|by auto|]. intros fd _ Hx Hat.
  eapply attended_mono; [..|by apply Hat]; cbn; try done.
  intros a' Ha' Hin. rewrite Ha in Hin. apply elem_of_cons in Hin as [->|?]; [congruence|done].
Qed.

Lemma watch_deregister i fd o s :
  sound s -> watch None s -> jobs s !! i = Some (Leaving fd o) ->
  watch None (becomes i (Dropping o) (with_epoll (interest s ∖ {[fd]}) (delete fd (armed s)) s)).
Proof.
  intros Hs Hw Hi. destruct (sound_job _ Hs _ (list_elem_of_lookup_2 _ _ _ Hi)) as [_ Hn].
  pose proof (watch_becomes i _ (Dropping o) s Hw Hi ltac:(done)) as Hw'. cbn [job_fd] in Hw'.
  apply (watch_mono None None (becomes i (Dropping o) s)); [done|done| |].
  - intros fd' Hm. split; [done|]. split; [|by right]. intros Hin. cbn in *. apply elem_of_difference. split; [done|].
    intros ->%elem_of_singleton. destruct Hm as [? Hm]. unfold connections in *. cbn in Hm. congruence.
  - intros fd' Hm _ Hat. eapply attended_mono; [..|by apply Hat]; cbn; try done. intros fl Hfl.
    rewrite lookup_delete_ne; [done|]. intros ->. destruct Hm as [? Hm]. unfold connections in *. cbn in Hm. congruence.
Qed.

Context (sent received : K -> Z -> bytes) `{!EnvLaws K sent received}.

Lemma watched_listens flags conn : EventLoopSpec.watched flags conn -> listens flags.
Proof. intros (_ & _ & H'). destruct (Connection.has_pending_writes conn); [by right|by left]. Qed.

Lemma watch_step s s' : sound s -> watch None s -> step s s' -> add_failed s' = false -> watch None s'.
Proof.
  intros Hs Hw Hst Hf. destruct Hst as [fd Hk H0 Hsf Hwf|fd o i Hj|fd o i Hj|fd o i Hj Ho Hn|fd o i Hj|fd o i Hj|fd o i Hj
    |o i Hj|evs Hb Hc Hev|e evs Hb Hc|a cs Ha|i fd o fuel conn k e conn' k' Hj Ht|i fd o conn k e conn' k' Hj Ht
    |i fd Hj|i fd o Hj|fd|].
  - by apply watch_submit, watch_store.
  - apply watch_settle; [by eapply sound_reject|].
    apply (watch_store None (Objects.close fd (store s)) (with_jobs (delete i (jobs s)) s)); [done|].
    by apply (watch_delete i _ s Hw Hj).
  - apply watch_settle; [by apply sound_insert|by apply watch_insert].
  - by apply watch_add.
  - done.
  - by destruct (sound_job _ Hs _ (list_elem_of_lookup_2 _ _ _ Hj)).
  - by destruct (sound_job _ Hs _ (list_elem_of_lookup_2 _ _ _ Hj)).
  - apply watch_settle; [by apply sound_drop_ref|]. apply watch_store; [apply Objects.connections_drop|].
    by apply (watch_delete i _ s Hw Hj).
  - by apply watch_wait.
  - by apply watch_event.
  - pose proof (watch_take_call _ _ _ Hw Ha) as Hw'.
    destruct a; cbn [call call_fd] in *; try done; [by apply watch_remove|by apply watch_read|by apply watch_write].
  - apply watch_task_ends; [by apply (watch_becomes i _ _ s Hw Hj)|]. intros flags b ->.
    apply (EventLoopSpec.read_task_watched sent received) in Ht. by eapply watched_listens.
  - apply watch_task_ends; [by apply (watch_becomes i _ _ s Hw Hj)|]. intros flags b ->.
    apply (EventLoopSpec.write_task_watched sent received) in Ht. by eapply watched_listens.
  - apply watch_read. by apply (watch_delete i _ s Hw Hj).
  - by apply (watch_deregister i fd).
  - by apply watch_remove, watch_weaken.
  - apply (watch_mono None None s); [done|done|by auto|by auto].
Qed.

(** The history flag is never cleared. *)
Lemma watch_failed_mono s s' : step s s' -> add_failed s' = false -> add_failed s = false.
Proof.
  assert (forall fd s, add_failed (remove_connection fd s) = add_failed s) as Hrm
    by (intros fd s0; unfold remove_connection; by destruct (connections s0 !! fd)).
  assert (forall fd s, add_failed (handle_client_read fd s) = add_failed s) as Hrd
    by (intros fd s0; unfold handle_client_read; destruct (negb _); [done|]; by destruct (connections s0 !! fd)).
  assert (forall fd e s, add_failed (task_ends fd e s) = add_failed s) as Hte
    by (intros fd e s0; destruct e as [|? []]; [apply Hrm|done|done]).
  intros []; rewrite ?Hte, ?Hrm, ?Hrd; try done.
  destruct a; cbn [call]; rewrite ?Hrm, ?Hrd; try done.
  unfold handle_client_write. by destruct (connections _ !! _).
Qed.

Lemma watch_reachable s : reachable s -> add_failed s = false -> sound s /\ watch None s.
Proof.
  assert (forall s1 s2, rtc step s1 s2 -> (add_failed s1 = false -> sound s1 /\ watch None s1) ->
    add_failed s2 = false -> sound s2 /\ watch None s2) as Hrtc.
  { induction 1 as [|s1 s2 s3 Hst _ IH]; intros Hinv; [done|]. apply IH. intros Hf.
    destruct Hinv as [Hs Hw]; [by eapply watch_failed_mono|]. split; [by eapply sound_watch_step|by eapply watch_step]. }
  intros Hr. apply (Hrtc _ _ Hr). intros _. split.
  - constructor; [by apply Objects.owned_init|by intros fd [? ?]|by intros j ?%not_elem_of_nil].
  - by constructor; [intros fd [? ?]|intros fd _ [? ?]].
Qed.

(** C17: No connection is forgotten, for as long as no [epoll_ctl(ADD)] has
    failed.  While the server runs, every connection in the map is attended to
    under every interleaving of the loop, the tasks, the removals and the
    accepting threads: its events are enabled, for input or output, or an
    event for it has been fetched, or the loop or a task is about to act on it.
    In particular, when nothing is going on, every connection is armed, and its
    descriptor is open and leads to its own socket. *)
Theorem no_connection_forgotten s :
  reachable s -> add_failed s = false -> running s = true ->
  (forall fd, in_map s fd -> attended s fd) /\
  (forall fd o, connections s !! fd = Some o -> Objects.kernel (store s) !! fd = Some o) /\
  (batch s = [] -> calls s = [] -> jobs s = [] ->
   forall fd, in_map s fd -> exists flags, armed s !! fd = Some flags /\ listens flags).
Proof.
  intros Hreach Hf Hr. destruct (watch_reachable s Hreach Hf) as [Hs Hw].
  split; [by intros fd Hfd; apply Hw|]. split; [apply (Objects.owned_open _ _ _ (sound_owned _ Hs))|].
  intros Hb Hc Hj fd Hfd.
  destruct (watch_attended _ _ Hw fd Hr Hfd) as [?|[(? & Hin & _)|[(? & Hin & _)|(? & Hin & _)]]]; [done|done|..].
  - rewrite Hb in Hin. by apply not_elem_of_nil in Hin.
  - rewrite Hc in Hin. by apply not_elem_of_nil in Hin.
  - rewrite Hj in Hin. by apply not_elem_of_nil in Hin.
Qed.
End Steps.

(** ** Witness *)

(** Closing nothing, [settle] changes nothing. *)
Lemma settle_id s :
  (forall fd, fd ∈ interest s -> is_open s fd) -> (forall fd fl, armed s !! fd = Some fl -> is_open s fd) ->
  settle s = s.
Proof.
  intros Hi Ha. unfold settle, with_epoll. destruct s as [r x i a b c j f]. f_equal.
  - apply leibniz_equiv. intros fd. rewrite elem_of_filter. split; [by intros [_ ?]|]. intros Hin. split; [|done]. by apply Hi.
  - apply map_eq. intros fd. apply option_eq. intros fl. rewrite map_lookup_filter_Some. split; [by intros [? _]|].
    intros Hl. split; [done|]. by eapply Ha.
Qed.

(** A client is accepted on descriptor 5, sends half a request, and is armed
    again when the task has read it. *)
Definition half : Script.t := EventLoopSpec.script [RecvData (bs "GET / HT"); RecvAgain].

Definition one_client : Objects.t := Objects.mk {[5 := 0%nat]} 1 {[0%nat := 5]} {[5 := 0%nat]}.

Definition client_state (arm : gmap Z Z) (b : list (Z * Z)) (c : list Loop.action) (js : list job) : sys :=
  mk true one_client {[5]} arm b c js false.

Lemma client_settle arm b c js :
  (arm = {[5 := ADD_FLAGS]} \/ arm = ∅) -> settle (client_state arm b c js) = client_state arm b c js.
Proof.
  intros Harm. apply settle_id; cbn.
  - intros fd ->%elem_of_singleton. by exists 0%nat.
  - intros fd fl Hl. destruct Harm as [-> | ->]; [|by rewrite lookup_empty in Hl].
    apply lookup_singleton_Some in Hl as [<- _]. by exists 0%nat.
Qed.

(** [Dropping] a reference while the map has another one. *)
Lemma client_drop arm :
  (arm = {[5 := ADD_FLAGS]} \/ arm = ∅) ->
  step map_to_list App.router 3 4 (client_state arm [] [] [Dropping 0]) (client_state arm [] [] []).
Proof.
  intros Harm. pose proof (drop_ref map_to_list App.router 3 4 (client_state arm [] [] [Dropping 0]) 0 0 eq_refl) as Hs.
  cbv zeta in Hs. rewrite (Objects.drop_shared _ 5) in Hs; [|done|apply count_nonneg].
  change (settle _) with (settle (client_state arm [] [] [])) in Hs. by rewrite client_settle in Hs.
Qed.

Lemma accepted_reachable : reachable map_to_list App.router 3 4 (client_state {[5 := ADD_FLAGS]} [] [] []).
Proof.
  eapply rtc_l; [by apply (accept_fd _ _ _ _ init 5)|].
  apply (rtc_l _ _ (mk true one_client ∅ ∅ [] [] [Registering 5 0] false)).
  - pose proof (accept_insert map_to_list App.router 3 4
      (submit (Accepted 5 0) (with_store (Objects.accept 5 Objects.init) init)) 5 0 0 eq_refl) as Hs.
    cbv zeta in Hs. rewrite Objects.put_new, settle_id in Hs by done. exact Hs.
  - eapply rtc_l; [|apply rtc_once; by apply client_drop; left].
    pose proof (accept_add map_to_list App.router 3 4 (mk true one_client ∅ ∅ [] [] [Registering 5 0] false) 5 0 0
      eq_refl ltac:(by exists 0%nat) ltac:(done)) as Hs.
    cbn [interest armed] in Hs. by rewrite (right_id_L ∅ (∪)), insert_empty in Hs.
Qed.

Lemma served_once_reachable : rtc (step map_to_list App.router 3 4)
  (client_state {[5 := ADD_FLAGS]} [] [] []) (client_state {[5 := ADD_FLAGS]} [] [] []).
Proof.
  assert (exists b conn' k', read_task map_to_list App.router 2 EventLoopSpec.conn0 half = Some (Rearm ADD_FLAGS b, conn', k')
    /\ b = false) as (b & conn' & k' & Ht & ->) by (eexists _, _, _; split; [vm_compute; reflexivity|done]).
  apply (rtc_l _ _ (client_state ∅ [(5, 1)] [] [])).
  { assert (disarm [(5, 1)] {[5 := ADD_FLAGS]} = ∅) as E by (vm_compute; reflexivity).
    pose proof (wait map_to_list App.router 3 4 (client_state {[5 := ADD_FLAGS]} [] [] []) [(5, 1)] eq_refl eq_refl) as Hs.
    cbn [client_state running store interest armed jobs add_failed] in Hs. rewrite E in Hs. apply Hs.
    intros fd ev [[= -> ->]|[]%not_elem_of_nil]%elem_of_cons.
    right; right. exists ADD_FLAGS. split; [done|]. by split_and!; [intros _| |left]. }
  apply (rtc_l _ _ (client_state ∅ [] [Loop.HandleClientRead 5] [])).
  { by apply (event map_to_list App.router 3 4 (client_state ∅ [(5, 1)] [] []) (5, 1) []). }
  apply (rtc_l _ _ (client_state ∅ [] [] [ReadTask 5 0])).
  { by apply (make_call map_to_list App.router 3 4 (client_state ∅ [] [Loop.HandleClientRead 5] []) (Loop.HandleClientRead 5) []). }
  apply (rtc_l _ _ (client_state {[5 := ADD_FLAGS]} [] [] [Dropping 0])); [|apply rtc_once; by apply client_drop; left].
  pose proof (read_ends map_to_list App.router 3 4 (client_state ∅ [] [] [ReadTask 5 0]) 0 5 0 2 _ _ _ _ _ eq_refl Ht) as Hs.
  unfold task_ends, modify_epoll in Hs.
  rewrite decide_True in Hs by (change (5 ∈@{gset Z} {[5]}); by apply elem_of_singleton). exact Hs.
Qed.

Lemma no_connection_forgotten_witness :
  exists s flags, reachable map_to_list App.router 3 4 s /\ armed s !! 5 = Some flags /\ listens flags.
Proof.
  assert (reachable map_to_list App.router 3 4 (client_state {[5 := ADD_FLAGS]} [] [] [])) as Hreach
    by exact (transitivity accepted_reachable served_once_reachable).
  destruct (no_connection_forgotten map_to_list App.router 3 4 Script.out Script.inp _ Hreach eq_refl eq_refl) as (_ & _ & H).
  destruct (H eq_refl eq_refl eq_refl 5 (ex_intro _ 0%nat eq_refl)) as (flags & Hf).
  exists (client_state {[5 := ADD_FLAGS]} [] [] []), flags. exact (conj Hreach Hf).
Defined.

End Watch.
