(* ===== verification/LogGuard.v ===== *)
(** * [HttpLogGuard]: one access-log entry per round of the parse loop

    [src/include/Utils/HttpLogGuard.h], and the parse loop of
    [EventLoop::handle_client_read] with its blocks and local objects.  The
    guard keeps a pointer to the response it is told of, and reads the response
    when it is destroyed.  Objects live in a store; a block destroys its own, last
    declared first, however it is left.  A read of an object that is
    destroyed is the value [None]. *)

From Stdlib Require Import QArith.
From S2P Require Import Prelude CppStd Headers Request Parser Response Encoder Router App.
From S2P Require Import ParserSpec Connection EventLoop EventLoopSpec Logger.
#[local] Open Scope Z_scope.

Module HttpLogGuard.

(** [m_res_ptr]: the guard's own response, or a local variable of the caller. *)
Inductive ptr := Fallback | Local (l : nat).

(** [m_req] is a reference: the request is an argument of the destructor. *)
Record t := mk { m_fd : Z; m_fallback_res : HttpResponse.t; m_res_ptr : ptr; m_start_time : Z }.

Definition method_to_string (m : HttpMethod.t) : bytes :=
  match m with
  | HttpMethod.GET => bs "GET"
  | HttpMethod.POST => bs "POST"
  | HttpMethod.PUT => bs "PUT"
  | HttpMethod.DELETE => bs "DELETE"
  | HttpMethod.HEAD => bs "HEAD"
  | HttpMethod.OPTIONS => bs "OPTIONS"
  | HttpMethod.UNKNOWN => bs "UNKNOWN"
  end.

Definition create (fd now : Z) : t := mk fd HttpResponse.init Fallback now.

Definition set_response (res : nat) (g : t) : t :=
  mk (m_fd g) (m_fallback_res g) (Local res) (m_start_time g).

(** An automatic object of the task. *)
Inductive object := Response (res : HttpResponse.t) | Guard (g : t).

Section Destructor.
Context (rnd : Q -> Q).

(** [std::chrono::duration<double, std::milli>(ns).count()]. *)
Definition duration_milli (ns : Z) : Q := rnd (rnd (inject_Z ns) / inject_Z 1000000)%Q.

Definition deref (live : gmap nat object) (g : t) : option HttpResponse.t :=
  match m_res_ptr g with
  | Fallback => Some (m_fallback_res g)
  | Local l => match live !! l with Some (Response res) => Some res | _ => None end
  end.

Definition destroy (live : gmap nat object) (req : HttpRequest.t) (end_time tid now : Z) (g : t)
  : option Logger.LogEntry :=
  let duration_ms := duration_milli (end_time - m_start_time g) in
  let method := method_to_string (HttpRequest.method req) in
  let method := if bool_decide (method = []) then bs "UNKNOWN" else method in
  let path := if bool_decide (HttpRequest.path req = []) then bs "/" else HttpRequest.path req in
  res ← deref live g;
  Some (Logger.log_http (m_fd g) method path (HttpResponse.status_code res) duration_ms tid now).
End Destructor.

(** ** Blocks *)

(** An entry of the access log, or a destructor that read a destroyed response. *)
Inductive entry := Entry (e : Logger.LogEntry) | Dangling (fd : Z).

Record store := mk_store {
  live : gmap nat object;       (* the objects constructed and not destroyed *)
  frames : list (list nat);     (* the open blocks, innermost first; the last declared first *)
  allocated : nat;
  readings : nat;               (* how often the guards have read the clock *)
  entries : list entry
}.

Section Blocks.
Context (rnd : Q -> Q) (steady wall : nat -> Z) (tid : Z).

Definition declare (o : object) (st : store) : nat * store :=
  let l := allocated st in
  (l, mk_store (<[l := o]> (live st))
        (match frames st with vars :: fs => (l :: vars) :: fs | [] => [[l]] end)
        (S l) (readings st) (entries st)).

Definition declare_guard (fd : Z) (st : store) : nat * store :=
  declare (Guard (create fd (steady (readings st))))
    (mk_store (live st) (frames st) (allocated st) (S (readings st)) (entries st)).

(** [log_guard.set_response(res)]. *)
Definition tell_guard (g l : nat) (st : store) : store :=
  match live st !! g with
  | Some (Guard guard) =>
      mk_store (<[g := Guard (set_response l guard)]> (live st)) (frames st) (allocated st) (readings st)
        (entries st)
  | _ => st
  end.

(** The destructor of a guard reads the connection's request. *)
Definition destroy_object (req : HttpRequest.t) (st : store) (l : nat) : store :=
  match live st !! l with
  | Some (Guard g) =>
      let e :=
        match destroy rnd (live st) req (steady (readings st)) tid (wall (readings st)) g with
        | Some e => Entry e
        | None => Dangling (m_fd g)
        end in
      mk_store (delete l (live st)) (frames st) (allocated st) (S (readings st)) (entries st ++ [e])
  | _ => mk_store (delete l (live st)) (frames st) (allocated st) (readings st) (entries st)
  end.

Definition enter (st : store) : store :=
  mk_store (live st) ([] :: frames st) (allocated st) (readings st) (entries st).

Definition leave (req : HttpRequest.t) (st : store) : store :=
  match frames st with
  | vars :: fs =>
      foldl (destroy_object req) (mk_store (live st) fs (allocated st) (readings st) (entries st)) vars
  | [] => st
  end.

(** ** The parse loop, with its blocks *)

Context {K : Type} `{Env K} (ord : gmap bytes bytes -> list (bytes * bytes)) (router : HttpRouter.t).

(** [{ body }], left by its end, by [break] or by [goto]. *)
Definition block {A} (body : store -> A * Connection.t * K * store) (st : store)
  : A * Connection.t * K * store :=
  let '(a, conn, k, st') := body (enter st) in (a, conn, k, leave (Connection.request conn) st').

(** How the block of the guard is left. *)
Inductive round := Break | GotoCleanup | Next (close_after_send : bool).

Definition error_block (g : nat) (res : HttpResponse.t) (conn : Connection.t) (k : K)
  : store -> round * Connection.t * K * store :=
  block (fun st =>
    let '(l, st) := declare (Response res) st in
    let st := tell_guard g l st in
    let '(conn, k) := EventLoop.answer_and_close ord res conn k in (GotoCleanup, conn, k, st)).

Definition success_block (g : nat) (conn : Connection.t) (k : K)
  : store -> round * Connection.t * K * store :=
  block (fun st =>
    let '(allowed, k) := env_allow (Connection.client_ip conn) k in
    if negb allowed then error_block g EventLoop.too_many_requests_res conn k st
    else
      let res := EventLoop.respond router (Connection.request conn) in
      let '(l, st) := declare (Response res) st in
      let st := tell_guard g l st in
      let '(conn, k) := EventLoop.queue_response ord res conn k in
      (Next (HttpResponse.close_after_send res), conn, k, st)).

Definition guard_block (conn : Connection.t) (k : K) : store -> round * Connection.t * K * store :=
  block (fun st =>
    let '(g, st) := declare_guard (Connection.fd conn) st in
    let '(p_result, cfg) := HttpRequestParser.parse (Connection.to_cfg conn) in
    let conn := Connection.of_cfg cfg conn in
    match p_result with
    | ParseResult.Incomplete => (Break, conn, k, st)
    | ParseResult.Error => error_block g EventLoop.bad_request_res conn k st
    | ParseResult.Success => success_block g conn k st
    end).

Fixpoint process_logged (fuel : nat) (loop_counter : Z) (conn : Connection.t) (k : K) (st : store)
  : option (EventLoop.parse_exit * Connection.t * K * store) :=
  if bool_decide (Connection.read_buffer conn = []) then Some (EventLoop.LoopDone false false, conn, k, st)
  else
    match fuel with
    | O => None
    | S f =>
        let loop_counter := loop_counter + 1 in
        let '(r, conn, k, st) := guard_block conn k st in
        match r with
        | Break => Some (EventLoop.LoopDone false false, conn, k, st)
        | GotoCleanup => Some (EventLoop.ToCleanup, conn, k, st)
        | Next close_after_response =>
            let conn := Connection.reset_http conn in
            if close_after_response then Some (EventLoop.LoopDone true false, conn, k, st)
            else if 50 <? loop_counter then Some (EventLoop.LoopDone false true, conn, k, st)
            else process_logged f loop_counter conn k st
        end
    end.

(** ** What the blocks log *)

Lemma method_to_string_ne m : method_to_string m <> [].
Proof. by destruct m. Qed.

(** No object is alive that has not been declared. *)
Definition well_allocated (st : store) : Prop := forall l, (allocated st <= l)%nat -> live st !! l = None.

(** The answer 200 to the request as far as it has been parsed. *)
Definition partial_entry (fd : Z) (req : HttpRequest.t) (n : nat) : entry :=
  Entry (Logger.log_http fd (method_to_string (HttpRequest.method req))
    (if bool_decide (HttpRequest.path req = []) then bs "/" else HttpRequest.path req)
    200 (duration_milli rnd (steady (S n) - steady n)) tid (wall (S n))).

(** The store after a round that has logged [e]. *)
Definition after_round (e : entry) (st st' : store) : Prop :=
  well_allocated st' /\ frames st' = frames st /\ readings st' = S (S (readings st)) /\
  entries st' = entries st ++ [e].

(** A guard told of a response that is gone by the time the guard is. *)
Definition told (fd : Z) (g : nat) (st : store) : Prop :=
  exists start l, live st !! g = Some (Guard (mk fd HttpResponse.init (Local l) start)) /\ live st !! l = None.

Definition guarding (fd : Z) (g : nat) (st : store) : Prop :=
  well_allocated st /\ (g < allocated st)%nat /\
  exists start, live st !! g = Some (Guard (create fd start)).

(** Leaving a block whose only object is a response that the guard points to. *)
Lemma leave_told req fd g st res :
  guarding fd g st ->
  let '(l, st1) := declare (Response res) (enter st) in
  let st2 := leave req (tell_guard g l st1) in
  told fd g st2 /\ well_allocated st2 /\ frames st2 = frames st /\ readings st2 = readings st /\
  entries st2 = entries st.
Proof.
  intros (Hwa & Hg & start & Hl). cbn [declare enter frames allocated live readings entries].
  unfold tell_guard. cbn [live]. rewrite lookup_insert_ne by lia. rewrite Hl.
  cbn [leave frames foldl allocated readings entries live]. unfold destroy_object. cbn [live].
  rewrite lookup_insert_ne, lookup_insert_eq by lia. cbn [live frames readings entries]. split.
  - exists start, (allocated st). cbn [live]. rewrite lookup_delete_ne, lookup_insert_eq, lookup_delete_eq by lia. done.
  - split; [|done]. intros l Hle. cbn [allocated live] in *.
    rewrite lookup_delete_ne, !lookup_insert_ne by lia. apply Hwa. lia.
Qed.

Lemma error_block_spec fd g res conn k st :
  guarding fd g st ->
  exists st', error_block g res conn k st =
    ((GotoCleanup, (EventLoop.answer_and_close ord res conn k).1, (EventLoop.answer_and_close ord res conn k).2), st') /\
  told fd g st' /\ well_allocated st' /\ frames st' = frames st /\ readings st' = readings st /\ entries st' = entries st.
Proof.
  intros Hg. unfold error_block, block. destruct (EventLoop.answer_and_close ord res conn k) as [c1 k1].
  pose proof (leave_told (Connection.request c1) fd g st res Hg) as Ht.
  destruct (declare (Response res) (enter st)) as [l st1]. eexists. split; [done|exact Ht].
Qed.

Lemma success_block_spec fd g conn k st :
  guarding fd g st ->
  let '(allowed, k1) := env_allow (Connection.client_ip conn) k in
  let res := EventLoop.respond router (Connection.request conn) in
  exists st', success_block g conn k st =
    ((if allowed
      then (Next (HttpResponse.close_after_send res), (EventLoop.queue_response ord res conn k1).1,
            (EventLoop.queue_response ord res conn k1).2)
      else (GotoCleanup, (EventLoop.answer_and_close ord EventLoop.too_many_requests_res conn k1).1,
            (EventLoop.answer_and_close ord EventLoop.too_many_requests_res conn k1).2)), st') /\
  told fd g st' /\ well_allocated st' /\ frames st' = frames st /\ readings st' = readings st /\ entries st' = entries st.
Proof.
  intros Hg. unfold success_block, block. destruct (env_allow _ k) as [[|] k1]; cbn [negb].
  - set (res := EventLoop.respond router (Connection.request conn)).
    destruct (EventLoop.queue_response ord res conn k1) as [c2 k2].
    pose proof (leave_told (Connection.request c2) fd g st res Hg) as Ht.
    destruct (declare (Response res) (enter st)) as [l st1]. eexists. split; [done|exact Ht].
  - destruct (error_block_spec fd g EventLoop.too_many_requests_res conn k1 (enter st) Hg)
      as (st1 & -> & Ht & Hwa & Hf & Hr & He).
    eexists. split; [done|]. unfold leave. rewrite Hf. done.
Qed.

(** Leaving the block of the guard. *)
Lemma leave_guard req fd g st fs :
  told fd g st -> well_allocated st -> frames st = [g] :: fs ->
  let st' := leave req st in
  well_allocated st' /\ frames st' = fs /\ readings st' = S (readings st) /\
  entries st' = entries st ++ [Dangling fd].
Proof.
  intros (start & l & Hg & Hl) Hwa Hf. cbv zeta. unfold leave. rewrite Hf. cbn [foldl].
  unfold destroy_object. cbn [live]. rewrite Hg. unfold destroy, deref. cbn [m_res_ptr]. rewrite Hl.
  split; [|done]. intros l' Hle. cbn [live allocated] in *.
  destruct (decide (l' = g)) as [->|]; [apply lookup_delete_eq|]. rewrite lookup_delete_ne by done. by apply Hwa.
Qed.

Lemma leave_partial req fd st fs n start :
  live st !! n = Some (Guard (create fd start)) -> well_allocated st -> frames st = [n] :: fs ->
  let st' := leave req st in
  well_allocated st' /\ frames st' = fs /\ readings st' = S (readings st) /\
  entries st' = entries st ++
    [Entry (Logger.log_http fd (method_to_string (HttpRequest.method req))
      (if bool_decide (HttpRequest.path req = []) then bs "/" else HttpRequest.path req)
      200 (duration_milli rnd (steady (readings st) - start)) tid (wall (readings st)))].
Proof.
  intros Hg Hwa Hf. cbv zeta. unfold leave. rewrite Hf. cbn [foldl].
  unfold destroy_object. cbn [live]. rewrite Hg. unfold destroy, deref. cbn [m_res_ptr create mbind option_bind].
  rewrite (bool_decide_false (method_to_string _ = [])) by apply method_to_string_ne.
  split; [|done]. intros l' Hle. cbn [live allocated] in *.
  destruct (decide (l' = n)) as [->|]; [apply lookup_delete_eq|]. rewrite lookup_delete_ne by done. by apply Hwa.
Qed.

(** A round of the loop without the log, as [EventLoop.process] has it. *)
Definition round_of (conn : Connection.t) (k : K) : round * Connection.t * K :=
  let '(p_result, cfg) := HttpRequestParser.parse (Connection.to_cfg conn) in
  let conn := Connection.of_cfg cfg conn in
  match p_result with
  | ParseResult.Incomplete => (Break, conn, k)
  | ParseResult.Error =>
      (GotoCleanup, (EventLoop.answer_and_close ord EventLoop.bad_request_res conn k).1,
       (EventLoop.answer_and_close ord EventLoop.bad_request_res conn k).2)
  | ParseResult.Success =>
      let '(allowed, k1) := env_allow (Connection.client_ip conn) k in
      let res := EventLoop.respond router (Connection.request conn) in
      if allowed
      then (Next (HttpResponse.close_after_send res), (EventLoop.queue_response ord res conn k1).1,
            (EventLoop.queue_response ord res conn k1).2)
      else (GotoCleanup, (EventLoop.answer_and_close ord EventLoop.too_many_requests_res conn k1).1,
            (EventLoop.answer_and_close ord EventLoop.too_many_requests_res conn k1).2)
  end.

Definition logged_as (conn : Connection.t) (n : nat) : entry :=
  let '(p_result, cfg) := HttpRequestParser.parse (Connection.to_cfg conn) in
  match p_result with
  | ParseResult.Incomplete => partial_entry (Connection.fd conn) (HttpRequestParser.request cfg) n
  | _ => Dangling (Connection.fd conn)
  end.

(** One round: the log does not disturb it, and gets one entry. *)
Lemma guard_block_spec conn k st :
  well_allocated st ->
  exists st', guard_block conn k st = (round_of conn k, st') /\ after_round (logged_as conn (readings st)) st st'.
Proof.
  intros Hwa. unfold guard_block, block, round_of, logged_as, after_round. cbn [declare_guard declare enter frames allocated live readings entries].
  set (st1 := mk_store _ _ _ _ _). set (g := allocated st). set (fd := Connection.fd conn).
  assert (guarding fd g st1) as Hg.
  { split; [|split; [cbn; unfold g; lia|exists (steady (readings st)); apply lookup_insert_eq]].
    intros l Hle. cbn in *. rewrite lookup_insert_ne by (unfold g in *; lia). apply Hwa. lia. }
  assert (frames st1 = [g] :: frames st) as Hf by done.
  destruct (HttpRequestParser.parse (Connection.to_cfg conn)) as [r cfg]. set (c := Connection.of_cfg cfg conn).
  destruct r.
  - pose proof (success_block_spec fd g c k st1 Hg) as Hs. destruct (env_allow _ k) as [allowed k1].
    cbv zeta in Hs. destruct Hs as (st2 & -> & Ht & Hwa2 & Hf2 & Hr2 & He2).
    rewrite Hf in Hf2. destruct allowed; (eexists; split; [reflexivity|]);
      (match goal with |- context [leave ?q st2] =>
        destruct (leave_guard q fd g st2 (frames st) Ht Hwa2 Hf2) as (H1 & -> & -> & ->) end);
      by rewrite Hr2, He2.
  - eexists. split; [reflexivity|]. destruct Hg as (Hwa1 & _ & start & Hg).
    destruct (leave_partial (Connection.request c) fd st1 (frames st) g (steady (readings st))
      (lookup_insert_eq _ _ _) Hwa1 Hf) as (H1 & -> & -> & ->). done.
  - destruct (error_block_spec fd g EventLoop.bad_request_res c k st1 Hg) as (st2 & -> & Ht & Hwa2 & Hf2 & Hr2 & He2).
    eexists. split; [reflexivity|]. rewrite Hf in Hf2.
    match goal with |- context [leave ?q st2] =>
      destruct (leave_guard q fd g st2 (frames st) Ht Hwa2 Hf2) as (H1 & -> & -> & ->) end.
    by rewrite Hr2, He2.
Qed.

(** The loop of [EventLoop], in rounds. *)
Lemma process_rounds f lc conn k :
  EventLoop.process ord router (S f) lc conn k =
    if bool_decide (Connection.read_buffer conn = []) then Some (EventLoop.LoopDone false false, conn, k)
    else
      let '(r, conn, k) := round_of conn k in
      match r with
      | Break => Some (EventLoop.LoopDone false false, conn, k)
      | GotoCleanup => Some (EventLoop.ToCleanup, conn, k)
      | Next close_after_response =>
          let conn := Connection.reset_http conn in
          if close_after_response then Some (EventLoop.LoopDone true false, conn, k)
          else if 50 <? lc + 1 then Some (EventLoop.LoopDone false true, conn, k)
          else EventLoop.process ord router f (lc + 1) conn k
      end.
Proof.
  cbn [EventLoop.process]. case_bool_decide; [done|]. unfold round_of.
  destruct (HttpRequestParser.parse _) as [r cfg]. set (c := Connection.of_cfg cfg conn). destruct r; [|done|].
  - destruct (env_allow _ k) as [[|] k1]; cbn [negb].
    + by destruct (EventLoop.queue_response _ _ _ _).
    + by destruct (EventLoop.answer_and_close _ _ _ _).
  - by destruct (EventLoop.answer_and_close _ _ _ _).
Qed.

(** Logging changes nothing else. *)
Lemma logging_erases fuel lc conn k st :
  well_allocated st ->
  EventLoop.process ord router fuel lc conn k = fst <$> process_logged fuel lc conn k st.
Proof.
  revert lc conn k st; induction fuel as [|f IH]; intros lc conn k st Hwa.
  { cbn. by case_bool_decide. }
  rewrite process_rounds. cbn [process_logged]. case_bool_decide; [done|].
  destruct (guard_block_spec conn k st Hwa) as (st' & -> & Hwa' & _).
  destruct (round_of conn k) as [[[| |cl] c] k1]; [done..|]. cbv zeta.
  destruct cl; [done|]. destruct (50 <? lc + 1); [done|]. by apply IH.
Qed.


(** What the loop logs when it has answered the requests [reqs] and is left
    with [tail]; [n] is the number of clock readings so far. *)
Definition log_of (fd : Z) (reqs : list HttpRequest.t) (tail : bytes) (n : nat) : list entry :=
  replicate (length (EventLoopSpec.answered router reqs)) (Dangling fd) ++
  if EventLoopSpec.closes router reqs then [] else if bool_decide (tail = []) then []
  else
    match HttpRequestParser.parse (ParserSpec.initial tail) with
    | (ParseResult.Incomplete, cfg) =>
        [partial_entry fd (HttpRequestParser.request cfg) (n + 2 * length reqs)]
    | _ => [Dangling fd]
    end.

Lemma tail_logged fuel lc conn k st tail :
  EventLoopSpec.fresh conn -> Connection.read_buffer conn = tail ->
  (HttpRequestParser.parse (ParserSpec.initial tail)).1 <> ParseResult.Success ->
  well_allocated st -> (0 < fuel)%nat ->
  exists e conn' k' st', process_logged fuel lc conn k st = Some (e, conn', k', st') /\
    entries st' = entries st ++ log_of (Connection.fd conn) [] tail (readings st).
Proof.
  intros Hf Hbuf Htail Hwa Hfuel. destruct fuel as [|f]; [lia|]. cbn [process_logged].
  unfold log_of. cbn [EventLoopSpec.answered EventLoopSpec.closes existsb length replicate app].
  rewrite Hbuf. case_bool_decide; [eexists _, _, _, _; split; [done|]; by rewrite app_nil_r|].
  destruct (guard_block_spec conn k st Hwa) as (st' & -> & _ & _ & _ & He).
  unfold round_of, logged_as in *. rewrite (EventLoopSpec.to_cfg_fresh conn Hf), Hbuf in *.
  destruct (HttpRequestParser.parse (ParserSpec.initial tail)) as [[| |] cfg]; [done| |].
  - eexists _, _, _, _. split; [done|]. by rewrite He, Nat.add_0_r.
  - by eexists _, _, _, _.
Qed.

Lemma pipeline_logged calm ws reqs tail fuel lc conn k st :
  EventLoopSpec.permissive calm -> calm k -> Forall2 EventLoopSpec.message ws reqs ->
  (HttpRequestParser.parse (ParserSpec.initial tail)).1 <> ParseResult.Success ->
  EventLoopSpec.fresh conn -> Connection.read_buffer conn = concat ws ++ tail ->
  lc + zlen ws <= 50 -> (length ws < fuel)%nat -> well_allocated st ->
  exists e conn' k' st', process_logged fuel lc conn k st = Some (e, conn', k', st') /\
    entries st' = entries st ++ log_of (Connection.fd conn) reqs tail (readings st).
Proof.
  intros Hperm Hcalm Hws Htail. revert fuel lc conn k st Hcalm.
  induction Hws as [|w req ws reqs Hw Hws IH]; intros fuel lc conn k st Hcalm Hf Hbuf Hlc Hfuel Hwa.
  { apply tail_logged; [done..|lia]. }
  destruct fuel as [|f]; [cbn in Hfuel; lia|]. cbn [process_logged]. rewrite zlen_cons in Hlc.
  pose proof (zlen_nonneg ws). cbn [length] in Hfuel. cbn [concat] in Hbuf. rewrite <- app_assoc in Hbuf.
  rewrite Hbuf, bool_decide_false.
  2:{ pose proof (EventLoopSpec.message_nonempty _ _ Hw). by destruct w. }
  destruct (EventLoopSpec.message_push _ _ (concat ws ++ tail) Hw) as [p Hp].
  destruct (guard_block_spec conn k st Hwa) as (st1 & -> & Hwa1 & _ & Hr1 & He1).
  unfold round_of, logged_as in *. rewrite (EventLoopSpec.to_cfg_fresh conn Hf), Hbuf, Hp in *.
  destruct (Hperm k Hcalm) as [_ Hallow]. specialize (Hallow (Connection.client_ip conn)).
  change (Connection.client_ip (Connection.of_cfg _ conn)) with (Connection.client_ip conn).
  destruct (env_allow _ k) as [ok k1]. cbn in Hallow. destruct Hallow as [-> Hcalm1].
  unfold EventLoop.queue_response. pose proof (proj1 (Hperm k1 Hcalm1)) as Hcalm2.
  destruct (env_now k1) as [t k2]. cbn in Hcalm2.
  change (Connection.request (Connection.of_cfg _ conn)) with req. unfold log_of.
  cbn [EventLoopSpec.closes EventLoopSpec.answered existsb fst snd].
  destruct (HttpResponse.close_after_send (EventLoop.respond router req)); cbn [orb].
  { eexists _, _, _, st1. split; [done|]. by rewrite He1. }
  destruct (Z.ltb_spec 50 (lc + 1)); [lia|].
  match goal with |- context [process_logged f _ ?c ?k st1] =>
    destruct (IH f (lc + 1) c k st1) as (e & conn' & k' & st' & Hproc & He') end;
    [exact Hcalm2|apply EventLoopSpec.fresh_reset|reflexivity|lia|lia|exact Hwa1|].
  eexists e, conn', k', st'. split; [exact Hproc|]. rewrite He', He1, Hr1, <- app_assoc. f_equal.
  unfold log_of. cbn [length replicate app Connection.fd]. f_equal.
  replace (S (S (readings st)) + 2 * length reqs)%nat with (readings st + 2 * S (length reqs))%nat by lia.
  reflexivity.
Qed.

(** C40: The access log is wrong whenever a request is answered.  The guard of a
    round outlives the response it was told of, which is declared in a block
    inside its own, so that its destructor reads a destroyed object.  When the
    buffer holds up to 50 whole request messages and a rest, there is such a
    read for each request answered, and one more if the parser refuses the rest;
    and if the rest is the beginning of a request, it is logged as well, as a
    request answered with status 200.  The loop with its log is otherwise the
    loop of [EventLoop]. *)
Theorem log_guard_outlives_response calm ws reqs tail conn k st :
  EventLoopSpec.permissive calm -> calm k -> Forall2 EventLoopSpec.message ws reqs ->
  (HttpRequestParser.parse (ParserSpec.initial tail)).1 <> ParseResult.Success ->
  EventLoopSpec.fresh conn -> Connection.read_buffer conn = concat ws ++ tail -> zlen ws <= 50 ->
  well_allocated st ->
  exists e conn' k' st',
    process_logged EventLoop.PROCESS_FUEL 0 conn k st = Some (e, conn', k', st') /\
    EventLoop.process ord router EventLoop.PROCESS_FUEL 0 conn k = Some (e, conn', k') /\
    entries st' = entries st ++ log_of (Connection.fd conn) reqs tail (readings st).
Proof.
  intros Hperm Hcalm Hws Htail Hf Hbuf Hlen Hwa.
  destruct (pipeline_logged calm ws reqs tail EventLoop.PROCESS_FUEL 0 conn k st)
    as (e & conn' & k' & st' & Hp & He); [done..|unfold EventLoop.PROCESS_FUEL; unfold zlen in Hlen; lia|done|].
  exists e, conn', k', st'. split; [done|]. split; [|done].
  rewrite (logging_erases EventLoop.PROCESS_FUEL 0 conn k st Hwa), Hp. done.
Qed.
End Blocks.

(** ** Witness: one request, and the beginning of another *)

Definition no_store : store := mk_store ∅ [] 0 0 [].

Lemma log_guard_outlives_response_witness :
  exists e conn' k' st',
    process_logged id (fun n => 1000000 * Z.of_nat n) (fun _ => 0) 1 map_to_list App.router 51 0
      (Connection.append_read_data (EventLoopSpec.get_root_wire ++ bs "GET /api") 0 EventLoopSpec.conn0)
      (EventLoopSpec.script []) no_store = Some (e, conn', k', st') /\
    entries st' = [Dangling 5; partial_entry id (fun n => 1000000 * Z.of_nat n) (fun _ => 0) 1 5 HttpRequest.init 2].
Proof.
  destruct (log_guard_outlives_response id (fun n => 1000000 * Z.of_nat n) (fun _ => 0) 1 map_to_list App.router
    EventLoopSpec.generous [EventLoopSpec.get_root_wire] [EventLoopSpec.get_root] (bs "GET /api")
    (Connection.append_read_data (EventLoopSpec.get_root_wire ++ bs "GET /api") 0 EventLoopSpec.conn0)
    (EventLoopSpec.script []) no_store) as (e & conn' & k' & st' & H1 & _ & H2).
  - exact EventLoopSpec.script_permissive.
  - done.
  - constructor; [apply EventLoopSpec.get_root_message|done].
  - by vm_compute.
  - done.
  - done.
  - by vm_compute.
  - done.
  - exists e, conn', k', st'. split; [exact H1|]. refine (eq_trans H2 _). by vm_compute.
Defined.

End HttpLogGuard.
