(* ===== verification/Server.v ===== *)
(** * [TcpServer]: start-up, running and stopping

    [src/src/network/TcpServer.cpp], [src/src/network/SocketUtils.cpp],
    [EventLoop::start] and the end of [EventLoop::run]
    ([src/src/network/EventLoop.cpp]), and [main] with its signal handler
    ([src/main.cpp]).  What the system calls return is given; what they do to
    the descriptor table and to the epoll instance is modelled. *)

From S2P Require Import Prelude Connection EventLoop Loop.
#[local] Open Scope Z_scope.

Module Server.

(** ** The kernel, as far as start-up uses it *)

Definition O_NONBLOCK : Z := 2048.
Definition BACKLOG : Z := 256.

Inductive file :=
| Sock (flags : Z) (reuse : bool) (port : option Z) (backlog : option Z)
| Epoll
| EventFd.

(** The open descriptors, and the events the epoll instance watches for each. *)
Record kernel := mk_kernel { files : gmap Z file; interest : gmap Z Z }.

(** What each call returns; [r_getfl] and [r_setfl] are those of [fcntl]. *)
Record results := mk_results {
  r_socket : Z; r_setsockopt : Z; r_getfl : bool; r_setfl : bool; r_bind : Z; r_listen : Z;
  r_epoll_create : Z; r_eventfd : Z; r_add_wakeup : Z; r_add_server : Z
}.

Definition with_file (fd : Z) (f : file) (k : kernel) : kernel :=
  mk_kernel (<[fd := f]> (files k)) (interest k).
Definition on_sock (g : file -> file) (fd : Z) (k : kernel) : kernel :=
  mk_kernel (alter g fd (files k)) (interest k).
Definition watch (fd events : Z) (k : kernel) : kernel :=
  mk_kernel (files k) (<[fd := events]> (interest k)).

Definition set_flags (g : Z -> Z) (f : file) : file :=
  match f with Sock fl re p b => Sock (g fl) re p b | _ => f end.
Definition set_reuse (f : file) : file := match f with Sock fl _ p b => Sock fl true p b | _ => f end.
Definition set_port (port : Z) (f : file) : file := match f with Sock fl re _ b => Sock fl re (Some port) b | _ => f end.
Definition set_listen (n : Z) (f : file) : file := match f with Sock fl re p _ => Sock fl re p (Some n) | _ => f end.

(** [SocketUtils::set_non_blocking]. *)
Definition set_non_blocking (getfl setfl : bool) (fd : Z) (k : kernel) : bool * kernel :=
  if negb getfl then (false, k)
  else if setfl then (true, on_sock (set_flags (fun fl => Z.lor fl O_NONBLOCK)) fd k) else (false, k).

(** ** The objects *)

(** The members of [EventLoop] that start-up sets. *)
Record loop := mk_loop { epoll_fd : Z; loop_server_fd : Z; wakeup_fd : Z }.

(** [EventLoop(serverFD, pool, app_router)]. *)
Definition new_loop (serverFD : Z) : loop := mk_loop (-1) serverFD (-1).

(** [EventLoop::start]: its answer, the object and the kernel. *)
Definition loop_start (r : results) (l : loop) (k : kernel) : bool * loop * kernel :=
  let l := mk_loop (r_epoll_create r) (loop_server_fd l) (wakeup_fd l) in
  if epoll_fd l <? 0 then (false, l, k)
  else
    let k := with_file (epoll_fd l) Epoll k in
    let l := mk_loop (epoll_fd l) (loop_server_fd l) (r_eventfd r) in
    if wakeup_fd l <? 0 then (false, l, k)
    else
      let k := with_file (wakeup_fd l) EventFd k in
      if r_add_wakeup r <? 0 then (false, l, k)
      else
        let k := watch (wakeup_fd l) EventLoop.EPOLLIN k in
        if r_add_server r <? 0 then (false, l, k)
        else (true, l, watch (loop_server_fd l) (Z.lor EventLoop.EPOLLIN EventLoop.EPOLLET) k).

Record t := mk { server_fd : Z; port : Z; is_running : bool; event_loop : option loop }.

(** [TcpServer(port_num)]. *)
Definition create (port_num : Z) : t := mk (-1) port_num false None.

(** [TcpServer::start]. *)
Definition start (r : results) (s : t) (k : kernel) : bool * t * kernel :=
  let s := mk (r_socket r) (port s) (is_running s) (event_loop s) in
  if server_fd s <? 0 then (false, s, k)
  else
    let k := with_file (server_fd s) (Sock 0 false None None) k in
    let k := if r_setsockopt r <? 0 then k else on_sock set_reuse (server_fd s) k in
    let '(_, k) := set_non_blocking (r_getfl r) (r_setfl r) (server_fd s) k in
    if r_bind r <? 0 then (false, s, k)
    else
      let k := on_sock (set_port (port s)) (server_fd s) k in
      if r_listen r <? 0 then (false, s, k)
      else
        let k := on_sock (set_listen BACKLOG) (server_fd s) k in
        let '(ok, l, k) := loop_start r (new_loop (server_fd s)) k in
        let s := mk (server_fd s) (port s) (is_running s) (Some l) in
        if negb ok then (false, s, k)
        else (true, mk (server_fd s) (port s) true (event_loop s), k).

(** ** What start-up does, call by call *)

(** The calls whose failure ends it, in order, each with the descriptor it
    opens. *)
Definition calls (r : results) : list (bool * option Z) :=
  [ (0 <=? r_socket r, Some (r_socket r)); (0 <=? r_bind r, None); (0 <=? r_listen r, None);
    (0 <=? r_epoll_create r, Some (r_epoll_create r)); (0 <=? r_eventfd r, Some (r_eventfd r));
    (0 <=? r_add_wakeup r, None); (0 <=? r_add_server r, None) ].

Fixpoint opened (cs : list (bool * option Z)) : list Z :=
  match cs with
  | (true, o) :: cs' => option_list o ++ opened cs'
  | _ => []
  end.

(** The listening socket as [start] configures it. *)
Definition listener (r : results) (port : Z) : file :=
  Sock (if r_getfl r && r_setfl r then O_NONBLOCK else 0) (0 <=? r_setsockopt r) (Some port) (Some BACKLOG).

(** The kernel gives three different descriptors. *)
Definition fresh_fds (r : results) : Prop := NoDup [r_socket r; r_epoll_create r; r_eventfd r].

Lemma dom_on_sock g fd k : dom (files (on_sock g fd k)) = dom (files k).
Proof. apply dom_alter_L. Qed.

Lemma dom_non_blocking g1 g2 fd k : dom (files (set_non_blocking g1 g2 fd k).2) = dom (files k).
Proof. unfold set_non_blocking. destruct g1, g2; try done. apply dom_on_sock. Qed.

Lemma interest_non_blocking g1 g2 fd k : interest (set_non_blocking g1 g2 fd k).2 = interest k.
Proof. by destruct g1, g2. Qed.

Lemma file_non_blocking g1 g2 fd k fl re p b :
  files k !! fd = Some (Sock fl re p b) ->
  files (set_non_blocking g1 g2 fd k).2 !! fd = Some (Sock (if g1 && g2 then Z.lor fl O_NONBLOCK else fl) re p b).
Proof.
  intros H. destruct g1, g2; cbn; try done. by rewrite lookup_alter_eq, H.
Qed.

Lemma loop_start_spec r fd k :
  let '(ok, l, k') := loop_start r (new_loop fd) k in
  ok = (0 <=? r_epoll_create r) && (0 <=? r_eventfd r) && (0 <=? r_add_wakeup r) && (0 <=? r_add_server r) /\
  dom (files k') = dom (files k) ∪ list_to_set (opened (drop 3 (calls r))) /\
  (ok = true ->
   l = mk_loop (r_epoll_create r) fd (r_eventfd r) /\
   files k' = <[r_eventfd r := EventFd]> (<[r_epoll_create r := Epoll]> (files k)) /\
   interest k' = <[fd := Z.lor EventLoop.EPOLLIN EventLoop.EPOLLET]>
                   (<[r_eventfd r := EventLoop.EPOLLIN]> (interest k))).
Proof.
  unfold loop_start. cbn [epoll_fd loop_server_fd wakeup_fd new_loop calls drop opened].
  rewrite !Z.ltb_antisym.
  destruct (0 <=? r_epoll_create r), (0 <=? r_eventfd r), (0 <=? r_add_wakeup r), (0 <=? r_add_server r);
    cbn [negb andb with_file watch files interest opened option_list app list_to_set foldr]; (split; [done|split; [|done]]);
    rewrite ?dom_insert_L; set_solver.
Qed.

Ltac failed_start := split; [done|]; split; [done|]; split; [cbn; set_solver|done].

(** C24: [start], for every outcome of its ten system calls: it answers [true]
    exactly when the seven that matter succeed; then the server is running, the
    socket listens on its port, non-blocking if [fcntl] allowed it, and the
    epoll instance watches it edge-triggered and the wake-up descriptor
    level-triggered.  When a call fails, the server is not running, and every
    descriptor opened before that call stays open: [start] closes none. *)
Theorem start_exact (r : results) (p : Z) (k : kernel) :
  fresh_fds r ->
  let '(ok, s, k') := start r (create p) k in
  ok = forallb fst (calls r) /\ is_running s = ok /\
  dom (files k') = dom (files k) ∪ list_to_set (opened (calls r)) /\
  (ok = true ->
   event_loop s = Some (mk_loop (r_epoll_create r) (r_socket r) (r_eventfd r)) /\
   files k' !! r_socket r = Some (listener r p) /\
   files k' !! r_epoll_create r = Some Epoll /\ files k' !! r_eventfd r = Some EventFd /\
   interest k' = <[r_socket r := Z.lor EventLoop.EPOLLIN EventLoop.EPOLLET]>
                   (<[r_eventfd r := EventLoop.EPOLLIN]> (interest k))).
Proof.
  unfold fresh_fds. intros Hnd. unfold start. cbn [server_fd port is_running event_loop create].
  pose proof (dom_non_blocking (r_getfl r) (r_setfl r) (r_socket r)) as Hdom.
  pose proof (file_non_blocking (r_getfl r) (r_setfl r) (r_socket r)) as Hfile.
  pose proof (interest_non_blocking (r_getfl r) (r_setfl r) (r_socket r)) as Hint.
  rewrite (Z.ltb_antisym 0 (r_socket r)), (Z.ltb_antisym 0 (r_bind r)), (Z.ltb_antisym 0 (r_listen r)).
  unfold calls. destruct (0 <=? r_socket r); cbn [negb forallb fst opened andb option_list app];
    [|by failed_start].
  set (k1 := with_file _ _ _). set (k2 := if r_setsockopt r <? 0 then k1 else _).
  assert (files k2 !! r_socket r = Some (Sock 0 (0 <=? r_setsockopt r) None None)) as Hk2.
  { subst k2 k1. rewrite Z.ltb_antisym. destruct (0 <=? r_setsockopt r); cbn;
      by rewrite ?lookup_alter_eq, lookup_insert_eq. }
  assert (dom (files k2) = {[r_socket r]} ∪ dom (files k)) as Hd2.
  { subst k2 k1. destruct (r_setsockopt r <? 0); rewrite ?dom_on_sock; apply dom_insert_L. }
  assert (interest k2 = interest k) as Hi2 by (subst k2 k1; by destruct (r_setsockopt r <? 0)).
  specialize (Hdom k2). specialize (Hfile k2 _ _ _ _ Hk2). specialize (Hint k2).
  destruct (set_non_blocking _ _ _ k2) as [b k3]. cbn [snd] in *.
  destruct (0 <=? r_bind r); cbn [negb forallb fst opened andb option_list app list_to_set foldr]; [|by failed_start].
  destruct (0 <=? r_listen r); cbn [negb forallb fst opened andb option_list app list_to_set foldr];
    [|rewrite dom_on_sock; by failed_start].
  set (k4 := on_sock (set_listen BACKLOG) _ _). pose proof (loop_start_spec r (r_socket r) k4) as Hl.
  assert (dom (files k4) = {[r_socket r]} ∪ dom (files k)) as Hd4 by (subst k4; by rewrite !dom_on_sock, Hdom).
  destruct (loop_start r _ k4) as [[ok l] k5]. destruct Hl as (Hok & Hd5 & Htrue).
  assert (ok = forallb fst (drop 3 (calls r))) as Hok' by (rewrite Hok; cbn; by rewrite andb_true_r, !andb_assoc).
  destruct ok; cbn [negb is_running event_loop].
  - split; [exact Hok'|]. split; [done|]. split; [rewrite Hd5, Hd4; cbn [calls drop opened]; set_solver|].
    intros _. destruct (Htrue eq_refl) as (-> & Hf & Hi). split; [done|].
    apply NoDup_cons in Hnd as [H1 Hnd]. apply NoDup_cons in Hnd as [H2 _].
    rewrite Hf, Hi, lookup_insert_eq. rewrite !(lookup_insert_ne _ (r_eventfd r)) by set_solver.
    rewrite lookup_insert_eq, lookup_insert_ne by set_solver.
    subst k4. cbn [on_sock files interest]. rewrite !lookup_alter_eq, Hfile, Hint, Hi2. done.
  - split; [exact Hok'|]. split; [done|]. split; [rewrite Hd5, Hd4; cbn [calls drop opened]; set_solver|done].
Qed.

(** ** The end of a run *)

(** What the actions of the loop, and the end of [run], do to the descriptors
    of the server. *)
Definition close_file (fd : Z) (k : kernel) : kernel :=
  mk_kernel (delete fd (files k)) (delete fd (interest k)).

Definition exec (l : loop) (k : kernel) (a : Loop.action) : kernel :=
  match a with
  | Loop.CloseServer fd => close_file fd k
  | Loop.CleanupAllConnections => if 0 <=? epoll_fd l then close_file (epoll_fd l) k else k
  | _ => k
  end.

(** [EventLoop::run] on the ticks to come, and what is open afterwards. *)
Definition loop_run (l : loop) (ks : list Loop.tick) (k : kernel) : bool * kernel :=
  let '(returned, _, actions) :=
    Loop.run (Loop.mk LoopState.STOPPED (loop_server_fd l) (wakeup_fd l) 0) ks in
  let k := foldl (exec l) k actions in
  (returned, if returned && (0 <=? wakeup_fd l) then close_file (wakeup_fd l) k else k).

(** [TcpServer::run]. *)
Definition run (s : t) (ks : list Loop.tick) (k : kernel) : bool * kernel :=
  match is_running s, event_loop s with
  | true, Some l => loop_run l ks k
  | _, _ => (true, k)
  end.

(** A tick in which nobody calls [stop] and [epoll_wait] does not fail. *)
Definition running_tick (k : Loop.tick) : Prop :=
  Loop.t_stop k = (fun l => l) /\ Loop.t_wait k <> Loop.WaitError.

Lemma iteration_running l k :
  Loop.state l = LoopState.RUNNING -> running_tick k ->
  exists a, Loop.iteration l k = (true, l, a) /\ List.filter Loop.closes_server a = [].
Proof.
  intros Hst [Hs Hw]. unfold Loop.iteration. rewrite Hst, bool_decide_false by done. cbn [andb].
  rewrite Hs. destruct (Loop.t_wait k) as [| |evs]; [by eexists|done|].
  rewrite Hst, bool_decide_false by done. eexists. split; [done|].
  rewrite !List.filter_app, (Loop.filter_none _ (concat _)) by (apply Loop.forallb_concat, Loop.handle_event_keeps_server).
  done.
Qed.

(** The tick during which [stop] is called. *)
Lemma iteration_stop l k now :
  Loop.state l = LoopState.RUNNING -> Loop.t_stop k = Loop.stop now ->
  exists (go_on : bool) (a : list Loop.action), let st := if Loop.final_tick now k then LoopState.STOPPED else LoopState.STOPPING in
    Loop.iteration l k =
      (go_on, Loop.mk (if go_on then st else LoopState.STOPPING) (Loop.server_fd l) (Loop.wakeup_fd l) now, a) /\
    List.filter Loop.closes_server a = [] /\ (go_on = false -> Loop.final_tick now k = true).
Proof.
  intros Hst Hs. unfold Loop.iteration, Loop.final_tick. rewrite Hst, bool_decide_false by done. cbn [andb].
  assert (Loop.t_stop k l = Loop.mk LoopState.STOPPING (Loop.server_fd l) (Loop.wakeup_fd l) now) as ->
    by (rewrite Hs; unfold Loop.stop, Loop.stop_cas; by rewrite Hst, bool_decide_true).
  destruct (Loop.t_wait k) as [| |evs]; [by eexists true, _|by eexists false, _|].
  cbn [Loop.state Loop.shutdown_start]. rewrite bool_decide_true by done. eexists true, _.
  split; [by destruct (Loop.t_empty k || _)|]. split; [|done].
  rewrite !List.filter_app, (Loop.filter_none _ (concat _)) by (apply Loop.forallb_concat, Loop.handle_event_keeps_server).
  done.
Qed.

Lemma run_loop_running l ks0 rest :
  Loop.state l = LoopState.RUNNING -> Forall running_tick ks0 ->
  exists a, List.filter Loop.closes_server a = [] /\
    Loop.run_loop l (ks0 ++ rest) = (let '(d, l', a') := Loop.run_loop l rest in (d, l', a ++ a')).
Proof.
  intros Hst H. induction H as [|k ks Hk _ (a & Ha & IH)].
  - exists []. split; [done|]. cbn [app]. by destruct (Loop.run_loop l rest) as [[d l'] a'].
  - destruct (iteration_running l k Hst Hk) as (a1 & Hi & Ha1). exists (a1 ++ a).
    rewrite List.filter_app, Ha1, Ha. split; [done|]. cbn [app Loop.run_loop].
    rewrite Hst, bool_decide_false by done. rewrite Hi, IH.
    destruct (Loop.run_loop l rest) as [[d l'] a']. by rewrite app_assoc.
Qed.

(** Whether the actions close the listening socket [fd]. *)
Definition closes (fd : Z) (actions : list Loop.action) : bool :=
  existsb (fun a => match a with Loop.CloseServer fd' => fd' =? fd | _ => false end) actions.

Lemma closes_filter fd acts : closes fd acts = closes fd (List.filter Loop.closes_server acts).
Proof. unfold closes. induction acts as [|a acts IH]; [done|]. cbn. destruct a; cbn; by rewrite IH. Qed.

Lemma closes_app fd a b : closes fd (a ++ b) = closes fd a || closes fd b.
Proof. apply existsb_app. Qed.

Lemma exec_file l acts k fd :
  fd <> epoll_fd l ->
  files (foldl (exec l) k acts) !! fd = if closes fd acts then None else files k !! fd.
Proof.
  intros Hfd. revert k. induction acts as [|a acts IH]; intros k; [done|]. cbn [foldl]. rewrite IH.
  unfold closes. cbn [existsb]. fold (closes fd acts). destruct (closes fd acts); [by rewrite orb_true_r|].
  rewrite orb_false_r. destruct a; try done; cbn [exec].
  - cbn [close_file files]. rewrite lookup_delete. by destruct (Z.eqb_spec fd0 fd), (decide (fd0 = fd)).
  - destruct (0 <=? epoll_fd l); [|done]. cbn. by rewrite lookup_delete_ne.
Qed.

Lemma exec_epoll l acts k :
  0 <= epoll_fd l -> Loop.CleanupAllConnections ∈ acts -> files (foldl (exec l) k acts) !! epoll_fd l = None.
Proof.
  intros Hfd. revert k. induction acts as [|a acts IH]; intros k Hin; [by apply not_elem_of_nil in Hin|].
  assert (forall k, files k !! epoll_fd l = None -> files (foldl (exec l) k acts) !! epoll_fd l = None) as Hk.
  { clear. induction acts as [|a acts IH]; intros k Hk; [done|]. apply IH.
    destruct a; try done; cbn; [|case_match]; cbn; rewrite ?lookup_delete_None; auto. }
  apply elem_of_cons in Hin as [<-|Hin]; [|by apply IH]. apply Hk. cbn.
  destruct (Z.leb_spec 0 (epoll_fd l)); [|lia]. cbn. apply lookup_delete_eq.
Qed.

Lemma run_loop_cleans l ks l' a : Loop.run_loop l ks = (true, l', a) -> Loop.CleanupAllConnections ∈ a.
Proof.
  revert l a; induction ks as [|k ks IH]; intros l a; cbn [Loop.run_loop]; case_bool_decide; try done.
  1,2: intros [= _ <-]; by left.
  destruct (Loop.iteration l k) as [[[] l1] a1].
  - destruct (Loop.run_loop l1 ks) as [[d l2] a2] eqn:E. intros [= -> -> <-]. apply elem_of_app. right.
    by eapply IH.
  - intros [= _ <-]. apply elem_of_app. right. by left.
Qed.

(** Stopping: whether the loop closes the listening socket. *)
Lemma run_loop_listener l k ks1 now :
  Loop.state l = LoopState.RUNNING -> 0 <= Loop.server_fd l -> Loop.t_stop k = Loop.stop now ->
  ks1 <> [] -> Forall Loop.quiet ks1 ->
  closes (Loop.server_fd l) (Loop.run_loop l (k :: ks1)).2 = negb (Loop.final_tick now k).
Proof.
  intros Hst Hfd Hs Hne Hq. destruct (iteration_stop l k now Hst Hs) as (go_on & a & Hi & Ha & Hgo).
  assert (closes (Loop.server_fd l) a = false) as Hca by by rewrite closes_filter, Ha.
  cbn [Loop.run_loop]. rewrite Hst, bool_decide_false by done. rewrite Hi. destruct go_on.
  2: { rewrite (Hgo eq_refl). cbn [snd negb]. by rewrite closes_app, Hca. }
  destruct (Loop.final_tick now k).
  - assert (forall sf wf, Loop.run_loop (Loop.mk LoopState.STOPPED sf wf now) ks1 =
      (true, Loop.mk LoopState.STOPPED sf wf now, [Loop.CleanupAllConnections])) as -> by (by destruct ks1).
    cbn [snd negb]. by rewrite closes_app, Hca.
  - destruct ks1 as [|k1 ks1]; [done|]. apply Forall_cons in Hq as [Hq _].
    set (l1 := Loop.mk _ _ _ _). pose proof (Loop.iteration_stopping l1 k1 eq_refl Hq) as Hit.
    cbn [Loop.run_loop]. rewrite (bool_decide_false (Loop.state l1 = _)) by done.
    destruct (Loop.iteration l1 k1) as [[go_on l2] a1]. destruct Hit as (_ & Hc & _).
    cbn [Loop.server_fd l1] in Hc. destruct (Z.leb_spec 0 (Loop.server_fd l)); [|lia].
    assert (closes (Loop.server_fd l) a1 = true) as Hc1.
    { rewrite closes_filter, Hc. cbn. by rewrite Z.eqb_refl. }
    destruct go_on; [destruct (Loop.run_loop l2 ks1) as [[d l3] a2]|]; cbn [snd negb];
      by rewrite !closes_app, Hc1, ?orb_true_r.
Qed.

(** C26: What is open when [run] has returned.  The epoll and the wake-up descriptors
    are closed.  The listening socket is closed if the loop went through one
    more iteration after [stop]; but if the tick in which [stop] came is the last
    (no connection is open), [run] returns with the socket still listening. *)
Theorem listener_left_open (l : loop) (ks0 ks1 : list Loop.tick) (k : Loop.tick) (now : Z) (kn : kernel) :
  0 <= loop_server_fd l -> 0 <= epoll_fd l -> 0 <= wakeup_fd l ->
  loop_server_fd l <> epoll_fd l -> loop_server_fd l <> wakeup_fd l ->
  Forall running_tick ks0 -> Loop.t_stop k = Loop.stop now -> ks1 <> [] -> Forall Loop.quiet ks1 ->
  let '(returned, kn') := loop_run l (ks0 ++ k :: ks1) kn in
  files kn' !! loop_server_fd l = (if Loop.final_tick now k then files kn !! loop_server_fd l else None) /\
  (returned = true -> files kn' !! epoll_fd l = None /\ files kn' !! wakeup_fd l = None).
Proof.
  intros Hs He Hw Hse Hsw H0 Hk Hne Hq. unfold loop_run, Loop.run.
  set (l0 := Loop.set_state LoopState.RUNNING _).
  destruct (run_loop_running l0 ks0 (k :: ks1) eq_refl H0) as (a & Ha & E).
  pose proof (run_loop_listener l0 k ks1 now eq_refl Hs Hk Hne Hq) as Hc.
  pose proof (run_loop_cleans l0 (k :: ks1)) as Hcl. rewrite E.
  destruct (Loop.run_loop l0 (k :: ks1)) as [[d l'] a']. cbn [snd] in Hc.
  assert (closes (loop_server_fd l) (a ++ a') = negb (Loop.final_tick now k)) as Hcl'
    by (rewrite closes_app, closes_filter, Ha; exact Hc).
  pose proof (exec_file l (a ++ a') kn (loop_server_fd l) Hse) as Hf. rewrite Hcl' in Hf.
  destruct (Z.leb_spec 0 (wakeup_fd l)); [|lia]. rewrite andb_true_r. split.
  - destruct d; cbn [close_file files]; rewrite ?lookup_delete_ne by done; rewrite Hf;
      by destruct (Loop.final_tick now k).
  - intros ->. cbn [close_file files]. split; [|apply lookup_delete_eq]. rewrite lookup_delete_None. right.
    apply exec_epoll; [done|]. apply elem_of_app. right. by eapply Hcl.
Qed.

(** ** Signals

    [main] up to the return of [run], with the two flags that [stop] works on:
    [TcpServer::is_running] and [EventLoop::state].  A signal may come anywhere. *)

Inductive phase :=
| Booting    (* handlers registered, g_server still null *)
| Starting   (* up to the return of start() *)
| Started    (* before the test of is_running in run() *)
| Entered    (* past it, before state.store(RUNNING) *)
| Running    (* in the loop *)
| Done.      (* run() has returned *)

Record proc := mk_proc { at_ : phase; flag : bool; st : LoopState.t }.

Definition boot : proc := mk_proc Booting false LoopState.STOPPED.

(** [TcpServer::stop], and in it the exchange of [EventLoop::stop]. *)
Definition stop (p : proc) : proc :=
  if flag p
  then mk_proc (at_ p) false (if bool_decide (st p = LoopState.RUNNING) then LoopState.STOPPING else st p)
  else p.

(** [g_server] is set. *)
Definition g_server (p : proc) : bool := match at_ p with Booting => false | _ => true end.

(** [signal_handler]. *)
Definition signal_handler (p : proc) : proc := if g_server p then stop p else p.

Inductive advance : proc -> proc -> Prop :=
| server_created p : at_ p = Booting -> advance p (mk_proc Starting (flag p) (st p))
| start_returns p : at_ p = Starting -> advance p (mk_proc Started true (st p))
| run_tests p : at_ p = Started -> advance p (mk_proc (if flag p then Entered else Done) (flag p) (st p))
| run_stores p : at_ p = Entered -> advance p (mk_proc Running (flag p) LoopState.RUNNING)
(* the loop runs on while the state is RUNNING, and ends once it is STOPPING
   ([shutdown_exact]); epoll_wait does not fail *)
| run_returns p :
    at_ p = Running -> st p = LoopState.STOPPING -> advance p (mk_proc Done (flag p) LoopState.STOPPED).

Inductive proc_step : proc -> proc -> Prop :=
| advances p q : advance p q -> proc_step p q
| signalled p : proc_step p (signal_handler p).

(** The states without a signal so far. *)
Definition at_phase (a : phase) : proc :=
  match a with
  | Booting => boot
  | Starting => mk_proc Starting false LoopState.STOPPED
  | Started | Entered => mk_proc a true LoopState.STOPPED
  | _ => mk_proc Running true LoopState.RUNNING
  end.

Lemma unsignalled p : rtc advance boot p -> exists a, p = at_phase a.
Proof.
  assert (forall q r, rtc advance q r -> (exists a, q = at_phase a) -> exists a, r = at_phase a) as H.
  { induction 1 as [|q q1 r Hs _ IH]; [done|]. intros [a Ha]. apply IH.
    destruct Hs as [p1 Hp|p1 Hp|p1 Hp|p1 Hp|p1 Hp Hst]; subst p1; destruct a; try done;
      solve [by exists Starting | by exists Started | by exists Entered | by exists Running]. }
  intros Hp. apply (H _ _ Hp). by exists Booting.
Qed.

(** With [is_running] cleared before the loop has begun, no further event makes
    it return. *)
Definition unstoppable (p : proc) : Prop :=
  flag p = false /\ (at_ p = Entered \/ (at_ p = Running /\ st p = LoopState.RUNNING)).

Lemma unstoppable_step p q : unstoppable p -> proc_step p q -> unstoppable q.
Proof.
  intros Hu H. destruct H as [q1 q2 Hs|q1]; destruct Hu as [Hf Hp]; [|unfold signal_handler, stop; rewrite Hf; by destruct (g_server q1)].
  destruct Hs as [r Hr|r Hr|r Hr|r Hr|r Hr Hst]; (destruct Hp as [Hp|[Hp Hst']]; try congruence); split; cbn; auto.
Qed.

(** While it runs undisturbed, the loop does not end. *)
Lemma undisturbed a p : a = Booting \/ a = Starting -> rtc advance (at_phase a) p -> at_ p <> Done.
Proof.
  intros Ha H. assert (rtc advance boot (at_phase a)) as H0
    by (destruct Ha as [-> | ->]; [apply rtc_refl|apply rtc_once; by apply (server_created boot)]).
  assert (rtc advance boot p) as [[] ->]%unsignalled by (by etrans); done.
Qed.

(** C25: Which signals are lost.  A signal that comes before [start] has returned is
    ignored, and the server then runs on.  One that comes in [run] between the
    test of [is_running] and the store of [RUNNING] is worse: the loop starts
    although [stop] has been called, and since [is_running] is cleared, no later
    signal has any effect: [run] does not return unless [epoll_wait] fails.  At
    any other moment the signal is honoured. *)
Theorem lost_signals (p : proc) :
  rtc advance boot p ->
  ((exists q, rtc advance (signal_handler p) q /\ at_ q = Done) <->
     at_ p <> Booting /\ at_ p <> Starting /\ at_ p <> Entered) /\
  (at_ p = Entered -> forall q, rtc proc_step (signal_handler p) q -> at_ q <> Done).
Proof.
  intros [a ->]%unsignalled. assert (forall q, unstoppable q -> forall r, rtc proc_step q r -> at_ r <> Done) as Hun.
  { intros q Hq r Hr. assert (unstoppable r) as [_ [->|[-> _]]]; [|done..].
    induction Hr as [|q r1 r2 Hs _ IH]; [done|]. by eapply IH, unstoppable_step. }
  assert (forall q r, rtc advance q r -> rtc proc_step q r) as Hsub
    by (intros q r; apply rtc_subrel; intros ? ? ?; by apply advances).
  assert (unstoppable (signal_handler (at_phase Entered))) as HunE by (split; [done|by left]). split; [split|].
  - intros (q & Hq & Hd). destruct a; try done; exfalso.
    + exact (undisturbed Booting q (or_introl eq_refl) Hq Hd).
    + exact (undisturbed Starting q (or_intror eq_refl) Hq Hd).
    + exact (Hun _ HunE q (Hsub _ _ Hq) Hd).
  - intros (H0 & H1 & H2). destruct a; try done; cbn.
    + eexists. split; [eapply rtc_once, run_tests; done|done].
    + eexists. split; [eapply rtc_once, run_returns; done|done].
    + eexists. split; [eapply rtc_once, run_returns; done|done].
  - intros H q. destruct a; try done. apply (Hun _ HunE).
Qed.

(** ** Witnesses *)

(** The server of [main], with descriptors 3, 4 and 5. *)
Definition usual : results := mk_results 3 0 true true 0 0 4 5 0 0.

Lemma start_exact_witness :
  let '(ok, s, k) := start usual (create 8080) (mk_kernel ∅ ∅) in
  ok = true /\ files k !! 3 = Some (Sock O_NONBLOCK true (Some 8080) (Some 256)).
Proof.
  assert (fresh_fds usual) as Hf by (apply (bool_decide_unpack _); vm_compute; exact I).
  pose proof (start_exact usual 8080 (mk_kernel ∅ ∅) Hf) as H.
  destruct (start _ _ _) as [[ok s] k]. destruct H as (Hok & _ & _ & H). split; [done|]. by apply H.
Defined.

(** [stop] comes while no connection is open. *)
Definition last_tick : Loop.tick := Loop.mk_tick (Loop.stop 7) (Loop.WaitReady [(5, 1)]) true 8.
Definition next_tick : Loop.tick := Loop.mk_tick (fun l => l) Loop.WaitEintr true 9.

Lemma listener_left_open_witness :
  files (loop_run (mk_loop 4 3 5) [last_tick; next_tick]
           (mk_kernel {[3 := listener usual 8080; 4 := Epoll; 5 := EventFd]} ∅)).2 !! 3 =
    Some (listener usual 8080).
Proof.
  pose proof (listener_left_open (mk_loop 4 3 5) [] [next_tick] last_tick 7
    (mk_kernel {[3 := listener usual 8080; 4 := Epoll; 5 := EventFd]} ∅) ltac:(done) ltac:(done) ltac:(done)
    ltac:(done) ltac:(done) ltac:(by constructor) eq_refl ltac:(done)
    ltac:(repeat constructor; exists 0; by left)) as H.
  cbn [app] in H. destruct (loop_run _ _ _) as [d k]. by destruct H as [H _].
Defined.

Lemma lost_signals_witness :
  rtc advance boot (at_phase Entered) /\
  (exists q, rtc advance (signal_handler (at_phase Entered)) q /\ at_ q = Running) /\
  ~ exists q, rtc advance (signal_handler (at_phase Entered)) q /\ at_ q = Done.
Proof.
  assert (rtc advance boot (at_phase Entered)) as Hr.
  { eapply rtc_l; [by apply server_created|]. eapply rtc_l; [by apply start_returns|].
    eapply rtc_l; [by apply run_tests|]. apply rtc_refl. }
  split; [exact Hr|]. split; [eexists; split; [apply rtc_once; by apply run_stores|done]|].
  intros Hq. apply (lost_signals _ Hr) in Hq as (_ & _ & He). by apply He.
Defined.

End Server.
